(** * primecount: the counting sieve, the special-leaves loop, the P2/B
      kernels, backup/resume and the command-line parser.

    A shallow embedding of the C++ sources.  Machine integers are [Z];
    unsigned 64-bit arithmetic is written with its wrap-around ([u64]).
    Arrays are lists read with stdpp's lookup; a read outside the array
    is a fault of the run, never a default value.  Loops whose bound is
    not syntactic take fuel, and running out of it is a fault too. *)

From Stdlib Require Import ZArith Lia List Bool String Ascii Sorted QArith.
From stdpp Require Import base tactics option list numbers strings gmap pretty.

Local Open Scope Z_scope.

(** ** Outcomes of a run *)

Inductive fault : Type :=
  | OutOfBounds                (* array access outside the array *)
  | OutOfFuel                  (* the model's loop budget is exhausted *)
  | DivByZero                  (* integer division by zero *)
  | Thrown (msg : string)      (* a C++ exception reached the caller *)
  | Exited (code : Z).         (* the process called exit *)

Inductive outcome (A : Type) : Type :=
  | Done (a : A)
  | Fault (f : fault).
Arguments Done {A} a.
Arguments Fault {A} f.

#[global] Instance outcome_ret : MRet outcome := fun A a => Done a.
#[global] Instance outcome_bind : MBind outcome := fun A B k m =>
  match m with
  | Done a => k a
  | Fault f => Fault f
  end.

(** [v[i]] of a [std::vector]: outside the vector the run faults. *)
Definition read {A} (v : list A) (i : Z) : outcome A :=
  if decide (0 <= i) then
    match v !! Z.to_nat i with
    | Some a => Done a
    | None => Fault OutOfBounds
    end
  else Fault OutOfBounds.

(** [v[i] = a]. *)
Definition write {A} (v : list A) (i : Z) (a : A) : outcome (list A) :=
  if decide (0 <= i < Z.of_nat (length v)) then Done (<[Z.to_nat i := a]> v)
  else Fault OutOfBounds.

(** [a / b] on a signed integer type: truncating, and undefined for [b = 0]. *)
Definition idiv (a b : Z) : outcome Z :=
  if decide (b = 0) then Fault DivByZero else Done (Z.quot a b).

(** [uint64_t] arithmetic wraps modulo 2^64. *)
Definition u64 (z : Z) : Z := z mod 2 ^ 64.

Definition Zsum (l : list Z) : Z := foldr Z.add 0 l.

(** A [for] loop whose iterations do not depend on each other: the
    results in index order. *)
Fixpoint for_each {A B} (f : A -> outcome B) (l : list A) : outcome (list B) :=
  match l with
  | [] => Done []
  | a :: l' =>
      b ← f a;
      bs ← for_each f l';
      Done (b :: bs)
  end.

(** ** The sieve with counters (doc/Hard-Special-Leaves, class Sieve) *)

Module SieveModel.

Record Sieve : Type := mkSieve {
  sieve : list Z;              (* the sieve array, one 64-bit word each *)
  total_count : Z;
  counters : list Z;
  counters_dist : Z;
  counters_dist_log2 : Z;
  prev_stop : Z;
  count_ : Z;
  counters_i : Z;
  counters_count : Z;
  counters_stop : Z
}.

(** POPCNT of one sieve word. *)
Definition popcnt64 (w : Z) : Z :=
  Zsum (map (fun k : nat => Z.b2z (Z.testbit w (Z.of_nat k))) (seq 0 64)).

(** Brute-force popcount of a run of sieve words. *)
Definition popcount (ws : list Z) : Z := Zsum (map popcnt64 ws).

(** The number of 1 bits at positions [0 .. n-1] of the sieve array. *)
Definition prefix_count (ws : list Z) (n : Z) : Z :=
  popcount (take (Z.to_nat n) ws).

(** The number of 1 bits at positions [0 .. stop], stop included. *)
Definition popcount_upto (ws : list Z) (stop : Z) : Z :=
  prefix_count ws (stop + 1).

(** Modelled from the spec: the two-argument [Sieve::count(start, stop)]
    is not under src/.  The spec has it popcount the sieve words from
    [start] to [stop], both included; an empty range counts nothing. *)
Definition count_range (ws : list Z) (start stop : Z) : Z :=
  popcount (take (Z.to_nat (stop + 1 - start)) (drop (Z.to_nat start) ws)).

(** The [while (counters_stop_ <= stop)] loop of [Sieve::count]. *)
Fixpoint count_loop (fuel : nat) (stop : Z) (s : Sieve) (start : Z)
  : outcome (Sieve * Z) :=
  if decide (counters_stop s <= stop) then
    match fuel with
    | O => Fault OutOfFuel
    | S fuel' =>
        c ← read (counters s) (counters_i s);
        let cc := u64 (counters_count s + c) in
        count_loop fuel' stop
          {| sieve := sieve s; total_count := total_count s;
             counters := counters s; counters_dist := counters_dist s;
             counters_dist_log2 := counters_dist_log2 s;
             prev_stop := prev_stop s;
             count_ := cc;
             counters_i := u64 (counters_i s + 1);
             counters_count := cc;
             counters_stop := u64 (counters_stop s + counters_dist s) |}
          (counters_stop s)
    end
  else Done (s, start).

(** [uint64_t Sieve::count(uint64_t stop)].  Every iteration of the loop
    consumes one entry of [counters_], so the size of that array bounds
    the number of iterations that can run without a fault. *)
Definition count (s : Sieve) (stop : Z) : outcome (Sieve * Z) :=
  let start := u64 (prev_stop s + 1) in
  let s1 :=
    {| sieve := sieve s; total_count := total_count s;
       counters := counters s; counters_dist := counters_dist s;
       counters_dist_log2 := counters_dist_log2 s;
       prev_stop := stop;
       count_ := count_ s; counters_i := counters_i s;
       counters_count := counters_count s;
       counters_stop := counters_stop s |} in
  '(s2, start') ← count_loop (length (counters s)) stop s1 start;
  let c := u64 (count_ s2 + count_range (sieve s2) start' stop) in
  Done ({| sieve := sieve s2; total_count := total_count s2;
           counters := counters s2; counters_dist := counters_dist s2;
           counters_dist_log2 := counters_dist_log2 s2;
           prev_stop := prev_stop s2;
           count_ := c; counters_i := counters_i s2;
           counters_count := counters_count s2;
           counters_stop := counters_stop s2 |}, c).

Definition get_total_count (s : Sieve) : Z := total_count s.

(** The cross-off step of the document: sieve out one bit and update
    [total_count] and the counter that owns word [i]. *)
Definition cross_off_bit (i bit_index : Z) (s : Sieve) : outcome Sieve :=
  w ← read (sieve s) i;
  let is_bit := Z.land (Z.shiftr w bit_index) 1 in
  let k := Z.shiftr i (counters_dist_log2 s) in
  c ← read (counters s) k;
  counters' ← write (counters s) k (u64 (c - is_bit));
  sieve' ← write (sieve s) i (Z.land w (u64 (Z.lnot (Z.shiftl 1 bit_index))));
  Done {| sieve := sieve'; total_count := u64 (total_count s - is_bit);
          counters := counters'; counters_dist := counters_dist s;
          counters_dist_log2 := counters_dist_log2 s;
          prev_stop := prev_stop s; count_ := count_ s;
          counters_i := counters_i s; counters_count := counters_count s;
          counters_stop := counters_stop s |}.

(** A batch of cross-off steps, one per listed (word, bit) location. *)
Fixpoint cross_off_bits (locs : list (Z * Z)) (s : Sieve) : outcome Sieve :=
  match locs with
  | [] => Done s
  | (i, bit_index) :: locs' =>
      s' ← cross_off_bit i bit_index s;
      cross_off_bits locs' s'
  end.

(** Modelled from the spec: [nearest_power_of_2] (imath.hpp) is not
    under src/; it rounds to a power of two, and never below 1. *)
Definition nearest_power_of_2 (n : Z) : Z :=
  let lo := 2 ^ Z.log2 n in
  if decide (n - lo < 2 * lo - n) then lo else 2 * lo.

(** [Sieve::allocate_counters(segment_low)] of the document: the counter
    distance and the size of the counters array.  The integer square
    root stands for the [sqrt] whose result is stored in a [uint64_t]. *)
Definition allocate_counters (sieve_size segment_low : Z) : Z * Z * Z :=
  let average_leaf_dist := Z.sqrt segment_low in
  let dist := nearest_power_of_2 (Z.sqrt average_leaf_dist) in
  let dist_log2 := Z.log2 dist in
  let counters_size := sieve_size / dist + 1 in
  (dist, dist_log2, counters_size).

(** The bucket of [dist] sieve words that counter [k] owns. *)
Definition bucket (ws : list Z) (dist : Z) (k : nat) : Z :=
  popcount (take (Z.to_nat dist) (drop (k * Z.to_nat dist) ws)).

(** Modelled from the spec: [pre_sieve] "initializes counters[],
    total_count, and the counting cursor"; the code that does it is not
    under src/.  Each counter gets the number of 1 bits of its bucket,
    [total_count] the number of 1 bits of the sieve, and the cursor is
    put in front of position 0: [count] starts at [prev_stop_ + 1], which
    is 0 in [uint64_t] arithmetic. *)
Definition init_counters (ws : list Z) (segment_low : Z) : Sieve :=
  let '(dist, dist_log2, counters_size) :=
    allocate_counters (Z.of_nat (length ws)) segment_low in
  {| sieve := ws; total_count := popcount ws;
     counters := map (bucket ws dist) (seq 0 (Z.to_nat counters_size));
     counters_dist := dist; counters_dist_log2 := dist_log2;
     prev_stop := u64 (-1); count_ := 0;
     counters_i := 0; counters_count := 0; counters_stop := dist |}.

(** Modelled from the spec: [pre_sieve(primes, c, low, high)] "sets all
    odd positions in [low, high) to 1, then crosses off the multiples of
    p[1..c]".  The bit-packing wheel is not under src/; here word [i] of
    the sieve holds in bit 0 the flag of the integer [low + i], so that
    the [stop = x / (prime * m) - low] of the callers is a position. *)
Definition presieved_word (primes : list Z) (c : Z) (n : Z) : Z :=
  if Z.odd n &&
     forallb (fun p => negb (n mod p =? 0)) (take (Z.to_nat c) (drop 1 primes))
  then 1 else 0.

Definition pre_sieve (primes : list Z) (c low high : Z) : Sieve :=
  init_counters
    (map (fun i : nat => presieved_word primes c (low + Z.of_nat i))
         (seq 0 (Z.to_nat (high - low))))
    low.

(** The sieve positions of the multiples of [prime] in the segment. *)
Definition multiples (low : Z) (len : nat) (prime : Z) : list (Z * Z) :=
  map (fun i : nat => (Z.of_nat i, 0))
      (filter (fun i : nat => (low + Z.of_nat i) mod prime = 0) (seq 0 len)).

(** Modelled from the spec: the counting cursor as [pre_sieve]
    initializes it, in front of position 0 with nothing counted.  The
    counters and the sieve are left alone. *)
Definition reset_counters (s : Sieve) : Sieve :=
  {| sieve := sieve s; total_count := total_count s;
     counters := counters s; counters_dist := counters_dist s;
     counters_dist_log2 := counters_dist_log2 s;
     prev_stop := u64 (-1); count_ := 0;
     counters_i := 0; counters_count := 0;
     counters_stop := counters_dist s |}.

(** Modelled from the spec: [cross_off_count(p, b)] sets the bit of every
    multiple of [p] in the segment to 0 with the cross-off step above,
    which leaves the counts alone where the bit is already 0.  Its
    caller [S2] (pi_lmo5.cpp) lets the stops of [count] start again at
    the beginning of the segment after every [cross_off_count], so the
    method re-initializes the counting cursor before it sieves. *)
Definition cross_off_count (low prime : Z) (s : Sieve) : outcome Sieve :=
  cross_off_bits (multiples low (length (sieve s)) prime) (reset_counters s).

(** Operations on one segment after [pre_sieve], in any interleaving:
    a [cross_off_count] that crosses off the listed locations, or a
    [count]. *)
Inductive op : Type :=
  | OpCrossOff (locs : list (Z * Z))
  | OpCount (stop : Z).

(** Runs the operations in order; returns the final sieve and what each
    [count] returned. *)
Fixpoint run (ops : list op) (s : Sieve) : outcome (Sieve * list Z) :=
  match ops with
  | [] => Done (s, [])
  | OpCrossOff locs :: ops' =>
      s' ← cross_off_bits locs (reset_counters s);
      run ops' s'
  | OpCount stop :: ops' =>
      '(s', r) ← count s stop;
      '(s'', rs) ← run ops' s';
      Done (s'', r :: rs)
  end.

(** *** Invariants *)

(** The shape [allocate_counters] gives the sieve. *)
Record shape (s : Sieve) : Prop := mkShape {
  shape_log2 : 0 <= counters_dist_log2 s;
  shape_dist : counters_dist s = 2 ^ counters_dist_log2 s;
  shape_size : Z.of_nat (length (counters s)) =
               Z.of_nat (length (sieve s)) / counters_dist s + 1;
  shape_words : Forall (fun w => 0 <= w < 2 ^ 64) (sieve s);
  shape_small : 64 * (Z.of_nat (length (sieve s)) + counters_dist s) < 2 ^ 64
}.

(** Every counter holds the popcount of its bucket and [total_count] the
    popcount of the sieve. *)
Record counted (s : Sieve) : Prop := mkCounted {
  counted_counters :
    counters s =
    map (bucket (sieve s) (counters_dist s)) (seq 0 (length (counters s)));
  counted_total : total_count s = popcount (sieve s)
}.

(** The cursor of [count] is consistent with the sieve. *)
Record cursor (s : Sieve) : Prop := mkCursor {
  cursor_i : 0 <= counters_i s;
  cursor_stop : counters_stop s = (counters_i s + 1) * counters_dist s;
  cursor_count :
    counters_count s = prefix_count (sieve s) (counters_i s * counters_dist s);
  cursor_prev : count_ s = prefix_count (sieve s) (u64 (prev_stop s + 1))
}.

(** A location that a cross-off step may address. *)
Definition loc_ok (s : Sieve) (loc : Z * Z) : Prop :=
  0 <= loc.1 < Z.of_nat (length (sieve s)) /\ 0 <= loc.2 < 64.

Definition op_ok (s : Sieve) (o : op) : Prop :=
  match o with
  | OpCrossOff locs => Forall (loc_ok s) locs
  | OpCount stop => 0 <= stop < Z.of_nat (length (sieve s))
  end.

(** The segment is small enough for the 64-bit counts and positions. *)
Definition segment_fits (len low : Z) : Prop :=
  64 * (len + nearest_power_of_2 (Z.sqrt (Z.sqrt low))) < 2 ^ 64.

(** The stops of the [count] operations of a run, in order. *)
Definition stops_of (ops : list op) : list Z :=
  omap (fun o => match o with OpCount stop => Some stop | _ => None end) ops.

(** The stops do not decrease, from [prev] on, between two cross-offs;
    after a cross-off they may start again at the beginning of the
    segment, as they do in [S2]. *)
Fixpoint monotone (prev : Z) (ops : list op) : Prop :=
  match ops with
  | [] => True
  | OpCrossOff _ :: ops' => monotone 0 ops'
  | OpCount stop :: ops' => prev <= stop /\ monotone stop ops'
  end.

(** Brute force: the sieve array with the bit of one location set to 0. *)
Definition clear_bit (ws : list Z) (loc : Z * Z) : list Z :=
  match ws !! Z.to_nat loc.1 with
  | Some w => <[Z.to_nat loc.1 := Z.clearbit w loc.2]> ws
  | None => ws
  end.

(** Brute force: what the [count] operations of a run on the sieve array
    [ws] have to return, the number of 1 bits at the positions 0 to
    [stop] of the array as the cross-offs before the call have left it. *)
Fixpoint brute_force (ops : list op) (ws : list Z) : list Z :=
  match ops with
  | [] => []
  | OpCrossOff locs :: ops' => brute_force ops' (foldl clear_bit ws locs)
  | OpCount stop :: ops' => popcount_upto ws stop :: brute_force ops' ws
  end.

End SieveModel.

(** ** The special leaves of Lagarias-Miller-Odlyzko (src/lmo/pi_lmo5.cpp) *)

Module LMO5.
Import SieveModel.

(** The variables of [S2] that live across segments and sieving primes. *)
Record S2State : Type := mkS2State {
  sv : Sieve;                  (* Sieve sieve *)
  phi : list Z;                (* vector<int64_t> phi *)
  s2 : Z                       (* int64_t s2 *)
}.

Section S2.

Variables (x y c : Z).
Variables (primes lpf mu : list Z).
(** [generate_pi(y)] is not under src/: the table is an argument. *)
Variable (pi : list Z).
(** [Sieve::get_segment_size] is not under src/ either. *)
Variable (segment_size : Z).

(** Each loop also returns the stops it handed to [sieve.count], in call
    order; the C++ code has no such list, it is there to state what the
    calls were. *)

(** The body of [if (mu[m] != 0 && prime < lpf[m])]. *)
Definition sqfree_leaf (low prime b m : Z) (st : S2State)
  : outcome (S2State * Z) :=
  xpm ← idiv x (prime * m);
  let stop := xpm - low in
  phi_b ← read (phi st) b;
  '(sv', cnt) ← count (sv st) (u64 stop);
  let phi_xpm := phi_b + cnt in
  mu_m ← read mu m;
  Done ({| sv := sv'; phi := phi st; s2 := s2 st - mu_m * phi_xpm |}, u64 stop).

(** [for (int64_t m = max_m; m > min_m; m--)], [n] iterations left. *)
Fixpoint sqfree_leaves (n : nat) (low prime b m : Z) (st : S2State)
  : outcome (S2State * list Z) :=
  match n with
  | O => Done (st, [])
  | S n' =>
      mu_m ← read mu m;
      '(st', here) ←
        (if decide (mu_m ≠ 0) then
           lpf_m ← read lpf m;
           if decide (prime < lpf_m) then
             '(st', stop) ← sqfree_leaf low prime b m st;
             Done (st', [stop])
           else Done (st, [])
         else Done (st, []));
      '(st'', later) ← sqfree_leaves n' low prime b (m - 1) st';
      Done (st'', here ++ later)
  end.

(** [phi[b] += sieve.get_total_count(); sieve.cross_off_count(prime, b);] *)
Definition next_prime_layer (low prime b : Z) (st : S2State) : outcome S2State :=
  phi_b ← read (phi st) b;
  phi' ← write (phi st) b (phi_b + get_total_count (sv st));
  sv' ← cross_off_count low (u64 prime) (sv st);
  Done {| sv := sv'; phi := phi'; s2 := s2 st |}.

(** One iteration of [for (; b <= pi_sqrty; b++)]; [None] is the
    [goto next_segment]. *)
Definition sqfree_step (low high b : Z) (st : S2State)
  : outcome (option (S2State * list Z)) :=
  let low1 := Z.max low 1 in
  prime ← read primes b;
  q1 ← idiv x (prime * high);
  q2 ← idiv y prime;
  let min_m := Z.max q1 q2 in
  q3 ← idiv x (prime * low1);
  let max_m := Z.min q3 y in
  if decide (prime >= max_m) then Done None
  else
    '(st1, stops) ← sqfree_leaves (Z.to_nat (max_m - min_m)) low prime b max_m st;
    st2 ← next_prime_layer low prime b st1;
    Done (Some (st2, stops)).

(** [for (; primes[l] > min_m; l--)].  The loop ends at the sentinel
    [primes[0] = 0] at the latest; [n] bounds the iterations. *)
Fixpoint twoprime_leaves (n : nat) (low prime b min_m l : Z) (st : S2State)
  : outcome (S2State * list Z) :=
  p_l ← read primes l;
  if decide (p_l > min_m) then
    match n with
    | O => Fault OutOfFuel
    | S n' =>
        xpq ← idiv x (prime * p_l);
        let stop := xpq - low in
        phi_b ← read (phi st) b;
        '(sv', cnt) ← count (sv st) (u64 stop);
        let phi_xpq := phi_b + cnt in
        '(st', later) ←
          twoprime_leaves n' low prime b min_m (l - 1)
            {| sv := sv'; phi := phi st; s2 := s2 st + phi_xpq |};
        Done (st', u64 stop :: later)
    end
  else Done (st, []).

(** One iteration of [for (; b < pi_y; b++)]. *)
Definition twoprime_step (low high b : Z) (st : S2State)
  : outcome (option (S2State * list Z)) :=
  let low1 := Z.max low 1 in
  prime ← read primes b;
  q ← idiv x (prime * low1);
  l ← read pi (Z.min q y);
  q1 ← idiv x (prime * high);
  let min_m := Z.max q1 prime in
  p_l ← read primes l;
  if decide (prime >= p_l) then Done None
  else
    '(st1, stops) ← twoprime_leaves (Z.to_nat (l + 1)) low prime b min_m l st;
    st2 ← next_prime_layer low prime b st1;
    Done (Some (st2, stops)).

(** A [for (; b <= last; b++)] loop over one of the two steps; returns
    the [b] it stopped at and whether it left by [goto next_segment]. *)
Fixpoint layers (step : Z -> S2State -> outcome (option (S2State * list Z)))
    (n : nat) (b : Z) (st : S2State) : outcome (bool * Z * S2State) :=
  match n with
  | O => Done (false, b, st)
  | S n' =>
      r ← step b st;
      match r with
      | None => Done (true, b, st)
      | Some (st', _) => layers step n' (b + 1) st'
      end
  end.

(** The body of the segment loop: one segment [low, high). Returns the
    state and the first [b] that the segment did not process. *)
Definition segment (limit pi_sqrty pi_y low : Z) (phi0 : list Z) (s2_0 : Z)
  : outcome (S2State * Z) :=
  let high := Z.min (low + segment_size) limit in
  let st0 := {| sv := pre_sieve primes c low high; phi := phi0; s2 := s2_0 |} in
  let b := c + 1 in
  '(exited, b1, st1) ←
    layers (sqfree_step low high) (Z.to_nat (pi_sqrty + 1 - b)) b st0;
  if exited : bool then Done (st1, b1)
  else
    '(_, b2, st2) ← layers (twoprime_step low high) (Z.to_nat (pi_y - b1)) b1 st1;
    Done (st2, b2).

(** [for (; low < limit; low += segment_size)]. *)
Fixpoint segments (fuel : nat) (limit pi_sqrty pi_y low : Z)
    (phi0 : list Z) (s2_0 : Z) : outcome Z :=
  if decide (low < limit) then
    match fuel with
    | O => Fault OutOfFuel
    | S fuel' =>
        '(st, _) ← segment limit pi_sqrty pi_y low phi0 s2_0;
        segments fuel' limit pi_sqrty pi_y (low + segment_size) (phi st) (s2 st)
    end
  else Done s2_0.

(** [int64_t S2(x, y, c, primes, lpf, mu)].  [isqrt] (imath.hpp) is the
    integer square root. *)
Definition S2 (fuel : nat) : outcome Z :=
  limit ← idiv x y;
  pi_sqrty ← read pi (Z.sqrt y);
  pi_y ← read pi y;
  segments fuel limit pi_sqrty pi_y 0
    (replicate (length primes) 0) 0.

End S2.

(** The sieve of a segment just before the multiples of [primes[b]] are
    crossed off: pre-sieved with the first [c] primes, then the layers of
    [primes[c+1]], ..., [primes[b-1]] removed. *)
Fixpoint crossed (primes : list Z) (low : Z) (n : nat) (b : Z) (s : Sieve)
  : outcome Sieve :=
  match n with
  | O => Done s
  | S n' =>
      prime ← read primes b;
      s' ← cross_off_count low (u64 prime) s;
      crossed primes low n' (b + 1) s'
  end.

Definition sieve_before (primes : list Z) (c low high b : Z) : outcome Sieve :=
  crossed primes low (Z.to_nat (b - (c + 1))) (c + 1) (pre_sieve primes c low high).

(** The integers of [low, high) that are odd and that none of
    [primes[1..a]] divides. *)
Definition survivors (primes : list Z) (a low high : Z) : Z :=
  Z.of_nat (length (filter
    (fun n : Z => Z.odd n &&
       forallb (fun p => negb (n mod p =? 0)) (take (Z.to_nat a) (drop 1 primes)))
    (map (fun i : nat => low + Z.of_nat i) (seq 0 (Z.to_nat (high - low)))))).

End LMO5.

(** ** Primes and the primesieve iterator *)

Module Primes.

(** Trial division. *)
Definition is_prime (n : Z) : bool :=
  (1 <? n) && forallb (fun d => negb (n mod d =? 0)) (seqZ 2 (n - 2)).

(** PrimePi: the number of primes not exceeding [n]. *)
Definition pi (n : Z) : Z :=
  Z.of_nat (length (filter (fun k => is_prime k) (seqZ 0 (n + 1)))).

(** The primes of [(a, b]], in increasing order. *)
Definition primes_in (a b : Z) : list Z :=
  filter (fun k => is_prime k) (seqZ (a + 1) (b - a)).

(** The sum over the primes [p] of [(y, isqrt x]] of PrimePi(x / p), that
    is over i from pi(y) + 1 to pi(sqrt(x)) of PrimePi(x / primes[i]). *)
Definition sum_pi (x a b : Z) : Z :=
  Zsum (map (fun p => pi (x / p)) (primes_in a b)).

(** [primesieve::iterator] (an external library).  The position of an
    iterator is the prime it returned last, or its start; [next_prime()]
    returns the smallest prime above the position.  The search is
    unbounded in the library; here it has a budget. *)
Fixpoint next_prime (fuel : nat) (pos : Z) : outcome Z :=
  match fuel with
  | O => Fault OutOfFuel
  | S fuel' =>
      if is_prime (pos + 1) then Done (pos + 1) else next_prime fuel' (pos + 1)
  end.

(** [prev_prime()] returns the largest prime below the position, and 0
    when there is none. *)
Fixpoint prev_prime_from (k : nat) : Z :=
  match k with
  | O => 0
  | S k' => if is_prime (Z.of_nat k) then Z.of_nat k else prev_prime_from k'
  end.

Definition prev_prime (pos : Z) : Z := prev_prime_from (Z.to_nat (pos - 1)).

(** Modelled from the spec: [isqrt] (imath.hpp), the integer square root. *)
Definition isqrt (n : Z) : Z := Z.sqrt n.

(** Modelled from the spec: [phi(x, a)], "the count of integers <= x
    whose smallest prime factor exceeds the a-th prime"; phi.cpp is not
    under src/. *)
Definition phi (x a : Z) : Z :=
  let first := take (Z.to_nat a) (primes_in 1 x) in
  Z.of_nat (length (filter
    (fun n => forallb (fun p => negb (n mod p =? 0)) first) (seqZ 1 x))).

(** [pi_simple] and [pi_legendre] (src/pi_legendre.cpp), which differ in
    what they print only.  The recursion is on [isqrt(x)]; [fuel] bounds
    its depth. *)
Fixpoint pi_simple (fuel : nat) (x : Z) (threads : Z) : outcome Z :=
  if decide (x < 2) then Done 0
  else
    match fuel with
    | O => Fault OutOfFuel
    | S fuel' =>
        let y := isqrt x in
        a ← pi_simple fuel' y threads;
        let sum := phi x a + a - 1 in
        Done sum
    end.

Definition pi_legendre (fuel : nat) (x : Z) (threads : Z) : outcome Z :=
  pi_simple fuel x threads.

End Primes.

(** ** Backup documents and [resume] (src/gourdon/B.cpp, src/P2.cpp,
       Phi0.cpp) *)

Module Backup.

(** A [nlohmann::json] value. *)
#[local] Set Warnings "-register-all".
Inductive json : Type :=
  | JNull
  | JInt (n : Z)
  | JReal (q : Q)
  | JStr (s : string)
  | JObj (fields : gmap string json).

(** [j[key]]: a missing key reads as null. *)
Definition field (j : json) (key : string) : json :=
  match j with
  | JObj m => default JNull (m !! key)
  | _ => JNull
  end.

(** [j[key] = v]; a null becomes an object. *)
Definition set_field (j : json) (key : string) (v : json) : json :=
  match j with
  | JObj m => JObj (<[key := v]> m)
  | _ => JObj (<[key := v]> ∅)
  end.

(** [j[sec][key] = v]. *)
Definition set_field2 (j : json) (sec key : string) (v : json) : json :=
  set_field j sec (set_field (field j sec) key v).

(** The conversions of a json value to a C++ number or string; a value
    of another kind throws [type_error]. *)
Definition as_int (j : json) : outcome Z :=
  match j with
  | JInt n => Done n
  | JReal q => Done (Z.quot (Qnum q) (Z.pos (Qden q)))
  | _ => Fault (Thrown "type_error")
  end.

Definition as_real (j : json) : outcome Q :=
  match j with
  | JInt n => Done (inject_Z n)
  | JReal q => Done q
  | _ => Fault (Thrown "type_error")
  end.

Definition as_string (j : json) : outcome string :=
  match j with
  | JStr s => Done s
  | _ => Fault (Thrown "type_error")
  end.

Section Kernels.

(** [to_maxint] / [calculator::eval] and [to_string] / [to_str] are not
    under src/: the conversions between integers and their text are
    parameters. *)
Variable to_maxint : string -> outcome Z.
Variable to_str : Z -> string.
(** So are [get_percent], [get_alpha_y] and [get_alpha_z]. *)
Variable get_percent : Z -> Z -> Q.
Variable get_alpha_y : Z -> Z -> Q.
Variable get_alpha_z : Z -> Z -> Q.

(** Modelled from the spec: [is_resume(json, formula, x, y[, z, k])]
    (backup.cpp is not under src/) holds when the document has a section
    for the formula whose header [(x, y[, z, k])] matches the arguments;
    [x] is stored as text, the others as numbers. *)
Definition is_resume (j : json) (formula : string) (x : Z)
    (header : list (string * Z)) : bool :=
  match j with
  | JObj m =>
      match m !! formula with
      | Some sec =>
          match s ← as_string (field sec "x"); to_maxint s with
          | Done x' =>
              bool_decide (x = x') &&
              forallb (fun kv : string * Z =>
                         match field sec kv.1 with
                         | JInt n => bool_decide (n = kv.2)
                         | _ => false
                         end) header
          | Fault _ => false
          end
      | None => false
      end
  | _ => false
  end.

(** *** B (src/gourdon/B.cpp) *)

(** The variables that B's [resume] takes by reference. *)
Record BVars : Type := mkBVars {
  b_low : Z;
  b_pi_low_minus_1 : Z;
  b_thread_distance : Z;
  b_sum : Z;
  b_time : Q
}.

(** [backup(json, x, y, z, low, pi_low_minus_1, thread_distance, sum,
    time)]: the document that [store_backup] writes; [now] is
    [get_time()]. *)
Definition backup_B (now : Q) (j : json) (x y z : Z) (v : BVars) : json :=
  let j := set_field2 j "B" "x" (JStr (to_str x)) in
  let j := set_field2 j "B" "y" (JInt y) in
  let j := set_field2 j "B" "alpha_y" (JReal (get_alpha_y x y)) in
  let j := set_field2 j "B" "low" (JInt (b_low v)) in
  let j := set_field2 j "B" "pi_low_minus_1" (JInt (b_pi_low_minus_1 v)) in
  let j := set_field2 j "B" "thread_distance" (JInt (b_thread_distance v)) in
  let j := set_field2 j "B" "sieve_limit" (JInt z) in
  let j := set_field2 j "B" "sum" (JStr (to_str (b_sum v))) in
  let j := set_field2 j "B" "percent" (JReal (get_percent (b_low v) z)) in
  set_field2 j "B" "seconds" (JReal (now - b_time v)%Q).

(** [bool resume(json, x, y, low, pi_low_minus_1, thread_distance, sum,
    time)]. *)
Definition resume_B (now : Q) (j : json) (x y : Z) (v : BVars)
  : outcome (bool * BVars) :=
  if is_resume j "B" x [("y", y)] then
    let sec := field j "B" in
    seconds ← as_real (field sec "seconds");
    low ← as_int (field sec "low");
    pi_low_minus_1 ← as_int (field sec "pi_low_minus_1");
    thread_distance ← as_int (field sec "thread_distance");
    s ← as_string (field sec "sum");
    sum ← to_maxint s;
    Done (true, {| b_low := low; b_pi_low_minus_1 := pi_low_minus_1;
                   b_thread_distance := thread_distance; b_sum := sum;
                   b_time := (now - seconds)%Q |})
  else Done (false, v).

(** [bool resume(x, y, sum, time)], which resumes a finished result: the
    section must not hold a [low]. *)
Definition resume_B_result (now : Q) (j : json) (x y : Z) (sum : Z) (time : Q)
  : outcome (bool * Z * Q) :=
  if is_resume j "B" x [("y", y)] then
    let sec := field j "B" in
    _ ← as_real (field sec "percent");
    seconds ← as_real (field sec "seconds");
    match field sec "low" with
    | JNull =>
        s ← as_string (field sec "sum");
        sum' ← to_maxint s;
        Done (true, sum', (now - seconds)%Q)
    | _ => Done (false, sum, time)
    end
  else Done (false, sum, time).

(** [void backup(x, y, z, sum, time)], which stores a finished result:
    an old section is erased first; [j] is what [load_backup()] returns. *)
Definition backup_B_result (now : Q) (j : json) (x y z sum : Z) (time : Q)
  : json :=
  let j := match j with
           | JObj m => JObj (delete "B" m)
           | _ => j
           end in
  let j := set_field2 j "B" "x" (JStr (to_str x)) in
  let j := set_field2 j "B" "y" (JInt y) in
  let j := set_field2 j "B" "alpha_y" (JReal (get_alpha_y x y)) in
  let j := set_field2 j "B" "sum" (JStr (to_str sum)) in
  let j := set_field2 j "B" "sieve_limit" (JInt z) in
  let j := set_field2 j "B" "percent" (JReal (100 # 1)%Q) in
  set_field2 j "B" "seconds" (JReal (now - time)%Q).

(** *** P2 with backup (src/P2.cpp) *)

Record P2Vars : Type := mkP2Vars {
  p_low : Z;
  p_thread_distance : Z;
  p_pix_total : Z;
  p_p2 : Z;
  p_time : Q
}.

Definition backup_P2 (now : Q) (j : json) (x y z : Z) (v : P2Vars) : json :=
  let j := set_field2 j "P2" "x" (JStr (to_str x)) in
  let j := set_field2 j "P2" "y" (JInt y) in
  let j := set_field2 j "P2" "z" (JInt z) in
  let j := set_field2 j "P2" "low" (JInt (p_low v)) in
  let j := set_field2 j "P2" "thread_distance" (JInt (p_thread_distance v)) in
  let j := set_field2 j "P2" "pix_total" (JStr (to_str (p_pix_total v))) in
  let j := set_field2 j "P2" "p2" (JStr (to_str (p_p2 v))) in
  let j := set_field2 j "P2" "percent" (JReal (get_percent (p_low v) z)) in
  set_field2 j "P2" "seconds" (JReal (now - p_time v)%Q).

(** [void resume(json, x, y, z, low, thread_distance, pix_total, p2,
    time)]: it returns nothing. *)
Definition resume_P2 (now : Q) (j : json) (x y z : Z) (v : P2Vars)
  : outcome P2Vars :=
  if is_resume j "P2" x [("y", y); ("z", z)] then
    let sec := field j "P2" in
    _ ← as_real (field sec "percent");
    seconds ← as_real (field sec "seconds");
    low ← as_int (field sec "low");
    thread_distance ← as_int (field sec "thread_distance");
    s1 ← as_string (field sec "pix_total");
    pix_total ← to_maxint s1;
    s2 ← as_string (field sec "p2");
    p2 ← to_maxint s2;
    Done {| p_low := low; p_thread_distance := thread_distance;
            p_pix_total := pix_total; p_p2 := p2; p_time := (now - seconds)%Q |}
  else Done v.

(** *** Phi0 (Phi0.cpp) *)

Definition backup_Phi0 (now : Q) (j : json) (x y z k sum : Z) (time : Q) : json :=
  let j := set_field2 j "Phi0" "x" (JStr (to_str x)) in
  let j := set_field2 j "Phi0" "y" (JInt y) in
  let j := set_field2 j "Phi0" "z" (JInt z) in
  let j := set_field2 j "Phi0" "k" (JInt k) in
  let j := set_field2 j "Phi0" "alpha_y" (JReal (get_alpha_y x y)) in
  let j := set_field2 j "Phi0" "alpha_z" (JReal (get_alpha_z y z)) in
  let j := set_field2 j "Phi0" "sum" (JStr (to_str sum)) in
  let j := set_field2 j "Phi0" "percent" (JReal (100 # 1)%Q) in
  set_field2 j "Phi0" "seconds" (JReal (now - time)%Q).

(** [bool resume(x, y, z, k, sum, time)]; [j] is what [load_backup()]
    returns. *)
Definition resume_Phi0 (now : Q) (j : json) (x y z k : Z) (sum : Z) (time : Q)
  : outcome (bool * Z * Q) :=
  if is_resume j "Phi0" x [("y", y); ("z", z); ("k", k)] then
    let sec := field j "Phi0" in
    _ ← as_real (field sec "percent");
    seconds ← as_real (field sec "seconds");
    s ← as_string (field sec "sum");
    sum' ← to_maxint s;
    Done (true, sum', (now - seconds)%Q)
  else Done (false, sum, time).

End Kernels.

(** Decimal text of a non-negative integer and its reading, for concrete
    documents. *)
Definition digit_of (c : ascii) : option Z :=
  let n := Z.of_nat (nat_of_ascii c) in
  if decide (48 <= n <= 57) then Some (n - 48) else None.

Fixpoint read_digits (s : string) (acc : Z) : outcome Z :=
  match s with
  | EmptyString => Done acc
  | String c s' =>
      match digit_of c with
      | Some d => read_digits s' (10 * acc + d)
      | None => Fault (Thrown "invalid number")
      end
  end.

Definition read_decimal (s : string) : outcome Z :=
  match s with
  | EmptyString => Fault (Thrown "invalid number")
  | _ => read_digits s 0
  end.

End Backup.

(** ** The P2 kernel with a load balancer (P2.cpp, 2020) *)

Module P2.
Import Primes.

Record ThreadResult : Type := mkThreadResult {
  sum : Z;
  pix : Z;
  iters : Z
}.

(** [count_primes(it, prime, stop)]: counts the primes inside
    [prime, stop].  The position of [it] is always the prime it returned
    last, which the code keeps in [prime]. *)
Fixpoint count_primes (fuel budget : nat) (p stop count : Z) : outcome (Z * Z) :=
  if decide (p <= stop) then
    match fuel with
    | O => Fault OutOfFuel
    | S fuel' =>
        p' ← next_prime budget p;
        count_primes fuel' budget p' stop (count + 1)
    end
  else Done (count, p).

(** [for (; prime > start; iters++)] of [P2_thread] and [B_thread]. *)
Fixpoint thread_loop (fuel budget : nat) (x start : Z)
    (next prime sum pix iters : Z) : outcome (Z * Z * Z * Z) :=
  if decide (prime > start) then
    match fuel with
    | O => Fault OutOfFuel
    | S fuel' =>
        xp ← idiv x prime;
        '(cnt, next') ← count_primes budget budget next xp 0;
        let pix := pix + cnt in
        let prime := prev_prime prime in
        let sum := sum + pix in
        thread_loop fuel' budget x start next' prime sum pix (iters + 1)
    end
  else Done (sum, pix, iters, next).

(** [P2_thread(x, y, z, low, thread_num, thread_dist)]. *)
Definition P2_thread (budget : nat) (x y z low thread_num thread_dist : Z)
  : outcome ThreadResult :=
  let low := low + thread_dist * thread_num in
  if decide (low < z) then
    let z := Z.min (low + thread_dist) z in
    xz ← idiv x z;
    let start := Z.max xz y in
    xl ← idiv x low;
    let stop := Z.min xl (isqrt x) in
    next ← next_prime budget (low - 1);
    let prime := prev_prime (stop + 1) in
    '(sum, pix, iters, next') ← thread_loop budget budget x start next prime 0 0 0;
    '(cnt, _) ← count_primes budget budget next' (z - 1) 0;
    Done {| sum := sum; pix := pix + cnt; iters := iters |}
  else Done {| sum := 0; pix := 0; iters := 0 |}.

(** The sequential loop that adds the missing contributions, one thread
    after the other. *)
Definition add_thread (acc : Z * Z) (r : ThreadResult) : Z * Z :=
  let '(total, pi_low_minus_1) := acc in
  let thread_sum := sum r + pi_low_minus_1 * iters r in
  (total + thread_sum, pi_low_minus_1 + pix r).

Section Driver.

(** The budget of [pi_simple] and the budget of the sieving loops. *)
Variables (budget_pi budget : nat).
(** [LoadBalancerP2] is not under src/: the number of threads it grants
    and the thread distance it hands out for a batch are parameters. *)
Variable get_threads : Z -> Z -> Z.
Variable get_thread_dist : Z -> Z.

(** [while (low < z)]. *)
Fixpoint batches (fuel : nat) (x y z threads : Z) (low pi_low_minus_1 total : Z)
  : outcome Z :=
  if decide (low < z) then
    match fuel with
    | O => Fault OutOfFuel
    | S fuel' =>
        let thread_dist := get_thread_dist low in
        res ← for_each (fun i => P2_thread budget x y z low i thread_dist)
                       (seqZ 0 threads);
        let '(total, pi_low_minus_1) := foldl add_thread (total, pi_low_minus_1) res in
        batches fuel' x y z threads (low + thread_dist * threads) pi_low_minus_1 total
    end
  else Done total.

(** [T P2_OpenMP(T x, int64_t y, int threads)]. *)
Definition P2_OpenMP (x y threads : Z) : outcome Z :=
  if decide (x < 4) then Done 0
  else
    a ← pi_simple budget_pi y threads;
    b ← pi_simple budget_pi (isqrt x) threads;
    if decide (a >= b) then Done 0
    else
      let total := Z.quot ((a - 2) * (a + 1)) 2 - Z.quot ((b - 2) * (b + 1)) 2 in
      let low := 2 in
      let pi_low_minus_1 := 0 in
      z ← idiv x (Z.max y 1);
      let threads := get_threads z threads in
      batches budget x y z threads low pi_low_minus_1 total.

End Driver.

End P2.

(** ** The B kernel of Gourdon's algorithm (src/gourdon/B.cpp) *)

Module B.
Import Primes Backup.

(** [B_thread(x, y, z, low, thread_num, thread_dist)]; [count_primes]
    and the inner loop are those of P2. *)
Definition B_thread (budget : nat) (x y z low thread_num thread_dist : Z)
  : outcome P2.ThreadResult :=
  let low := low + thread_dist * thread_num in
  if decide (low < z) then
    let z := Z.min (low + thread_dist) z in
    let sqrtx := isqrt x in
    q ← idiv x z;
    let xz := Z.min q sqrtx in
    xl ← idiv x low;
    let stop := Z.min xl sqrtx in
    let start := Z.max xz y in
    next ← next_prime budget (low - 1);
    let prime := prev_prime (stop + 1) in
    '(sum, pix, iters, next') ←
      P2.thread_loop budget budget x start next prime 0 0 0;
    '(cnt, _) ← P2.count_primes budget budget next' (z - 1) 0;
    Done {| P2.sum := sum; P2.pix := pix + cnt; P2.iters := iters |}
  else Done {| P2.sum := 0; P2.pix := 0; P2.iters := 0 |}.

Section Driver.

Variables (budget_pi budget : nat).
Variable to_maxint : string -> outcome Z.
Variable to_str : Z -> string.
Variable get_percent : Z -> Z -> Q.
Variable get_alpha_y : Z -> Z -> Q.
(** [LoadBalancerP2]: the threads it grants and the thread distance it
    hands out at [low] (after [set_thread_dist], if the run resumed). *)
Variable get_threads : Z -> Z -> Z -> Z.
Variable get_thread_dist : Z -> Z.
(** [get_time()] when the batch that ends at [low] is done, and whether
    60 seconds have passed since the last backup then. *)
Variable clock : Z -> Q.
Variable is_backup : Z -> bool.

(** [while (low < z)]; returns the sum and the backup document. *)
Fixpoint batches (fuel : nat) (x y z threads : Z) (j : json)
    (low pi_low_minus_1 thread_dist total : Z) (time : Q)
  : outcome (Z * json) :=
  if decide (low < z) then
    match fuel with
    | O => Fault OutOfFuel
    | S fuel' =>
        res ← for_each (fun i => B_thread budget x y z low i thread_dist)
                       (seqZ 0 threads);
        let '(total, pi_low_minus_1) :=
          foldl P2.add_thread (total, pi_low_minus_1) res in
        let low := low + thread_dist * threads in
        let thread_dist := get_thread_dist low in
        let j :=
          if is_backup low then
            backup_B to_str get_percent get_alpha_y (clock low) j x y z
              {| b_low := low; b_pi_low_minus_1 := pi_low_minus_1;
                 b_thread_distance := thread_dist; b_sum := total;
                 b_time := time |}
          else j in
        batches fuel' x y z threads j low pi_low_minus_1 thread_dist total time
    end
  else Done (total, j).

(** [T B_OpenMP(T x, int64_t y, int64_t z, int threads, double& time)];
    [j] is what [load_backup()] returns and [now] the time then. *)
Definition B_OpenMP (x y z threads : Z) (j : json) (now : Q) (time : Q)
  : outcome (Z * json) :=
  if decide (x < 4) then Done (0, j)
  else
    let low := isqrt x in
    pi_low_minus_1 ← pi_simple budget_pi (low - 1) threads;
    let threads := get_threads low z threads in
    '(resumed, v) ← resume_B to_maxint now j x y
                      {| b_low := low; b_pi_low_minus_1 := pi_low_minus_1;
                         b_thread_distance := 0; b_sum := 0; b_time := time |};
    let j :=
      if resumed : bool then j
      else match j with
           | JObj m => JObj (delete "B" m)
           | _ => j
           end in
    let thread_dist := get_thread_dist (b_low v) in
    batches budget x y z threads j (b_low v) (b_pi_low_minus_1 v) thread_dist
      (b_sum v) (b_time v).

(** One turn of the [while (low < z)] loop: the document in memory,
    whether it was stored, and the variables the turn leaves. *)
Definition batch (x y z threads : Z) (j : json)
    (low pi_low_minus_1 thread_dist total : Z) (time : Q)
  : outcome (json * bool * BVars) :=
  res ← for_each (fun i => B_thread budget x y z low i thread_dist)
                 (seqZ 0 threads);
  let '(total, pi_low_minus_1) :=
    foldl P2.add_thread (total, pi_low_minus_1) res in
  let low := low + thread_dist * threads in
  let thread_dist := get_thread_dist low in
  let v := {| b_low := low; b_pi_low_minus_1 := pi_low_minus_1;
              b_thread_distance := thread_dist; b_sum := total;
              b_time := time |} in
  let j :=
    if is_backup low then
      backup_B to_str get_percent get_alpha_y (clock low) j x y z v
    else j in
  Done (j, is_backup low, v).

(** A run that is stopped after at most [k] turns of the loop: the
    backup file that it leaves behind, which is the document of the last
    turn that stored one, or the file as it was. *)
Fixpoint turns (k : nat) (x y z threads : Z) (j file : json)
    (low pi_low_minus_1 thread_dist total : Z) (time : Q) : outcome json :=
  match k with
  | O => Done file
  | S k' =>
      if decide (low < z) then
        '(j', stored, v) ←
          batch x y z threads j low pi_low_minus_1 thread_dist total time;
        turns k' x y z threads j' (if stored : bool then j' else file)
          (b_low v) (b_pi_low_minus_1 v) (b_thread_distance v) (b_sum v) time
      else Done file
  end.

Definition B_OpenMP_stopped (k : nat) (x y z threads : Z) (j : json)
    (now : Q) (time : Q) : outcome json :=
  if decide (x < 4) then Done j
  else
    let low := isqrt x in
    pi_low_minus_1 ← pi_simple budget_pi (low - 1) threads;
    let threads := get_threads low z threads in
    '(resumed, v) ← resume_B to_maxint now j x y
                      {| b_low := low; b_pi_low_minus_1 := pi_low_minus_1;
                         b_thread_distance := 0; b_sum := 0; b_time := time |};
    let j0 :=
      if resumed : bool then j
      else match j with
           | JObj m => JObj (delete "B" m)
           | _ => j
           end in
    let thread_dist := get_thread_dist (b_low v) in
    turns k x y z threads j0 j (b_low v) (b_pi_low_minus_1 v) thread_dist
      (b_sum v) (b_time v).

(** The [time] that [B_OpenMP] leaves in its reference argument: its
    [resume] moves it when the run takes up a stored one. *)
Definition B_OpenMP_time (x y threads : Z) (j : json) (now : Q) (time : Q)
  : outcome Q :=
  if decide (x < 4) then Done time
  else
    let low := isqrt x in
    pi_low_minus_1 ← pi_simple budget_pi (low - 1) threads;
    '(_, v) ← resume_B to_maxint now j x y
                {| b_low := low; b_pi_low_minus_1 := pi_low_minus_1;
                   b_thread_distance := 0; b_sum := 0; b_time := time |};
    Done (b_time v).

(** [int64_t B(x, y, threads)]: [j] is the backup file, [start] the
    time at entry and [now] the time when [resume] or [backup] reads the
    clock; returns the sum and the backup file.  [B_OpenMP] returns the
    sum and leaves its [time]; the file that the same run leaves, which
    [backup] loads, is that of [B_OpenMP_stopped] with the whole loop
    budget. *)
Definition B (x y threads : Z) (j : json) (start now : Q)
  : outcome (Z * json) :=
  '(resumed, sum, time) ← resume_B_result to_maxint now j x y 0 start;
  if resumed : bool then Done (sum, j)
  else
    let z := Z.quot x (Z.max y 1) in
    '(sum, _) ← B_OpenMP x y z threads j now time;
    file ← B_OpenMP_stopped budget x y z threads j now time;
    time ← B_OpenMP_time x y threads j now time;
    Done (sum, backup_B_result to_str get_alpha_y now file x y z sum time).

End Driver.

End B.

(** ** The P2 kernel with backup (src/P2.cpp, 2017) *)

Module P2Backup.
Import Primes Backup.

(** Modelled from the spec: [ceil_div] (imath.hpp) rounds the quotient
    up, "ceil((z - low)/threads)". *)
Definition ceil_div (a b : Z) : Z := Z.quot (a + b - 1) b.

(** Modelled from the spec: [in_between(min, x, max)] (min.hpp) clamps
    [x] into [min, max]. *)
Definition in_between (min x max : Z) : Z :=
  if decide (x < min) then min
  else if decide (x > max) then max
  else x.

(** [balanceLoad(&thread_distance, low, z, threads, start_time)];
    [seconds] is [get_wtime() - start_time]. *)
Definition balanceLoad (thread_distance low z threads : Z) (seconds : Q) : Z :=
  let min_distance := Z.shiftl 1 23 in
  let max_distance := ceil_div (z - low) threads in
  let thread_distance :=
    if Qlt_le_dec seconds (60 # 1) then thread_distance * 2 else thread_distance in
  let thread_distance :=
    if Qlt_le_dec (60 # 1) seconds then Z.quot thread_distance 2
    else thread_distance in
  in_between min_distance thread_distance max_distance.

(** [while (prime > start && x / prime < z)] of [P2_thread]; the
    division is evaluated only when [prime > start]. *)
Fixpoint thread_loop (fuel budget : nat) (x z start : Z)
    (next prime p2 pix pix_count : Z) : outcome (Z * Z * Z * Z) :=
  continue ←
    (if decide (prime > start) then
       xp ← idiv x prime; Done (bool_decide (xp < z))
     else Done false);
  if continue : bool then
    match fuel with
    | O => Fault OutOfFuel
    | S fuel' =>
        xp ← idiv x prime;
        '(cnt, next') ← P2.count_primes budget budget next xp 0;
        let pix := pix + cnt in
        let p2 := p2 + pix in
        let prime := prev_prime prime in
        thread_loop fuel' budget x z start next' prime p2 pix (pix_count + 1)
    end
  else Done (p2, pix, pix_count, next).

(** [P2_thread(x, y, z, low, thread_num, thread_distance, pix,
    pix_count)]: returns [p2] and the two output parameters. *)
Definition P2_thread (budget : nat) (x y z low thread_num thread_distance : Z)
  : outcome (Z * Z * Z) :=
  let low := low + thread_distance * thread_num in
  let z := Z.min (low + thread_distance) z in
  xz ← idiv x z;
  let start := Z.max xz y in
  xl ← idiv x low;
  let stop := Z.min xl (isqrt x) in
  let prime := prev_prime (stop + 1) in
  next ← next_prime budget (low - 1);
  '(p2, pix, pix_count, next') ←
    thread_loop budget budget x z start next prime 0 0 0;
  '(cnt, _) ← P2.count_primes budget budget next' (z - 1) 0;
  Done (p2, pix + cnt, pix_count).

(** "add missing sum contributions in order". *)
Definition add_missing (acc : Z * Z) (r : Z * Z * Z) : Z * Z :=
  let '(p2, pix_total) := acc in
  let '(_, pix, pix_count) := r in
  (p2 + pix_total * pix_count, pix_total + pix).

Section Driver.

Variables (budget_pi budget : nat).
Variable to_maxint : string -> outcome Z.
Variable to_str : Z -> string.
Variable get_percent : Z -> Z -> Q.
(** [get_wtime()] when the batch that ends at [low] is done, and the
    seconds that batch took. *)
Variable clock : Z -> Q.
Variable elapsed : Z -> Q.

(** [while (low < z)]; returns [p2] and the backup document. *)
Fixpoint batches (fuel : nat) (x y z threads : Z) (j : json) (v : P2Vars)
  : outcome (Z * json) :=
  if decide (p_low v < z) then
    match fuel with
    | O => Fault OutOfFuel
    | S fuel' =>
        let max_threads := ceil_div (z - p_low v) (p_thread_distance v) in
        let threads := in_between 1 threads max_threads in
        res ← for_each
                (fun i => P2_thread budget x y z (p_low v) i (p_thread_distance v))
                (seqZ 0 threads);
        let p2 := foldl (fun acc (r : Z * Z * Z) => acc + r.1.1) (p_p2 v) res in
        let low := p_low v + p_thread_distance v * threads in
        let thread_distance :=
          balanceLoad (p_thread_distance v) low z threads (elapsed low) in
        let '(p2, pix_total) := foldl add_missing (p2, p_pix_total v) res in
        let v' := {| p_low := low; p_thread_distance := thread_distance;
                     p_pix_total := pix_total; p_p2 := p2; p_time := p_time v |} in
        let j := backup_P2 to_str get_percent (clock low) j x y z v' in
        batches fuel' x y z threads j v'
    end
  else Done (p_p2 v, j).

(** [T P2_OpenMP(T x, int64_t y, int threads, double& time)]; [j] is
    what [load_backup()] returns and [now] the time then. *)
Definition P2_OpenMP (x y threads : Z) (j : json) (now : Q) (time : Q)
  : outcome (Z * json) :=
  if decide (x < 4) then Done (0, j)
  else
    a ← pi_legendre budget_pi y threads;
    b ← pi_legendre budget_pi (isqrt x) threads;
    if decide (a >= b) then Done (0, j)
    else
      let p2 := Z.quot ((a - 2) * (a + 1)) 2 - Z.quot ((b - 2) * (b + 1)) 2 in
      z ← idiv x (Z.max y 1);
      let min_distance := Z.shiftl 1 23 in
      v ← resume_P2 to_maxint now j x y z
             {| p_low := 2; p_thread_distance := min_distance;
                p_pix_total := 0; p_p2 := p2; p_time := time |};
      batches budget x y z threads j v.

(** One turn of the [while (low < z)] loop: the thread number it goes on
    with, the document it stores and the variables it leaves. *)
Definition batch (x y z threads : Z) (j : json) (v : P2Vars)
  : outcome (Z * json * P2Vars) :=
  let max_threads := ceil_div (z - p_low v) (p_thread_distance v) in
  let threads := in_between 1 threads max_threads in
  res ← for_each
          (fun i => P2_thread budget x y z (p_low v) i (p_thread_distance v))
          (seqZ 0 threads);
  let p2 := foldl (fun acc (r : Z * Z * Z) => acc + r.1.1) (p_p2 v) res in
  let low := p_low v + p_thread_distance v * threads in
  let thread_distance :=
    balanceLoad (p_thread_distance v) low z threads (elapsed low) in
  let '(p2, pix_total) := foldl add_missing (p2, p_pix_total v) res in
  let v' := {| p_low := low; p_thread_distance := thread_distance;
               p_pix_total := pix_total; p_p2 := p2; p_time := p_time v |} in
  let j := backup_P2 to_str get_percent (clock low) j x y z v' in
  Done (threads, j, v').

(** A run that is stopped after at most [k] turns of the loop: the
    document that it leaves behind. *)
Fixpoint turns (k : nat) (x y z threads : Z) (j : json) (v : P2Vars)
  : outcome json :=
  match k with
  | O => Done j
  | S k' =>
      if decide (p_low v < z) then
        '(threads', j', v') ← batch x y z threads j v;
        turns k' x y z threads' j' v'
      else Done j
  end.

Definition P2_OpenMP_stopped (k : nat) (x y threads : Z) (j : json)
    (now : Q) (time : Q) : outcome json :=
  if decide (x < 4) then Done j
  else
    a ← pi_legendre budget_pi y threads;
    b ← pi_legendre budget_pi (isqrt x) threads;
    if decide (a >= b) then Done j
    else
      let p2 := Z.quot ((a - 2) * (a + 1)) 2 - Z.quot ((b - 2) * (b + 1)) 2 in
      z ← idiv x (Z.max y 1);
      let min_distance := Z.shiftl 1 23 in
      v ← resume_P2 to_maxint now j x y z
             {| p_low := 2; p_thread_distance := min_distance;
                p_pix_total := 0; p_p2 := p2; p_time := time |};
      turns k x y z threads j v.

End Driver.

End P2Backup.

(** ** Command-line options (cmdoptions.cpp) *)

Module CmdOptions.

Local Open Scope string_scope.

Inductive OptionID : Type :=
  | OPTION_BACKUP | OPTION_RESUME | OPTION_ALPHA_Y | OPTION_ALPHA_Z
  | OPTION_GOURDON | OPTION_GOURDON_64 | OPTION_GOURDON_128 | OPTION_HELP
  | OPTION_LEGENDRE | OPTION_MEISSEL | OPTION_NTHPRIME | OPTION_NUMBER
  | OPTION_PRIMESIEVE | OPTION_LI | OPTION_LIINV | OPTION_RI | OPTION_RIINV
  | OPTION_PHI | OPTION_AC | OPTION_B | OPTION_D | OPTION_PHI0 | OPTION_SIGMA
  | OPTION_STATUS | OPTION_TEST | OPTION_TIME | OPTION_THREADS
  | OPTION_VERSION.

Inductive IsParam : Type := NO_PARAM | REQUIRED_PARAM | OPTIONAL_PARAM.

#[global] Instance IsParam_eq_dec : EqDecision IsParam.
Proof. solve_decision. Defined.

#[global] Instance OptionID_eq_dec : EqDecision OptionID.
Proof. solve_decision. Defined.

Definition optionMap : gmap string (OptionID * IsParam) :=
  list_to_map [
    ("-b", (OPTION_BACKUP, REQUIRED_PARAM));
    ("--backup", (OPTION_BACKUP, REQUIRED_PARAM));
    ("-r", (OPTION_RESUME, OPTIONAL_PARAM));
    ("--resume", (OPTION_RESUME, OPTIONAL_PARAM));
    ("--alpha-y", (OPTION_ALPHA_Y, REQUIRED_PARAM));
    ("--alpha-z", (OPTION_ALPHA_Z, REQUIRED_PARAM));
    ("-g", (OPTION_GOURDON, NO_PARAM));
    ("--gourdon", (OPTION_GOURDON, NO_PARAM));
    ("--gourdon-64", (OPTION_GOURDON_64, NO_PARAM));
    ("--gourdon-128", (OPTION_GOURDON_128, NO_PARAM));
    ("-h", (OPTION_HELP, NO_PARAM));
    ("--help", (OPTION_HELP, NO_PARAM));
    ("-l", (OPTION_LEGENDRE, NO_PARAM));
    ("--legendre", (OPTION_LEGENDRE, NO_PARAM));
    ("-m", (OPTION_MEISSEL, NO_PARAM));
    ("--meissel", (OPTION_MEISSEL, NO_PARAM));
    ("-n", (OPTION_NTHPRIME, NO_PARAM));
    ("--nth-prime", (OPTION_NTHPRIME, NO_PARAM));
    ("--number", (OPTION_NUMBER, REQUIRED_PARAM));
    ("-p", (OPTION_PRIMESIEVE, NO_PARAM));
    ("--primesieve", (OPTION_PRIMESIEVE, NO_PARAM));
    ("--Li", (OPTION_LI, NO_PARAM));
    ("--Li-inverse", (OPTION_LIINV, NO_PARAM));
    ("--Ri", (OPTION_RI, NO_PARAM));
    ("--Ri-inverse", (OPTION_RIINV, NO_PARAM));
    ("--phi", (OPTION_PHI, NO_PARAM));
    ("--AC", (OPTION_AC, NO_PARAM));
    ("-B", (OPTION_B, NO_PARAM));
    ("--B", (OPTION_B, NO_PARAM));
    ("-D", (OPTION_D, NO_PARAM));
    ("--D", (OPTION_D, NO_PARAM));
    ("--Phi0", (OPTION_PHI0, NO_PARAM));
    ("--Sigma", (OPTION_SIGMA, NO_PARAM));
    ("-s", (OPTION_STATUS, OPTIONAL_PARAM));
    ("--status", (OPTION_STATUS, OPTIONAL_PARAM));
    ("--test", (OPTION_TEST, NO_PARAM));
    ("--time", (OPTION_TIME, NO_PARAM));
    ("-t", (OPTION_THREADS, REQUIRED_PARAM));
    ("--threads", (OPTION_THREADS, REQUIRED_PARAM));
    ("-v", (OPTION_VERSION, NO_PARAM));
    ("--version", (OPTION_VERSION, NO_PARAM)) ].

(** [struct Option]. *)
Record Option : Type := mkOption {
  str : string;
  opt : string;
  val : string
}.

Definition throw {A} (msg : string) : outcome A := Fault (Thrown msg).

Definition is_latin (c : ascii) : bool :=
  let n := nat_of_ascii c in
  ((97 <=? n)%nat && (n <=? 122)%nat) || ((65 <=? n)%nat && (n <=? 90)%nat).

Definition is_digit (c : ascii) : bool :=
  let n := nat_of_ascii c in (48 <=? n)%nat && (n <=? 57)%nat.

(** [bool isOption(const string& str)]. *)
Definition isOption (s : string) : bool :=
  match s with
  | String "-" (String c1 rest) =>
      is_latin c1 ||
      match rest with
      | String c2 _ => Ascii.eqb c1 "-" && is_latin c2
      | EmptyString => false
      end
  | _ => false
  end.

(** [str.find_first_of("0123456789")]. *)
Fixpoint find_first_digit (s : string) : option nat :=
  match s with
  | EmptyString => None
  | String c s' =>
      if is_digit c then Some 0%nat else S <$> find_first_digit s'
  end.

(** [argv[i]]. *)
Definition arg (argv : list string) (i : nat) : outcome string :=
  match argv !! i with
  | Some s => Done s
  | None => Fault OutOfBounds
  end.

(** [optionMap[o].second]; every [o] the parser asks for is in the map. *)
Definition param_of (o : string) : outcome IsParam :=
  match optionMap !! o with
  | Some (_, p) => Done p
  | None => Fault OutOfBounds
  end.

Definition unrecognized (s : string) : string :=
  "unrecognized option '" ++ s ++ "'".

Definition missing_value (o : string) : string :=
  "missing value for option '" ++ o ++ "'".

(** [Option parseOption(int argc, char* argv[], int& i)]: returns the
    option and the new [i]. *)
Definition parseOption (argv : list string) (i : nat) : outcome (Option * nat) :=
  let argc := length argv in
  s ← arg argv i;
  if decide (s = "") then throw (unrecognized "")
  else
    match optionMap !! s with
    | Some (_, isParam) =>
        '(v, i) ←
          (if decide (isParam = REQUIRED_PARAM) then
             let i := S i in
             v ← (if decide (i < argc)%nat then arg argv i else Done "");
             if decide (v = "") then throw (missing_value s)
             else if isOption v then throw (missing_value s)
             else Done (v, i)
           else Done ("", i));
        next ← (if decide (S i < argc)%nat then arg argv (S i) else Done "");
        if decide (isParam = OPTIONAL_PARAM) then
          if decide (S i < argc)%nat then
            if decide (next = "") then Done ({| str := s; opt := s; val := v |}, i)
            else if isOption next then Done ({| str := s; opt := s; val := v |}, i)
            else Done ({| str := s; opt := s; val := next |}, S i)
          else Done ({| str := s; opt := s; val := v |}, i)
        else Done ({| str := s; opt := s; val := v |}, i)
    | None =>
        if isOption s then
          '(o, v) ←
            (match index 0 "=" s with
             | Some pos =>
                 let o := substring 0 pos s in
                 let v := substring (S pos) (String.length s - S pos) s in
                 match optionMap !! o with
                 | None => throw (unrecognized o)
                 | Some _ => Done (o, v)
                 end
             | None =>
                 let '(o, v) :=
                   match find_first_digit s with
                   | None => (s, "")
                   | Some pos =>
                       (substring 0 pos s, substring pos (String.length s - pos) s)
                   end in
                 match optionMap !! o with
                 | None => throw (unrecognized s)
                 | Some _ => Done (o, v)
                 end
             end);
          p ← param_of o;
          if decide (v = "") then
            if decide (p = REQUIRED_PARAM) then throw (missing_value o)
            else Done ({| str := s; opt := o; val := v |}, i)
          else Done ({| str := s; opt := o; val := v |}, i)
        else
          match find_first_digit s with
          | None => throw (unrecognized s)
          | Some _ =>
              match s with
              | String "-" _ => throw (unrecognized s)
              | _ => Done ({| str := s; opt := "--number"; val := s |}, i)
              end
          end
    end.

(** [struct CmdOptions] (cmdoptions.hpp is not under src/; the fields
    are those that [parseOptions] uses). *)
Record CmdOptions : Type := mkCmdOptions {
  x : Z;
  a : Z;
  option : Datatypes.option OptionID;
  time : bool;
  resumeFile : string;
  backupFile : string
}.

(** The global settings that the options write. *)
Record Settings : Type := mkSettings {
  backup_file : string;
  alpha_y : Datatypes.option Q;
  alpha_z : Datatypes.option Q;
  num_threads : Datatypes.option Z;
  print : bool;
  status_precision : Datatypes.option Z
}.

Section Parse.

(** Not under src/: the number readers behind [Option::to<T>], what
    [help], [version] and [test] do (they end the process), the fields of
    a fresh [CmdOptions], its [is_resume()], and which files exist. *)
Variable to_maxint : string -> outcome Z.
Variable stod : string -> outcome Q.
Variable test_exit_code : Z.
Variable fresh : CmdOptions.
Variable is_resume : CmdOptions -> bool.
Variable file_exists : string -> bool.

(** [T Option::to<T>()]. *)
Definition invalid_option (o : Option) : string :=
  "invalid option '" ++ opt o ++ "=" ++ val o ++ "'".

Definition to_int (o : Option) : outcome Z :=
  match to_maxint (val o) with
  | Done n => Done n
  | Fault _ => throw (invalid_option o)
  end.

Definition to_double (o : Option) : outcome Q :=
  match stod (val o) with
  | Done q => Done q
  | Fault _ => throw (invalid_option o)
  end.

(** The state of the [for] loop of [parseOptions]. *)
Record State : Type := mkState {
  opts : CmdOptions;
  numbers : list Z;
  settings : Settings
}.

Definition set_opts (st : State) (o : CmdOptions) : State :=
  {| opts := o; numbers := numbers st; settings := settings st |}.

Definition set_settings (st : State) (g : Settings) : State :=
  {| opts := opts st; numbers := numbers st; settings := g |}.

(** [optionStatus]. *)
Definition optionStatus (o : Option) (st : State) : outcome State :=
  let g := settings st in
  let g := {| backup_file := backup_file g; alpha_y := alpha_y g;
              alpha_z := alpha_z g; num_threads := num_threads g;
              print := true; status_precision := status_precision g |} in
  let op := opts st in
  let op := {| x := x op; a := a op; option := option op; time := true;
               resumeFile := resumeFile op; backupFile := backupFile op |} in
  if decide (val o = "") then Done (set_settings (set_opts st op) g)
  else
    n ← to_int o;
    Done (set_settings (set_opts st op)
            {| backup_file := backup_file g; alpha_y := alpha_y g;
               alpha_z := alpha_z g; num_threads := num_threads g;
               print := true; status_precision := Some n |}).

(** [optionResume]. *)
Definition optionResume (o : Option) (st : State) : outcome State :=
  let g := settings st in
  let file := if decide (val o = "") then backup_file g else val o in
  let op := opts st in
  let op := {| x := x op; a := a op; option := option op; time := time op;
               resumeFile := file; backupFile := backupFile op |} in
  let g := {| backup_file := file; alpha_y := alpha_y g;
              alpha_z := alpha_z g; num_threads := num_threads g;
              print := print g; status_precision := status_precision g |} in
  if file_exists file then Done (set_settings (set_opts st op) g)
  else throw ("failed to open backup file: " ++ file).

(** The [switch (optionID)] of [parseOptions]. *)
Definition dispatch (o : Option) (st : State) : outcome State :=
  let g := settings st in
  let op := opts st in
  match optionMap !! opt o with
  | None => Fault OutOfBounds
  | Some (id, _) =>
      match id with
      | OPTION_BACKUP =>
          Done (set_settings st
                  {| backup_file := val o; alpha_y := alpha_y g;
                     alpha_z := alpha_z g; num_threads := num_threads g;
                     print := print g; status_precision := status_precision g |})
      | OPTION_RESUME => optionResume o st
      | OPTION_ALPHA_Y =>
          q ← to_double o;
          Done (set_settings st
                  {| backup_file := backup_file g; alpha_y := Some q;
                     alpha_z := alpha_z g; num_threads := num_threads g;
                     print := print g; status_precision := status_precision g |})
      | OPTION_ALPHA_Z =>
          q ← to_double o;
          Done (set_settings st
                  {| backup_file := backup_file g; alpha_y := alpha_y g;
                     alpha_z := Some q; num_threads := num_threads g;
                     print := print g; status_precision := status_precision g |})
      | OPTION_NUMBER =>
          n ← to_int o;
          Done {| opts := op; numbers := numbers st ++ [n]; settings := g |}
      | OPTION_THREADS =>
          n ← to_int o;
          Done (set_settings st
                  {| backup_file := backup_file g; alpha_y := alpha_y g;
                     alpha_z := alpha_z g; num_threads := Some n;
                     print := print g; status_precision := status_precision g |})
      | OPTION_HELP => Fault (Exited 0)
      | OPTION_STATUS => optionStatus o st
      | OPTION_TIME =>
          Done (set_opts st
                  {| x := x op; a := a op; option := option op; time := true;
                     resumeFile := resumeFile op; backupFile := backupFile op |})
      | OPTION_TEST => Fault (Exited test_exit_code)
      | OPTION_VERSION => Fault (Exited 0)
      | _ =>
          Done (set_opts st
                  {| x := x op; a := a op; option := Some id; time := time op;
                     resumeFile := resumeFile op; backupFile := backupFile op |})
      end
  end.

(** [for (int i = 1; i < argc; i++)]; every iteration moves [i] on, so
    [argc] iterations are enough. *)
Fixpoint options_loop (fuel : nat) (argv : list string) (i : nat) (st : State)
  : outcome State :=
  if decide (i < length argv)%nat then
    match fuel with
    | O => Fault OutOfFuel
    | S fuel' =>
        '(o, i') ← parseOption argv i;
        st' ← dispatch o st;
        options_loop fuel' argv (S i') st'
    end
  else Done st.

(** [CmdOptions parseOptions(int argc, char* argv[])]. *)
Definition parseOptions (g : Settings) (argv : list string) : outcome CmdOptions :=
  if decide (length argv <= 1)%nat then Fault (Exited 1)
  else
    st ← options_loop (length argv) argv 1
           {| opts := fresh; numbers := []; settings := g |};
    let op := opts st in
    op ←
      (if is_resume op then Done op
       else
         op ←
           (if decide (option op = Some OPTION_PHI) then
              match numbers st !! 1%nat with
              | Some n =>
                  Done {| x := x op; a := n; option := option op;
                          time := time op; resumeFile := resumeFile op;
                          backupFile := backupFile op |}
              | None => throw "option --phi requires 2 numbers"
              end
            else Done op);
         match numbers st !! 0%nat with
         | Some n =>
             Done {| x := n; a := a op; option := option op; time := time op;
                     resumeFile := resumeFile op; backupFile := backupFile op |}
         | None => throw "missing x number"
         end);
    if decide (backupFile op ≠ "" /\ resumeFile op ≠ "" /\
               backupFile op ≠ resumeFile op)
    then throw "resume and backup file must be identical"
    else Done op.

End Parse.

(** [s] begins with [part]. *)
Fixpoint starts_with (part s : string) : bool :=
  match part, s with
  | EmptyString, _ => true
  | String c part', String d s' => Ascii.eqb c d && starts_with part' s'
  | String _ _, EmptyString => false
  end.

(** [msg] contains [part]. *)
Fixpoint containsb (msg part : string) : bool :=
  starts_with part msg ||
  match msg with
  | EmptyString => false
  | String _ m => containsb m part
  end.

(** The loop of [parseOptions], started at argument [j] in state [st],
    gets to argument [i] in state [st']: every argument in between is
    parsed and dispatched without an error or an exit. *)
Inductive reaches (to_maxint : string -> outcome Z) (stod : string -> outcome Q)
    (test_exit_code : Z) (file_exists : string -> bool) (argv : list string)
  : nat -> State -> nat -> State -> Prop :=
  | reaches_here i st :
      reaches to_maxint stod test_exit_code file_exists argv i st i st
  | reaches_next j st o j' st' i st'' :
      parseOption argv j = Done (o, j') ->
      dispatch to_maxint stod test_exit_code file_exists o st = Done st' ->
      reaches to_maxint stod test_exit_code file_exists argv (S j') st' i st'' ->
      reaches to_maxint stod test_exit_code file_exists argv j st i st''.

(** The ways an argument can be an unrecognized or malformed option,
    with the text that names it: the argument itself, or the option name
    in front of its [=]. *)
Inductive malformed (argv : list string) (i : nat) : string -> Prop :=
  | bad_empty :
      argv !! i = Some "" -> malformed argv i ""
  | bad_name_eq s pos :
      argv !! i = Some s -> s ≠ "" -> optionMap !! s = None ->
      isOption s = true -> index 0 "=" s = Some pos ->
      optionMap !! substring 0 pos s = None ->
      malformed argv i (substring 0 pos s)
  | bad_name s :
      argv !! i = Some s -> s ≠ "" -> optionMap !! s = None ->
      isOption s = true -> index 0 "=" s = None ->
      optionMap !! (match find_first_digit s with
                    | None => s
                    | Some pos => substring 0 pos s
                    end) = None ->
      malformed argv i s
  | bad_missing s id :
      argv !! i = Some s -> s ≠ "" ->
      optionMap !! s = Some (id, REQUIRED_PARAM) ->
      (forall v, argv !! S i = Some v -> v = "" \/ isOption v = true) ->
      malformed argv i s
  | bad_eq_empty s pos id :
      argv !! i = Some s -> s ≠ "" -> optionMap !! s = None ->
      isOption s = true -> index 0 "=" s = Some pos ->
      optionMap !! substring 0 pos s = Some (id, REQUIRED_PARAM) ->
      substring (S pos) (String.length s - S pos) s = "" ->
      malformed argv i (substring 0 pos s)
  | bad_no_digit s :
      argv !! i = Some s -> s ≠ "" -> optionMap !! s = None ->
      isOption s = false -> find_first_digit s = None ->
      malformed argv i s
  | bad_negative s rest :
      argv !! i = Some s -> s = String "-" rest -> optionMap !! s = None ->
      isOption s = false ->
      malformed argv i s.

End CmdOptions.

(** ** The segmented PrimePi table (SegmentedPiTable.cpp) *)

Module SegmentedPiTable.
Import Primes.

(** [pi_t]: the number of primes below a window of 128 numbers, and one
    bit for each odd number of the window. *)
Record pi_t : Type := mk_pi_t { prime_count : Z; bits : Z }.

Record Table : Type := mkTable {
  pi_ : list pi_t;
  counts_ : list Z;
  low_ : Z;
  high_ : Z;
  max_high_ : Z;
  segment_size_ : Z;
  threads_ : Z;
  pi_low_ : Z
}.

Definition set_pi (t : Table) (ws : list pi_t) : Table :=
  mkTable ws (counts_ t) (low_ t) (high_ t) (max_high_ t) (segment_size_ t)
    (threads_ t) (pi_low_ t).

Definition set_counts (t : Table) (cs : list Z) : Table :=
  mkTable (pi_ t) cs (low_ t) (high_ t) (max_high_ t) (segment_size_ t)
    (threads_ t) (pi_low_ t).

(** [std::memset(&pi_[i], 0, (j - i) * sizeof(pi_t))]; the size is
    unsigned, so [j < i] runs over the end of the vector. *)
Definition clear (ws : list pi_t) (i j : Z) : outcome (list pi_t) :=
  if decide (0 <= i <= j /\ j <= Z.of_nat (length ws)) then
    Done (take (Z.to_nat i) ws ++ replicate (Z.to_nat (j - i)) (mk_pi_t 0 0)
            ++ drop (Z.to_nat j) ws)
  else Fault OutOfBounds.

(** [pi_[k].bits |= b]. *)
Definition set_bits (ws : list pi_t) (k b : Z) : outcome (list pi_t) :=
  w ← read ws k;
  write ws k (mk_pi_t (prime_count w) (Z.lor (bits w) b)).

(** [while ((prime = it.next_prime()) < stop)] of [init_bits]; [pos] is
    the position of the iterator. *)
Fixpoint mark (fuel budget : nat) (low stop : Z) (ws : list pi_t)
    (pos count : Z) : outcome (list pi_t * Z) :=
  prime ← next_prime budget pos;
  if decide (prime < stop) then
    match fuel with
    | O => Fault OutOfFuel
    | S fuel' =>
        let p := u64 (prime - low) in
        let prime_bit := Z.shiftl 1 (p mod 128 / 2) in
        ws ← set_bits ws (p / 128) prime_bit;
        mark fuel' budget low stop ws prime (u64 (count + 1))
    end
  else Done (ws, count).

(** [void SegmentedPiTable::init_bits(start, stop, thread_num)]. *)
Definition init_bits (budget : nat) (t : Table) (start stop thread_num : Z)
  : outcome Table :=
  let i := u64 (start - low_ t) / 128 in
  let j := P2Backup.ceil_div (u64 (stop - low_ t)) 128 in
  ws ← clear (pi_ t) i j;
  ws ← (if decide (start <= 1) then set_bits ws 0 1 else Done ws);
  '(ws, count) ← mark budget budget (low_ t) stop ws (Z.max start 2)
                    (if decide (start <= 2) then 1 else 0);
  cs ← write (counts_ t) thread_num count;
  Done (set_counts (set_pi t ws) cs).

(** [for (uint64_t i = 0; i < thread_num; i++) count += counts_[i]]. *)
Fixpoint sum_counts (cs : list Z) (idx : list Z) (count : Z) : outcome Z :=
  match idx with
  | [] => Done count
  | i :: idx' =>
      c ← read cs i;
      sum_counts cs idx' (u64 (count + c))
  end.

(** [for (; i < stop_idx; i++)] of [init_prime_count]. *)
Fixpoint fill (idx : list Z) (ws : list pi_t) (count : Z)
  : outcome (list pi_t) :=
  match idx with
  | [] => Done ws
  | i :: idx' =>
      w ← read ws i;
      ws ← write ws i (mk_pi_t count (bits w));
      fill idx' ws (u64 (count + SieveModel.popcnt64 (bits w)))
  end.

(** [void SegmentedPiTable::init_prime_count(start, stop, thread_num)]. *)
Definition init_prime_count (t : Table) (start stop thread_num : Z)
  : outcome Table :=
  count ← sum_counts (counts_ t) (seqZ 0 thread_num) (pi_low_ t);
  let i := u64 (start - low_ t) / 128 in
  let stop_idx := P2Backup.ceil_div (u64 (stop - low_ t)) 128 in
  ws ← fill (seqZ i (stop_idx - i)) (pi_ t) count;
  Done (set_pi t ws).

(** The [thread_size] that [init] computes. *)
Definition thread_size (t : Table) : outcome Z :=
  q ← idiv (segment_size_ t) (u64 (threads_ t));
  let size := Z.max 10000000 q in
  Done (u64 (size + (128 - size mod 128))).

(** One [#pragma omp for] loop of [init]: the threads write words and
    counts of their own, and the model runs them in thread order. *)
Fixpoint each_thread (f : Table -> Z -> Z -> Z -> outcome Table) (size : Z)
    (nums : list Z) (t : Table) : outcome Table :=
  match nums with
  | [] => Done t
  | n :: nums' =>
      let start := u64 (low_ t + u64 (size * n)) in
      let stop := Z.min (u64 (start + size)) (high_ t) in
      t ← (if decide (start < stop) then f t start stop n else Done t);
      each_thread f size nums' t
  end.

(** [void SegmentedPiTable::init()]; the second loop starts when every
    thread has left the first. *)
Definition init (budget : nat) (t : Table) : outcome Table :=
  size ← thread_size t;
  t ← each_thread (init_bits budget) size (seqZ 0 (threads_ t)) t;
  each_thread init_prime_count size (seqZ 0 (threads_ t)) t.

Section Construct.

(** [ideal_num_threads(threads, sieve_limit, thread_threshold)] is not
    under src/; the constructor takes what it returns. *)
Variable ideal_num_threads : Z -> Z -> Z -> Z.

(** [SegmentedPiTable::SegmentedPiTable(low, limit, segment_size,
    threads)]. *)
Definition construct (budget_pi budget : nat)
    (low limit segment_size threads : Z) : outcome Table :=
  let max_high := u64 (limit + 1) in
  let numbers_per_byte := 8 in
  let min_segment_size := 256 * Z.shiftl 1 10 * numbers_per_byte in
  let segment_size := Z.max segment_size min_segment_size in
  let segment_size := Z.min segment_size max_high in
  let segment_size := u64 (segment_size + (128 - segment_size mod 128)) in
  let thread_threshold := 10000000 in
  let threads' := ideal_num_threads threads segment_size thread_threshold in
  let high := Z.min (u64 (low + segment_size)) max_high in
  let pi := replicate (Z.to_nat (segment_size / 128)) (mk_pi_t 0 0) in
  pi_low ← pi_simple budget_pi (Z.max low 1 - 1) threads;
  init budget (mkTable pi (replicate (Z.to_nat threads) 0) low high max_high
                 segment_size threads' pi_low).

End Construct.

End SegmentedPiTable.

(** ** The ordinary leaves of Gourdon's algorithm (Phi0.cpp) *)

Module Phi0.

Section Leaves.

(** [phi_tiny(x, a)] (PhiTiny.hpp) and [generate_primes(y)]
    (generate.hpp) are not under src/; the kernel takes what they
    return. *)
Variable phi_tiny : Z -> Z -> Z.
Variable generate_primes : Z -> list Z.

(** The [for (b++; b < primes.size(); b++)] loop of
    [Phi0_thread<MU>(x, z, b, k, square_free, primes)], entered at [b]
    with the sum [phi0]; the recursive call is [Phi0_thread<-MU>]. *)
Fixpoint Phi0_loop (fuel : nat) (MU x z b k square_free : Z)
    (primes : list Z) (phi0 : Z) : outcome Z :=
  if decide (b < Z.of_nat (length primes)) then
    match fuel with
    | O => Fault OutOfFuel
    | S fuel' =>
        p ← read primes b;
        let next := square_free * p in
        if decide (next > z) then Done phi0
        else
          q ← idiv x next;
          let phi0 := phi0 + MU * phi_tiny q k in
          r ← Phi0_loop fuel' (- MU) x z (b + 1) k next primes 0;
          Phi0_loop fuel' MU x z (b + 1) k square_free primes (phi0 + r)
    end
  else Done phi0.

(** [T Phi0_thread<MU>(x, z, b, k, square_free, primes)]. *)
Definition Phi0_thread (fuel : nat) (MU x z b k square_free : Z)
    (primes : list Z) : outcome Z :=
  Phi0_loop fuel MU x z (b + 1) k square_free primes 0.

(** [X Phi0_OpenMP(x, y, z, k, threads)]; the iterations of the
    parallel loop are summed by the [reduction (+: phi0)]. *)
Definition Phi0_OpenMP (fuel : nat) (x y z k threads : Z) : outcome Z :=
  let primes := generate_primes y in
  let pi_y := Z.of_nat (length primes) - 1 in
  terms ← for_each
            (fun b =>
               p ← read primes b;
               q ← idiv x p;
               t ← Phi0_thread fuel 1 x z b k p primes;
               Done (- phi_tiny q k + t))
            (seqZ (k + 1) (pi_y - k));
  Done (phi_tiny x k + Zsum terms).

End Leaves.

Section Driver.

Variable phi_tiny : Z -> Z -> Z.
Variable generate_primes : Z -> list Z.
Variable to_maxint : string -> outcome Z.
Variable to_str : Z -> string.
Variable get_alpha_y : Z -> Z -> Q.
Variable get_alpha_z : Z -> Z -> Q.

(** [int64_t Phi0(x, y, z, k, threads)]: [j] is the backup file,
    [start] the time at entry, [now] the time when [resume] or [backup]
    reads the clock; returns the sum and the backup file. *)
Definition Phi0 (fuel : nat) (x y z k threads : Z) (j : Backup.json)
    (start now : Q) : outcome (Z * Backup.json) :=
  '(resumed, phi0, time) ←
    Backup.resume_Phi0 to_maxint now j x y z k 0 start;
  if resumed : bool then Done (phi0, j)
  else
    phi0 ← Phi0_OpenMP phi_tiny generate_primes fuel x y z k threads;
    Done (phi0,
          Backup.backup_Phi0 to_str get_alpha_y get_alpha_z now j x y z k
            phi0 time).

End Driver.

End Phi0.

(** ** The special leaves of the simple LMO implementation
       (src/pi_lmo3.cpp) *)

Module LMO3.

(** The vectors that [S2] allocates, and its sum. *)
Record State : Type := mkState {
  sieve : list Z;
  next : list Z;
  phi : list Z;
  S2_result : Z
}.

(** [for (...; k < high; k += step) sieve[k - low] = 0;]; returns the
    sieve and the [k] that the loop leaves. *)
Fixpoint cross_off (fuel : nat) (sieve : list Z) (low high k step : Z)
  : outcome (list Z * Z) :=
  if decide (k < high) then
    match fuel with
    | O => Fault OutOfFuel
    | S fuel' =>
        sieve ← write sieve (k - low) 0;
        cross_off fuel' sieve low high (k + step) step
    end
  else Done (sieve, k).

(** [for (...; i <= y; i++) phi[b + 1] += sieve[i - low];] with
    [b1 = b + 1]; returns [phi] and the [i] that the loop leaves. *)
Fixpoint count_to (fuel : nat) (sieve phi : list Z) (low b1 i y : Z)
  : outcome (list Z * Z) :=
  if decide (i <= y) then
    match fuel with
    | O => Fault OutOfFuel
    | S fuel' =>
        v ← read sieve (i - low);
        old ← read phi b1;
        phi ← write phi b1 (old + v);
        count_to fuel' sieve phi low b1 (i + 1) y
    end
  else Done (phi, i).

(** [for (int64_t m = max_m; m > min_m; m--)]; returns [phi], [i] and
    [S2_result]. *)
Fixpoint leaves (fuel budget : nat) (x : Z) (mu lpf sieve : list Z)
    (low b1 prime min_m m i : Z) (phi : list Z) (S2_result : Z)
  : outcome (list Z * Z * Z) :=
  if decide (m > min_m) then
    match fuel with
    | O => Fault OutOfFuel
    | S fuel' =>
        mu_m ← read mu m;
        is_leaf ← (if decide (mu_m <> 0) then
                     l ← read lpf m; Done (bool_decide (prime < l))
                   else Done false);
        '(phi, i, S2_result) ←
          (if is_leaf : bool then
             y ← idiv x (m * prime);
             '(phi, i) ← count_to budget sieve phi low b1 i y;
             p ← read phi b1;
             Done (phi, i, S2_result - mu_m * p)
           else Done (phi, i, S2_result));
        leaves fuel' budget x mu lpf sieve low b1 prime min_m (m - 1) i
          phi S2_result
    end
  else Done (phi, i, S2_result).

(** [for (int64_t b = c; b + 1 < a; b++)], entered at [b]. *)
Fixpoint special (fuel budget : nat) (x x13_alpha a : Z)
    (primes mu lpf : list Z) (low high b : Z) (st : State) : outcome State :=
  if decide (b + 1 < a) then
    match fuel with
    | O => Fault OutOfFuel
    | S fuel' =>
        prime ← read primes (b + 1);
        q1 ← idiv x (low * prime);
        let max_m := Z.min q1 x13_alpha in
        q2 ← idiv x (high * prime);
        q3 ← idiv x13_alpha prime;
        let min_m := Z.max q2 q3 in
        if decide (prime > max_m) then Done st
        else
          '(phi, i, S2_result) ←
            leaves budget budget x mu lpf (sieve st) low (b + 1) prime
              min_m max_m low (phi st) (S2_result st);
          '(phi, _) ← count_to budget (sieve st) phi low (b + 1) i (high - 1);
          k ← read (next st) (b + 1);
          '(sieve, k) ← cross_off budget (sieve st) low high k (prime * 2);
          next ← write (next st) (b + 1) k;
          special fuel' budget x x13_alpha a primes mu lpf low high (b + 1)
            (mkState sieve next phi S2_result)
    end
  else Done st.

(** [for (int64_t b = 1; b <= c; b++)]: the multiples of the first [c]
    primes. *)
Fixpoint presieve (budget : nat) (primes : list Z) (low high : Z)
    (bs : list Z) (sieve next : list Z) : outcome (list Z * list Z) :=
  match bs with
  | [] => Done (sieve, next)
  | b :: bs' =>
      k ← read next b;
      prime ← read primes b;
      '(sieve, k) ← cross_off budget sieve low high k prime;
      next ← write next b k;
      presieve budget primes low high bs' sieve next
  end.

(** [for (int64_t low = 1; low < limit; low += segment_size)], entered
    at [low]. *)
Fixpoint segments (fuel budget : nat) (x x13_alpha a c : Z)
    (primes mu lpf : list Z) (limit segment_size low : Z) (st : State)
  : outcome State :=
  if decide (low < limit) then
    match fuel with
    | O => Fault OutOfFuel
    | S fuel' =>
        let sieve := replicate (length (sieve st)) 1 in
        let high := Z.min (low + segment_size) limit in
        '(sieve, next) ←
          presieve budget primes low high (seqZ 1 c) sieve (next st);
        st ← special budget budget x x13_alpha a primes mu lpf low high c
               (mkState sieve next (phi st) (S2_result st));
        segments fuel' budget x x13_alpha a c primes mu lpf limit
          segment_size (low + segment_size) st
    end
  else Done st.

(** [int64_t S2(x, x13_alpha, x23_alpha, a, c, primes, lpf, mu)]. *)
Definition S2 (budget : nat) (x x13_alpha x23_alpha a c : Z)
    (primes lpf mu : list Z) : outcome Z :=
  let limit := x23_alpha + 1 in
  q ← idiv limit x13_alpha;
  let segment_size := Z.max 10 q in
  st ← segments budget budget x x13_alpha a c primes mu lpf limit
         segment_size 1
         (mkState (replicate (Z.to_nat segment_size) 0) primes
            (replicate (length primes) 0) 0);
  Done (S2_result st).

End LMO3.

(** * Proofs: the sieve with counters *)

Lemma read_Done {A} (v : list A) i a :
  0 <= i -> v !! Z.to_nat i = Some a -> read v i = Done a.
Proof. intros Hi Hl. unfold read. rewrite decide_True by done. by rewrite Hl. Qed.

Lemma read_inv {A} (v : list A) i a :
  read v i = Done a -> 0 <= i /\ v !! Z.to_nat i = Some a.
Proof.
  unfold read. case_decide; [|done].
  destruct (v !! Z.to_nat i) eqn:E; [|done]. by intros [= ->].
Qed.

Lemma write_Done {A} (v : list A) i a :
  0 <= i < Z.of_nat (length v) -> write v i a = Done (<[Z.to_nat i := a]> v).
Proof. intros Hi. unfold write. by rewrite decide_True. Qed.

Lemma write_inv {A} (v v' : list A) i a :
  write v i a = Done v' ->
  0 <= i < Z.of_nat (length v) /\ v' = <[Z.to_nat i := a]> v.
Proof. unfold write. case_decide; [|done]. by intros [= <-]. Qed.

Lemma bind_Done {A B} (m : outcome A) (k : A -> outcome B) b :
  (m ≫= k) = Done b -> exists a, m = Done a /\ k a = Done b.
Proof. destruct m as [a|f]; [|done]. intros H. by exists a. Qed.

Module SieveProofs.
Import SieveModel.

Lemma u64_small z : 0 <= z < 2 ^ 64 -> u64 z = z.
Proof. intros H. unfold u64. by apply Z.mod_small. Qed.

Lemma Zsum_cons a l : Zsum (a :: l) = a + Zsum l.
Proof. reflexivity. Qed.

Lemma Zsum_app l1 l2 : Zsum (l1 ++ l2) = Zsum l1 + Zsum l2.
Proof. induction l1 as [|a l1 IH]; simpl; [done | rewrite IH; lia]. Qed.

Lemma popcount_app l1 l2 : popcount (l1 ++ l2) = popcount l1 + popcount l2.
Proof. unfold popcount. by rewrite map_app, Zsum_app. Qed.

Lemma popcount_cons w l : popcount (w :: l) = popcnt64 w + popcount l.
Proof. reflexivity. Qed.

Lemma bits_sum_bounds (f : nat -> bool) l :
  0 <= Zsum (map (fun k => Z.b2z (f k)) l) <= Z.of_nat (length l).
Proof.
  induction l as [|a l IH]; simpl; [lia|].
  destruct (f a); simpl; lia.
Qed.

Lemma popcnt64_bounds w : 0 <= popcnt64 w <= 64.
Proof.
  unfold popcnt64.
  pose proof (bits_sum_bounds (fun k => Z.testbit w (Z.of_nat k)) (seq 0 64)) as H.
  rewrite length_seq in H. lia.
Qed.

Lemma popcount_bounds l : 0 <= popcount l <= 64 * Z.of_nat (length l).
Proof.
  induction l as [|w l IH]; [unfold popcount; simpl; lia|].
  rewrite popcount_cons. pose proof (popcnt64_bounds w). simpl length. lia.
Qed.

Lemma popcount_take_le n l : 0 <= popcount (take n l) <= popcount l.
Proof.
  rewrite <- (take_drop n l) at 3. rewrite popcount_app.
  pose proof (popcount_bounds (take n l)). pose proof (popcount_bounds (drop n l)).
  lia.
Qed.

(** Clearing one bit of a word. *)
Lemma bits_sum_clear (f : nat -> bool) (b : nat) l :
  NoDup l ->
  Zsum (map (fun k => Z.b2z (f k && negb (Nat.eqb k b))) l) =
  Zsum (map (fun k => Z.b2z (f k)) l) - (if decide (b ∈ l) then Z.b2z (f b) else 0).
Proof.
  induction 1 as [|a l Hni Hnd IH].
  - rewrite decide_False; [simpl; lia | apply not_elem_of_nil].
  - rewrite !map_cons, !Zsum_cons, IH. destruct (Nat.eqb_spec a b) as [->|Hne].
    + rewrite (decide_True (P := b ∈ b :: l)) by (by left).
      rewrite (decide_False (P := b ∈ l)) by done.
      rewrite andb_false_r. simpl. lia.
    + rewrite andb_true_r. destruct (decide (b ∈ l)) as [Hin|Hnin].
      * rewrite (decide_True (P := b ∈ a :: l)) by (by right). lia.
      * rewrite (decide_False (P := b ∈ a :: l)); [lia|].
        intros [?|?]%elem_of_cons; congruence.
Qed.

Lemma land_shiftr_1 w b : 0 <= b -> Z.land (Z.shiftr w b) 1 = Z.b2z (Z.testbit w b).
Proof.
  intros Hb. change 1 with (Z.ones 1). rewrite Z.land_ones by lia.
  rewrite Z.shiftr_div_pow2 by lia. rewrite Z.testbit_spec' by lia.
  reflexivity.
Qed.

Lemma testbit_clear w b k :
  0 <= b -> 0 <= k < 64 ->
  Z.testbit (Z.land w (u64 (Z.lnot (Z.shiftl 1 b)))) k =
  Z.testbit w k && negb (Z.eqb k b).
Proof.
  intros Hb Hk. rewrite Z.land_spec. f_equal.
  unfold u64. rewrite Z.mod_pow2_bits_low by lia.
  rewrite Z.lnot_spec by lia. f_equal.
  rewrite Z.shiftl_spec by lia.
  destruct (Z.eqb_spec k b) as [->|Hne].
  - by rewrite Z.sub_diag.
  - destruct (decide (k < b)).
    + rewrite Z.testbit_neg_r by lia. done.
    + replace (k - b) with (Z.succ (k - b - 1)) by lia.
      rewrite (Z.bits_above_log2 1); [done| lia | simpl; lia].
Qed.

Lemma popcnt64_clear w b :
  0 <= b < 64 ->
  popcnt64 (Z.land w (u64 (Z.lnot (Z.shiftl 1 b)))) =
  popcnt64 w - Z.land (Z.shiftr w b) 1.
Proof.
  intros Hb. unfold popcnt64.
  rewrite land_shiftr_1 by lia.
  pose proof (bits_sum_clear (fun k => Z.testbit w (Z.of_nat k)) (Z.to_nat b)
                (seq 0 64) (NoDup_seq _ _)) as H.
  rewrite decide_True in H by (apply elem_of_seq; lia).
  rewrite Z2Nat.id in H by lia. rewrite <- H. f_equal.
  apply map_ext_in. intros k Hk%in_seq.
  rewrite testbit_clear by lia. do 2 f_equal.
  destruct (Nat.eqb_spec k (Z.to_nat b)), (Z.eqb_spec (Z.of_nat k) b); try done; lia.
Qed.

Lemma land_clear_bounds w b :
  0 <= w < 2 ^ 64 -> 0 <= Z.land w (u64 (Z.lnot (Z.shiftl 1 b))) < 2 ^ 64.
Proof.
  intros Hw.
  assert (0 <= u64 (Z.lnot (Z.shiftl 1 b))) as Hm
    by (unfold u64; apply Z.mod_pos_bound; lia).
  set (r := Z.land w (u64 (Z.lnot (Z.shiftl 1 b)))).
  assert (0 <= r) as Hr by (apply Z.land_nonneg; lia).
  split; [done|].
  destruct (decide (r = 0)) as [->|Hr0]; [lia|].
  destruct (decide (w = 0)) as [Hw0|Hw0].
  { subst w. subst r. rewrite Z.land_0_l in Hr0. done. }
  pose proof (Z.log2_land w (u64 (Z.lnot (Z.shiftl 1 b))) ltac:(lia) Hm) as Hl.
  fold r in Hl.
  apply Z.log2_lt_pow2; [lia|].
  assert (Z.log2 w < 64) by (apply Z.log2_lt_pow2; lia). lia.
Qed.

(** Popcounts of ranges of the sieve array. *)
Lemma popcount_insert l (i : nat) w w' :
  l !! i = Some w ->
  popcount (<[i:=w']> l) = popcount l - popcnt64 w + popcnt64 w'.
Proof.
  intros Hl. rewrite insert_take_drop by (by eapply lookup_lt_Some).
  rewrite <- (take_drop_middle l i w Hl) at 3.
  rewrite !popcount_app, !popcount_cons. lia.
Qed.

Lemma range_insert l (i a n : nat) w w' :
  l !! i = Some w ->
  popcount (take n (drop a (<[i:=w']> l))) =
  popcount (take n (drop a l)) +
  (if decide (a <= i < a + n)%nat then popcnt64 w' - popcnt64 w else 0).
Proof.
  intros Hl. destruct (decide (i < a)%nat) as [Hlt|Hge].
  { rewrite drop_insert_lt by lia. rewrite decide_False by lia. lia. }
  rewrite drop_insert_ge by lia.
  destruct (decide (i - a < n)%nat) as [Hin|Hout].
  - rewrite take_insert_lt by lia. rewrite decide_True by lia.
    rewrite (popcount_insert _ _ w); [lia|].
    rewrite lookup_take_lt by lia. rewrite lookup_drop.
    by replace (a + (i - a))%nat with i by lia.
  - rewrite take_insert_ge by lia. rewrite decide_False by lia. lia.
Qed.

Lemma bucket_sum ws dist (n : nat) :
  Zsum (map (bucket ws dist) (seq 0 n)) =
  popcount (take (n * Z.to_nat dist) ws).
Proof.
  induction n as [|n IH]; [done|].
  rewrite seq_S, map_app, Zsum_app, IH. cbn [map Nat.add]. rewrite Zsum_cons.
  unfold bucket, Zsum at 1. cbn [foldr]. rewrite Z.add_0_r.
  rewrite <- popcount_app, take_take_drop. f_equal. f_equal. lia.
Qed.

Lemma lookup_buckets ws dist (n k : nat) :
  (k < n)%nat -> map (bucket ws dist) (seq 0 n) !! k = Some (bucket ws dist k).
Proof.
  intros Hk. change (map (bucket ws dist) (seq 0 n)) with (bucket ws dist <$> seq 0 n).
  rewrite list_lookup_fmap, lookup_seq_lt by done. done.
Qed.

Lemma bucket_insert ws dist (i k : nat) w w' :
  0 < dist -> ws !! i = Some w ->
  bucket (<[i:=w']> ws) dist k =
  bucket ws dist k +
  (if decide (Z.of_nat k = Z.of_nat i / dist) then popcnt64 w' - popcnt64 w else 0).
Proof.
  intros Hd Hl. unfold bucket. rewrite (range_insert _ _ _ _ w) by done.
  f_equal. set (dn := Z.to_nat dist).
  assert (Z.of_nat dn = dist) as Hdn by (unfold dn; lia).
  destruct (decide (Z.of_nat k = Z.of_nat i / dist)) as [Hk|Hk].
  - rewrite decide_True; [done|].
    pose proof (Z.mul_div_le (Z.of_nat i) dist Hd).
    pose proof (Z.mul_succ_div_gt (Z.of_nat i) dist Hd). nia.
  - rewrite decide_False; [done|]. intros [H1 H2]. apply Hk.
    apply (Z.div_unique_pos _ _ _ (Z.of_nat i - Z.of_nat k * dist)); nia.
Qed.

(** *** One cross-off step *)

Definition same_cursor (s s' : Sieve) : Prop :=
  counters_dist s' = counters_dist s /\
  counters_dist_log2 s' = counters_dist_log2 s /\
  prev_stop s' = prev_stop s /\ count_ s' = count_ s /\
  counters_i s' = counters_i s /\ counters_count s' = counters_count s /\
  counters_stop s' = counters_stop s.

Lemma shape_dist_pos s : shape s -> 0 < counters_dist s.
Proof. intros [? -> _ _ _]. by apply Z.pow_pos_nonneg. Qed.

Lemma cross_off_bit_spec s i b :
  shape s -> counted s -> loc_ok s (i, b) ->
  exists w c s',
    sieve s !! Z.to_nat i = Some w /\
    counters s !! Z.to_nat (i / counters_dist s) = Some c /\
    cross_off_bit i b s = Done s' /\
    sieve s' = <[Z.to_nat i := Z.land w (u64 (Z.lnot (Z.shiftl 1 b)))]> (sieve s) /\
    total_count s' = total_count s - Z.land (Z.shiftr w b) 1 /\
    counters s' =
      <[Z.to_nat (i / counters_dist s) := c - Z.land (Z.shiftr w b) 1]> (counters s) /\
    popcount (sieve s') = popcount (sieve s) - Z.land (Z.shiftr w b) 1 /\
    same_cursor s s' /\ shape s' /\ counted s'.
Proof.
  intros Hsh Hcn [[Hi0 Hi] Hb]. simpl in Hi0, Hi, Hb.
  pose proof (shape_dist_pos s Hsh) as Hd.
  destruct Hsh as [Hlog Hdist Hsize Hwords Hsmall].
  destruct Hcn as [Hcs Htot].
  destruct (lookup_lt_is_Some_2 (sieve s) (Z.to_nat i) ltac:(lia)) as [w Hw].
  set (k := i / counters_dist s).
  assert (0 <= k) as Hk0 by (apply Z.div_pos; lia).
  assert (k < Z.of_nat (length (counters s))) as Hk.
  { rewrite Hsize. unfold k.
    assert (i / counters_dist s <= Z.of_nat (length (sieve s)) / counters_dist s)
      by (apply Z.div_le_mono; lia). lia. }
  assert (counters s !! Z.to_nat k = Some (bucket (sieve s) (counters_dist s) (Z.to_nat k)))
    as Hc by (rewrite Hcs at 1; apply lookup_buckets; lia).
  set (c := bucket (sieve s) (counters_dist s) (Z.to_nat k)) in *.
  set (bit := Z.land (Z.shiftr w b) 1).
  set (w' := Z.land w (u64 (Z.lnot (Z.shiftl 1 b)))).
  assert (0 <= w < 2 ^ 64) as Hwb.
  { rewrite Forall_forall in Hwords. apply Hwords. by eapply list_elem_of_lookup_2. }
  assert (popcnt64 w' = popcnt64 w - bit) as Hpc by (by apply popcnt64_clear).
  assert (0 <= bit <= 1) as Hbit.
  { unfold bit. rewrite land_shiftr_1 by lia. destruct (Z.testbit w b); simpl; lia. }
  pose proof (popcnt64_bounds w') as Hw'b.
  assert (popcount (<[Z.to_nat i := w']> (sieve s)) = popcount (sieve s) - bit) as Hpop.
  { rewrite (popcount_insert _ _ w) by done. lia. }
  assert (bucket (<[Z.to_nat i := w']> (sieve s)) (counters_dist s) (Z.to_nat k) = c - bit)
    as Hbk.
  { rewrite (bucket_insert _ _ _ _ w) by done.
    rewrite decide_True by (unfold k; rewrite !Z2Nat.id by lia; done).
    unfold c. lia. }
  pose proof (popcount_bounds (<[Z.to_nat i := w']> (sieve s))) as Hpb.
  pose proof (popcount_bounds (sieve s)) as Hpb0.
  pose proof (popcount_take_le (Z.to_nat (counters_dist s))
                (drop (Z.to_nat k * Z.to_nat (counters_dist s)) (<[Z.to_nat i := w']> (sieve s))))
    as Hbb.
  pose proof (popcount_bounds
                (drop (Z.to_nat k * Z.to_nat (counters_dist s)) (sieve s))) as Hdb.
  pose proof (popcount_take_le (Z.to_nat (counters_dist s))
                (drop (Z.to_nat k * Z.to_nat (counters_dist s)) (sieve s))) as Hcb.
  rewrite length_drop in Hdb. fold (bucket (sieve s) (counters_dist s) (Z.to_nat k)) in Hcb.
  fold c in Hcb.
  fold (bucket (<[Z.to_nat i := w']> (sieve s)) (counters_dist s) (Z.to_nat k)) in Hbb.
  rewrite Hbk in Hbb.
  eexists w, c, _. split; [done|]. split; [done|].
  split.
  { unfold cross_off_bit. rewrite (read_Done _ _ w Hi0 Hw). simpl.
    replace (Z.shiftr i (counters_dist_log2 s)) with k
      by (unfold k; rewrite Z.shiftr_div_pow2, Hdist by lia; done).
    rewrite (read_Done _ _ c Hk0 Hc). simpl.
    rewrite write_Done by lia. simpl. rewrite write_Done by lia. simpl.
    fold bit w'. rewrite !u64_small by lia. reflexivity. }
  simpl. split; [done|]. split; [done|]. split; [done|]. split; [done|].
  split; [by repeat split|].
  split.
  - constructor; simpl; try done.
    + by rewrite !length_insert.
    + apply Forall_insert; [done|]. by apply land_clear_bounds.
    + by rewrite length_insert.
  - constructor; simpl; [|lia].
    rewrite length_insert. apply list_eq. intros j.
    destruct (decide (j < length (counters s))%nat) as [Hj|Hj].
    2:{ rewrite lookup_ge_None_2 by (rewrite length_insert; lia).
        rewrite lookup_ge_None_2; [done|]. rewrite length_map, length_seq. lia. }
    rewrite lookup_buckets by done.
    destruct (decide (j = Z.to_nat k)) as [->|Hjk].
    + rewrite list_lookup_insert_eq by lia. by rewrite Hbk.
    + rewrite list_lookup_insert_ne by done.
      rewrite Hcs at 1. rewrite lookup_buckets by done. f_equal.
      rewrite (bucket_insert _ _ _ _ w) by done.
      rewrite decide_False; [lia|]. rewrite Z2Nat.id by lia. fold k. lia.
Qed.

Lemma same_cursor_refl s : same_cursor s s.
Proof. by repeat split. Qed.

Lemma same_cursor_trans s1 s2 s3 :
  same_cursor s1 s2 -> same_cursor s2 s3 -> same_cursor s1 s3.
Proof. unfold same_cursor. intros H1 H2. destruct_and!. repeat split; congruence. Qed.

Lemma cross_off_bits_spec locs s :
  shape s -> counted s -> Forall (loc_ok s) locs ->
  exists s', cross_off_bits locs s = Done s' /\ shape s' /\ counted s' /\
             same_cursor s s' /\
             length (sieve s') = length (sieve s) /\
             length (counters s') = length (counters s).
Proof.
  revert s. induction locs as [|[i b] locs IH]; intros s Hsh Hcn Hok.
  - exists s. split; [done|]. split; [done|]. split; [done|].
    split; [apply same_cursor_refl|done].
  - apply Forall_cons in Hok as [Hloc Hok].
    destruct (cross_off_bit_spec s i b Hsh Hcn Hloc)
      as (w & c & s1 & Hw & Hc & Hrun & Hsv & Htot & Hcs & Hpop & Hsame & Hsh1 & Hcn1).
    assert (length (sieve s1) = length (sieve s)) as Hlen
      by (rewrite Hsv; apply length_insert).
    assert (length (counters s1) = length (counters s)) as Hlenc
      by (rewrite Hcs; apply length_insert).
    destruct (IH s1 Hsh1 Hcn1) as (s' & Hrun' & ? & ? & ? & ? & ?).
    { eapply Forall_impl; [exact Hok|]. intros [i' b']. unfold loc_ok. by rewrite Hlen. }
    exists s'. simpl. rewrite Hrun. simpl.
    split; [done|]. split; [done|]. split; [done|].
    split; [by eapply same_cursor_trans|]. split; congruence.
Qed.

Lemma testbit_high v n : 0 <= v < 2 ^ 64 -> 64 <= n -> Z.testbit v n = false.
Proof.
  intros Hv Hn. destruct (decide (v = 0)) as [->|Hv0]; [apply Z.bits_0|].
  apply Z.bits_above_log2; [lia|].
  assert (Z.log2 v < 64) by (apply Z.log2_lt_pow2; lia). lia.
Qed.

(** The mask of the cross-off step clears the bit and nothing else. *)
Lemma land_clear_clearbit w b :
  0 <= w < 2 ^ 64 -> 0 <= b < 64 ->
  Z.land w (u64 (Z.lnot (Z.shiftl 1 b))) = Z.clearbit w b.
Proof.
  intros Hw Hb. apply Z.bits_inj'. intros n Hn.
  rewrite Z.clearbit_eqb.
  destruct (decide (n < 64)) as [Hlt|Hge].
  - rewrite testbit_clear by lia. by rewrite Z.eqb_sym.
  - rewrite (testbit_high _ n (land_clear_bounds w b Hw)) by lia.
    by rewrite (testbit_high w n Hw) by lia.
Qed.

Lemma cross_off_bits_clear locs s s' :
  shape s -> counted s -> Forall (loc_ok s) locs ->
  cross_off_bits locs s = Done s' ->
  sieve s' = foldl clear_bit (sieve s) locs.
Proof.
  revert s. induction locs as [|[i b] locs IH]; intros s Hsh Hcn Hok Hrun.
  - cbn [cross_off_bits] in Hrun. by injection Hrun as <-.
  - apply Forall_cons in Hok as [Hloc Hok].
    destruct (cross_off_bit_spec s i b Hsh Hcn Hloc)
      as (w & c & s1 & Hw & Hc & Hrun1 & Hsv & _ & _ & _ & _ & Hsh1 & Hcn1).
    cbn [cross_off_bits] in Hrun. rewrite Hrun1 in Hrun.
    cbn [mbind outcome_bind] in Hrun.
    assert (length (sieve s1) = length (sieve s)) as Hlen
      by (rewrite Hsv; apply length_insert).
    rewrite (IH s1 Hsh1 Hcn1); [|
      eapply Forall_impl; [exact Hok|]; intros [i' b']; unfold loc_ok;
      by rewrite Hlen|done].
    cbn [foldl]. f_equal. unfold clear_bit. cbn [fst snd]. rewrite Hw, Hsv.
    f_equal. destruct Hloc as [_ Hb]. cbn [snd] in Hb.
    apply land_clear_clearbit; [|done].
    destruct Hsh as [_ _ _ Hwords _]. rewrite Forall_forall in Hwords.
    apply Hwords. by eapply list_elem_of_lookup_2.
Qed.

(** *** Counting *)

Definition same_bits (s s' : Sieve) : Prop :=
  sieve s' = sieve s /\ total_count s' = total_count s /\
  counters s' = counters s /\ counters_dist s' = counters_dist s /\
  counters_dist_log2 s' = counters_dist_log2 s.

(** The part of the cursor invariant that no cross-off can break. *)
Definition steps (s : Sieve) : Prop :=
  0 <= counters_i s /\
  counters_stop s = (counters_i s + 1) * counters_dist s.

(** The running sum of the counters that the cursor has passed. *)
Definition walked (s : Sieve) : Prop :=
  counters_count s = prefix_count (sieve s) (counters_i s * counters_dist s).

Lemma same_bits_shape s s' : same_bits s s' -> shape s -> shape s'.
Proof.
  intros (Hs & Ht & Hc & Hd & Hl) [? ? ? ? ?].
  constructor; rewrite ?Hs, ?Hc, ?Hd, ?Hl; done.
Qed.

Lemma same_bits_counted s s' : same_bits s s' -> counted s -> counted s'.
Proof.
  intros (Hs & Ht & Hc & Hd & Hl) [? ?].
  constructor; rewrite ?Hs, ?Hc, ?Hd, ?Hl, ?Ht; done.
Qed.

Lemma prefix_count_bounds ws n :
  0 <= prefix_count ws n <= 64 * Z.of_nat (length ws).
Proof.
  unfold prefix_count. pose proof (popcount_take_le (Z.to_nat n) ws).
  pose proof (popcount_bounds ws). lia.
Qed.

Lemma prefix_count_split ws a n :
  0 <= a -> 0 <= n ->
  prefix_count ws a + popcount (take (Z.to_nat n) (drop (Z.to_nat a) ws)) =
  prefix_count ws (a + n).
Proof.
  intros Ha Hn. unfold prefix_count.
  rewrite <- popcount_app, take_take_drop. f_equal. f_equal. lia.
Qed.

Lemma count_loop_spec fuel stop s start :
  shape s -> counted s -> steps s ->
  0 <= stop < Z.of_nat (length (sieve s)) ->
  stop / counters_dist s - counters_i s <= Z.of_nat fuel ->
  exists s' start',
    count_loop fuel stop s start = Done (s', start') /\
    same_bits s s' /\ prev_stop s' = prev_stop s /\ steps s' /\
    stop < counters_stop s' /\
    ((s' = s /\ start' = start) \/
     (start' = counters_i s' * counters_dist s' /\ start' <= stop /\
      count_ s' = counters_count s')) /\
    (walked s -> walked s').
Proof.
  revert s start. induction fuel as [|fuel IH]; intros s start Hsh Hcn Hwk Hstop Hfuel.
  all: pose proof (shape_dist_pos s Hsh) as Hd.
  all: destruct Hwk as (Hi & Hcs).
  all: assert (counters_stop s <= stop -> counters_i s + 1 <= stop / counters_dist s)
         as Hiter by (intros Hle; apply Z.div_le_lower_bound; lia).
  - cbn [count_loop]. case_decide as Hle.
    + apply Hiter in Hle. lia.
    + exists s, start. repeat split; try done; try lia. by left.
  - cbn [count_loop]. case_decide as Hle.
    2:{ exists s, start. repeat split; try done; try lia. by left. }
    pose proof (Hiter Hle) as Hi1.
    destruct (Hsh) as [Hlog Hdist Hsize Hwords Hsmall].
    assert (stop / counters_dist s <= Z.of_nat (length (sieve s)) / counters_dist s)
      as Hdiv by (apply Z.div_le_mono; lia).
    assert (counters s !! Z.to_nat (counters_i s) =
            Some (bucket (sieve s) (counters_dist s) (Z.to_nat (counters_i s)))) as Hc.
    { destruct Hcn as [Hcm _]. rewrite Hcm at 1. apply lookup_buckets. lia. }
    rewrite (read_Done _ _ _ Hi Hc). cbn [mbind outcome_bind].
    rewrite (u64_small (counters_i s + 1)) by lia.
    rewrite (u64_small (counters_stop s + counters_dist s)) by lia.
    match goal with |- context [count_loop fuel stop ?s1 ?st] =>
      destruct (IH s1 st) as (s' & start' & Hrun & Hsb & Hps & Hwk' & Hlt & Hcase & Hval) end.
    + by constructor.
    + destruct Hcn. by constructor.
    + split; simpl; lia.
    + done.
    + simpl. lia.
    + exists s', start'. split; [exact Hrun|].
      destruct Hsb as (? & ? & ? & ? & ?). simpl in *.
      split; [by repeat split|]. split; [done|]. split; [done|]. split; [done|].
      split.
      * right. destruct Hcase as [[-> ->]|?]; [|done]. simpl.
        split; [lia|]. split; [lia|done].
      * intros Hcc. apply Hval. unfold walked in *. simpl. rewrite Hcc.
        unfold bucket.
        replace (Z.to_nat (counters_i s) * Z.to_nat (counters_dist s))%nat
          with (Z.to_nat (counters_i s * counters_dist s)) by lia.
        rewrite prefix_count_split by lia.
        replace (counters_i s * counters_dist s + counters_dist s)
          with ((counters_i s + 1) * counters_dist s) by lia.
        apply u64_small.
        pose proof (prefix_count_bounds (sieve s) ((counters_i s + 1) * counters_dist s)).
        lia.
Qed.

Lemma count_spec s stop :
  shape s -> counted s -> steps s ->
  0 <= stop < Z.of_nat (length (sieve s)) ->
  exists s' r,
    count s stop = Done (s', r) /\
    same_bits s s' /\ steps s' /\ prev_stop s' = stop /\ count_ s' = r /\
    (walked s -> walked s') /\
    (walked s ->
     count_ s = prefix_count (sieve s) (u64 (prev_stop s + 1)) ->
     u64 (prev_stop s + 1) <= stop + 1 ->
     r = popcount_upto (sieve s) stop).
Proof.
  intros Hsh Hcn Hwk Hstop.
  pose proof (shape_dist_pos s Hsh) as Hd.
  unfold count.
  match goal with |- context [count_loop ?f stop ?s1 ?st] =>
    destruct (count_loop_spec f stop s1 st)
      as (s2 & start' & Hrun & Hsb & Hps & Hwk' & Hlt & Hcase & Hval) end.
  - destruct Hsh. by constructor.
  - destruct Hcn. by constructor.
  - exact Hwk.
  - exact Hstop.
  - simpl. destruct Hsh as [Hlog Hdist Hsize Hwords Hsmall], Hwk as (Hi & _).
    assert (stop / counters_dist s <= Z.of_nat (length (sieve s)) / counters_dist s)
      by (apply Z.div_le_mono; lia). lia.
  - rewrite Hrun. cbn [mbind outcome_bind].
    destruct Hsb as (Hsv & Htc & Hcs & Hcd & Hcl). simpl in *.
    eexists _, _. split; [reflexivity|]. simpl.
    split; [by repeat split|]. split; [exact Hwk'|]. split; [done|]. split; [done|].
    split; [exact Hval|].
    intros Hwd Hprev Hmono. specialize (Hval Hwd).
    destruct Hsh as [Hlog Hdist Hsize Hwords Hsmall].
    pose proof (prefix_count_bounds (sieve s) (stop + 1)) as Hpb.
    assert (0 <= u64 (prev_stop s + 1)) as Hu by (unfold u64; apply Z.mod_pos_bound; lia).
    unfold popcount_upto, count_range. rewrite Hsv.
    destruct Hcase as [[-> ->]|(-> & Hle & Hcnt)]; simpl.
    + rewrite Hprev, prefix_count_split by lia.
      replace (u64 (prev_stop s + 1) + (stop + 1 - u64 (prev_stop s + 1)))
        with (stop + 1) by lia.
      apply u64_small. lia.
    + destruct Hwk' as (Hi' & _). unfold walked in Hval. rewrite Hcnt, Hval, Hsv, Hcd.
      rewrite Hcd in Hle.
      rewrite prefix_count_split by nia.
      replace (counters_i s2 * counters_dist s + (stop + 1 - counters_i s2 * counters_dist s))
        with (stop + 1) by lia.
      apply u64_small. lia.
Qed.

(** *** The state after [pre_sieve] *)

Lemma nearest_power_of_2_pow n :
  nearest_power_of_2 n = 2 ^ Z.log2 (nearest_power_of_2 n).
Proof.
  unfold nearest_power_of_2. pose proof (Z.log2_nonneg n).
  case_decide.
  - by rewrite Z.log2_pow2.
  - replace (2 * 2 ^ Z.log2 n) with (2 ^ (Z.log2 n + 1))
      by (rewrite Z.pow_add_r by lia; lia).
    by rewrite Z.log2_pow2 by lia.
Qed.

Lemma buckets_total ws dist (n : nat) :
  Z.of_nat (length ws) <= Z.of_nat n * dist ->
  Zsum (map (bucket ws dist) (seq 0 n)) = popcount ws.
Proof.
  intros Hn. rewrite bucket_sum, take_ge; [done|]. nia.
Qed.

Lemma counters_total s :
  shape s -> counted s -> Zsum (counters s) = popcount (sieve s).
Proof.
  intros Hsh [Hcs _]. pose proof (shape_dist_pos s Hsh) as Hd.
  destruct Hsh as [_ _ Hsize _ _]. rewrite Hcs. apply buckets_total.
  rewrite Hsize.
  pose proof (Z.mul_succ_div_gt (Z.of_nat (length (sieve s))) (counters_dist s) Hd).
  lia.
Qed.

Lemma init_counters_inv ws low :
  Forall (fun w => 0 <= w < 2 ^ 64) ws ->
  segment_fits (Z.of_nat (length ws)) low ->
  let s := init_counters ws low in
  shape s /\ counted s /\ cursor s /\ sieve s = ws.
Proof.
  intros Hws Hfit. unfold init_counters, allocate_counters. simpl.
  set (dist := nearest_power_of_2 (Z.sqrt (Z.sqrt low))) in *.
  assert (0 < dist) as Hd.
  { unfold dist. rewrite nearest_power_of_2_pow. apply Z.pow_pos_nonneg; [lia|].
    apply Z.log2_nonneg. }
  assert (0 <= Z.of_nat (length ws) / dist) by (apply Z.div_pos; lia).
  split; [|split; [|split]]; [| | |done].
  - constructor; simpl; try done.
    + apply Z.log2_nonneg.
    + apply nearest_power_of_2_pow.
    + rewrite length_map, length_seq. lia.
  - constructor; simpl; [|done].
    by rewrite length_map, length_seq.
  - constructor; simpl; try done; try lia.
Qed.

Lemma presieved_words primes c low (n : nat) :
  Forall (fun w => 0 <= w < 2 ^ 64)
    (map (fun i : nat => presieved_word primes c (low + Z.of_nat i)) (seq 0 n)).
Proof.
  apply Forall_forall. intros w [i [-> _]]%list_elem_of_fmap_1.
  unfold presieved_word. case_match; lia.
Qed.

Lemma pre_sieve_length primes c low high :
  Z.of_nat (length (sieve (pre_sieve primes c low high))) = Z.max 0 (high - low).
Proof.
  unfold pre_sieve, init_counters, allocate_counters. simpl.
  rewrite length_map, length_seq. lia.
Qed.

Lemma pre_sieve_inv primes c low high :
  low <= high -> segment_fits (high - low) low ->
  let s := pre_sieve primes c low high in
  shape s /\ counted s /\ cursor s.
Proof.
  intros Hlh Hfit. unfold pre_sieve.
  match goal with |- context [init_counters ?ws low] =>
    destruct (init_counters_inv ws low) as (? & ? & ? & ?) end; [| |done].
  - apply presieved_words.
  - rewrite length_map, length_seq. unfold segment_fits in *.
    by rewrite Z2Nat.id by lia.
Qed.

(** *** Runs of operations *)

Lemma cursor_steps s : cursor s -> steps s.
Proof. intros [? ? ? ?]. by split. Qed.

Lemma op_ok_length s s' o :
  length (sieve s') = length (sieve s) -> op_ok s o -> op_ok s' o.
Proof.
  intros Hlen. destruct o as [locs|stop]; simpl.
  - intros H. eapply Forall_impl; [exact H|].
    intros [i b]. unfold loc_ok. by rewrite Hlen.
  - by rewrite Hlen.
Qed.

Lemma same_cursor_steps s s' : same_cursor s s' -> steps s -> steps s'.
Proof.
  intros (Hd & Hl & Hp & Hc & Hi & Hcc & Hcs) (? & ?).
  split; rewrite ?Hd, ?Hi, ?Hcs; done.
Qed.

Lemma same_bits_steps s s' : same_bits s s' -> length (sieve s') = length (sieve s).
Proof. intros (-> & _). done. Qed.

(** *** The cursor after a cross-off *)

Lemma reset_same_bits s : same_bits s (reset_counters s).
Proof. by repeat split. Qed.

Lemma reset_length s : length (sieve (reset_counters s)) = length (sieve s).
Proof. done. Qed.

(** A fresh cursor stays right whatever is crossed off behind it. *)
Lemma fresh_cursor s s1 :
  same_cursor (reset_counters s) s1 -> cursor s1 /\ u64 (prev_stop s1 + 1) = 0.
Proof.
  intros (Hd & Hl & Hp & Hc & Hi & Hcc & Hcs). cbn in Hd, Hp, Hc, Hi, Hcc, Hcs.
  split.
  - constructor.
    + rewrite Hi. lia.
    + rewrite Hcs, Hi, Hd. lia.
    + rewrite Hcc, Hi. reflexivity.
    + rewrite Hc, Hp. reflexivity.
  - rewrite Hp. reflexivity.
Qed.

Lemma run_spec ops s :
  shape s -> counted s -> steps s -> Forall (op_ok s) ops ->
  exists s' rs, run ops s = Done (s', rs) /\ shape s' /\ counted s' /\ steps s' /\
                length (sieve s') = length (sieve s).
Proof.
  revert s. induction ops as [|o ops IH]; intros s Hsh Hcn Hst Hok.
  { exists s, []. by split_and!. }
  apply Forall_cons in Hok as [Ho Hok]. destruct o as [locs|stop]; simpl in Ho.
  - destruct (cross_off_bits_spec locs (reset_counters s))
      as (s1 & Hrun & Hsh1 & Hcn1 & Hsame & Hlen & _).
    { by eapply same_bits_shape; [apply reset_same_bits|]. }
    { by eapply same_bits_counted; [apply reset_same_bits|]. }
    { done. }
    rewrite reset_length in Hlen.
    destruct (IH s1 Hsh1 Hcn1) as (s' & rs & Hrun' & ? & ? & ? & Hlen').
    { apply cursor_steps. by apply (fresh_cursor s). }
    { eapply Forall_impl; [exact Hok|]. intros o. by apply op_ok_length. }
    exists s', rs. cbn [run]. rewrite Hrun. cbn [mbind outcome_bind].
    split_and!; try done. congruence.
  - destruct (count_spec s stop Hsh Hcn Hst Ho)
      as (s1 & r & Hrun & Hsb & Hst1 & _).
    pose proof (same_bits_steps _ _ Hsb) as Hlen.
    destruct (IH s1) as (s' & rs & Hrun' & ? & ? & ? & Hlen').
    { by eapply same_bits_shape. }
    { by eapply same_bits_counted. }
    { done. }
    { eapply Forall_impl; [exact Hok|]. intros o. by apply op_ok_length. }
    exists s', (r :: rs). cbn [run]. rewrite Hrun. cbn [mbind outcome_bind].
    rewrite Hrun'. cbn [mbind outcome_bind].
    split_and!; try done. congruence.
Qed.

(** Every [count] of a run returns the brute-force popcount of the sieve
    at the time of the call. *)
Lemma run_agrees ops s prev :
  shape s -> counted s -> cursor s -> u64 (prev_stop s + 1) <= prev + 1 ->
  Forall (op_ok s) ops -> monotone prev ops ->
  exists s', run ops s = Done (s', brute_force ops (sieve s)).
Proof.
  revert s prev.
  induction ops as [|o ops IH]; intros s prev Hsh Hcn Hcur Hprev Hok Hmono.
  { by exists s. }
  apply Forall_cons in Hok as [Ho Hok]. destruct o as [locs|stop]; simpl in Ho.
  - cbn [monotone] in Hmono.
    destruct (cross_off_bits_spec locs (reset_counters s))
      as (s1 & Hrun & Hsh1 & Hcn1 & Hsame & Hlen & _).
    { by eapply same_bits_shape; [apply reset_same_bits|]. }
    { by eapply same_bits_counted; [apply reset_same_bits|]. }
    { done. }
    rewrite reset_length in Hlen.
    destruct (fresh_cursor s s1 Hsame) as [Hcur1 Hp1].
    assert (sieve s1 = foldl clear_bit (sieve s) locs) as Hbits.
    { apply (cross_off_bits_clear locs (reset_counters s)); [| |done|done].
      - by eapply same_bits_shape; [apply reset_same_bits|].
      - by eapply same_bits_counted; [apply reset_same_bits|]. }
    destruct (IH s1 0 Hsh1 Hcn1 Hcur1) as (s' & Hrun'); [lia| |done|].
    { eapply Forall_impl; [exact Hok|]. intros o. by apply op_ok_length. }
    exists s'. cbn [run brute_force]. rewrite Hrun. cbn [mbind outcome_bind].
    by rewrite Hrun', Hbits.
  - cbn [monotone] in Hmono. destruct Hmono as [Hle Hmono].
    destruct Hcur as [Hi Hstop Hwd Hcp].
    destruct (count_spec s stop Hsh Hcn (conj Hi Hstop) Ho)
      as (s1 & r & Hrun & Hsb & Hst1 & Hps1 & Hc1 & Hwd1 & Hval).
    specialize (Hval Hwd Hcp ltac:(lia)). specialize (Hwd1 Hwd).
    pose proof Hsb as (Hsv & _).
    pose proof (shape_dist_pos s Hsh) as Hd.
    assert (u64 (stop + 1) = stop + 1) as Hu.
    { destruct Hsh as [_ _ _ _ Hsmall]. apply u64_small. lia. }
    destruct (IH s1 stop) as (s' & Hrun').
    + by eapply same_bits_shape.
    + by eapply same_bits_counted.
    + destruct Hst1 as [Hi1 Hstop1]. constructor; [done|done|done|].
      rewrite Hc1, Hps1, Hsv, Hu, Hval. done.
    + rewrite Hps1, Hu. lia.
    + eapply Forall_impl; [exact Hok|]. intros o. apply op_ok_length.
      by rewrite Hsv.
    + done.
    + exists s'. cbn [run brute_force]. rewrite Hrun. cbn [mbind outcome_bind].
      rewrite Hrun'. cbn [mbind outcome_bind]. by rewrite Hsv, Hval.
Qed.

(** Stops that do not decrease over the whole segment do not decrease
    between two cross-offs either. *)
Lemma sorted_stops_monotone ops prev :
  Forall (fun stop => 0 <= stop /\ prev <= stop) (stops_of ops) ->
  Sorted Z.le (stops_of ops) -> monotone prev ops.
Proof.
  revert prev. induction ops as [|[locs|stop] ops IH]; intros prev Hge Hsorted.
  - done.
  - cbn [monotone]. apply IH; [|done].
    eapply Forall_impl; [exact Hge|]. intros stop ?. cbn in *. lia.
  - cbn [stops_of omap] in Hge, Hsorted. fold (stops_of ops) in Hge, Hsorted.
    apply Forall_cons in Hge as [Hs Hge]. cbn [monotone]. split; [lia|].
    apply IH; [|by apply Sorted_inv in Hsorted as [? _]].
    apply Sorted_extends in Hsorted; [|intros ???; lia].
    rewrite Forall_forall in Hge, Hsorted. apply Forall_forall.
    intros stop' Hin. specialize (Hge _ Hin). specialize (Hsorted _ Hin).
    cbn in *. lia.
Qed.

(** C2. After [pre_sieve] and any sequence of [cross_off_count] and
    [count] operations on the segment, [total_count] equals the sum of
    all [counters] entries, which equals the popcount of the sieve array;
    and a cross-off step on a bit that is still set decrements
    [total_count] and the one counter that owns the bit, by one each,
    leaving every other counter as it was. *)
Theorem sieve_counts_invariant primes c low high ops :
  low <= high -> segment_fits (high - low) low ->
  Forall (op_ok (pre_sieve primes c low high)) ops ->
  exists s' rs,
    run ops (pre_sieve primes c low high) = Done (s', rs) /\
    total_count s' = Zsum (counters s') /\
    Zsum (counters s') = popcount (sieve s') /\
    forall i b w,
      loc_ok s' (i, b) -> sieve s' !! Z.to_nat i = Some w ->
      Z.testbit w b = true ->
      exists cnt s'',
        counters s' !! Z.to_nat (Z.shiftr i (counters_dist_log2 s')) = Some cnt /\
        cross_off_bit i b s' = Done s'' /\
        total_count s'' = total_count s' - 1 /\
        counters s'' =
          <[Z.to_nat (Z.shiftr i (counters_dist_log2 s')) := cnt - 1]> (counters s') /\
        popcount (sieve s'') = popcount (sieve s') - 1 /\
        total_count s'' = Zsum (counters s'') /\
        Zsum (counters s'') = popcount (sieve s'').
Proof.
  intros Hlh Hfit Hok.
  destruct (pre_sieve_inv primes c low high Hlh Hfit) as (Hsh & Hcn & Hcur).
  destruct (run_spec ops _ Hsh Hcn (cursor_steps _ Hcur) Hok)
    as (s' & rs & Hrun & Hsh' & Hcn' & Hst' & Hlen).
  exists s', rs. split; [done|].
  pose proof (counters_total s' Hsh' Hcn') as Hsum.
  split; [destruct Hcn'; congruence|]. split; [done|].
  intros i b w Hloc Hw Hbit.
  destruct (cross_off_bit_spec s' i b Hsh' Hcn' Hloc)
    as (w0 & cnt & s'' & Hw0 & Hc & Hrun' & Hsv & Htot & Hcs & Hpop & _ & Hsh'' & Hcn'').
  assert (w0 = w) as -> by congruence.
  destruct Hloc as [[Hi0 _] [Hb0 _]]. simpl in Hi0, Hb0.
  rewrite land_shiftr_1, Hbit in * by lia. simpl in *.
  assert (Z.shiftr i (counters_dist_log2 s') = i / counters_dist s') as ->.
  { destruct Hsh' as [? -> _ _ _]. by rewrite Z.shiftr_div_pow2. }
  exists cnt, s''. split_and!; try done.
  - destruct Hcn''. rewrite (counters_total s'' Hsh''); done.
  - by apply counters_total.
Qed.

(** C1. After [pre_sieve] and any interleaving of cross-offs and
    [count] calls whose stops lie inside the segment and do not decrease
    (between two cross-offs they must not; after a cross-off they may
    start again), every [count(stop)] returns exactly the number of
    1 bits that the sieve array holds, at the time of the call, at the
    positions 0 to stop inclusive: the brute-force popcount. *)
Theorem count_agrees_with_popcount primes c low high ops :
  low <= high -> segment_fits (high - low) low ->
  Forall (op_ok (pre_sieve primes c low high)) ops ->
  monotone 0 ops ->
  exists s',
    run ops (pre_sieve primes c low high) =
    Done (s', brute_force ops (sieve (pre_sieve primes c low high))).
Proof.
  intros Hlh Hfit Hok Hmono.
  destruct (pre_sieve_inv primes c low high Hlh Hfit) as (Hsh & Hcn & Hcur).
  apply (run_agrees ops _ 0); try done.
Qed.

(** A run on the sieve of the integers 0..7 with the even ones removed:
    [count(5)], the multiples of 3 crossed off, [count(7)], the
    multiples of 5 crossed off, then [count(2)] and [count(6)]. *)
Lemma count_agrees_with_popcount_witness :
  let s0 := pre_sieve [0; 2; 3; 5] 1 0 8 in
  let ops := [OpCount 5; OpCrossOff (multiples 0 8 3); OpCount 7;
              OpCrossOff (multiples 0 8 5); OpCount 2; OpCount 6] in
  (exists s', run ops s0 = Done (s', brute_force ops (sieve s0))) /\
  brute_force ops (sieve s0) = [3; 3; 1; 1].
Proof.
  intros s0 ops. split; [|vm_compute; reflexivity].
  apply (count_agrees_with_popcount [0; 2; 3; 5] 1 0 8 ops).
  - lia.
  - vm_compute. done.
  - vm_compute. repeat constructor; done.
  - cbn. lia.
Defined.

Lemma sieve_counts_invariant_witness :
  let s0 := pre_sieve [0; 2; 3] 1 0 8 in
  let ops := [OpCount 5; OpCrossOff (multiples 0 8 3); OpCount 7] in
  exists s' rs,
    run ops s0 = Done (s', rs) /\
    total_count s' = Zsum (counters s') /\
    Zsum (counters s') = popcount (sieve s').
Proof.
  destruct (sieve_counts_invariant [0; 2; 3] 1 0 8
              [OpCount 5; OpCrossOff (multiples 0 8 3); OpCount 7])
    as (s' & rs & H1 & H2 & H3 & _).
  - lia.
  - vm_compute. done.
  - vm_compute. repeat constructor; done.
  - exists s', rs. auto.
Defined.

End SieveProofs.

(** * Proofs: the special-leaves loop of pi_lmo5 *)

Module LMO5Proofs.
Import SieveModel SieveProofs LMO5.

(** [count] moves the cursor only. *)
Lemma count_loop_same_bits fuel stop s start s' start' :
  count_loop fuel stop s start = Done (s', start') -> same_bits s s'.
Proof.
  revert s start. induction fuel as [|fuel IH]; intros s start; cbn [count_loop].
  - case_decide; [done|]. intros [= <- <-]. by repeat split.
  - case_decide; [|intros [= <- <-]; by repeat split].
    intros (cn & _ & Hrun)%bind_Done. apply IH in Hrun.
    destruct Hrun as (? & ? & ? & ? & ?). simpl in *. by repeat split.
Qed.

Lemma count_same_bits s stop s' r :
  count s stop = Done (s', r) -> same_bits s s'.
Proof.
  unfold count. intros ([s2 start'] & Hloop & Hret)%bind_Done.
  apply count_loop_same_bits in Hloop. injection Hret as <- <-.
  destruct Hloop as (? & ? & ? & ? & ?). simpl in *. by repeat split.
Qed.

Lemma same_bits_refl s : same_bits s s.
Proof. by repeat split. Qed.

Lemma same_bits_trans s1 s2 s3 :
  same_bits s1 s2 -> same_bits s2 s3 -> same_bits s1 s3.
Proof. unfold same_bits. intros H1 H2. destruct_and!. repeat split; congruence. Qed.

Lemma same_bits_sym s1 s2 : same_bits s1 s2 -> same_bits s2 s1.
Proof. unfold same_bits. intros H1. destruct_and!. by repeat split. Qed.

(** A cross-off reads and writes the bits and counts only. *)
Lemma cross_off_bit_same_bits i b s1 s2 s1' :
  same_bits s1 s2 -> cross_off_bit i b s1 = Done s1' ->
  exists s2', cross_off_bit i b s2 = Done s2' /\ same_bits s1' s2'.
Proof.
  intros (Hs & Ht & Hc & Hd & Hl). unfold cross_off_bit.
  rewrite Hs, Hc, Hl, Ht.
  intros (w & -> & H1)%bind_Done. cbn [mbind outcome_bind] in *.
  apply bind_Done in H1 as (cn & -> & H1). cbn [mbind outcome_bind] in *.
  apply bind_Done in H1 as (cs' & -> & H1). cbn [mbind outcome_bind] in *.
  apply bind_Done in H1 as (sv' & -> & H1). cbn [mbind outcome_bind] in *.
  injection H1 as <-. eexists. split; [done|]. by repeat split.
Qed.

Lemma cross_off_bits_same_bits locs s1 s2 s1' :
  same_bits s1 s2 -> cross_off_bits locs s1 = Done s1' ->
  exists s2', cross_off_bits locs s2 = Done s2' /\ same_bits s1' s2'.
Proof.
  revert s1 s2. induction locs as [|[i b] locs IH]; intros s1 s2 Hsb; cbn [cross_off_bits].
  - intros [= <-]. by exists s2.
  - intros (s1a & H1 & H2)%bind_Done.
    destruct (cross_off_bit_same_bits _ _ _ _ _ Hsb H1) as (s2a & -> & Hsb').
    cbn [mbind outcome_bind]. by eapply IH.
Qed.

Lemma cross_off_count_same_bits low prime s1 s2 s1' :
  same_bits s1 s2 -> cross_off_count low prime s1 = Done s1' ->
  exists s2', cross_off_count low prime s2 = Done s2' /\ same_bits s1' s2'.
Proof.
  intros Hsb. unfold cross_off_count.
  assert (same_bits (reset_counters s1) (reset_counters s2)) as Hr
    by (destruct Hsb as (? & ? & ? & ? & ?); by repeat split).
  destruct (Hsb) as (-> & _).
  by apply cross_off_bits_same_bits.
Qed.

(** The sieve words after a batch of cross-offs of bit 0. *)
Definition clear0 (w : Z) : Z := Z.land w (u64 (Z.lnot (Z.shiftl 1 0))).

Lemma clear0_idem w : clear0 (clear0 w) = clear0 w.
Proof. unfold clear0. by rewrite <- Z.land_assoc, Z.land_diag. Qed.

Lemma cross_off_bits_lookup (idxs : list nat) s s' :
  shape s -> counted s ->
  Forall (fun i : nat => (i < length (sieve s))%nat) idxs ->
  cross_off_bits (map (fun i : nat => (Z.of_nat i, 0)) idxs) s = Done s' ->
  shape s' /\ counted s' /\ same_cursor s s' /\
  length (sieve s') = length (sieve s) /\
  forall (j : nat) w, sieve s !! j = Some w ->
    sieve s' !! j = Some (if decide (j ∈ idxs) then clear0 w else w).
Proof.
  revert s. induction idxs as [|i idxs IH]; intros s Hsh Hcn Hok; cbn [map cross_off_bits].
  { intros [= <-]. split_and!; [done|done|apply same_cursor_refl|done|].
    intros j w Hw. rewrite decide_False; [done|apply not_elem_of_nil]. }
  apply Forall_cons in Hok as [Hi Hok].
  intros (s1 & H1 & H2)%bind_Done.
  destruct (cross_off_bit_spec s (Z.of_nat i) 0 Hsh Hcn)
    as (w & cn & s1' & Hw & Hc & Hrun & Hsv & Htot & Hcs & Hpop & Hsame & Hsh1 & Hcn1).
  { split; simpl; lia. }
  assert (s1' = s1) as -> by congruence.
  rewrite Nat2Z.id in Hsv, Hw.
  assert (length (sieve s1) = length (sieve s)) as Hlen
    by (rewrite Hsv; apply length_insert).
  destruct (IH s1 Hsh1 Hcn1) as (Hsh' & Hcn' & Hsame' & Hlen' & Hlook); [|done|].
  { eapply Forall_impl; [exact Hok|]. intros k. simpl. by rewrite Hlen. }
  split_and!; try done.
  - by eapply same_cursor_trans.
  - congruence.
  - intros j wj Hwj. destruct (decide (j = i)) as [->|Hne].
    + assert (wj = w) as -> by congruence.
      rewrite (Hlook i (clear0 w)).
      2:{ rewrite Hsv. apply list_lookup_insert_eq. by eapply lookup_lt_Some. }
      rewrite (decide_True (P := i ∈ i :: idxs)) by (by left).
      rewrite clear0_idem. by case_decide.
    + rewrite (Hlook j wj) by (rewrite Hsv, list_lookup_insert_ne; done).
      f_equal. destruct (decide (j ∈ idxs)) as [Hin|Hnin].
      * rewrite decide_True; [done|by right].
      * rewrite decide_False; [done|]. intros [?|?]%elem_of_cons; done.
Qed.

Lemma cross_off_count_spec low prime s :
  shape s -> counted s ->
  exists s', cross_off_count low prime s = Done s' /\
    shape s' /\ counted s' /\ same_cursor (reset_counters s) s' /\
    length (sieve s') = length (sieve s) /\
    forall (j : nat) w, sieve s !! j = Some w ->
      sieve s' !! j =
      Some (if decide ((low + Z.of_nat j) mod prime = 0) then clear0 w else w).
Proof.
  intros Hsh Hcn. unfold cross_off_count, multiples.
  set (idxs := filter (fun i : nat => (low + Z.of_nat i) mod prime = 0)
               (seq 0 (length (sieve s)))).
  assert (Forall (fun i : nat => (i < length (sieve s))%nat) idxs) as Hok.
  { apply Forall_forall. intros i [_ Hi%elem_of_seq]%list_elem_of_filter. lia. }
  pose proof (same_bits_shape _ _ (reset_same_bits s) Hsh) as Hsh0.
  pose proof (same_bits_counted _ _ (reset_same_bits s) Hcn) as Hcn0.
  destruct (cross_off_bits_spec (map (fun i : nat => (Z.of_nat i, 0)) idxs)
              (reset_counters s) Hsh0 Hcn0)
    as (s' & Hrun & _).
  { apply Forall_forall. intros [i b] (k & [= -> ->] & Hk)%list_elem_of_fmap_1.
    rewrite Forall_forall in Hok. specialize (Hok k Hk). split; simpl; lia. }
  exists s'. split; [done|].
  destruct (cross_off_bits_lookup idxs (reset_counters s) s' Hsh0 Hcn0 Hok Hrun)
    as (? & ? & ? & ? & Hlook).
  split_and!; try done.
  intros j w Hw. rewrite (Hlook j w Hw). f_equal.
  destruct (decide ((low + Z.of_nat j) mod prime = 0)) as [Hm|Hm].
  - rewrite decide_True; [done|]. apply list_elem_of_filter. split; [done|].
    apply elem_of_seq. apply lookup_lt_Some in Hw. lia.
  - rewrite decide_False; [done|]. by intros [? _]%list_elem_of_filter.
Qed.

Section Loops.

Variables (x y c : Z) (primes lpf mu pi : list Z) (segment_size : Z).

Lemma sqfree_leaf_inv low prime b m st st' stop :
  sqfree_leaf x mu low prime b m st = Done (st', stop) ->
  same_bits (sv st) (sv st') /\ phi st' = phi st.
Proof.
  unfold sqfree_leaf. intros (xpm & _ & H)%bind_Done.
  apply bind_Done in H as (phi_b & _ & H).
  apply bind_Done in H as ([sv' cnt] & Hc & H).
  apply bind_Done in H as (mu_m & _ & H). injection H as <- <-.
  apply count_same_bits in Hc. done.
Qed.

Lemma sqfree_leaves_inv n low prime b m st st' stops :
  sqfree_leaves x lpf mu n low prime b m st = Done (st', stops) ->
  same_bits (sv st) (sv st') /\ phi st' = phi st.
Proof.
  revert m st stops. induction n as [|n IH]; intros m st stops; cbn [sqfree_leaves].
  { intros [= <- <-]. split; [apply same_bits_refl|done]. }
  intros (mu_m & _ & H)%bind_Done.
  apply bind_Done in H as ([st1 here] & H1 & H).
  apply bind_Done in H as ([st2 later] & H2 & H). injection H as <- <-.
  apply IH in H2 as [Hb2 Hp2].
  assert (same_bits (sv st) (sv st1) /\ phi st1 = phi st) as [Hb1 Hp1].
  { case_decide.
    - apply bind_Done in H1 as (lpf_m & _ & H1). case_decide.
      + apply bind_Done in H1 as ([st1' stop] & H1 & Hret). injection Hret as <- <-.
        by eapply sqfree_leaf_inv.
      + injection H1 as <- <-. split; [apply same_bits_refl|done].
    - injection H1 as <- <-. split; [apply same_bits_refl|done]. }
  split; [by eapply same_bits_trans|congruence].
Qed.

Lemma twoprime_leaves_inv n low prime b min_m l st st' stops :
  twoprime_leaves x primes n low prime b min_m l st = Done (st', stops) ->
  same_bits (sv st) (sv st') /\ phi st' = phi st.
Proof.
  revert l st stops. induction n as [|n IH]; intros l st stops; cbn [twoprime_leaves].
  all: intros (p_l & _ & H)%bind_Done.
  all: case_decide; [|injection H as <- <-; split; [apply same_bits_refl|done]].
  { done. }
  apply bind_Done in H as (xpq & _ & H).
  apply bind_Done in H as (phi_b & _ & H).
  apply bind_Done in H as ([sv' cnt] & Hc & H).
  apply bind_Done in H as ([st1 later] & H1 & H). injection H as <- <-.
  apply IH in H1 as [Hb Hp]. simpl in *.
  apply count_same_bits in Hc. split; [by eapply same_bits_trans|done].
Qed.

(** What both kinds of step do to the sieve bits and to [phi]. *)
Definition layer_step (low : Z)
    (step : Z -> S2State -> outcome (option (S2State * list Z))) : Prop :=
  forall b st st' stops,
    step b st = Done (Some (st', stops)) ->
    exists prime st1,
      read primes b = Done prime /\
      same_bits (sv st) (sv st1) /\ phi st1 = phi st /\
      next_prime_layer low prime b st1 = Done st'.

Lemma sqfree_step_layer low high :
  layer_step low (sqfree_step x y primes lpf mu low high).
Proof.
  intros b st st' stops. unfold sqfree_step.
  intros (prime & Hp & H)%bind_Done.
  apply bind_Done in H as (q1 & _ & H).
  apply bind_Done in H as (q2 & _ & H).
  apply bind_Done in H as (q3 & _ & H).
  case_decide; [done|].
  apply bind_Done in H as ([st1 stops1] & H1 & H).
  apply bind_Done in H as (st2 & H2 & H). injection H as <- <-.
  apply sqfree_leaves_inv in H1 as [? ?]. by exists prime, st1.
Qed.

Lemma twoprime_step_layer low high :
  layer_step low (twoprime_step x y primes pi low high).
Proof.
  intros b st st' stops. unfold twoprime_step.
  intros (prime & Hp & H)%bind_Done.
  apply bind_Done in H as (q & _ & H).
  apply bind_Done in H as (l & _ & H).
  apply bind_Done in H as (q1 & _ & H).
  apply bind_Done in H as (p_l & _ & H).
  case_decide; [done|].
  apply bind_Done in H as ([st1 stops1] & H1 & H).
  apply bind_Done in H as (st2 & H2 & H). injection H as <- <-.
  apply twoprime_leaves_inv in H1 as [? ?]. by exists prime, st1.
Qed.

(** *** The stops handed to [count] within one inner loop *)

Lemma idiv_inv a b q :
  idiv a b = Done q -> b <> 0 /\ q = Z.quot a b.
Proof. unfold idiv. case_decide; [done|]. by intros [= <-]. Qed.

Lemma quot_pos a b : 0 <= a -> 0 < b -> Z.quot a b = a / b.
Proof. intros. apply Z.quot_div_nonneg; lia. Qed.

Lemma Sorted_le_cons a l :
  Sorted Z.le l -> Forall (fun s => a <= s) l -> Sorted Z.le (a :: l).
Proof.
  intros Hs Hf. constructor; [done|]. destruct l; constructor.
  by apply Forall_cons in Hf as [? _].
Qed.

(** The stop of the leaf [d] (a square-free [m] or a prime [primes[l]]). *)
Definition stop_of (low prime d : Z) : Z := x / (prime * d) - low.

Section Stops.

Variables (low high prime qmin qmax : Z).
Hypothesis Hx : 0 <= x < 2 ^ 63.
Hypothesis Hlow : 0 <= low < high.
Hypothesis Hprime : 0 < prime.
Hypothesis Hqmin : 0 <= qmin.
Hypothesis Hhigh : x < prime * high * (qmin + 1).
Hypothesis Hqmax : prime * Z.max low 1 * qmax <= x.

Lemma stop_of_range d :
  qmin < d <= qmax -> 0 <= stop_of low prime d < high - low.
Proof.
  intros Hd. unfold stop_of.
  assert (0 < prime * d) by nia.
  assert (low <= x / (prime * d)).
  { apply Z.div_le_lower_bound; [done|].
    assert (d * low <= Z.max low 1 * qmax) by nia.
    assert (prime * (d * low) <= prime * (Z.max low 1 * qmax)) by nia. lia. }
  assert (x / (prime * d) < high).
  { apply Z.div_lt_upper_bound; [done|].
    assert (high * (qmin + 1) <= d * high) by nia.
    assert (prime * (high * (qmin + 1)) <= prime * (d * high)) by nia. lia. }
  lia.
Qed.

Lemma stop_of_mono d d' :
  qmin < d' <= d -> stop_of low prime d <= stop_of low prime d'.
Proof.
  intros Hd. unfold stop_of.
  assert (x / (prime * d) <= x / (prime * d')) by (apply Z.div_le_compat_l; nia).
  lia.
Qed.

Lemma stop_u64 d :
  qmin < d <= qmax ->
  u64 (Z.quot x (prime * d) - low) = stop_of low prime d.
Proof.
  intros Hd. pose proof (stop_of_range d Hd) as Hr. unfold stop_of in *.
  assert (0 < prime * d) by nia.
  rewrite quot_pos by lia. apply u64_small.
  assert (x / (prime * d) <= x) by (apply Z.div_le_upper_bound; nia).
  lia.
Qed.

Lemma sqfree_leaves_stops n b m st st' stops :
  qmin <= m - Z.of_nat n -> m <= qmax ->
  sqfree_leaves x lpf mu n low prime b m st = Done (st', stops) ->
  Sorted Z.le stops /\
  Forall (fun s => stop_of low prime m <= s < high - low) stops.
Proof.
  revert m st st' stops. induction n as [|n IH]; intros m st st' stops Hn Hm;
    cbn [sqfree_leaves].
  { intros [= <- <-]. split; constructor. }
  intros (mu_m & _ & H)%bind_Done.
  apply bind_Done in H as ([st1 here] & H1 & H).
  apply bind_Done in H as ([st2 later] & H2 & H). injection H as <- <-.
  pose proof H2 as H2'. apply IH in H2 as [Hs Hf]; [|lia|lia].
  assert (Forall (fun s => stop_of low prime m <= s < high - low) later) as Hf'.
  { destruct n as [|n'].
    { cbn [sqfree_leaves] in H2'. injection H2' as <- <-. constructor. }
    eapply Forall_impl; [exact Hf|]. intros s' [? ?]. split; [|done].
    pose proof (stop_of_mono m (m - 1)). lia. }
  assert (here = [] \/ here = [stop_of low prime m]) as [->| ->].
  { case_decide; [|injection H1 as <- <-; by left].
    apply bind_Done in H1 as (lpf_m & _ & H1).
    case_decide; [|injection H1 as <- <-; by left].
    apply bind_Done in H1 as ([st1' stop] & H1 & Hret). injection Hret as <- <-.
    right. unfold sqfree_leaf in H1.
    apply bind_Done in H1 as (xpm & [_ ->]%idiv_inv & H1).
    apply bind_Done in H1 as (phi_b & _ & H1).
    apply bind_Done in H1 as ([sv' cnt] & _ & H1).
    apply bind_Done in H1 as (mu_m' & _ & H1). injection H1 as <- <-.
    f_equal. apply stop_u64. lia. }
  - done.
  - split.
    + apply Sorted_le_cons; [done|]. eapply Forall_impl; [exact Hf'|].
      intros s' [? ?]. done.
    + constructor; [|done]. pose proof (stop_of_range m). lia.
Qed.

(** The primes table is sorted, as the real one is. *)
Hypothesis Hsorted : forall (i j : nat) p q,
  (i <= j)%nat -> primes !! i = Some p -> primes !! j = Some q -> p <= q.

Lemma twoprime_leaves_stops n b min_m l st st' stops p_l :
  qmin <= min_m ->
  read primes l = Done p_l -> p_l <= qmax ->
  twoprime_leaves x primes n low prime b min_m l st = Done (st', stops) ->
  Sorted Z.le stops /\
  Forall (fun s => stop_of low prime p_l <= s < high - low) stops.
Proof.
  intros Hmin. revert l st st' stops p_l.
  induction n as [|n IH]; intros l st st' stops p_l Hp Hq; cbn [twoprime_leaves].
  all: rewrite Hp; cbn [mbind outcome_bind].
  all: case_decide as Hgt; [|intros [= <- <-]; split; constructor].
  { done. }
  intros (xpq & [_ ->]%idiv_inv & H)%bind_Done.
  apply bind_Done in H as (phi_b & _ & H).
  apply bind_Done in H as ([sv' cnt] & _ & H).
  apply bind_Done in H as ([st1 later] & H1 & H). injection H as <- <-.
  rewrite stop_u64 by lia.
  assert (Sorted Z.le later /\
          Forall (fun s => stop_of low prime p_l <= s < high - low) later) as [Hs Hf].
  { destruct n as [|n'].
    - cbn [twoprime_leaves] in H1.
      apply bind_Done in H1 as (p' & Hp' & H1).
      case_decide; [done|]. injection H1 as <- <-. split; constructor.
    - pose proof H1 as H1'. cbn [twoprime_leaves] in H1'.
      apply bind_Done in H1' as (p' & Hp' & H1').
      assert (p' <= p_l) as Hle.
      { apply read_inv in Hp as [? Hp]. apply read_inv in Hp' as [? Hp'].
        apply (Hsorted (Z.to_nat (l - 1)) (Z.to_nat l)); [lia|done|done]. }
      destruct (decide (p' > min_m)) as [Hgt'|Hngt].
      + destruct (IH _ _ _ _ p' Hp' ltac:(lia) H1) as [Hs Hf].
        split; [done|]. eapply Forall_impl; [exact Hf|]. intros s' [? ?].
        split; [|done]. pose proof (stop_of_mono p_l p'). lia.
      + injection H1' as <- <-. split; constructor. }
  split.
  - apply Sorted_le_cons; [done|]. eapply Forall_impl; [exact Hf|].
    intros s' [? ?]. done.
  - constructor; [|done]. pose proof (stop_of_range p_l). lia.
Qed.

End Stops.

(** *** [phi] across one segment *)

Section Segment.

Variables (low high : Z) (phi0 : list Z).
Hypothesis Hc : 0 <= c.

Lemma crossed_snoc n b0 s s' prime s'' :
  crossed primes low n b0 s = Done s' ->
  read primes (b0 + Z.of_nat n) = Done prime ->
  cross_off_count low (u64 prime) s' = Done s'' ->
  crossed primes low (S n) b0 s = Done s''.
Proof.
  revert b0 s. induction n as [|n IH]; intros b0 s; cbn [crossed].
  - intros [= ->]. rewrite Z.add_0_r. intros Hr Hx.
    rewrite Hr. cbn [mbind outcome_bind]. rewrite Hx. done.
  - intros (p0 & -> & H)%bind_Done. cbn [mbind outcome_bind] in *.
    apply bind_Done in H as (s1 & -> & H). cbn [mbind outcome_bind] in *.
    intros Hr Hx. replace (b0 + Z.of_nat (S n)) with (b0 + 1 + Z.of_nat n) in Hr by lia.
    apply (IH _ _ H Hr Hx).
Qed.

Lemma sieve_before_next b s prime s' :
  c < b ->
  sieve_before primes c low high b = Done s ->
  read primes b = Done prime ->
  cross_off_count low (u64 prime) s = Done s' ->
  sieve_before primes c low high (b + 1) = Done s'.
Proof.
  unfold sieve_before. intros Hb Hs Hp Hx.
  replace (Z.to_nat (b + 1 - (c + 1))) with (S (Z.to_nat (b - (c + 1)))) by lia.
  eapply crossed_snoc; [exact Hs| |exact Hx].
  by replace (c + 1 + Z.of_nat (Z.to_nat (b - (c + 1)))) with b by lia.
Qed.

(** The invariant of the [b] loops of one segment. *)
Definition layers_inv (b : Z) (st : S2State) : Prop :=
  c < b /\
  shape (sv st) /\ counted (sv st) /\
  (exists s_b, sieve_before primes c low high b = Done s_b /\
               same_bits s_b (sv st)) /\
  length (phi st) = length phi0 /\
  (forall k, c < k < b ->
     exists phi_k s_k,
       phi0 !! Z.to_nat k = Some phi_k /\
       sieve_before primes c low high k = Done s_k /\
       phi st !! Z.to_nat k = Some (phi_k + total_count s_k)) /\
  (forall j : nat, ~ (c < Z.of_nat j < b) -> phi st !! j = phi0 !! j).

Lemma layers_inv_step step b st st' stops :
  layer_step low step ->
  layers_inv b st ->
  step b st = Done (Some (st', stops)) ->
  layers_inv (b + 1) st'.
Proof.
  intros Hstep (Hb & Hsh & Hcn & (s_b & Hsb & Hbits) & Hlen & Hdone & Hrest) Hrun.
  destruct (Hstep _ _ _ _ Hrun) as (prime & st1 & Hp & Hb1 & Hphi1 & Hnext).
  unfold next_prime_layer in Hnext.
  apply bind_Done in Hnext as (phi_b & Hrd & Hnext).
  apply bind_Done in Hnext as (phi' & Hwr & Hnext).
  apply bind_Done in Hnext as (sv' & Hx & Hnext). injection Hnext as <-.
  apply read_inv in Hrd as [Hb0 Hrd]. apply write_inv in Hwr as [Hbl ->].
  rewrite Hphi1 in *.
  pose proof (same_bits_shape _ _ Hb1 Hsh) as Hsh1.
  pose proof (same_bits_counted _ _ Hb1 Hcn) as Hcn1.
  destruct (cross_off_count_spec low (u64 prime) (sv st1) Hsh1 Hcn1)
    as (sv'' & Hx' & Hsh' & Hcn' & _).
  assert (sv'' = sv') as -> by congruence.
  assert (same_bits (sv st1) s_b) as Hb1b.
  { apply same_bits_sym. by eapply same_bits_trans. }
  destruct (cross_off_count_same_bits _ _ _ _ _ Hb1b Hx) as (s_b' & Hxb & Hbits').
  pose proof (sieve_before_next b s_b prime s_b' Hb Hsb Hp Hxb) as Hsb'.
  assert (total_count (sv st1) = total_count s_b) as Htot.
  { destruct Hb1b as (_ & -> & _). done. }
  unfold get_total_count. rewrite Htot.
  split_and!; simpl; try done.
  - lia.
  - exists s_b'. split; [done|]. by apply same_bits_sym.
  - by rewrite length_insert.
  - intros k Hk. destruct (decide (k = b)) as [->|Hne].
    + exists phi_b, s_b. split_and!; try done.
      * rewrite <- Hrest; [done|]. lia.
      * apply list_lookup_insert_eq. lia.
    + destruct (Hdone k ltac:(lia)) as (phi_k & s_k & ? & ? & ?).
      exists phi_k, s_k. split_and!; try done.
      rewrite list_lookup_insert_ne by lia. done.
  - intros j Hj. rewrite list_lookup_insert_ne by lia. apply Hrest. lia.
Qed.

Lemma layers_inv_run step n b st exited b' st' :
  layer_step low step ->
  layers_inv b st ->
  layers step n b st = Done (exited, b', st') ->
  layers_inv b' st'.
Proof.
  intros Hstep. revert b st. induction n as [|n IH]; intros b st Hinv; cbn [layers].
  { intros [= <- <- <-]. done. }
  intros ([[st1 stops]|] & Hrun & H)%bind_Done.
  - eapply IH; [|exact H]. by eapply layers_inv_step.
  - injection H as <- <- <-. done.
Qed.

(** The sieve words once the first [a] primes are removed. *)
Definition words_at (a : Z) : list Z :=
  map (fun i : nat => presieved_word primes a (low + Z.of_nat i))
      (seq 0 (Z.to_nat (high - low))).

Lemma presieved_word_next b prime n :
  1 <= b -> primes !! Z.to_nat b = Some prime ->
  presieved_word primes b n =
  if decide (n mod prime = 0) then 0 else presieved_word primes (b - 1) n.
Proof.
  intros Hb Hp. unfold presieved_word.
  assert (drop 1 primes !! Z.to_nat (b - 1) = Some prime) as Hd.
  { rewrite lookup_drop. by replace (1 + Z.to_nat (b - 1))%nat with (Z.to_nat b) by lia. }
  replace (Z.to_nat b) with (S (Z.to_nat (b - 1))) by lia.
  rewrite (take_S_r _ _ _ Hd), forallb_app. cbn [forallb].
  rewrite andb_true_r.
  destruct (Z.eqb_spec (n mod prime) 0) as [He|He].
  - rewrite decide_True by done. by rewrite !andb_false_r.
  - rewrite decide_False by done. by rewrite !andb_true_r.
Qed.

Lemma presieved_word_bit a n : clear0 (presieved_word primes a n) = 0.
Proof. unfold presieved_word. by case_match. Qed.

Lemma crossed_words n b s s' :
  Forall (fun p => 0 <= p < 2 ^ 64) primes ->
  1 <= b -> shape s -> counted s -> sieve s = words_at (b - 1) ->
  crossed primes low n b s = Done s' ->
  shape s' /\ counted s' /\ sieve s' = words_at (b - 1 + Z.of_nat n).
Proof.
  intros Hprimes. revert b s. induction n as [|n IH]; intros b s Hb Hsh Hcn Hws; cbn [crossed].
  { intros [= <-]. by rewrite Z.add_0_r. }
  intros (prime & Hp & H)%bind_Done.
  apply bind_Done in H as (s1 & Hx & H).
  apply read_inv in Hp as [_ Hp].
  assert (u64 prime = prime) as Hu.
  { apply u64_small. rewrite Forall_forall in Hprimes. apply Hprimes.
    by eapply list_elem_of_lookup_2. }
  rewrite Hu in Hx.
  destruct (cross_off_count_spec low prime s Hsh Hcn)
    as (s1' & Hx' & Hsh1 & Hcn1 & _ & Hlen & Hlook).
  assert (s1' = s1) as -> by congruence.
  destruct (IH (b + 1) s1) as (? & ? & ?); try done; [lia| |].
  - replace (b + 1 - 1) with b by lia. apply list_eq. intros j.
    unfold words_at. rewrite list_lookup_fmap.
    destruct (decide (j < Z.to_nat (high - low))%nat) as [Hj|Hj].
    + rewrite lookup_seq_lt by done. simpl.
      rewrite (Hlook j (presieved_word primes (b - 1) (low + Z.of_nat j))).
      2:{ rewrite Hws. unfold words_at. rewrite list_lookup_fmap, lookup_seq_lt by done.
          done. }
      rewrite (presieved_word_next b prime) by done.
      case_decide; [by rewrite presieved_word_bit|done].
    + rewrite lookup_seq_ge by lia. simpl. apply lookup_ge_None_2.
      rewrite Hlen, Hws. unfold words_at. rewrite length_map, length_seq. lia.
  - split_and!; try done.
    replace (b - 1 + Z.of_nat (S n)) with (b + 1 - 1 + Z.of_nat n) by lia. done.
Qed.

Lemma popcount_flags (f : Z -> bool) (l : list Z) :
  popcount (map (fun n => if f n then 1 else 0) l) =
  Z.of_nat (length (filter (fun n => f n) l)).
Proof.
  induction l as [|n l IH]; [done|].
  cbn [map]. rewrite popcount_cons, IH, filter_cons.
  destruct (f n); simpl.
  - change (popcnt64 1) with 1. lia.
  - change (popcnt64 0) with 0. lia.
Qed.

Lemma popcount_words a : popcount (words_at a) = survivors primes a low high.
Proof.
  unfold words_at, survivors, presieved_word.
  rewrite <- popcount_flags, map_map. done.
Qed.

Lemma sieve_before_total b s :
  Forall (fun p => 0 <= p < 2 ^ 64) primes ->
  low <= high -> segment_fits (high - low) low -> c < b ->
  sieve_before primes c low high b = Done s ->
  total_count s = survivors primes (b - 1) low high.
Proof.
  intros Hprimes Hlh Hfit Hb. unfold sieve_before. intros Hrun.
  destruct (pre_sieve_inv primes c low high Hlh Hfit) as (Hsh & Hcn & _).
  assert (1 <= c + 1) as Hc1 by lia.
  assert (sieve (pre_sieve primes c low high) = words_at (c + 1 - 1)) as Hw0.
  { replace (c + 1 - 1) with c by lia. reflexivity. }
  destruct (crossed_words _ _ _ _ Hprimes Hc1 Hsh Hcn Hw0 Hrun)
    as (Hsh' & [_ Htot] & Hws).
  rewrite Htot, Hws, popcount_words. f_equal. lia.
Qed.

End Segment.

End Loops.

(** C6 (as amended). Within one inner loop of the special-leaves loop,
    for a fixed segment and a fixed prime [primes[b]], the stops handed
    to [sieve.count], [x / (prime * m) - low] for decreasing [m] and
    [x / (prime * primes[l]) - low] for decreasing [l], form a
    non-decreasing sequence of positions of the segment. *)
Theorem stops_non_decreasing x y primes lpf mu pi low high b st st' stops :
  0 <= x < 2 ^ 63 -> 0 <= y -> 0 <= low < high ->
  Forall (fun p => 0 <= p) primes ->
  (forall (i j : nat) p q,
     (i <= j)%nat -> primes !! i = Some p -> primes !! j = Some q -> p <= q) ->
  (forall n l p, read pi n = Done l -> read primes l = Done p -> p <= n) ->
  sqfree_step x y primes lpf mu low high b st = Done (Some (st', stops)) \/
  twoprime_step x y primes pi low high b st = Done (Some (st', stops)) ->
  Sorted Z.le stops /\ Forall (fun s => 0 <= s < high - low) stops.
Proof.
  intros Hx Hy Hlow Hpos Hsorted Hpi [H|H].
  - unfold sqfree_step in H.
    apply bind_Done in H as (prime & Hp & H).
    apply bind_Done in H as (q1 & [Hd1 ->]%idiv_inv & H).
    apply bind_Done in H as (q2 & [Hd2 ->]%idiv_inv & H).
    apply bind_Done in H as (q3 & [Hd3 ->]%idiv_inv & H).
    case_decide as Hge; [done|].
    apply bind_Done in H as ([st1 stops1] & H1 & H).
    apply bind_Done in H as (st2 & _ & H). injection H as <- <-.
    assert (0 < prime) as Hprime.
    { apply read_inv in Hp as [_ Hp]. rewrite Forall_forall in Hpos.
      pose proof (Hpos prime (list_elem_of_lookup_2 _ _ _ Hp)). lia. }
    rewrite !quot_pos in * by nia.
    set (q1 := x / (prime * high)) in *. set (q2 := y / prime) in *.
    set (q3 := x / (prime * Z.max low 1)) in *.
    set (min_m := Z.max q1 q2) in *. set (max_m := Z.min q3 y) in *.
    assert (0 <= q1) by (apply Z.div_pos; nia).
    assert (0 <= q2) by (apply Z.div_pos; lia).
    destruct (decide (max_m <= min_m)) as [Hem|Hne].
    { replace (Z.to_nat (max_m - min_m)) with 0%nat in H1 by lia.
      cbn [sqfree_leaves] in H1. injection H1 as <- <-. split; constructor. }
    assert (x < prime * high * (min_m + 1)) as Hhigh.
    { pose proof (Z.mul_succ_div_gt x (prime * high) ltac:(nia)). fold q1 in H2.
      assert (prime * high * Z.succ q1 <= prime * high * (min_m + 1)); [|lia].
      apply Z.mul_le_mono_nonneg_l; [nia|lia]. }
    assert (prime * Z.max low 1 * max_m <= x) as Hqmax.
    { pose proof (Z.mul_div_le x (prime * Z.max low 1) ltac:(nia)). fold q3 in H2.
      assert (prime * Z.max low 1 * max_m <= prime * Z.max low 1 * q3); [|lia].
      apply Z.mul_le_mono_nonneg_l; [nia|lia]. }
    assert (0 <= min_m) as Hmin0 by lia.
    destruct (sqfree_leaves_stops x lpf mu low high prime min_m max_m Hx Hlow Hprime
                Hmin0 Hhigh Hqmax (Z.to_nat (max_m - min_m)) b max_m st st1 stops1)
      as [Hs Hf]; [lia|lia|exact H1|].
    split; [done|]. eapply Forall_impl; [exact Hf|]. intros s' [? ?].
    assert (min_m < max_m <= max_m) as Hmm by lia.
    pose proof (stop_of_range x low high prime min_m max_m Hx Hlow Hprime
                  Hmin0 Hhigh Hqmax max_m Hmm). lia.
  - unfold twoprime_step in H.
    apply bind_Done in H as (prime & Hp & H).
    apply bind_Done in H as (q & [Hd ->]%idiv_inv & H).
    apply bind_Done in H as (l & Hl & H).
    apply bind_Done in H as (q1 & [Hd1 ->]%idiv_inv & H).
    apply bind_Done in H as (p_l & Hpl & H).
    case_decide as Hge; [done|].
    apply bind_Done in H as ([st1 stops1] & H1 & H).
    apply bind_Done in H as (st2 & _ & H). injection H as <- <-.
    assert (0 < prime) as Hprime.
    { apply read_inv in Hp as [_ Hp]. rewrite Forall_forall in Hpos.
      pose proof (Hpos prime (list_elem_of_lookup_2 _ _ _ Hp)). lia. }
    rewrite !quot_pos in * by nia.
    set (q := x / (prime * Z.max low 1)) in *. set (q1 := x / (prime * high)) in *.
    set (min_m := Z.max q1 prime) in *. set (qmax := Z.min q y) in *.
    assert (0 <= q1) by (apply Z.div_pos; nia).
    pose proof (Hpi _ _ _ Hl Hpl) as Hple.
    assert (x < prime * high * (min_m + 1)) as Hhigh.
    { pose proof (Z.mul_succ_div_gt x (prime * high) ltac:(nia)). fold q1 in H0.
      assert (prime * high * Z.succ q1 <= prime * high * (min_m + 1)); [|lia].
      apply Z.mul_le_mono_nonneg_l; [nia|lia]. }
    assert (prime * Z.max low 1 * qmax <= x) as Hqmax.
    { pose proof (Z.mul_div_le x (prime * Z.max low 1) ltac:(nia)). fold q in H0.
      assert (prime * Z.max low 1 * qmax <= prime * Z.max low 1 * q); [|lia].
      apply Z.mul_le_mono_nonneg_l; [nia|lia]. }
    assert (0 <= min_m) as Hmin0 by lia.
    destruct (twoprime_leaves_stops x primes low high prime min_m qmax Hx Hlow Hprime
                Hmin0 Hhigh Hqmax Hsorted (Z.to_nat (l + 1)) b min_m l st st1 stops1 p_l)
      as [Hs Hf]; [lia|exact Hpl|exact Hple|exact H1|].
    split; [done|].
    destruct (decide (p_l > min_m)) as [Hgt|Hngt].
    + eapply Forall_impl; [exact Hf|]. intros s' [? ?].
      assert (min_m < p_l <= qmax) as Hmm by lia.
      pose proof (stop_of_range x low high prime min_m qmax Hx Hlow Hprime
                    Hmin0 Hhigh Hqmax p_l Hmm). lia.
    + destruct (Z.to_nat (l + 1)); cbn [twoprime_leaves] in H1.
      all: rewrite Hpl in H1; cbn [mbind outcome_bind] in H1.
      all: rewrite decide_False in H1 by done; injection H1 as <- <-; constructor.
Qed.

(** C6 (as stated) fails: the stops need not increase strictly.  For
    x = 195, y = 13 and the prime 3, the leaves m = 13 and m = 11 of the
    segment [0, 15) both stop at 195 / 39 = 195 / 33 = 5. *)
Lemma stops_not_strictly_increasing :
  let primes := [0; 2; 3; 5; 7; 11; 13] in
  let lpf := [1; 1000; 2; 3; 2; 5; 2; 7; 2; 3; 2; 11; 2; 13] in
  let mu := [0; 1; -1; -1; 0; -1; 1; -1; 0; 0; 1; -1; 0; -1] in
  let st0 := {| sv := pre_sieve primes 1 0 15; phi := replicate 7 0; s2 := 0 |} in
  exists st',
    sqfree_step 195 13 primes lpf mu 0 15 2 st0 = Done (Some (st', [5; 5; 9; 13])) /\
    ~ Sorted Z.lt [5; 5; 9; 13].
Proof.
  intros primes lpf mu st0. eexists. split.
  - vm_compute. reflexivity.
  - intros Hs. apply Sorted_inv in Hs as [_ Hhd]. apply HdRel_inv in Hhd. lia.
Qed.

Lemma stops_non_decreasing_witness :
  let primes := [0; 2; 3; 5; 7; 11; 13] in
  let lpf := [1; 1000; 2; 3; 2; 5; 2; 7; 2; 3; 2; 11; 2; 13] in
  let mu := [0; 1; -1; -1; 0; -1; 1; -1; 0; 0; 1; -1; 0; -1] in
  let pi := [0; 0; 1; 2; 2; 3; 3; 4; 4; 4; 4; 5; 5; 6] in
  let st0 := {| sv := pre_sieve primes 1 0 15; phi := replicate 7 0; s2 := 0 |} in
  Sorted Z.le [5; 5; 9; 13] /\ Forall (fun s => 0 <= s < 15 - 0) [5; 5; 9; 13].
Proof.
  intros primes lpf mu pi st0.
  refine (stops_non_decreasing 195 13 primes lpf mu pi 0 15 2 st0 _ [5; 5; 9; 13]
            _ _ _ _ _ _ (or_introl _)).
  - lia.
  - lia.
  - lia.
  - repeat constructor; lia.
  - intros i j p q Hij Hi Hj.
    do 7 (destruct i as [|i]; [do 7 (destruct j as [|j]; [simpl in *; simplify_eq; lia|]); done|]).
    done.
  - intros n l p [Hn0 Hn]%read_inv [Hl0 Hl]%read_inv.
    rewrite <- (Z2Nat.id n Hn0). revert Hn. generalize (Z.to_nat n). intros k.
    do 14 (destruct k as [|k];
           [intros [= <-]; cbn in Hl; injection Hl as <-; lia|]).
    done.
  - vm_compute. reflexivity.
Defined.

(** C5 (as amended). At the end of a segment [low, high), for every
    prime index [b] that the segment processed ([c < b < b_end]), the
    [phi[b]] carried into the next segment is the previous [phi[b]] plus
    the sieve's [total_count] taken BEFORE the multiples of [primes[b]]
    are crossed off, that is, once the first [b - 1] primes are removed;
    that count is the number of odd integers of the segment that none of
    [primes[1..b-1]] divides.  Every other entry of [phi] is unchanged. *)
Theorem phi_at_segment_boundary
    x y c primes lpf mu pi segment_size limit pi_sqrty pi_y low phi0 s2_0 st b_end :
  let high := Z.min (low + segment_size) limit in
  0 <= c -> low <= high -> segment_fits (high - low) low ->
  Forall (fun p => 0 <= p < 2 ^ 31) primes ->
  segment x y c primes lpf mu pi segment_size limit pi_sqrty pi_y low phi0 s2_0
    = Done (st, b_end) ->
  c < b_end /\
  (forall b, c < b < b_end ->
     exists phi_b s_b,
       phi0 !! Z.to_nat b = Some phi_b /\
       sieve_before primes c low high b = Done s_b /\
       phi st !! Z.to_nat b = Some (phi_b + total_count s_b) /\
       total_count s_b = survivors primes (b - 1) low high) /\
  (forall j : nat, ~ (c < Z.of_nat j < b_end) -> phi st !! j = phi0 !! j).
Proof.
  intros high Hc Hlh Hfit Hprimes Hrun.
  assert (Forall (fun p => 0 <= p < 2 ^ 64) primes) as Hprimes64.
  { eapply Forall_impl; [exact Hprimes|]. intros p ?. simpl in *. lia. }
  destruct (pre_sieve_inv primes c low high Hlh Hfit) as (Hsh & Hcn & _).
  set (st0 := {| sv := pre_sieve primes c low high; phi := phi0; s2 := s2_0 |}).
  assert (layers_inv c primes low high phi0 (c + 1) st0) as Hinv0.
  { split_and!; simpl.
    - lia.
    - done.
    - done.
    - exists (pre_sieve primes c low high). split; [|apply same_bits_refl].
      unfold sieve_before. by replace (Z.to_nat (c + 1 - (c + 1))) with 0%nat by lia.
    - done.
    - intros k Hk. lia.
    - done. }
  assert (layers_inv c primes low high phi0 b_end st) as Hinv.
  { unfold segment in Hrun. fold high in Hrun. fold st0 in Hrun.
    apply bind_Done in Hrun as ([[exited b1] st1] & H1 & Hrun).
    pose proof (layers_inv_run c primes low high phi0 Hc _ _ _ _ _ _ _
                  (sqfree_step_layer x y primes lpf mu low high) Hinv0 H1) as Hi1.
    destruct exited.
    - injection Hrun as <- <-. done.
    - apply bind_Done in Hrun as ([[exited2 b2] st2] & H2 & Hrun).
      injection Hrun as <- <-.
      exact (layers_inv_run c primes low high phi0 Hc _ _ _ _ _ _ _
               (twoprime_step_layer x y primes pi low high) Hi1 H2). }
  destruct Hinv as (Hb & _ & _ & _ & _ & Hdone & Hrest).
  split; [done|]. split; [|done].
  intros b Hbb. destruct (Hdone b Hbb) as (phi_b & s_b & ? & Hsb & ?).
  exists phi_b, s_b. split_and!; try done.
  by apply (sieve_before_total c primes low high Hc b s_b Hprimes64 Hlh Hfit);
    [lia|].
Qed.

(** C5 (as stated) fails.  One segment [0, 32) of S2 for x = 1000,
    y = 10, c = 1: [phi[2]] becomes 0 + 16, the count before the multiples
    of [primes[2] = 3] are crossed off; after that cross-off the sieve
    holds 11 elements, which is also the number of odd integers below 32
    that neither 2 nor 3 divides. *)
Lemma phi_counts_before_cross_off :
  let primes := [0; 2; 3; 5; 7] in
  let lpf := [1; 1000; 2; 3; 2; 5; 2; 7; 2; 3; 2] in
  let mu := [0; 1; -1; -1; 0; -1; 1; -1; 0; 0; 1] in
  let pi := [0; 0; 1; 2; 2; 3; 3; 4; 4; 4; 4] in
  exists st s_after,
    segment 1000 10 1 primes lpf mu pi 32 100 2 4 0 (replicate 5 0) 0
      = Done (st, 4) /\
    phi st !! 2%nat = Some 16 /\
    (s ← sieve_before primes 1 0 32 2; cross_off_count 0 3 s) = Done s_after /\
    total_count s_after = 11 /\
    survivors primes 2 0 32 = 11 /\
    phi st !! 2%nat <> Some (0 + total_count s_after).
Proof.
  intros primes lpf mu pi. eexists _, _. split_and!.
  - vm_compute. reflexivity.
  - vm_compute. reflexivity.
  - vm_compute. reflexivity.
  - vm_compute. reflexivity.
  - vm_compute. reflexivity.
  - vm_compute. intros [= ?].
Qed.

Lemma phi_at_segment_boundary_witness :
  let primes := [0; 2; 3; 5; 7] in
  let lpf := [1; 1000; 2; 3; 2; 5; 2; 7; 2; 3; 2] in
  let mu := [0; 1; -1; -1; 0; -1; 1; -1; 0; 0; 1] in
  let pi := [0; 0; 1; 2; 2; 3; 3; 4; 4; 4; 4] in
  exists st,
    segment 1000 10 1 primes lpf mu pi 32 100 2 4 0 (replicate 5 0) 0
      = Done (st, 4) /\
    forall b, 1 < b < 4 ->
      exists phi_b s_b,
        replicate 5 0 !! Z.to_nat b = Some phi_b /\
        sieve_before primes 1 0 32 b = Done s_b /\
        phi st !! Z.to_nat b = Some (phi_b + total_count s_b) /\
        total_count s_b = survivors primes (b - 1) 0 32.
Proof.
  intros primes lpf mu pi. eexists. split; [vm_compute; reflexivity|].
  refine (proj1 (proj2 (phi_at_segment_boundary 1000 10 1 primes lpf mu pi 32 100 2 4 0
                   (replicate 5 0) 0 _ 4 _ _ _ _ _))).
  - lia.
  - vm_compute. discriminate.
  - vm_compute. reflexivity.
  - repeat constructor; lia.
  - vm_compute. reflexivity.
Defined.


End LMO5Proofs.

(** * Proofs: the P2 and B kernels *)

Module KernelProofs.
Import Primes Backup.

(** C10. [P2(x, y, threads)] returns 0 whenever [x < 4], and whenever
    the [a = pi(y)] and [b = pi(isqrt(x))] that it computes satisfy
    [a >= b]; [B] returns 0 whenever [x < 4].  None of them sieves then:
    the result does not depend on the budget of the sieving loops, which
    may be 0.  This holds for the P2 of 2020, for the P2 with backup,
    whose document is left as it was, and for B. *)
Theorem P2_B_trivial_cases
    budget_pi budget get_threads get_thread_dist x y threads
    to_maxint to_str get_percent get_alpha_y clock elapsed
    get_threads_B is_backup z j now time :
  (x < 4 ->
     P2.P2_OpenMP budget_pi budget get_threads get_thread_dist x y threads
       = Done 0 /\
     P2Backup.P2_OpenMP budget_pi budget to_maxint to_str get_percent clock
       elapsed x y threads j now time = Done (0, j) /\
     B.B_OpenMP budget_pi budget to_maxint to_str get_percent get_alpha_y
       get_threads_B get_thread_dist clock is_backup x y z threads j now time
       = Done (0, j)) /\
  (forall a b,
     4 <= x ->
     pi_simple budget_pi y threads = Done a ->
     pi_simple budget_pi (isqrt x) threads = Done b ->
     a >= b ->
     P2.P2_OpenMP budget_pi 0 get_threads get_thread_dist x y threads
       = Done 0 /\
     P2Backup.P2_OpenMP budget_pi 0 to_maxint to_str get_percent clock
       elapsed x y threads j now time = Done (0, j)).
Proof.
  split.
  - intros Hx. unfold P2.P2_OpenMP, P2Backup.P2_OpenMP, B.B_OpenMP.
    rewrite !decide_True by done. done.
  - intros a b Hx Ha Hb Hab.
    unfold P2.P2_OpenMP, P2Backup.P2_OpenMP, pi_legendre.
    rewrite !decide_False by lia. rewrite Ha, Hb. cbn [mbind outcome_bind].
    rewrite !decide_True by done. done.
Qed.

Lemma P2_B_trivial_cases_witness :
  P2.P2_OpenMP 10 0 (fun _ t => t) (fun _ => 8) 30 7 2 = Done 0 /\
  P2Backup.P2_OpenMP 10 0 read_decimal (fun _ => ""%string) (fun _ _ => 0%Q)
    (fun _ => 0%Q) (fun _ => 0%Q) 30 7 2 JNull 0%Q 0%Q = Done (0, JNull).
Proof.
  refine (proj2 (P2_B_trivial_cases 10 0 (fun _ t => t) (fun _ => 8) 30 7 2
            read_decimal (fun _ => ""%string) (fun _ _ => 0%Q) (fun _ _ => 0%Q)
            (fun _ => 0%Q) (fun _ => 0%Q) (fun _ _ t => t) (fun _ => false)
            4 JNull 0%Q 0%Q) 4 3 _ _ _ _).
  - lia.
  - vm_compute. reflexivity.
  - vm_compute. reflexivity.
  - lia.
Defined.

(** C7 (as amended). [balanceLoad] doubles the thread distance when the
    batch took less than 60 seconds (so also when it took less than 10),
    halves it when the batch took more than 60 seconds, and then clamps
    it with [in_between(2^23, distance, ceil_div(z - low, threads))]; the
    result lies in [2^23, ceil_div(z - low, threads)] whenever that
    interval is not empty, and it is [ceil_div(z - low, threads)] or
    [2^23] when it is. *)
Theorem balanceLoad_spec thread_distance low z threads seconds :
  let max_distance := P2Backup.ceil_div (z - low) threads in
  let scaled :=
    if Qlt_le_dec seconds (60 # 1) then thread_distance * 2
    else if Qlt_le_dec (60 # 1) seconds then Z.quot thread_distance 2
    else thread_distance in
  let result := P2Backup.balanceLoad thread_distance low z threads seconds in
  result = P2Backup.in_between (2 ^ 23) scaled max_distance /\
  (2 ^ 23 <= max_distance -> 2 ^ 23 <= result <= max_distance) /\
  (max_distance < 2 ^ 23 ->
     result = if decide (scaled < 2 ^ 23) then 2 ^ 23 else max_distance).
Proof.
  intros max_distance scaled result.
  assert (result = P2Backup.in_between (2 ^ 23) scaled max_distance) as Hr.
  { unfold result, scaled, P2Backup.balanceLoad. fold max_distance.
    change (Z.shiftl 1 23) with (2 ^ 23).
    destruct (Qlt_le_dec seconds (60 # 1)) as [Hlt|Hge].
    - destruct (Qlt_le_dec (60 # 1) seconds) as [Hgt|Hle]; [|done].
      exfalso. apply (Qlt_irrefl seconds). by eapply Qlt_trans.
    - done. }
  split; [done|]. rewrite Hr. unfold P2Backup.in_between.
  split; intros Hm; repeat case_decide; lia.
Qed.

(** C7 (as stated) fails: the interval can be empty.  After the last
    batch of P2 with z = 1000 the next low is 2 + 2^23, the bound
    [ceil_div(z - low, threads)] is negative, and so is the distance
    that [balanceLoad] returns. *)
Lemma balanceLoad_below_floor :
  P2Backup.balanceLoad (2 ^ 23) (2 + 2 ^ 23) 1000 1 (1 # 2) = -8387610 /\
  P2Backup.ceil_div (1000 - (2 + 2 ^ 23)) 1 = -8387610 /\
  ~ (2 ^ 23 <= P2Backup.balanceLoad (2 ^ 23) (2 + 2 ^ 23) 1000 1 (1 # 2)
     <= P2Backup.ceil_div (1000 - (2 + 2 ^ 23)) 1).
Proof.
  split; [vm_compute; reflexivity|]. split; [vm_compute; reflexivity|].
  vm_compute. intros [H _]. apply H. reflexivity.
Qed.

End KernelProofs.
From Stdlib Require Import ZArith Lia List Bool String Ascii Sorted QArith.
From stdpp Require Import base tactics option list numbers strings gmap pretty.
Local Open Scope Z_scope.

(** * The sums of the P2 and B kernels *)

Module FoldProofs.
Import Primes.

(** ** Primes of an interval *)

Lemma is_prime_ge_2 p : is_prime p = true -> 2 <= p.
Proof. unfold is_prime. intros [H _]%andb_true_iff. lia. Qed.

Lemma elem_of_primes_in p a b :
  p ∈ primes_in a b <-> is_prime p = true /\ a < p <= b.
Proof.
  unfold primes_in. rewrite list_elem_of_filter, elem_of_seqZ.
  split; intros [H1 H2]; split; first [lia | by destruct (is_prime p)].
Qed.

Lemma primes_in_nil a b :
  (forall p, a < p <= b -> is_prime p = false) -> primes_in a b = [].
Proof.
  intros H. destruct (primes_in a b) as [|p l] eqn:E; [done|].
  assert (p ∈ primes_in a b) as [Hp Hr]%elem_of_primes_in
    by (rewrite E; left).
  rewrite (H p Hr) in Hp. done.
Qed.

Lemma primes_in_empty a b : b <= a -> primes_in a b = [].
Proof. intros H. apply primes_in_nil. lia. Qed.

Lemma primes_in_app a b c :
  a <= b <= c -> primes_in a c = primes_in a b ++ primes_in b c.
Proof.
  intros H. unfold primes_in.
  replace (c - a) with ((b - a) + (c - b)) by lia.
  rewrite seqZ_app by lia. rewrite filter_app.
  by replace (a + 1 + (b - a)) with (b + 1) by lia.
Qed.

Lemma primes_in_skip a b c :
  a <= b <= c -> (forall p, b < p <= c -> is_prime p = false) ->
  primes_in a c = primes_in a b.
Proof.
  intros H Hno. rewrite (primes_in_app a b c H), (primes_in_nil b c Hno).
  apply app_nil_r.
Qed.

Lemma primes_in_one p : is_prime p = true -> primes_in (p - 1) p = [p].
Proof.
  intros Hp. unfold primes_in.
  replace (p - (p - 1)) with 1 by lia. replace (p - 1 + 1) with p by lia.
  rewrite seqZ_cons by lia. rewrite seqZ_nil by lia.
  rewrite filter_cons_True by (by rewrite Hp). done.
Qed.

Lemma primes_in_snoc a p :
  is_prime p = true -> a < p -> primes_in a p = primes_in a (p - 1) ++ [p].
Proof.
  intros Hp Ha. rewrite (primes_in_app a (p - 1) p) by lia.
  by rewrite primes_in_one.
Qed.

Lemma primes_in_below_2 a b : a <= 1 -> primes_in a b = primes_in 1 b.
Proof.
  intros Ha. destruct (decide (b <= 1)) as [Hb|Hb].
  - rewrite (primes_in_empty 1 b Hb). apply primes_in_nil.
    intros p Hp. destruct (is_prime p) eqn:E; [|done].
    apply is_prime_ge_2 in E. lia.
  - rewrite (primes_in_app a 1 b) by lia.
    rewrite (primes_in_nil a 1); [done|].
    intros p Hp. destruct (is_prime p) eqn:E; [|done].
    apply is_prime_ge_2 in E. lia.
Qed.

Lemma pi_primes_in_all n : pi n = Z.of_nat (length (primes_in (-1) n)).
Proof.
  unfold pi, primes_in. replace (n - -1) with (n + 1) by lia. done.
Qed.

Lemma pi_primes_in a b :
  -1 <= a <= b -> pi b = pi a + Z.of_nat (length (primes_in a b)).
Proof.
  intros H. rewrite !pi_primes_in_all, (primes_in_app (-1) a b) by lia.
  rewrite length_app. lia.
Qed.

Lemma pi_nonneg n : 0 <= pi n.
Proof. unfold pi. lia. Qed.

Lemma pi_neg n : n < 0 -> pi n = 0.
Proof.
  intros H. rewrite pi_primes_in_all, primes_in_empty; [done|lia].
Qed.

Lemma pi_mono a b : a <= b -> pi a <= pi b.
Proof.
  intros H. destruct (decide (a < -1)) as [Ha|Ha].
  - rewrite (pi_neg a) by lia. apply pi_nonneg.
  - rewrite (pi_primes_in a b) by lia. lia.
Qed.

Lemma pi_le n : -1 <= n -> pi n <= n + 1.
Proof.
  intros H. unfold pi.
  pose proof (length_filter (fun k => is_prime k) (seqZ 0 (n + 1))) as Hl.
  rewrite length_seqZ in Hl. lia.
Qed.

Lemma pi_const a b :
  -1 <= a <= b -> (forall p, a < p <= b -> is_prime p = false) -> pi b = pi a.
Proof.
  intros H Hno. rewrite (pi_primes_in a b H), (primes_in_nil a b Hno).
  cbn. lia.
Qed.

Lemma pi_prime p : is_prime p = true -> pi p = pi (p - 1) + 1.
Proof.
  intros Hp. pose proof (is_prime_ge_2 p Hp).
  rewrite (pi_primes_in (p - 1) p) by lia. by rewrite primes_in_one.
Qed.

(** ** The iterators *)

(** [p] is the first prime above [m]. *)
Definition next_after (m p : Z) : Prop :=
  is_prime p = true /\ m < p /\ forall k, m < k < p -> is_prime k = false.

Lemma next_prime_spec fuel pos q :
  is_prime q = true -> pos < q <= pos + Z.of_nat fuel ->
  exists p, next_prime fuel pos = Done p /\ next_after pos p /\ p <= q.
Proof.
  intros Hq. revert pos.
  induction fuel as [|fuel IH]; intros pos Hpos; [lia|].
  cbn [next_prime]. destruct (is_prime (pos + 1)) eqn:E.
  - exists (pos + 1). unfold next_after. split_and!; [done|done|lia|lia|lia].
  - assert (pos + 1 <> q) by (intros Heq; rewrite Heq in E; congruence).
    destruct (IH (pos + 1)) as (p & Hp & (Hpp & Hlt & Hno) & Hle); [lia|].
    exists p. unfold next_after. split_and!; [done|done|lia| |done].
    intros k Hk. destruct (decide (k = pos + 1)) as [->|]; [done|].
    apply Hno. lia.
Qed.

Lemma next_after_pi m p : -1 <= m -> next_after m p -> pi p = pi m + 1.
Proof.
  intros Hm (Hp & Hlt & Hno). rewrite (pi_prime p Hp).
  rewrite (pi_const m (p - 1)); [done|lia|]. intros k Hk. apply Hno. lia.
Qed.

Lemma next_after_const m p s :
  -1 <= m -> next_after m p -> m <= s < p -> pi s = pi m.
Proof.
  intros Hm (Hp & Hlt & Hno) Hs. apply pi_const; [lia|].
  intros k Hk. apply Hno. lia.
Qed.

Lemma next_after_later m p s : next_after m p -> m <= s < p -> next_after s p.
Proof.
  intros (Hp & Hlt & Hno) Hs. unfold next_after. split_and!; [done|lia|].
  intros k Hk. apply Hno. lia.
Qed.

Lemma prev_prime_from_spec k :
  (prev_prime_from k = 0 \/ is_prime (prev_prime_from k) = true) /\
  0 <= prev_prime_from k <= Z.of_nat k /\
  forall j, prev_prime_from k < j <= Z.of_nat k -> is_prime j = false.
Proof.
  induction k as [|k (IH1 & IH2 & IH3)].
  - cbn. split_and!; [by left|lia|lia|lia].
  - cbn [prev_prime_from]. destruct (is_prime (Z.of_nat (S k))) eqn:E.
    + split_and!; [by right|lia|lia|lia].
    + split_and!; [done|lia|lia|].
      intros j Hj. destruct (decide (j = Z.of_nat (S k))) as [->|]; [done|].
      apply IH3. lia.
Qed.

Lemma prev_prime_spec pos :
  (prev_prime pos = 0 \/ is_prime (prev_prime pos) = true) /\
  0 <= prev_prime pos /\ prev_prime pos <= Z.max 0 (pos - 1) /\
  forall j, prev_prime pos < j < pos -> is_prime j = false.
Proof.
  unfold prev_prime.
  destruct (prev_prime_from_spec (Z.to_nat (pos - 1))) as (H1 & H2 & H3).
  split_and!; [done|lia|lia|]. intros j Hj.
  destruct (decide (0 < j)); [apply H3; lia|].
  destruct (is_prime j) eqn:E; [|done]. apply is_prime_ge_2 in E. lia.
Qed.

(** The primes up to the largest prime of [[0, b]] are the primes up to
    [b]. *)
Lemma primes_in_prev a b :
  0 <= a -> primes_in a (prev_prime (b + 1)) = primes_in a b.
Proof.
  intros Ha. destruct (prev_prime_spec (b + 1)) as (_ & H0 & Hlt & Hno).
  destruct (decide (prev_prime (b + 1) <= a)) as [Hle|Hgt].
  - rewrite (primes_in_empty _ _ Hle). symmetry. apply primes_in_nil.
    intros p Hp. apply Hno. lia.
  - symmetry. apply primes_in_skip; [lia|]. intros p Hp. apply Hno. lia.
Qed.

Lemma primes_in_step a p :
  0 <= a -> is_prime p = true -> a < p ->
  primes_in a p = primes_in a (prev_prime p) ++ [p].
Proof.
  intros Ha Hp Hlt. rewrite (primes_in_snoc a p Hp Hlt).
  f_equal. rewrite <- (primes_in_prev a (p - 1) Ha).
  by replace (p - 1 + 1) with p by lia.
Qed.

Lemma idiv_Done a b : 0 <= a -> 0 < b -> idiv a b = Done (a / b).
Proof.
  intros Ha Hb. unfold idiv. rewrite decide_False by lia.
  by rewrite Z.quot_div_nonneg by lia.
Qed.

(** ** [count_primes] *)

Section Count.

Variable q : Z.
Variable budget : nat.
Hypothesis Hq : is_prime q = true.
Hypothesis Hbudget : q <= Z.of_nat budget.

(** Started at the first prime above [m], [count_primes] adds the number
    of primes of [(m, stop]] and leaves the iterator at the first prime
    above [stop]. *)
Lemma count_primes_spec fuel m p stop c :
  stop < q -> next_after m p -> -1 <= m <= stop ->
  pi stop - pi m <= Z.of_nat fuel ->
  exists p', P2.count_primes fuel budget p stop c
             = Done (c + (pi stop - pi m), p') /\
             next_after stop p'.
Proof.
  intros Hstop. revert m p c.
  induction fuel as [|fuel IH]; intros m p c Hnext Hm Hfuel.
  - assert (stop < p) as Hlt.
    { destruct (decide (stop < p)); [done|].
      pose proof (next_after_pi m p ltac:(lia) Hnext).
      pose proof (pi_mono p stop ltac:(lia)). lia. }
    cbn [P2.count_primes]. rewrite decide_False by lia.
    exists p. rewrite (next_after_const m p stop ltac:(lia) Hnext ltac:(lia)).
    split; [f_equal; f_equal; lia|]. apply (next_after_later m); [done|lia].
  - cbn [P2.count_primes]. destruct (decide (p <= stop)) as [Hle|Hgt].
    + pose proof Hnext as (Hp & Hmp & _).
      pose proof (is_prime_ge_2 p Hp).
      destruct (next_prime_spec budget p q Hq) as (p' & -> & Hnext' & _);
        [lia|].
      cbn [mbind outcome_bind].
      pose proof (next_after_pi m p ltac:(lia) Hnext) as Hpi.
      destruct (IH p p' (c + 1) Hnext') as (p'' & -> & Hn''); [lia|lia|].
      exists p''. split; [f_equal; f_equal; lia|done].
    + exists p. rewrite (next_after_const m p stop ltac:(lia) Hnext ltac:(lia)).
      split; [f_equal; f_equal; lia|]. apply (next_after_later m); [done|lia].
Qed.

End Count.

(** ** The loop of a thread *)

(** What a thread adds for the primes of [l]: PrimePi(x / p) less the
    primes below its interval. *)
Definition local_sum (x pi0 : Z) (l : list Z) : Z :=
  Zsum (map (fun p => pi (x / p) - pi0) l).

Lemma local_sum_app x pi0 l1 l2 :
  local_sum x pi0 (l1 ++ l2) = local_sum x pi0 l1 + local_sum x pi0 l2.
Proof. unfold local_sum. by rewrite map_app, SieveProofs.Zsum_app. Qed.

Lemma local_sum_total x pi0 l :
  local_sum x pi0 l + pi0 * Z.of_nat (length l)
  = Zsum (map (fun p => pi (x / p)) l).
Proof.
  unfold local_sum. induction l as [|p l IH]; [cbn; lia|].
  rewrite !map_cons, !SieveProofs.Zsum_cons. cbn [length]. lia.
Qed.

Lemma quad_eq {A B} (a a' : Z) (b : A) (c c' : Z) (d : B) :
  a = a' -> c = c' -> Done (a, b, c, d) = Done (a', b, c', d).
Proof. by intros -> ->. Qed.

Section Thread.

Variable q : Z.
Variable budget : nat.
Hypothesis Hq : is_prime q = true.
Hypothesis Hbudget : q <= Z.of_nat budget.

Variables x start pi0 top bound : Z.
Hypothesis Hx : 0 <= x.
Hypothesis Hstart : 0 <= start.
Hypothesis Htop : top < q.
Hypothesis Hdiv : forall p, start < p <= bound -> x / p <= top.

Lemma thread_loop_spec fuel prime m next sum pix iters :
  pix = pi m - pi0 ->
  prime = 0 \/ is_prime prime = true -> prime <= bound ->
  next_after m next -> -1 <= m <= top ->
  (start < prime -> m <= x / prime) ->
  prime <= Z.of_nat fuel ->
  exists m' next',
    P2.thread_loop fuel budget x start next prime sum pix iters
    = Done (sum + local_sum x pi0 (primes_in start prime), pi m' - pi0,
            iters + Z.of_nat (length (primes_in start prime)), next') /\
    next_after m' next' /\ m <= m' <= top.
Proof.
  intros ->. revert prime m next sum iters.
  induction fuel as [|fuel IH];
    intros prime m next sum iters Hprime Hbound Hnext Hm Hmx Hfuel.
  - cbn [P2.thread_loop]. rewrite decide_False by lia.
    rewrite primes_in_empty by lia. exists m, next.
    split; [|split; [done|lia]]. apply quad_eq; cbn; lia.
  - cbn [P2.thread_loop]. destruct (decide (prime > start)) as [Hgt|Hle].
    + destruct Hprime as [->|Hprime]; [lia|].
      pose proof (is_prime_ge_2 prime Hprime) as Hp2.
      rewrite idiv_Done by lia. cbn [mbind outcome_bind].
      assert (x / prime <= top) as Hxp by (apply Hdiv; lia).
      destruct (count_primes_spec q budget Hq Hbudget budget m next
                  (x / prime) 0) as (next' & -> & Hnext'); [lia|done|lia| |].
      { pose proof (pi_le (x / prime)). pose proof (pi_nonneg m). lia. }
      cbn [mbind outcome_bind].
      destruct (prev_prime_spec prime) as (Hpz & Hp0 & Hplt & _).
      replace (pi m - pi0 + (0 + (pi (x / prime) - pi m)))
        with (pi (x / prime) - pi0) by lia.
      destruct (IH (prev_prime prime) (x / prime) next'
                  (sum + (pi (x / prime) - pi0)) (iters + 1))
        as (m' & next'' & -> & Hn'' & Hm'); [done|lia|done|lia| |lia|].
      { intros Hlt. apply Z.div_le_compat_l; lia. }
      exists m', next''. split; [|split; [done|lia]].
      rewrite (primes_in_step start prime) by (done || lia).
      rewrite local_sum_app, length_app.
      apply quad_eq; [unfold local_sum at 3|]; cbn [map Zsum foldr length]; lia.
    + rewrite primes_in_empty by lia. exists m, next.
      split; [|split; [done|lia]]. apply quad_eq; cbn; lia.
Qed.

(** What is left of [P2_thread] and [B_thread] once [start] and [stop]
    are known. *)
Lemma thread_tail low_i z_i stop :
  1 <= low_i < z_i -> z_i <= q -> 0 <= stop <= bound ->
  stop <= x / low_i -> stop <= Z.of_nat budget ->
  top = z_i - 1 -> pi0 = pi (low_i - 1) ->
  (next ← next_prime budget (low_i - 1);
   '(sum, pix, iters, next') ←
     P2.thread_loop budget budget x start next (prev_prime (stop + 1)) 0 0 0;
   '(cnt, _) ← P2.count_primes budget budget next' (z_i - 1) 0;
   Done {| P2.sum := sum; P2.pix := pix + cnt; P2.iters := iters |})
  = Done {| P2.sum := local_sum x pi0 (primes_in start stop);
            P2.pix := pi (z_i - 1) - pi0;
            P2.iters := Z.of_nat (length (primes_in start stop)) |}.
Proof.
  intros Hlow Hz Hstop Hstopx Hstopb Etop Epi.
  destruct (next_prime_spec budget (low_i - 1) q Hq) as (next & -> & Hnext & _);
    [lia|].
  cbn [mbind outcome_bind].
  destruct (prev_prime_spec (stop + 1)) as (Hpz & Hp0 & Hple & _).
  destruct (thread_loop_spec budget (prev_prime (stop + 1)) (low_i - 1) next
              0 0 0) as (m' & next' & -> & Hnext' & Hm');
    [lia|done|lia|done|lia| |lia|].
  { intros Hlt. apply Z.div_le_lower_bound; [lia|].
    pose proof (Z.mul_div_le x low_i ltac:(lia)). nia. }
  cbn [mbind outcome_bind].
  destruct (count_primes_spec q budget Hq Hbudget budget m' next' (z_i - 1) 0)
    as (next'' & -> & _); [lia|done|lia| |].
  { pose proof (pi_le (z_i - 1)). pose proof (pi_nonneg m'). lia. }
  cbn [mbind outcome_bind]. rewrite primes_in_prev by done.
  f_equal. f_equal; lia.
Qed.

End Thread.

(** ** What a thread returns *)

Definition U (x l : Z) : Z := Z.min (x / l) (isqrt x).

Definition A (x y l : Z) : Z := Z.max (U x l) y.

(** The thread over [[low, min (low + dist) z)] handles the primes [p]
    with [y < p <= isqrt x] and [low <= x / p < min (low + dist) z]. *)
Definition thread_primes (x y z low dist : Z) : list Z :=
  primes_in (A x y (Z.min (low + dist) z)) (A x y low).

Definition thread_result (x y z low dist : Z) : P2.ThreadResult :=
  if decide (low < z) then
    {| P2.sum := local_sum x (pi (low - 1)) (thread_primes x y z low dist);
       P2.pix := pi (Z.min (low + dist) z - 1) - pi (low - 1);
       P2.iters := Z.of_nat (length (thread_primes x y z low dist)) |}
  else {| P2.sum := 0; P2.pix := 0; P2.iters := 0 |}.

Lemma P2_range x y low_i z_i :
  primes_in (Z.max (x / z_i) y) (Z.min (x / low_i) (isqrt x))
  = primes_in (A x y z_i) (A x y low_i).
Proof.
  unfold A, U.
  destruct (decide (x / z_i <= isqrt x)) as [H1|H1];
    [destruct (decide (y <= Z.min (x / low_i) (isqrt x))) as [H2|H2]|].
  - f_equal; lia.
  - rewrite !primes_in_empty by lia. done.
  - rewrite !primes_in_empty by lia. done.
Qed.

Lemma B_range x y low_i z_i :
  primes_in (Z.max (Z.min (x / z_i) (isqrt x)) y) (Z.min (x / low_i) (isqrt x))
  = primes_in (A x y z_i) (A x y low_i).
Proof.
  unfold A, U.
  destruct (decide (y <= Z.min (x / low_i) (isqrt x))) as [H2|H2].
  - f_equal; lia.
  - rewrite !primes_in_empty by lia. done.
Qed.

Lemma div_below x z_i p : 0 <= x -> 0 < z_i -> x / z_i < p -> x / p <= z_i - 1.
Proof.
  intros Hx Hz Hp. assert (0 <= x / z_i) by (apply Z.div_pos; lia).
  enough (x / p < z_i) by lia.
  apply Z.div_lt_upper_bound; [lia|].
  pose proof (Z.mul_succ_div_gt x z_i Hz). nia.
Qed.

Lemma isqrt_nonneg x : 0 <= isqrt x.
Proof. apply Z.sqrt_nonneg. Qed.

Section Threads.

Variable q : Z.
Variable budget : nat.
Hypothesis Hq : is_prime q = true.
Hypothesis Hbudget : q <= Z.of_nat budget.
Variables x y z : Z.
Hypothesis Hx : 0 <= x.
Hypothesis Hz : z <= q.
Hypothesis Hsqrt : isqrt x <= Z.of_nat budget.

Lemma P2_thread_spec low i dist :
  1 <= low + dist * i -> 1 <= dist ->
  P2.P2_thread budget x y z low i dist
  = Done (thread_result x y z (low + dist * i) dist).
Proof.
  intros Hlow Hdist. unfold P2.P2_thread, thread_result. cbv zeta.
  set (low_i := low + dist * i) in *.
  destruct (decide (low_i < z)) as [Hlt|Hge]; [|done].
  set (z_i := Z.min (low_i + dist) z).
  pose proof (isqrt_nonneg x) as Hs.
  assert (0 <= x / low_i) by (apply Z.div_pos; lia).
  assert (0 <= x / z_i) by (apply Z.div_pos; lia).
  rewrite !idiv_Done by lia. cbn [mbind outcome_bind].
  unfold thread_primes. fold z_i. rewrite <- P2_range.
  apply (thread_tail q budget Hq Hbudget x _ _ (z_i - 1)
           (Z.min (x / low_i) (isqrt x))); try lia.
  intros p Hp. apply div_below; lia.
Qed.

Lemma B_thread_spec low i dist :
  1 <= low + dist * i -> 1 <= dist ->
  B.B_thread budget x y z low i dist
  = Done (thread_result x y z (low + dist * i) dist).
Proof.
  intros Hlow Hdist. unfold B.B_thread, thread_result. cbv zeta.
  set (low_i := low + dist * i) in *.
  destruct (decide (low_i < z)) as [Hlt|Hge]; [|done].
  set (z_i := Z.min (low_i + dist) z).
  pose proof (isqrt_nonneg x) as Hs.
  assert (0 <= x / low_i) by (apply Z.div_pos; lia).
  assert (0 <= x / z_i) by (apply Z.div_pos; lia).
  rewrite !idiv_Done by lia. cbn [mbind outcome_bind].
  unfold thread_primes. fold z_i. rewrite <- B_range.
  apply (thread_tail q budget Hq Hbudget x _ _ (z_i - 1)
           (Z.min (x / low_i) (isqrt x))); try lia.
  intros p Hp. apply div_below; lia.
Qed.

End Threads.

(** ** The sequential fold over the threads of a batch *)

Lemma for_each_Done {X Y} (f : X -> outcome Y) (g : X -> Y) l :
  (forall a, a ∈ l -> f a = Done (g a)) -> for_each f l = Done (map g l).
Proof.
  induction l as [|a l IH]; intros H; [done|].
  cbn [for_each map]. rewrite (H a) by left. cbn [mbind outcome_bind].
  rewrite IH; [done|]. intros b Hb. apply H. by right.
Qed.

Lemma sum_pi_app x a b c :
  a <= b <= c -> sum_pi x a c = sum_pi x a b + sum_pi x b c.
Proof.
  intros H. unfold sum_pi.
  by rewrite (primes_in_app a b c H), map_app, SieveProofs.Zsum_app.
Qed.

Lemma sum_pi_empty x a b : b <= a -> sum_pi x a b = 0.
Proof. intros H. unfold sum_pi. by rewrite primes_in_empty. Qed.

Lemma A_anti x y l l' : 0 <= x -> 0 < l <= l' -> A x y l' <= A x y l.
Proof.
  intros Hx Hl. unfold A, U.
  pose proof (Z.div_le_compat_l x l l' Hx Hl). lia.
Qed.

Section Fold.

Variables x y z low dist : Z.
Hypothesis Hx : 0 <= x.
Hypothesis Hlow : 1 <= low < z.
Hypothesis Hdist : 1 <= dist.

(** After the first [n] threads of a batch that starts at [low], the sum
    has grown by the terms of the primes [p] with [low <= x / p] below
    the end of the [n]-th interval, and [pi_low_minus_1] is PrimePi of
    that end less one. *)
Lemma fold_threads (n : nat) total :
  foldl P2.add_thread (total, pi (low - 1))
    (map (fun i => thread_result x y z (low + dist * i) dist)
         (seqZ 0 (Z.of_nat n)))
  = (total + sum_pi x (A x y (Z.min (low + dist * Z.of_nat n) z)) (A x y low),
     pi (Z.min (low + dist * Z.of_nat n) z - 1)).
Proof.
  induction n as [|n IH].
  - cbn [seqZ map foldl]. replace (low + dist * Z.of_nat 0) with low by lia.
    rewrite Z.min_l by lia. rewrite sum_pi_empty by lia.
    by rewrite Z.add_0_r.
  - rewrite seqZ_S, map_app, foldl_app, IH. cbn [map foldl P2.add_thread].
    rewrite Z.add_0_l.
    replace (low + dist * Z.of_nat (S n))
      with (low + dist * Z.of_nat n + dist) by lia.
    set (low_n := low + dist * Z.of_nat n).
    assert (low <= low_n) by (unfold low_n; nia).
    unfold thread_result. destruct (decide (low_n < z)) as [Hlt|Hge].
    + cbn [P2.sum P2.pix P2.iters]. rewrite (Z.min_l low_n z) by lia.
      rewrite <- Z.add_assoc, local_sum_total. unfold thread_primes.
      fold (sum_pi x (A x y (Z.min (low_n + dist) z)) (A x y low_n)).
      f_equal; [|lia].
      rewrite (sum_pi_app x (A x y (Z.min (low_n + dist) z)) (A x y low_n)
                 (A x y low)); [lia|].
      split; apply A_anti; lia.
    + cbn [P2.sum P2.pix P2.iters]. rewrite !Z.min_r by lia.
      f_equal; lia.
Qed.

End Fold.

(** ** The batches *)

Section Batches.

Variable q : Z.
Variable budget : nat.
Hypothesis Hq : is_prime q = true.
Hypothesis Hbudget : q <= Z.of_nat budget.
Variables x y z threads : Z.
Hypothesis Hx : 0 <= x.
Hypothesis Hz : z <= q.
Hypothesis Hsqrt : isqrt x <= Z.of_nat budget.
Hypothesis Hthreads : 1 <= threads.

Lemma batch_P2 low dist total :
  1 <= low < z -> 1 <= dist ->
  (res ← for_each (fun i => P2.P2_thread budget x y z low i dist)
                  (seqZ 0 threads);
   Done (foldl P2.add_thread (total, pi (low - 1)) res))
  = Done (total + sum_pi x (A x y (Z.min (low + dist * threads) z)) (A x y low),
          pi (Z.min (low + dist * threads) z - 1)).
Proof.
  intros Hlow Hdist.
  rewrite (for_each_Done _
             (fun i => thread_result x y z (low + dist * i) dist)).
  - cbn [mbind outcome_bind]. rewrite <- (Z2Nat.id threads) by lia.
    by rewrite fold_threads.
  - intros i [Hi _]%elem_of_seqZ.
    apply (P2_thread_spec q budget Hq Hbudget x y z Hx Hz Hsqrt); nia.
Qed.

Lemma batch_B low dist total :
  1 <= low < z -> 1 <= dist ->
  (res ← for_each (fun i => B.B_thread budget x y z low i dist)
                  (seqZ 0 threads);
   Done (foldl P2.add_thread (total, pi (low - 1)) res))
  = Done (total + sum_pi x (A x y (Z.min (low + dist * threads) z)) (A x y low),
          pi (Z.min (low + dist * threads) z - 1)).
Proof.
  intros Hlow Hdist.
  rewrite (for_each_Done _
             (fun i => thread_result x y z (low + dist * i) dist)).
  - cbn [mbind outcome_bind]. rewrite <- (Z2Nat.id threads) by lia.
    by rewrite fold_threads.
  - intros i [Hi _]%elem_of_seqZ.
    apply (B_thread_spec q budget Hq Hbudget x y z Hx Hz Hsqrt); nia.
Qed.

Lemma batch_inv {X} (m : outcome (list P2.ThreadResult)) acc r
    (k : list P2.ThreadResult -> outcome X) (k' : Z * Z -> outcome X) :
  (res ← m; Done (foldl P2.add_thread acc res)) = Done r ->
  (forall res, k res = k' (foldl P2.add_thread acc res)) ->
  (res ← m; k res) = k' r.
Proof.
  destruct m as [res|]; [|done]. cbn [mbind outcome_bind].
  intros [= <-] Hk. apply Hk.
Qed.

Section P2.

Variable get_thread_dist : Z -> Z.
Hypothesis Hdist : forall l, 1 <= get_thread_dist l.

Lemma P2_batches_spec fuel low total :
  1 <= low -> z - low <= Z.of_nat fuel ->
  P2.batches budget get_thread_dist fuel x y z threads low
    (pi (Z.min low z - 1)) total
  = Done (total + sum_pi x (A x y z) (A x y (Z.min low z))).
Proof.
  revert low total. induction fuel as [|fuel IH]; intros low total Hlow Hfuel.
  - cbn [P2.batches]. rewrite decide_False by lia.
    rewrite Z.min_r by lia. rewrite sum_pi_empty by lia. by rewrite Z.add_0_r.
  - cbn [P2.batches]. destruct (decide (low < z)) as [Hlt|Hge].
    + rewrite Z.min_l by lia. pose proof (Hdist low) as Hd.
      erewrite (batch_inv _ (total, pi (low - 1)) _ _
                  (fun r => P2.batches budget get_thread_dist fuel x y z
                              threads (low + get_thread_dist low * threads)
                              r.2 r.1));
        [|apply batch_P2; lia|intros res; cbv beta; by destruct (foldl _ _ res)].
      cbn [fst snd]. rewrite IH by nia. f_equal.
      rewrite (sum_pi_app x (A x y z)
                 (A x y (Z.min (low + get_thread_dist low * threads) z))
                 (A x y low)); [lia|].
      split; apply A_anti; nia.
    + rewrite Z.min_r by lia. rewrite sum_pi_empty by lia.
      by rewrite Z.add_0_r.
Qed.

End P2.

Section B.

Variable to_str : Z -> string.
Variable get_percent : Z -> Z -> Q.
Variable get_alpha_y : Z -> Z -> Q.
Variable get_thread_dist : Z -> Z.
Variable clock : Z -> Q.
Variable is_backup : Z -> bool.
Hypothesis Hdist : forall l, 1 <= get_thread_dist l.

Lemma B_batches_spec fuel j low dist total time :
  1 <= low -> 1 <= dist -> z - low <= Z.of_nat fuel ->
  exists j',
    B.batches budget to_str get_percent get_alpha_y get_thread_dist clock
      is_backup fuel x y z threads j low (pi (Z.min low z - 1)) dist total time
    = Done (total + sum_pi x (A x y z) (A x y (Z.min low z)), j').
Proof.
  revert j low dist total.
  induction fuel as [|fuel IH]; intros j low dist total Hlow Hd Hfuel.
  - exists j. cbn [B.batches]. rewrite decide_False by lia.
    rewrite Z.min_r by lia. rewrite sum_pi_empty by lia. by rewrite Z.add_0_r.
  - cbn [B.batches]. destruct (decide (low < z)) as [Hlt|Hge].
    + rewrite Z.min_l by lia.
      set (low' := low + dist * threads).
      set (total' := total + sum_pi x (A x y (Z.min low' z)) (A x y low)).
      destruct (IH (if is_backup low' then
                      Backup.backup_B to_str get_percent get_alpha_y
                        (clock low') j x y z
                        {| Backup.b_low := low';
                           Backup.b_pi_low_minus_1 := pi (Z.min low' z - 1);
                           Backup.b_thread_distance := get_thread_dist low';
                           Backup.b_sum := total';
                           Backup.b_time := time |}
                    else j)
                  low' (get_thread_dist low') total')
        as (j' & Hj'); [unfold low'; nia|apply Hdist|unfold low'; nia|].
      exists j'.
      erewrite (batch_inv _ (total, pi (low - 1)) _ _
                  (fun r => B.batches budget to_str get_percent get_alpha_y
                              get_thread_dist clock is_backup fuel x y z
                              threads
                              (if is_backup low' then
                                 Backup.backup_B to_str get_percent get_alpha_y
                                   (clock low') j x y z
                                   {| Backup.b_low := low';
                                      Backup.b_pi_low_minus_1 := r.2;
                                      Backup.b_thread_distance :=
                                        get_thread_dist low';
                                      Backup.b_sum := r.1;
                                      Backup.b_time := time |}
                               else j)
                              low' r.2 (get_thread_dist low') r.1 time));
        [|apply batch_B; lia|intros res; cbv beta; by destruct (foldl _ _ res)].
      replace (total + sum_pi x (A x y z) (A x y low))
        with (total' + sum_pi x (A x y z) (A x y (Z.min low' z)));
        [exact Hj'|].
      unfold total'.
      rewrite (sum_pi_app x (A x y z) (A x y (Z.min low' z)) (A x y low));
        [lia|].
      split; apply A_anti; unfold low'; nia.
    + exists j. rewrite Z.min_r by lia. rewrite sum_pi_empty by lia.
      by rewrite Z.add_0_r.
Qed.

End B.

End Batches.

(** ** The whole range *)

Lemma isqrt_spec x : 0 <= x -> isqrt x * isqrt x <= x < (isqrt x + 1) * (isqrt x + 1).
Proof. intros Hx. unfold isqrt. apply (Z.sqrt_spec x Hx). Qed.

Lemma isqrt_ge_2 x : 4 <= x -> 2 <= isqrt x.
Proof.
  intros Hx. unfold isqrt. change 2 with (Z.sqrt 4). by apply Z.sqrt_le_mono.
Qed.

Lemma isqrt_small x : x < 4 -> isqrt x <= 1.
Proof.
  intros Hx. unfold isqrt. destruct (decide (x < 0)) as [Hn|Hn].
  - rewrite Z.sqrt_neg by lia. lia.
  - destruct (decide (Z.sqrt x <= 1)) as [|Hgt]; [done|].
    pose proof (Z.sqrt_spec x ltac:(lia)) as [Hs _].
    assert (2 * 2 <= Z.sqrt x * Z.sqrt x)
      by (apply Z.mul_le_mono_nonneg; lia).
    lia.
Qed.

(** [z = x / max(y, 1)] lies above the square root as soon as [y] lies
    below it. *)
Lemma z_above_sqrt x y : 4 <= x -> y < isqrt x -> isqrt x < x / Z.max y 1.
Proof.
  intros Hx Hy. pose proof (isqrt_spec x ltac:(lia)) as Hs.
  pose proof (isqrt_ge_2 x Hx) as H2.
  enough (isqrt x + 1 <= x / Z.max y 1) by lia.
  apply Z.div_le_lower_bound; [lia|]. nia.
Qed.

Lemma A_top x y l :
  4 <= x -> 1 <= l <= isqrt x -> y < isqrt x -> A x y l = isqrt x.
Proof.
  intros Hx Hl Hy. pose proof (isqrt_spec x ltac:(lia)) as Hs.
  assert (isqrt x <= x / l) by (apply Z.div_le_lower_bound; [lia|nia]).
  unfold A, U. lia.
Qed.

Lemma A_bottom x y b :
  4 <= x -> y < isqrt x ->
  primes_in (A x y (x / Z.max y 1)) b = primes_in y b.
Proof.
  intros Hx Hy. pose proof (isqrt_ge_2 x Hx) as H2.
  pose proof (z_above_sqrt x y Hx Hy) as Hz. unfold A, U.
  destruct (decide (1 <= y)) as [H1|H1].
  - replace (Z.max y 1) with y in * by lia.
    assert (x / (x / y) = y) as ->.
    { symmetry. apply (Z.div_unique x (x / y) y (x mod y)).
      - left. pose proof (Z.mod_pos_bound x y ltac:(lia)). lia.
      - pose proof (Z.div_mod x y ltac:(lia)). lia. }
    f_equal. lia.
  - replace (Z.max y 1) with 1 in * by lia.
    rewrite Z.div_1_r, Z.div_same by lia.
    rewrite (primes_in_below_2 y) by lia. f_equal. lia.
Qed.

Lemma sum_pi_whole x y l :
  4 <= x -> 1 <= l <= isqrt x -> y < isqrt x ->
  sum_pi x (A x y (x / Z.max y 1)) (A x y l) = sum_pi x y (isqrt x).
Proof.
  intros Hx Hl Hy. unfold sum_pi.
  rewrite (A_bottom x y _ Hx Hy). by rewrite (A_top x y l Hx Hl Hy).
Qed.

Lemma sum_pi_none x y : pi (isqrt x) <= pi y -> sum_pi x y (isqrt x) = 0.
Proof.
  intros H. unfold sum_pi. rewrite primes_in_nil; [done|].
  intros p Hp. destruct (is_prime p) eqn:E; [|done].
  pose proof (pi_prime p E). pose proof (pi_mono p (isqrt x) ltac:(lia)).
  pose proof (pi_mono y (p - 1) ltac:(lia)). lia.
Qed.

Lemma pi_1 : pi 1 = 0.
Proof. reflexivity. Qed.

Lemma pi_small n : n <= 1 -> pi n = 0.
Proof.
  intros H. pose proof (pi_mono n 1 H). pose proof (pi_nonneg n).
  rewrite pi_1 in *. lia.
Qed.

Lemma y_below_sqrt x y : pi y < pi (isqrt x) -> y < isqrt x.
Proof.
  intros H. destruct (decide (y < isqrt x)); [done|].
  pose proof (pi_mono (isqrt x) y ltac:(lia)). lia.
Qed.

(** C4: every thread of the P2 and B kernels returns, for the primes [p]
    of its interval, the sum of the terms PrimePi(x / p) - PrimePi(low - 1),
    the number of primes of its interval as [pix] and the number of its
    terms as [iters]; and the sequential fold over the threads, whatever
    thread distances and thread numbers the load balancer hands out, gives
    the sum over the primes [p] of [(y, isqrt x]] of PrimePi(x / p): P2
    returns it on top of its closed-form start value, B returns it. *)
Theorem thread_fold_total
    budget_pi budget to_maxint to_str get_percent get_alpha_y
    get_threads get_threads_B get_thread_dist clock is_backup
    x y threads j now time q :
  is_prime q = true -> x / Z.max y 1 <= q -> q <= Z.of_nat budget ->
  (forall l, 1 <= get_thread_dist l) ->
  1 <= get_threads (x / Z.max y 1) threads ->
  1 <= get_threads_B (isqrt x) (x / Z.max y 1) threads ->
  pi_simple budget_pi y threads = Done (pi y) ->
  pi_simple budget_pi (isqrt x) threads = Done (pi (isqrt x)) ->
  pi_simple budget_pi (isqrt x - 1) threads = Done (pi (isqrt x - 1)) ->
  Backup.is_resume to_maxint j "B" x [("y"%string, y)] = false ->
  (forall z low i dist,
     0 <= x -> z <= q -> isqrt x <= Z.of_nat budget ->
     1 <= low + dist * i -> 1 <= dist ->
     P2.P2_thread budget x y z low i dist
     = Done (thread_result x y z (low + dist * i) dist) /\
     B.B_thread budget x y z low i dist
     = Done (thread_result x y z (low + dist * i) dist)) /\
  (forall total,
     4 <= x -> y < isqrt x ->
     P2.batches budget get_thread_dist budget x y (x / Z.max y 1)
       (get_threads (x / Z.max y 1) threads) 2 0 total
     = Done (total + sum_pi x y (isqrt x))) /\
  P2.P2_OpenMP budget_pi budget get_threads get_thread_dist x y threads
  = Done ((if decide (pi y < pi (isqrt x))
           then Z.quot ((pi y - 2) * (pi y + 1)) 2
                - Z.quot ((pi (isqrt x) - 2) * (pi (isqrt x) + 1)) 2
           else 0) + sum_pi x y (isqrt x)) /\
  exists j',
    B.B_OpenMP budget_pi budget to_maxint to_str get_percent get_alpha_y
      get_threads_B get_thread_dist clock is_backup
      x y (x / Z.max y 1) threads j now time
    = Done (sum_pi x y (isqrt x), j').
Proof.
  intros Hq Hz Hbudget Hdist Hthr HthrB Hpy Hps Hps1 Hres.
  assert (forall total,
     4 <= x -> y < isqrt x ->
     P2.batches budget get_thread_dist budget x y (x / Z.max y 1)
       (get_threads (x / Z.max y 1) threads) 2 0 total
     = Done (total + sum_pi x y (isqrt x))) as Hfold.
  { intros total Hx Hy.
    pose proof (z_above_sqrt x y Hx Hy) as Hzs.
    pose proof (isqrt_ge_2 x Hx) as H2.
    set (z := x / Z.max y 1) in *.
    change 0 with (pi (2 - 1)) at 1.
    replace (2 - 1) with (Z.min 2 z - 1) by lia.
    rewrite (P2_batches_spec q budget Hq Hbudget x y z
               (get_threads z threads)) by (done || lia).
    rewrite Z.min_l by lia. unfold z.
    by rewrite sum_pi_whole by lia. }
  split_and!.
  - intros z low i dist Hx Hzq Hs Hlow Hd. split.
    + by apply (P2_thread_spec q).
    + by apply (B_thread_spec q).
  - exact Hfold.
  - unfold P2.P2_OpenMP. destruct (decide (x < 4)) as [Hx|Hx].
    + pose proof (isqrt_small x Hx) as Hs.
      rewrite (pi_small (isqrt x) Hs). pose proof (pi_nonneg y).
      rewrite decide_False by lia. rewrite sum_pi_none; [done|].
      rewrite (pi_small (isqrt x) Hs). lia.
    + rewrite Hpy, Hps. cbn [mbind outcome_bind].
      destruct (decide (pi y >= pi (isqrt x))) as [Hab|Hab].
      * rewrite decide_False by lia. by rewrite sum_pi_none by lia.
      * rewrite decide_True by lia.
        pose proof (y_below_sqrt x y ltac:(lia)) as Hy.
        rewrite idiv_Done by lia. cbn [mbind outcome_bind].
        apply Hfold; [lia|done].
  - unfold B.B_OpenMP. destruct (decide (x < 4)) as [Hx|Hx].
    + exists j. rewrite sum_pi_none; [done|].
      rewrite (pi_small (isqrt x) (isqrt_small x Hx)). apply pi_nonneg.
    + rewrite Hps1. cbn [mbind outcome_bind].
      unfold Backup.resume_B. rewrite Hres. cbn [mbind outcome_bind].
      cbn [Backup.b_low Backup.b_pi_low_minus_1 Backup.b_sum Backup.b_time].
      set (z := x / Z.max y 1) in *.
      set (j0 := match j with Backup.JObj m => _ | _ => j end).
      pose proof (isqrt_ge_2 x ltac:(lia)) as H2.
      destruct (decide (isqrt x < z)) as [Hlt|Hge].
      * replace (isqrt x - 1) with (Z.min (isqrt x) z - 1) by lia.
        destruct (B_batches_spec q budget Hq Hbudget x y z
                    (get_threads_B (isqrt x) z threads) ltac:(lia) Hz
                    ltac:(lia) HthrB
                    to_str get_percent get_alpha_y get_thread_dist clock
                    is_backup Hdist budget j0 (isqrt x)
                    (get_thread_dist (isqrt x)) 0 time)
          as (j' & ->); [lia|apply Hdist|lia|].
        exists j'. f_equal. f_equal. rewrite Z.add_0_l, Z.min_l by lia.
        destruct (decide (y < isqrt x)) as [Hy|Hy].
        -- unfold z. by rewrite sum_pi_whole by lia.
        -- rewrite sum_pi_none by (apply pi_mono; lia).
           apply sum_pi_empty. unfold A, U. lia.
      * exists j0. destruct budget as [|fuel]; cbn [B.batches];
          rewrite decide_False by lia;
          (rewrite sum_pi_none; [done|]);
          (destruct (decide (y < isqrt x)) as [Hy|Hy];
           [pose proof (z_above_sqrt x y ltac:(lia) Hy); lia
           |apply pi_mono; lia]).
Qed.

Lemma thread_fold_total_witness :
  P2.P2_OpenMP 10 200 (fun _ t => t) (fun _ => 7) 100 4 3
  = Done ((if decide (pi 4 < pi (isqrt 100))
           then Z.quot ((pi 4 - 2) * (pi 4 + 1)) 2
                - Z.quot ((pi (isqrt 100) - 2) * (pi (isqrt 100) + 1)) 2
           else 0) + sum_pi 100 4 (isqrt 100)) /\
  exists j',
    B.B_OpenMP 10 200 Backup.read_decimal pretty (fun _ _ => 0%Q)
      (fun _ _ => 1%Q) (fun _ _ t => t) (fun _ => 7) (fun _ => 0%Q)
      (fun _ => false) 100 4 (100 / Z.max 4 1) 3 Backup.JNull 0%Q 0%Q
    = Done (sum_pi 100 4 (isqrt 100), j').
Proof.
  refine ((fun H => conj (proj1 (proj2 (proj2 H))) (proj2 (proj2 (proj2 H)))) _).
  apply (thread_fold_total 10 200 Backup.read_decimal pretty (fun _ _ => 0%Q)
           (fun _ _ => 1%Q) (fun _ t => t) (fun _ _ t => t) (fun _ => 7)
           (fun _ => 0%Q) (fun _ => false) 100 4 3 Backup.JNull 0%Q 0%Q 29).
  - vm_compute; reflexivity.
  - vm_compute; discriminate.
  - vm_compute; discriminate.
  - intros; cbv beta; lia.
  - vm_compute; discriminate.
  - vm_compute; discriminate.
  - vm_compute; reflexivity.
  - vm_compute; reflexivity.
  - vm_compute; reflexivity.
  - reflexivity.
Defined.

End FoldProofs.

(** * Proofs: resuming from a backup document *)

Module BackupProofs.
Import Backup.

(** C8. The [resume] of a kernel (B, P2 with backup, Phi0) restores the
    saved fields from the backup document exactly when the header of the
    document's section matches the [(x, y[, z, k])] of the call.  When it
    does not match, every output parameter is left as it was and the
    [resume] of B and of Phi0 returns false (the one of P2 returns
    nothing); when it matches, [low], [pi_low_minus_1],
    [thread_distance], the partial sum and the start time (now minus the
    saved seconds) are those of the document and B and Phi0 return true. *)
Theorem resume_restores_iff_header_matches
    to_maxint now j x y z k (vB : BVars) (vP : P2Vars) (sum : Z) (time : Q) :
  let hB := is_resume to_maxint j "B" x [("y"%string, y)] in
  let hP := is_resume to_maxint j "P2" x [("y"%string, y); ("z"%string, z)] in
  let hF := is_resume to_maxint j "Phi0" x
              [("y"%string, y); ("z"%string, z); ("k"%string, k)] in
  (hB = false -> resume_B to_maxint now j x y vB = Done (false, vB)) /\
  (hP = false -> resume_P2 to_maxint now j x y z vP = Done vP) /\
  (hF = false ->
     resume_Phi0 to_maxint now j x y z k sum time = Done (false, sum, time)) /\
  (forall seconds low pi_low_minus_1 thread_distance s sum',
     hB = true ->
     field (field j "B") "seconds" = JReal seconds ->
     field (field j "B") "low" = JInt low ->
     field (field j "B") "pi_low_minus_1" = JInt pi_low_minus_1 ->
     field (field j "B") "thread_distance" = JInt thread_distance ->
     field (field j "B") "sum" = JStr s -> to_maxint s = Done sum' ->
     resume_B to_maxint now j x y vB =
     Done (true, {| b_low := low; b_pi_low_minus_1 := pi_low_minus_1;
                    b_thread_distance := thread_distance; b_sum := sum';
                    b_time := (now - seconds)%Q |})) /\
  (forall percent seconds low thread_distance s1 pix_total s2 p2,
     hP = true ->
     field (field j "P2") "percent" = JReal percent ->
     field (field j "P2") "seconds" = JReal seconds ->
     field (field j "P2") "low" = JInt low ->
     field (field j "P2") "thread_distance" = JInt thread_distance ->
     field (field j "P2") "pix_total" = JStr s1 -> to_maxint s1 = Done pix_total ->
     field (field j "P2") "p2" = JStr s2 -> to_maxint s2 = Done p2 ->
     resume_P2 to_maxint now j x y z vP =
     Done {| p_low := low; p_thread_distance := thread_distance;
             p_pix_total := pix_total; p_p2 := p2;
             p_time := (now - seconds)%Q |}) /\
  (forall percent seconds s sum',
     hF = true ->
     field (field j "Phi0") "percent" = JReal percent ->
     field (field j "Phi0") "seconds" = JReal seconds ->
     field (field j "Phi0") "sum" = JStr s -> to_maxint s = Done sum' ->
     resume_Phi0 to_maxint now j x y z k sum time =
     Done (true, sum', (now - seconds)%Q)) /\
  (forall v', resume_B to_maxint now j x y vB = Done (true, v') -> hB = true) /\
  (forall s' t',
     resume_Phi0 to_maxint now j x y z k sum time = Done (true, s', t') ->
     hF = true).
Proof.
  intros hB hP hF. unfold resume_B, resume_P2, resume_Phi0.
  fold hB hP hF. split_and!.
  - by intros ->.
  - by intros ->.
  - by intros ->.
  - intros seconds low pi_low_minus_1 thread_distance s sum' -> H1 H2 H3 H4 H5 H6.
    rewrite H1, H2, H3, H4, H5. cbn [as_real as_int as_string mbind outcome_bind].
    rewrite H6. reflexivity.
  - intros percent seconds low thread_distance s1 pix_total s2 p2
      -> H0 H1 H2 H3 H4 H5 H6 H7.
    rewrite H0, H1, H2, H3, H4, H6. cbn [as_real as_int as_string mbind outcome_bind].
    rewrite H5. cbn [mbind outcome_bind]. rewrite H7. reflexivity.
  - intros percent seconds s sum' -> H0 H1 H2 H3.
    rewrite H0, H1, H2. cbn [as_real as_int as_string mbind outcome_bind].
    rewrite H3. reflexivity.
  - intros v'. by destruct hB.
  - intros s' t'. by destruct hF.
Qed.

(** A document written by B's [backup], then read by its [resume]. *)
Definition sample_B : json :=
  backup_B (pretty : Z -> string) (fun _ _ => 0%Q) (fun _ _ => 1%Q) 100%Q JNull
    1000 10 100
    {| b_low := 50; b_pi_low_minus_1 := 15; b_thread_distance := 8;
       b_sum := 77; b_time := 30%Q |}.

Lemma resume_restores_iff_header_matches_witness :
  resume_B read_decimal 200%Q sample_B 1000 10
    {| b_low := 0; b_pi_low_minus_1 := 0; b_thread_distance := 0;
       b_sum := 0; b_time := 0%Q |} =
  Done (true, {| b_low := 50; b_pi_low_minus_1 := 15; b_thread_distance := 8;
                 b_sum := 77; b_time := (200 - (100 - 30))%Q |}).
Proof.
  refine (proj1 (proj2 (proj2 (proj2
            (resume_restores_iff_header_matches read_decimal 200%Q sample_B
               1000 10 0 0
               {| b_low := 0; b_pi_low_minus_1 := 0; b_thread_distance := 0;
                  b_sum := 0; b_time := 0%Q |}
               {| p_low := 0; p_thread_distance := 0; p_pix_total := 0;
                  p_p2 := 0; p_time := 0%Q |} 0 0%Q))))
            (100 - 30)%Q 50 15 8 "77"%string 77 _ _ _ _ _ _ _);
    vm_compute; reflexivity.
Defined.

End BackupProofs.
From Stdlib Require Import ZArith Lia List Bool String Ascii Sorted QArith.
From stdpp Require Import base tactics option list numbers strings gmap pretty.
Local Open Scope Z_scope.

(** * The command-line parser *)

Module CmdProofs.
Import CmdOptions.

Local Open Scope string_scope.

Lemma starts_with_app t rest : starts_with t (t ++ rest) = true.
Proof.
  induction t as [|c t IH]; [reflexivity|].
  change (String c t ++ rest) with (String c (t ++ rest)).
  cbn [starts_with]. by rewrite Ascii.eqb_refl.
Qed.

Lemma containsb_app before s part :
  containsb s part = true -> containsb (before ++ s) part = true.
Proof.
  intros Hs. induction before as [|c before IH]; [exact Hs|].
  change (String c before ++ s) with (String c (before ++ s)).
  cbn [containsb]. rewrite IH. apply orb_true_r.
Qed.

Lemma containsb_mid before part after :
  containsb (before ++ part ++ after) part = true.
Proof.
  apply containsb_app.
  destruct (part ++ after) eqn:E; cbn [containsb];
    rewrite <- E, starts_with_app; done.
Qed.

Lemma arg_Done argv i s : argv !! i = Some s -> arg argv i = Done s.
Proof. unfold arg. by intros ->. Qed.

Lemma arg_inv argv i s : arg argv i = Done s -> argv !! i = Some s.
Proof. unfold arg. destruct (argv !! i); by intros [= ->]. Qed.

(** Every kind of malformed argument makes [parseOption] throw, with a
    message that contains the text naming it. *)
Lemma parseOption_throws argv i text :
  malformed argv i text ->
  exists msg, containsb msg text = true /\
              parseOption argv i = Fault (Thrown msg).
Proof.
  intros [Hs|s pos Hs Hne Hmap Hopt Heq Hname|s Hs Hne Hmap Hopt Heq Hname
         |s id Hs Hne Hmap Hnext|s pos id Hs Hne Hmap Hopt Heq Hname Hval
         |s Hs Hne Hmap Hopt Hdig|s rest Hs Hrest Hmap Hopt].
  - exists (unrecognized ""). split; [done|].
    unfold parseOption. by rewrite (arg_Done _ _ _ Hs).
  - exists (unrecognized (substring 0 pos s)).
    split; [apply containsb_mid|].
    unfold parseOption. rewrite (arg_Done _ _ _ Hs). cbn [mbind outcome_bind].
    rewrite decide_False by done. rewrite Hmap, Hopt, Heq.
    cbv zeta. by rewrite Hname.
  - exists (unrecognized s). split; [apply containsb_mid|].
    unfold parseOption. rewrite (arg_Done _ _ _ Hs). cbn [mbind outcome_bind].
    rewrite decide_False by done. rewrite Hmap, Hopt, Heq.
    destruct (find_first_digit s); by rewrite Hname.
  - exists (missing_value s). split; [apply containsb_mid|].
    unfold parseOption. rewrite (arg_Done _ _ _ Hs). cbn [mbind outcome_bind].
    rewrite decide_False by done. rewrite Hmap.
    rewrite decide_True by done. cbv zeta.
    destruct (decide (S i < length argv)%nat) as [Hlt|Hge].
    + destruct (lookup_lt_is_Some_2 argv (S i) Hlt) as [v Hv].
      rewrite (arg_Done _ _ _ Hv). cbn [mbind outcome_bind].
      destruct (Hnext v Hv) as [->|Hov]; [done|].
      destruct (decide (v = "")); [done|]. by rewrite Hov.
    + done.
  - exists (missing_value (substring 0 pos s)).
    split; [apply containsb_mid|].
    unfold parseOption. rewrite (arg_Done _ _ _ Hs). cbn [mbind outcome_bind].
    rewrite decide_False by done. rewrite Hmap, Hopt, Heq.
    cbv zeta. rewrite Hname, Hval. cbn [mbind outcome_bind].
    unfold param_of. rewrite Hname. cbn [mbind outcome_bind].
    by rewrite !decide_True by done.
  - exists (unrecognized s). split; [apply containsb_mid|].
    unfold parseOption. rewrite (arg_Done _ _ _ Hs). cbn [mbind outcome_bind].
    rewrite decide_False by done. by rewrite Hmap, Hopt, Hdig.
  - exists (unrecognized s). split; [apply containsb_mid|].
    unfold parseOption. rewrite (arg_Done _ _ _ Hs). cbn [mbind outcome_bind].
    rewrite decide_False by (by rewrite Hrest). rewrite Hmap, Hopt.
    destruct (find_first_digit s); [|done]. by rewrite Hrest.
Qed.

Lemma parseOption_advances argv i o i' :
  parseOption argv i = Done (o, i') -> (i <= i')%nat /\ (i < length argv)%nat.
Proof.
  unfold parseOption, param_of. generalize optionMap. intros table H.
  destruct (arg argv i) as [s|] eqn:Hs; [|done].
  apply arg_inv, lookup_lt_Some in Hs. split; [|exact Hs].
  cbn [mbind outcome_bind] in H.
  repeat
    (match goal with
     | H : context [decide ?P] |- _ => destruct (decide P)
     | H : context [outcome_bind _ ?m] |- _ => destruct m eqn:?
     | H : context [mbind _ ?m] |- _ => destruct m eqn:?
     | H : context [match ?t with _ => _ end] |- _ => destruct t eqn:?
     end; cbn [mbind outcome_bind] in *; simplify_eq);
    lia.
Qed.

Section Loop.

Variable to_maxint : string -> outcome Z.
Variable stod : string -> outcome Q.
Variable test_exit_code : Z.
Variable file_exists : string -> bool.

(** An argument that makes [parseOption] throw ends the loop with that
    error as soon as the loop gets to it. *)
Lemma options_loop_throws argv j st i st' msg fuel :
  reaches to_maxint stod test_exit_code file_exists argv j st i st' ->
  parseOption argv i = Fault (Thrown msg) ->
  (i < length argv)%nat ->
  (length argv - j <= fuel)%nat ->
  options_loop to_maxint stod test_exit_code file_exists fuel argv j st
  = Fault (Thrown msg).
Proof.
  intros Hr Hthrow Hi. revert fuel.
  induction Hr as [i st|j st o j' st' i st'' Hp Hd Hr IH]; intros fuel Hfuel.
  - destruct fuel as [|fuel]; [lia|].
    cbn [options_loop]. rewrite decide_True by done. by rewrite Hthrow.
  - destruct (parseOption_advances _ _ _ _ Hp) as [Hjj' Hj].
    destruct fuel as [|fuel]; [lia|].
    cbn [options_loop]. rewrite decide_True by done.
    rewrite Hp. cbn [mbind outcome_bind]. rewrite Hd. cbn [mbind outcome_bind].
    apply IH; [done|done|lia].
Qed.

Lemma reaches_le argv j st i st' :
  reaches to_maxint stod test_exit_code file_exists argv j st i st' ->
  (j <= i)%nat.
Proof.
  induction 1 as [|j st o j' st' i st'' Hp _ _ IH]; [done|].
  apply parseOption_advances in Hp. lia.
Qed.

End Loop.

Lemma malformed_in_range argv i text :
  malformed argv i text -> (i < length argv)%nat.
Proof. intros []; by eapply lookup_lt_Some. Qed.

Definition fresh_opts : CmdOptions :=
  {| x := -1; a := -1; option := None; time := false;
     resumeFile := ""; backupFile := "" |}.

Definition no_settings : Settings :=
  {| backup_file := "primecount.backup"; alpha_y := None; alpha_z := None;
     num_threads := None; print := false; status_precision := None |}.

Definition resumes (o : CmdOptions) : bool :=
  negb (String.eqb (resumeFile o) "").

Definition no_stod (s : string) : outcome Q := Fault (Thrown s).

Definition no_file (s : string) : bool := false.

(** C9 (as the code has it): when the option loop of [parseOptions] gets
    to an argument that is malformed -- an empty argument, an option-like
    token whose name is not in [optionMap], an option with a required
    parameter whose value is missing, empty or itself an option, a
    [--opt=] with an empty value for an option with a required parameter,
    a token without a digit that is not an option, or a number with a
    leading [-] -- then [parseOption] and with it [parseOptions] throws,
    and the message contains the text that names the argument: the
    argument itself, or the option name in front of its [=]. *)
Theorem malformed_option_raises
    to_maxint stod test_exit_code fresh is_resume file_exists g argv i st text :
  reaches to_maxint stod test_exit_code file_exists argv 1
    {| opts := fresh; numbers := []; settings := g |} i st ->
  malformed argv i text ->
  exists msg,
    containsb msg text = true /\
    parseOption argv i = Fault (Thrown msg) /\
    parseOptions to_maxint stod test_exit_code fresh is_resume file_exists
      g argv = Fault (Thrown msg).
Proof.
  intros Hr Hbad.
  pose proof (malformed_in_range _ _ _ Hbad) as Hi.
  destruct (parseOption_throws _ _ _ Hbad) as (msg & Hmsg & Hthrow).
  exists msg. split_and!; [done..|].
  pose proof (reaches_le _ _ _ _ _ _ _ _ _ Hr) as Hi1.
  unfold parseOptions. rewrite decide_False by lia.
  rewrite (options_loop_throws _ _ _ _ _ _ _ _ _ msg _ Hr Hthrow Hi); [done|lia].
Qed.

Lemma malformed_option_raises_witness :
  exists msg,
    containsb msg "--threads" = true /\
    parseOption ["primecount"; "--time"; "--threads="; "100"] 2
    = Fault (Thrown msg) /\
    parseOptions Backup.read_decimal no_stod 0 fresh_opts resumes no_file
      no_settings ["primecount"; "--time"; "--threads="; "100"]
    = Fault (Thrown msg).
Proof.
  eapply (malformed_option_raises Backup.read_decimal no_stod 0 fresh_opts
            resumes no_file no_settings
            ["primecount"; "--time"; "--threads="; "100"] 2 _ "--threads").
  - eapply reaches_next; [vm_compute; reflexivity..|apply reaches_here].
  - apply (bad_eq_empty _ _ "--threads=" 9 OPTION_THREADS);
      first [vm_compute; reflexivity | done].
Defined.

(** C9 (as the spec has it) fails: [--time=] is a [--opt=] with an empty
    value, and [parseOptions] returns normally on it, because only options
    with a required parameter are refused an empty value; and for
    [--foo=5] the message names [--foo], not the argument. *)
Lemma empty_value_accepted :
  parseOptions Backup.read_decimal no_stod 0 fresh_opts resumes no_file
    no_settings ["primecount"; "--time="; "100"]
  = Done {| x := 100; a := -1; option := None; time := true;
            resumeFile := ""; backupFile := "" |} /\
  parseOptions Backup.read_decimal no_stod 0 fresh_opts resumes no_file
    no_settings ["primecount"; "--foo=5"]
  = Fault (Thrown "unrecognized option '--foo'") /\
  containsb "unrecognized option '--foo'" "--foo=5" = false.
Proof. split_and!; vm_compute; reflexivity. Qed.

End CmdProofs.

(** * Backup documents: what is written is what is read *)

Module BackupTrips.
Import Backup.

Lemma field_set_field_eq j k v : field (set_field j k v) k = v.
Proof. destruct j; cbn; by rewrite lookup_insert_eq. Qed.

Lemma field_set_field_ne j k k' v :
  k <> k' -> field (set_field j k v) k' = field j k'.
Proof.
  intros H. destruct j; cbn; rewrite lookup_insert_ne by done;
    by rewrite ?lookup_empty.
Qed.

Lemma field2_eq j sec k v : field (field (set_field2 j sec k v) sec) k = v.
Proof. unfold set_field2. by rewrite !field_set_field_eq. Qed.

Lemma field2_ne j sec k k' v :
  k <> k' ->
  field (field (set_field2 j sec k v) sec) k' = field (field j sec) k'.
Proof.
  intros H. unfold set_field2.
  by rewrite field_set_field_eq, field_set_field_ne.
Qed.

Lemma field_other j sec sec' k v :
  sec <> sec' -> field (set_field2 j sec k v) sec' = field j sec'.
Proof. intros H. unfold set_field2. by rewrite field_set_field_ne. Qed.

Lemma field_erased j sec :
  field (match j with JObj m => JObj (delete sec m) | _ => j end) sec = JNull.
Proof. destruct j; cbn; try done. by rewrite lookup_delete_eq. Qed.

Lemma field_erased_other j sec sec' :
  sec <> sec' ->
  field (match j with JObj m => JObj (delete sec m) | _ => j end) sec'
  = field j sec'.
Proof. intros H. destruct j; cbn; try done. by rewrite lookup_delete_ne. Qed.

Lemma field_null k : field JNull k = JNull.
Proof. done. Qed.

Section Trips.

Variable to_maxint : string -> outcome Z.
Variable to_str : Z -> string.
Variable get_percent : Z -> Z -> Q.
Variable get_alpha_y : Z -> Z -> Q.
Variable get_alpha_z : Z -> Z -> Q.

(** [is_resume] looks at the fields of the section only. *)
Lemma is_resume_fields j formula x header :
  is_resume to_maxint j formula x header
  = match s ← as_string (field (field j formula) "x"); to_maxint s with
    | Done x' =>
        bool_decide (x = x') &&
        forallb (fun kv : string * Z =>
                   match field (field j formula) kv.1 with
                   | JInt n => bool_decide (n = kv.2)
                   | _ => false
                   end) header
    | Fault _ => false
    end.
Proof.
  unfold is_resume. destruct j as [| | | |m]; try done.
  cbn [field]. destruct (m !! formula) as [sec|]; done.
Qed.

Ltac settle H1 H2 H3 :=
  repeat (first [ rewrite H1 | rewrite H2 | rewrite H3
                | rewrite bool_decide_eq_true_2 by done ];
          cbn [mbind outcome_bind andb]);
  try done.

Ltac read_fields :=
  repeat first
    [ rewrite field2_eq
    | rewrite field2_ne by done
    | rewrite field_erased
    | rewrite field_null ].

(** What [resume] reads from a document that [backup] wrote, for B and
    for P2. *)
Lemma resume_of_backup_B now1 now2 j x y z v v0 :
  to_maxint (to_str x) = Done x ->
  to_maxint (to_str (b_sum v)) = Done (b_sum v) ->
  resume_B to_maxint now2
    (backup_B to_str get_percent get_alpha_y now1 j x y z v) x y v0
  = Done (true, {| b_low := b_low v;
                   b_pi_low_minus_1 := b_pi_low_minus_1 v;
                   b_thread_distance := b_thread_distance v;
                   b_sum := b_sum v;
                   b_time := (now2 - (now1 - b_time v))%Q |}).
Proof.
  intros Hx Hsum.
  unfold resume_B. rewrite is_resume_fields. unfold backup_B.
  cbn [forallb fst snd]. read_fields.
  cbn [as_string as_real as_int mbind outcome_bind].
  settle Hx Hsum Hsum.
Qed.

Lemma resume_of_backup_P2 now1 now2 j x y z v v0 :
  to_maxint (to_str x) = Done x ->
  to_maxint (to_str (p_pix_total v)) = Done (p_pix_total v) ->
  to_maxint (to_str (p_p2 v)) = Done (p_p2 v) ->
  resume_P2 to_maxint now2 (backup_P2 to_str get_percent now1 j x y z v)
    x y z v0
  = Done {| p_low := p_low v;
            p_thread_distance := p_thread_distance v;
            p_pix_total := p_pix_total v;
            p_p2 := p_p2 v;
            p_time := (now2 - (now1 - p_time v))%Q |}.
Proof.
  intros Hx Hpix Hp2.
  unfold resume_P2. rewrite is_resume_fields. unfold backup_P2.
  cbn [forallb fst snd]. read_fields.
  cbn [as_string as_real as_int mbind outcome_bind].
  settle Hx Hpix Hp2.
Qed.

Lemma resume_of_backup_Phi0 now1 now2 j x y z k sum time sum0 time0 :
  to_maxint (to_str x) = Done x ->
  to_maxint (to_str sum) = Done sum ->
  resume_Phi0 to_maxint now2
    (backup_Phi0 to_str get_alpha_y get_alpha_z now1 j x y z k sum time)
    x y z k sum0 time0
  = Done (true, sum, (now2 - (now1 - time))%Q).
Proof.
  intros Hx Hsum.
  unfold resume_Phi0. rewrite is_resume_fields. unfold backup_Phi0.
  cbn [forallb fst snd]. read_fields.
  cbn [as_string as_real as_int mbind outcome_bind].
  settle Hx Hsum Hsum.
Qed.

Lemma resume_of_result_B now1 now2 j x y z sum time sum0 time0 :
  to_maxint (to_str x) = Done x ->
  to_maxint (to_str sum) = Done sum ->
  resume_B_result to_maxint now2
    (backup_B_result to_str get_alpha_y now1 j x y z sum time) x y sum0 time0
  = Done (true, sum, (now2 - (now1 - time))%Q).
Proof.
  intros Hx Hsum.
  unfold resume_B_result. rewrite is_resume_fields. unfold backup_B_result.
  cbn [forallb fst snd]. read_fields.
  cbn [as_string as_real as_int mbind outcome_bind].
  settle Hx Hsum Hsum.
Qed.

(** X1. What B's [backup] stores at a batch boundary is what its
    [resume] restores for the same [(x, y)]: [low], [pi_low_minus_1],
    [thread_distance] and the sum come back as they were, and the start
    time is moved so that the seconds already spent count on. *)
Theorem backup_resume_B now1 now2 j x y z v v0 :
  to_maxint (to_str x) = Done x ->
  to_maxint (to_str (b_sum v)) = Done (b_sum v) ->
  resume_B to_maxint now2
    (backup_B to_str get_percent get_alpha_y now1 j x y z v) x y v0
  = Done (true, {| b_low := b_low v;
                   b_pi_low_minus_1 := b_pi_low_minus_1 v;
                   b_thread_distance := b_thread_distance v;
                   b_sum := b_sum v;
                   b_time := (now2 - (now1 - b_time v))%Q |}).
Proof. apply resume_of_backup_B. Qed.

(** X2. The same for the P2 kernel with backup: [low],
    [thread_distance], [pix_total] and [p2] come back as stored, for the
    same [(x, y, z)]. *)
Theorem backup_resume_P2 now1 now2 j x y z v v0 :
  to_maxint (to_str x) = Done x ->
  to_maxint (to_str (p_pix_total v)) = Done (p_pix_total v) ->
  to_maxint (to_str (p_p2 v)) = Done (p_p2 v) ->
  resume_P2 to_maxint now2 (backup_P2 to_str get_percent now1 j x y z v)
    x y z v0
  = Done {| p_low := p_low v;
            p_thread_distance := p_thread_distance v;
            p_pix_total := p_pix_total v;
            p_p2 := p_p2 v;
            p_time := (now2 - (now1 - p_time v))%Q |}.
Proof. apply resume_of_backup_P2. Qed.

(** X3. Phi0 stores its result once it is computed, and a later call
    with the same [(x, y, z, k)] gets the sum back from the document. *)
Theorem backup_resume_Phi0 now1 now2 j x y z k sum time sum0 time0 :
  to_maxint (to_str x) = Done x ->
  to_maxint (to_str sum) = Done sum ->
  resume_Phi0 to_maxint now2
    (backup_Phi0 to_str get_alpha_y get_alpha_z now1 j x y z k sum time)
    x y z k sum0 time0
  = Done (true, sum, (now2 - (now1 - time))%Q).
Proof. apply resume_of_backup_Phi0. Qed.

(** X4. B's result: the document that [backup(x, y, z, sum, time)]
    writes is resumed as a result, whatever the document held before
    (an older section of B is erased first); a document written at a
    batch boundary is not taken for a result, because it holds a [low]. *)
Theorem backup_result_B now1 now2 j x y z sum time v sum0 time0 :
  to_maxint (to_str x) = Done x ->
  to_maxint (to_str sum) = Done sum ->
  resume_B_result to_maxint now2
    (backup_B_result to_str get_alpha_y now1 j x y z sum time) x y sum0 time0
  = Done (true, sum, (now2 - (now1 - time))%Q) /\
  resume_B_result to_maxint now2
    (backup_B to_str get_percent get_alpha_y now1 j x y z v) x y sum0 time0
  = Done (false, sum0, time0).
Proof.
  intros Hx Hsum. split.
  - by apply resume_of_result_B.
  - unfold resume_B_result. rewrite is_resume_fields. unfold backup_B.
    cbn [forallb fst snd]. read_fields.
    cbn [as_string as_real as_int mbind outcome_bind].
    settle Hx Hx Hx.
Qed.

(** X5. A backup touches the section of its own formula only: every
    other section of the document reads as before. *)
Theorem backup_keeps_other_sections now j x y z k vB vP sum time sec :
  (sec <> "B"%string ->
   field (backup_B to_str get_percent get_alpha_y now j x y z vB) sec
   = field j sec /\
   field (backup_B_result to_str get_alpha_y now j x y z sum time) sec
   = field j sec) /\
  (sec <> "P2"%string ->
   field (backup_P2 to_str get_percent now j x y z vP) sec = field j sec) /\
  (sec <> "Phi0"%string ->
   field (backup_Phi0 to_str get_alpha_y get_alpha_z now j x y z k sum time) sec
   = field j sec).
Proof.
  split_and!; intros Hsec; [split|..];
    unfold backup_B, backup_B_result, backup_P2, backup_Phi0;
    rewrite !field_other by done; [done| |done|done].
  by apply field_erased_other.
Qed.

End Trips.

Definition vars_B : BVars :=
  {| b_low := 50; b_pi_low_minus_1 := 15; b_thread_distance := 8;
     b_sum := 77; b_time := 30%Q |}.

Definition vars_P2 : P2Vars :=
  {| p_low := 50; p_thread_distance := 8; p_pix_total := 15;
     p_p2 := 77; p_time := 30%Q |}.

Definition no_percent (low z : Z) : Q := 0%Q.

Lemma backup_resume_B_witness :
  resume_B read_decimal 200%Q
    (backup_B pretty no_percent no_percent 100%Q JNull 1000 10 100 vars_B)
    1000 10 vars_B
  = Done (true, {| b_low := 50; b_pi_low_minus_1 := 15;
                   b_thread_distance := 8; b_sum := 77;
                   b_time := (200 - (100 - 30))%Q |}).
Proof.
  apply (backup_resume_B read_decimal pretty no_percent no_percent
           100%Q 200%Q JNull 1000 10 100 vars_B vars_B);
    vm_compute; reflexivity.
Defined.

Lemma backup_resume_P2_witness :
  resume_P2 read_decimal 200%Q
    (backup_P2 pretty no_percent 100%Q JNull 1000 10 100 vars_P2)
    1000 10 100 vars_P2
  = Done {| p_low := 50; p_thread_distance := 8; p_pix_total := 15;
            p_p2 := 77; p_time := (200 - (100 - 30))%Q |}.
Proof.
  apply (backup_resume_P2 read_decimal pretty no_percent
           100%Q 200%Q JNull 1000 10 100 vars_P2 vars_P2);
    vm_compute; reflexivity.
Defined.

Lemma backup_resume_Phi0_witness :
  resume_Phi0 read_decimal 200%Q
    (backup_Phi0 pretty no_percent no_percent 100%Q JNull 1000 10 100 3 77 30%Q)
    1000 10 100 3 0 0%Q
  = Done (true, 77, (200 - (100 - 30))%Q).
Proof.
  apply (backup_resume_Phi0 read_decimal pretty no_percent no_percent
           100%Q 200%Q JNull 1000 10 100 3 77 30%Q 0 0%Q);
    vm_compute; reflexivity.
Defined.

Lemma backup_result_B_witness :
  resume_B_result read_decimal 200%Q
    (backup_B_result pretty no_percent 100%Q
       (backup_B pretty no_percent no_percent 90%Q JNull 1000 10 100 vars_B)
       1000 10 100 77 30%Q) 1000 10 0 0%Q
  = Done (true, 77, (200 - (100 - 30))%Q).
Proof.
  refine (proj1 (backup_result_B read_decimal pretty no_percent no_percent
           100%Q 200%Q
           (backup_B pretty no_percent no_percent 90%Q JNull 1000 10 100 vars_B)
           1000 10 100 77 30%Q vars_B 0 0%Q _ _));
    vm_compute; reflexivity.
Defined.

Lemma backup_keeps_other_sections_witness :
  field (backup_P2 pretty no_percent 100%Q
           (backup_B pretty no_percent no_percent 90%Q JNull 1000 10 100 vars_B)
           1000 10 100 vars_P2) "B"
  = field (backup_B pretty no_percent no_percent 90%Q JNull 1000 10 100 vars_B)
      "B".
Proof.
  refine (proj1 (proj2 (backup_keeps_other_sections pretty no_percent
           no_percent no_percent 100%Q
           (backup_B pretty no_percent no_percent 90%Q JNull 1000 10 100 vars_B)
           1000 10 100 3 vars_B vars_P2 77 30%Q "B")) _).
  done.
Defined.

End BackupTrips.

(** * The command-line parser: what it accepts *)

Module CmdFacts.
Import CmdOptions.

Local Open Scope string_scope.

(** A run that ends the way the program means it to: with a result, a
    [primecount_error] or an exit. *)
Definition graceful {X} (r : outcome X) : Prop :=
  match r with
  | Done _ | Fault (Thrown _) | Fault (Exited _) => True
  | Fault _ => False
  end.

Lemma number_option :
  optionMap !! "--number" = Some (OPTION_NUMBER, REQUIRED_PARAM).
Proof. vm_compute. reflexivity. Qed.

Ltac split_cases H :=
  repeat
    (match goal with
     | H : context [decide ?P] |- _ => destruct (decide P)
     | H : context [outcome_bind _ ?m] |- _ => destruct m eqn:?
     | H : context [mbind _ ?m] |- _ => destruct m eqn:?
     | H : context [match ?t with _ => _ end] |- _ => destruct t eqn:?
     end; cbn [mbind outcome_bind] in *; simplify_eq).

(** X6. What [parseOption] returns: the option's text is the argument
    it was asked to parse, its name is an entry of [optionMap], it has
    used that argument and at most the next one, and an option whose
    parameter is required has a value. *)
Theorem parseOption_sound argv i o i' :
  parseOption argv i = Done (o, i') ->
  argv !! i = Some (str o) /\
  is_Some (optionMap !! opt o) /\
  (i <= i' <= S i)%nat /\ (i' < length argv)%nat /\
  (forall id, optionMap !! opt o = Some (id, REQUIRED_PARAM) -> val o <> "").
Proof.
  unfold parseOption, param_of. pose proof number_option as Hnum.
  revert Hnum. generalize optionMap. intros table Hnum H.
  destruct (arg argv i) as [s|] eqn:Hs; [|done].
  apply CmdProofs.arg_inv in Hs. pose proof (lookup_lt_Some _ _ _ Hs).
  cbn [mbind outcome_bind] in H.
  split_cases H; cbn [str opt val];
    repeat match goal with
           | H : arg _ _ = Done _ |- _ => apply CmdProofs.arg_inv in H
           end;
    (split_and!; [done|by eauto|lia|lia|first [lia|idtac]|]);
    try (intros id Hid; simplify_eq; done).
Qed.

Lemma parseOption_sound_witness :
  let argv := ["primecount"; "-t"; "32"] in
  let o := {| str := "-t"; opt := "-t"; val := "32" |} in
  argv !! 1%nat = Some (str o) /\
  is_Some (optionMap !! opt o) /\
  (1 <= 2 <= 2)%nat /\ (2 < length argv)%nat /\
  (forall id, optionMap !! opt o = Some (id, REQUIRED_PARAM) -> val o <> "").
Proof.
  apply (parseOption_sound ["primecount"; "-t"; "32"] 1
           {| str := "-t"; opt := "-t"; val := "32" |} 2).
  vm_compute. reflexivity.
Defined.

(** The name that [parseOption] returns is an entry of [optionMap],
    and the index does not go back. *)
Lemma parseOption_known argv i o i' :
  parseOption argv i = Done (o, i') ->
  is_Some (optionMap !! opt o) /\ (i <= i')%nat.
Proof.
  unfold parseOption, param_of. pose proof number_option as Hnum.
  revert Hnum. generalize optionMap. intros table Hnum H.
  destruct (arg argv i) as [s|] eqn:Hs; [|done].
  cbn [mbind outcome_bind] in H.
  split_cases H; cbn [opt]; (split; [by eauto|lia]).
Qed.

Lemma parseOption_graceful argv i :
  (i < length argv)%nat -> graceful (parseOption argv i).
Proof.
  intros Hi. destruct (parseOption argv i) as [r|f] eqn:H; [done|].
  revert H. unfold parseOption, param_of, throw.
  generalize optionMap. intros table H.
  destruct (lookup_lt_is_Some_2 argv i Hi) as [s Hs].
  rewrite (CmdProofs.arg_Done _ _ _ Hs) in H. cbn [mbind outcome_bind] in H.
  split_cases H; try done;
    repeat match goal with
           | H : arg _ ?k = Fault _, H' : (?k < length _)%nat |- _ =>
               destruct (lookup_lt_is_Some_2 _ _ H') as [? Hk];
               rewrite (CmdProofs.arg_Done _ _ _ Hk) in H
           end; done.
Qed.

Section Parse.

Variable to_maxint : string -> outcome Z.
Variable stod : string -> outcome Q.
Variable test_exit_code : Z.
Variable fresh : CmdOptions.
Variable is_resume : CmdOptions -> bool.
Variable file_exists : string -> bool.

Lemma dispatch_graceful o st :
  is_Some (optionMap !! opt o) ->
  graceful (dispatch to_maxint stod test_exit_code file_exists o st).
Proof.
  intros [[id p] Hid]. unfold dispatch. rewrite Hid.
  unfold optionResume, optionStatus, to_int, to_double, throw.
  destruct id; cbn [mbind outcome_bind]; try done;
    repeat (first [case_decide | case_match]; cbn [mbind outcome_bind];
            try done).
Qed.

Lemma options_loop_graceful fuel argv i st :
  (length argv - i <= fuel)%nat ->
  graceful (options_loop to_maxint stod test_exit_code file_exists
              fuel argv i st).
Proof.
  revert i st. induction fuel as [|fuel IH]; intros i st Hfuel.
  - cbn [options_loop]. by rewrite decide_False by lia.
  - cbn [options_loop]. case_decide as Hi; [|done].
    pose proof (parseOption_graceful argv i Hi) as Hg.
    destruct (parseOption argv i) as [[o i']|f] eqn:Hp; [|done].
    cbn [mbind outcome_bind].
    destruct (parseOption_known _ _ _ _ Hp) as [Hin Hii].
    pose proof (dispatch_graceful o st Hin) as Hd.
    destruct (dispatch _ _ _ _ o st) as [st'|f]; [|done].
    cbn [mbind outcome_bind]. apply IH. lia.
Qed.

(** X7. [parseOptions] never reads [argv] outside its bounds and never
    looks up an option that [optionMap] lacks (and the model's loop
    budget is enough): for every argument vector it returns the options,
    throws a [primecount_error] or exits. *)
Theorem parseOptions_graceful g argv :
  graceful (parseOptions to_maxint stod test_exit_code fresh is_resume
              file_exists g argv).
Proof.
  unfold parseOptions. case_decide; [done|].
  pose proof (options_loop_graceful (length argv) argv 1
                {| opts := fresh; numbers := []; settings := g |}
                ltac:(lia)) as Hg.
  destruct (options_loop _ _ _ _ _ _ _ _) as [st|f]; [|done].
  cbn [mbind outcome_bind]. unfold throw.
  repeat (first [case_decide | case_match]; cbn [mbind outcome_bind];
          try done).
Qed.

End Parse.

(** ** Spellings of an option *)

Lemma prefix_empty s : String.prefix "" s = true.
Proof. by destruct s. Qed.

Lemma index_eq_cons c s :
  index 0 "=" (String c s)
  = if Ascii.eqb c "=" then Some 0%nat
    else match index 0 "=" s with Some n => Some (S n) | None => None end.
Proof.
  cbn [index String.prefix]. destruct (ascii_dec "=" c) as [<-|Hne].
  - by rewrite prefix_empty.
  - destruct (Ascii.eqb_spec c "=") as [->|_]; done.
Qed.

Lemma index_eq_app o v :
  index 0 "=" o = None -> index 0 "=" (o ++ String "=" v) = Some (String.length o).
Proof.
  induction o as [|c o IH]; intros H.
  - change ("" ++ String "=" v) with (String "=" v).
    by rewrite index_eq_cons.
  - change (String c o ++ String "=" v) with (String c (o ++ String "=" v)).
    rewrite index_eq_cons in *. destruct (Ascii.eqb c "="); [done|].
    destruct (index 0 "=" o); [done|]. by rewrite IH.
Qed.

Lemma index_eq_none_app o v :
  index 0 "=" o = None -> index 0 "=" v = None -> index 0 "=" (o ++ v) = None.
Proof.
  induction o as [|c o IH]; intros Ho Hv; [done|].
  change (String c o ++ v) with (String c (o ++ v)).
  rewrite index_eq_cons in *. destruct (Ascii.eqb c "="); [done|].
  destruct (index 0 "=" o); [done|]. by rewrite IH.
Qed.

Lemma substring_all v : substring 0 (String.length v) v = v.
Proof. induction v as [|c v IH]; [done|]. cbn. by rewrite IH. Qed.

Lemma substring_front o r : substring 0 (String.length o) (o ++ r) = o.
Proof.
  induction o as [|c o IH]; [by destruct r|].
  change (String c o ++ r) with (String c (o ++ r)). cbn. by rewrite IH.
Qed.

Lemma length_app o r :
  String.length (o ++ r) = (String.length o + String.length r)%nat.
Proof.
  induction o as [|c o IH]; [done|].
  change (String c o ++ r) with (String c (o ++ r)). cbn. by rewrite IH.
Qed.

Lemma substring_back o r n :
  n = String.length r -> substring (String.length o) n (o ++ r) = r.
Proof.
  intros ->. induction o as [|c o IH].
  - change ("" ++ r) with r. apply substring_all.
  - change (String c o ++ r) with (String c (o ++ r)). cbn. apply IH.
Qed.

Lemma find_first_digit_app o c v :
  find_first_digit o = None -> is_digit c = true ->
  find_first_digit (o ++ String c v) = Some (String.length o).
Proof.
  intros Ho Hc. induction o as [|d o IH].
  - change ("" ++ String c v) with (String c v). cbn [find_first_digit].
    by rewrite Hc.
  - change (String d o ++ String c v) with (String d (o ++ String c v)).
    cbn [find_first_digit] in *. destruct (is_digit d); [done|].
    destruct (find_first_digit o); [done|]. by rewrite IH.
Qed.

Lemma isOption_app o r : isOption o = true -> isOption (o ++ r) = true.
Proof.
  destruct o as [|a [|b o]]; [done|by destruct a as [[] [] [] [] [] [] [] []]|].
  change (String a (String b o) ++ r) with (String a (String b (o ++ r))).
  destruct o as [|c o].
  - change ("" ++ r) with r. unfold isOption.
    destruct a as [[] [] [] [] [] [] [] []]; try done.
    destruct (is_latin b); [done|]. cbn [orb]. done.
  - change (String c o ++ r) with (String c (o ++ r)). done.
Qed.

(** What holds of every entry of [optionMap]: its name is an option
    without [=], and cutting it at a digit does not give another entry. *)
Definition entry_ok (kv : string * (OptionID * IsParam)) : bool :=
  isOption kv.1 &&
  bool_decide (index 0 "=" kv.1 = None) &&
  match find_first_digit kv.1 with
  | None => true
  | Some pos => bool_decide (optionMap !! substring 0 pos kv.1 = None)
  end.

Lemma entries_ok : forallb entry_ok (map_to_list optionMap) = true.
Proof. vm_compute. reflexivity. Qed.

Lemma entry_of o x : optionMap !! o = Some x -> entry_ok (o, x) = true.
Proof.
  intros H. pose proof entries_ok as Hall.
  rewrite forallb_forall in Hall. apply Hall.
  apply list_elem_of_In. by apply elem_of_map_to_list.
Qed.

Lemma entry_option o x : optionMap !! o = Some x -> isOption o = true.
Proof.
  intros H%entry_of. unfold entry_ok in H. cbn [fst] in H.
  by destruct (isOption o).
Qed.

Lemma entry_no_eq o x : optionMap !! o = Some x -> index 0 "=" o = None.
Proof.
  intros H%entry_of. unfold entry_ok in H. cbn [fst] in H.
  apply andb_true_iff in H as [H _]. apply andb_true_iff in H as [_ H].
  by apply bool_decide_eq_true in H.
Qed.

Lemma entry_cut o x pos :
  optionMap !! o = Some x -> find_first_digit o = Some pos ->
  optionMap !! substring 0 pos o = None.
Proof.
  intros H%entry_of Hd. unfold entry_ok in H. cbn [fst] in H.
  rewrite Hd in H. apply andb_true_iff in H as [_ H].
  by apply bool_decide_eq_true in H.
Qed.

Lemma substring_after o c r n :
  n = String.length r -> substring (S (String.length o)) n (o ++ String c r) = r.
Proof.
  intros ->. induction o as [|d o IH].
  - change ("" ++ String c r) with (String c r). cbn [String.length substring].
    apply substring_all.
  - change (String d o ++ String c r) with (String d (o ++ String c r)).
    cbn [String.length]. cbn [substring]. apply IH.
Qed.

Lemma app_not_empty o c r : o ++ String c r <> "".
Proof. by destruct o. Qed.

Lemma option_not_empty o : isOption o = true -> o <> "".
Proof. by intros H ->. Qed.

(** X8. Three spellings, one option.  For an entry [o] of [optionMap]
    and a value [v] that is not empty, [parseOption] gives the name [o]
    and the value [v] for [o=v]; for [o v] in two arguments when [o]
    takes a parameter and [v] is not itself an option; and for [ov]
    when [o] has no digit and [v] starts with one and has no [=].  What
    [parseOptions] then does with the option depends on its name and
    value only, not on the spelling. *)
Theorem spellings_agree to_maxint stod test_exit_code file_exists
    argv i o id p v st :
  optionMap !! o = Some (id, p) -> v <> "" ->
  (argv !! i = Some (o ++ "=" ++ v) ->
   parseOption argv i
   = Done ({| str := o ++ "=" ++ v; opt := o; val := v |}, i)) /\
  (p <> NO_PARAM -> argv !! i = Some o -> argv !! S i = Some v ->
   isOption v = false ->
   parseOption argv i = Done ({| str := o; opt := o; val := v |}, S i)) /\
  (find_first_digit o = None -> index 0 "=" v = None ->
   (exists c v', v = String c v' /\ is_digit c = true) ->
   argv !! i = Some (o ++ v) ->
   parseOption argv i = Done ({| str := o ++ v; opt := o; val := v |}, i)) /\
  (forall text text',
     dispatch to_maxint stod test_exit_code file_exists
       {| str := text; opt := o; val := v |} st
     = dispatch to_maxint stod test_exit_code file_exists
         {| str := text'; opt := o; val := v |} st).
Proof.
  intros Ho Hv.
  pose proof (entry_option o _ Ho) as Hopt.
  pose proof (entry_no_eq o _ Ho) as Heq.
  split_and!.
  - intros Hs. change ("=" ++ v) with (String "=" v) in *.
    unfold parseOption. rewrite (CmdProofs.arg_Done _ _ _ Hs).
    cbn [mbind outcome_bind].
    rewrite decide_False by apply app_not_empty.
    destruct (optionMap !! (o ++ String "=" v)) as [x|] eqn:Hin.
    { apply entry_no_eq in Hin. by rewrite index_eq_app in Hin. }
    rewrite isOption_app by done. rewrite index_eq_app by done.
    cbv zeta. rewrite substring_front, Ho. cbn [mbind outcome_bind].
    unfold param_of. rewrite Ho. cbn [mbind outcome_bind].
    rewrite substring_after by (rewrite length_app; cbn; lia).
    by rewrite decide_False by done.
  - intros Hp Hs Hnext Hnot.
    unfold parseOption. rewrite (CmdProofs.arg_Done _ _ _ Hs).
    cbn [mbind outcome_bind].
    rewrite decide_False by by apply option_not_empty.
    rewrite Ho. pose proof (lookup_lt_Some _ _ _ Hnext) as Hlt.
    destruct p; [done| |].
    + rewrite decide_True by done. cbv zeta.
      rewrite decide_True by done.
      rewrite (CmdProofs.arg_Done _ _ _ Hnext). cbn [mbind outcome_bind].
      rewrite decide_False by done. rewrite Hnot. cbn [mbind outcome_bind].
      destruct (decide (S (S i) < length argv)%nat) as [Hmore|Hmore].
      * destruct (lookup_lt_is_Some_2 argv _ Hmore) as [w Hw].
        rewrite (CmdProofs.arg_Done _ _ _ Hw). cbn [mbind outcome_bind].
        by rewrite decide_False by done.
      * cbn [mbind outcome_bind]. by rewrite decide_False by done.
    + rewrite decide_False by done. cbn [mbind outcome_bind].
      rewrite decide_True by done.
      rewrite (CmdProofs.arg_Done _ _ _ Hnext). cbn [mbind outcome_bind].
      rewrite !decide_True by done. rewrite decide_False by done.
      by rewrite Hnot.
  - intros Hd Hveq (c & v' & -> & Hc) Hs.
    unfold parseOption. rewrite (CmdProofs.arg_Done _ _ _ Hs).
    cbn [mbind outcome_bind].
    rewrite decide_False by apply app_not_empty.
    pose proof (find_first_digit_app o c v' Hd Hc) as Hfd.
    destruct (optionMap !! (o ++ String c v')) as [x|] eqn:Hin.
    { apply (entry_cut _ _ _ Hin) in Hfd.
      rewrite substring_front in Hfd. congruence. }
    rewrite isOption_app by done. rewrite index_eq_none_app by done.
    rewrite Hfd. rewrite substring_front.
    rewrite substring_back by (rewrite length_app; lia).
    rewrite Ho. cbn [mbind outcome_bind].
    unfold param_of. rewrite Ho. cbn [mbind outcome_bind].
    by rewrite decide_False by done.
  - intros text text'. reflexivity.
Qed.

Lemma spellings_agree_witness :
  parseOption ["primecount"; "--threads=8"; "100"] 1
  = Done ({| str := "--threads=8"; opt := "--threads"; val := "8" |}, 1%nat) /\
  parseOption ["primecount"; "--threads"; "8"; "100"] 1
  = Done ({| str := "--threads"; opt := "--threads"; val := "8" |}, 2%nat) /\
  parseOption ["primecount"; "--threads8"; "100"] 1
  = Done ({| str := "--threads8"; opt := "--threads"; val := "8" |}, 1%nat).
Proof.
  split_and!.
  - refine (proj1 (spellings_agree Backup.read_decimal CmdProofs.no_stod 0
              CmdProofs.no_file ["primecount"; "--threads=8"; "100"] 1
              "--threads" OPTION_THREADS REQUIRED_PARAM "8"
              {| opts := CmdProofs.fresh_opts; numbers := [];
                 settings := CmdProofs.no_settings |} _ _) _); done.
  - refine (proj1 (proj2 (spellings_agree Backup.read_decimal CmdProofs.no_stod 0
              CmdProofs.no_file ["primecount"; "--threads"; "8"; "100"] 1
              "--threads" OPTION_THREADS REQUIRED_PARAM "8"
              {| opts := CmdProofs.fresh_opts; numbers := [];
                 settings := CmdProofs.no_settings |} _ _)) _ _ _ _); done.
  - refine (proj1 (proj2 (proj2 (spellings_agree Backup.read_decimal
              CmdProofs.no_stod 0
              CmdProofs.no_file ["primecount"; "--threads8"; "100"] 1
              "--threads" OPTION_THREADS REQUIRED_PARAM "8"
              {| opts := CmdProofs.fresh_opts; numbers := [];
                 settings := CmdProofs.no_settings |} _ _))) _ _ _ _);
      first [done | by eexists _, _].
Defined.

Lemma isOption_dash c rest : isOption (String c rest) = true -> c = "-"%char.
Proof. destruct c as [[] [] [] [] [] [] [] []]; done. Qed.

Section Number.

Variable to_maxint : string -> outcome Z.
Variable stod : string -> outcome Q.
Variable test_exit_code : Z.
Variable fresh : CmdOptions.
Variable is_resume : CmdOptions -> bool.
Variable file_exists : string -> bool.

(** X9. An argument that holds a digit and does not start with [-] is
    the number [x]: alone on the command line it is read by [to_maxint]
    and stored in [opts.x]; when [to_maxint] rejects it, the error names
    it as [--number]. *)
Theorem number_argument g prog s c rest pos :
  s = String c rest -> c <> "-"%char -> find_first_digit s = Some pos ->
  is_resume fresh = false -> option fresh <> Some OPTION_PHI ->
  backupFile fresh = "" ->
  parseOptions to_maxint stod test_exit_code fresh is_resume file_exists g
    [prog; s]
  = match to_maxint s with
    | Done n =>
        Done {| x := n; a := a fresh; option := option fresh;
                time := time fresh; resumeFile := resumeFile fresh;
                backupFile := backupFile fresh |}
    | Fault _ => Fault (Thrown ("invalid option '--number=" ++ s ++ "'"))
    end.
Proof.
  intros Hs Hc Hd Hres Hphi Hback.
  assert (isOption s = false) as Hno.
  { destruct (isOption s) eqn:E; [|done]. rewrite Hs in E.
    by apply isOption_dash in E. }
  assert (optionMap !! s = None) as Hout.
  { destruct (optionMap !! s) eqn:E; [|done].
    apply entry_option in E. congruence. }
  assert (parseOption [prog; s] 1
          = Done ({| str := s; opt := "--number"; val := s |}, 1%nat)) as Hp.
  { unfold parseOption. cbn [arg lookup list_lookup mbind outcome_bind].
    rewrite decide_False by (by rewrite Hs). rewrite Hout, Hno, Hd.
    rewrite Hs. destruct c as [[] [] [] [] [] [] [] []]; done. }
  unfold parseOptions. cbn [length]. rewrite decide_False by lia.
  cbn [options_loop length]. rewrite decide_True by lia.
  rewrite Hp. cbn [mbind outcome_bind].
  unfold dispatch. cbn [opt]. rewrite number_option.
  unfold to_int, invalid_option. cbn [opt val].
  destruct (to_maxint s) as [n|f]; [|done].
  cbn [mbind outcome_bind]. rewrite decide_False by lia.
  cbn [mbind outcome_bind opts numbers]. rewrite Hres.
  rewrite decide_False by done. cbn [mbind outcome_bind app lookup list_lookup].
  rewrite decide_False; [done|]. cbn [backupFile]. tauto.
Qed.

End Number.

Lemma number_argument_witness :
  parseOptions Backup.read_decimal CmdProofs.no_stod 0 CmdProofs.fresh_opts
    CmdProofs.resumes CmdProofs.no_file CmdProofs.no_settings
    ["primecount"; "1000"]
  = Done {| x := 1000; a := -1; option := None; time := false;
            resumeFile := ""; backupFile := "" |}.
Proof.
  exact (number_argument Backup.read_decimal CmdProofs.no_stod 0
           CmdProofs.fresh_opts CmdProofs.resumes CmdProofs.no_file
           CmdProofs.no_settings "primecount" "1000" "1" "000" 0
           eq_refl ltac:(done) eq_refl eq_refl ltac:(done) eq_refl).
Defined.

End CmdFacts.

(** * The sieve: which bits a batch of cross-offs leaves *)

Module SieveFacts.
Import SieveModel.

Lemma high_bits_clear w k : 0 <= w < 2 ^ 64 -> 64 <= k -> Z.testbit w k = false.
Proof.
  intros Hw Hk. destruct (decide (w = 0)) as [->|Hne]; [apply Z.bits_0|].
  apply Z.bits_above_log2; [lia|].
  assert (Z.log2 w < 64) by (apply Z.log2_lt_pow2; lia). lia.
Qed.

Lemma words_eq w1 w2 :
  0 <= w1 < 2 ^ 64 -> 0 <= w2 < 2 ^ 64 ->
  (forall k, 0 <= k < 64 -> Z.testbit w1 k = Z.testbit w2 k) -> w1 = w2.
Proof.
  intros H1 H2 Hbits. apply Z.bits_inj'. intros k Hk.
  destruct (decide (k < 64)); [apply Hbits; lia|].
  by rewrite !high_bits_clear by lia.
Qed.

(** After a batch of cross-offs a bit is set exactly when it was set
    before and the batch does not name it. *)
Lemma cross_off_bits_bits l s s' :
  shape s -> counted s -> Forall (loc_ok s) l ->
  cross_off_bits l s = Done s' ->
  shape s' /\ counted s' /\ SieveProofs.same_cursor s s' /\
  length (sieve s') = length (sieve s) /\
  length (counters s') = length (counters s) /\
  forall (j : nat) w, sieve s !! j = Some w ->
    exists w', sieve s' !! j = Some w' /\
      forall k, 0 <= k < 64 ->
        Z.testbit w' k
        = Z.testbit w k && negb (bool_decide ((Z.of_nat j, k) ∈ l)).
Proof.
  revert s. induction l as [|[i b] l IH]; intros s Hsh Hcn Hok;
    cbn [cross_off_bits].
  { intros [= <-].
    split_and!; [done|done|apply SieveProofs.same_cursor_refl|done|done|].
    intros j w Hw. exists w. split; [done|]. intros k Hk.
    rewrite bool_decide_eq_false_2 by apply not_elem_of_nil.
    by rewrite andb_true_r. }
  apply Forall_cons in Hok as [Hloc Hok].
  intros (s1 & H1 & H2)%bind_Done.
  destruct (SieveProofs.cross_off_bit_spec s i b Hsh Hcn Hloc)
    as (w & cn & s1' & Hw & Hc & Hrun & Hsv & Htot & Hcs & Hpop & Hsame
        & Hsh1 & Hcn1).
  assert (s1' = s1) as -> by congruence.
  destruct Hloc as [[Hi0 Hi1] [Hb0 Hb1]]. cbn [fst snd] in *.
  assert (length (sieve s1) = length (sieve s)) as Hlen
    by (rewrite Hsv; apply length_insert).
  assert (length (counters s1) = length (counters s)) as Hlenc
    by (rewrite Hcs; apply length_insert).
  destruct (IH s1 Hsh1 Hcn1) as (Hsh' & Hcn' & Hsame' & Hlen' & Hlenc' & Hbits);
    [|done|].
  { eapply Forall_impl; [exact Hok|]. intros loc. unfold loc_ok.
    by rewrite Hlen. }
  split_and!; try done.
  - by eapply SieveProofs.same_cursor_trans.
  - congruence.
  - congruence.
  - intros j wj Hwj. destruct (decide (j = Z.to_nat i)) as [->|Hne].
    + assert (wj = w) as -> by congruence.
      destruct (Hbits (Z.to_nat i) (Z.land w (u64 (Z.lnot (Z.shiftl 1 b)))))
        as (w' & Hw' & Hk').
      { rewrite Hsv. apply list_lookup_insert_eq. by eapply lookup_lt_Some. }
      exists w'. split; [done|]. intros k Hk.
      rewrite (Hk' k Hk), SieveProofs.testbit_clear by lia.
      rewrite <- andb_assoc. f_equal. rewrite Z2Nat.id by lia.
      destruct (Z.eqb_spec k b) as [->|Hkb].
      * rewrite (bool_decide_eq_true_2 ((i, b) ∈ (i, b) :: l)) by left.
        done.
      * cbn [negb andb]. f_equal. apply bool_decide_ext.
        rewrite elem_of_cons. split; [by right|].
        intros [[= ?]|?]; done.
    + destruct (Hbits j wj) as (w' & Hw' & Hk').
      { by rewrite Hsv, list_lookup_insert_ne. }
      exists w'. split; [done|]. intros k Hk. rewrite (Hk' k Hk).
      do 2 f_equal. apply bool_decide_ext. rewrite elem_of_cons.
      split; [by right|]. intros [[= ? ?]|?]; [lia|done].
Qed.

(** Once the counts agree with the sieve, the sieve array and the cursor
    determine the whole state. *)
Lemma state_determined s s1 s2 :
  counted s1 -> counted s2 ->
  SieveProofs.same_cursor s s1 -> SieveProofs.same_cursor s s2 ->
  length (counters s1) = length (counters s2) ->
  sieve s1 = sieve s2 -> s1 = s2.
Proof.
  intros [Hc1 Ht1] [Hc2 Ht2] (? & ? & ? & ? & ? & ? & ?)
    (? & ? & ? & ? & ? & ? & ?) Hlen Hsv.
  destruct s1, s2. cbn in *. subst. f_equal. by rewrite Hc1, Hc2, Hlen.
Qed.

Lemma cross_off_bits_app l1 l2 s :
  cross_off_bits (l1 ++ l2) s = (s' ← cross_off_bits l1 s; cross_off_bits l2 s').
Proof.
  revert s. induction l1 as [|[i b] l1 IH]; intros s; [done|].
  cbn [app cross_off_bits]. destruct (cross_off_bit i b s) as [s1|]; [|done].
  cbn [mbind outcome_bind]. apply IH.
Qed.

(** X10. A batch of cross-offs is a matter of which bits it names, not
    of their order or of naming a bit twice: two batches that name the
    same bits leave the same sieve, the same counters and the same
    [total_count]; in particular crossing off the multiples of [p] and
    then those of [q] is the same as doing it the other way round. *)
Theorem cross_off_same_bits l1 l2 s :
  shape s -> counted s -> Forall (loc_ok s) l1 ->
  (forall loc, loc ∈ l1 <-> loc ∈ l2) ->
  cross_off_bits l1 s = cross_off_bits l2 s /\
  cross_off_bits (l1 ++ l2) s = cross_off_bits (l2 ++ l1) s /\
  cross_off_bits (l1 ++ l1) s = cross_off_bits l1 s.
Proof.
  assert (forall la lb,
            Forall (loc_ok s) la -> shape s -> counted s ->
            (forall loc, loc ∈ la <-> loc ∈ lb) ->
            cross_off_bits la s = cross_off_bits lb s) as Hsame.
  { intros la lb Hoka Hsh Hcn Hset.
    assert (Forall (loc_ok s) lb) as Hokb.
    { rewrite Forall_forall in *. intros loc Hloc. apply Hoka. by apply Hset. }
    destruct (SieveProofs.cross_off_bits_spec la s Hsh Hcn Hoka)
      as (sa & Ha & _).
    destruct (SieveProofs.cross_off_bits_spec lb s Hsh Hcn Hokb)
      as (sb & Hb & _).
    rewrite Ha, Hb. f_equal.
    destruct (cross_off_bits_bits la s sa Hsh Hcn Hoka Ha)
      as (Hsha & Hcna & Hcura & Hlena & Hlenca & Hbitsa).
    destruct (cross_off_bits_bits lb s sb Hsh Hcn Hokb Hb)
      as (Hshb & Hcnb & Hcurb & Hlenb & Hlencb & Hbitsb).
    apply (state_determined s); [done..|congruence|].
    apply list_eq. intros j.
    destruct (sieve s !! j) as [w|] eqn:Hw.
    - destruct (Hbitsa j w Hw) as (wa & Hwa & Hka).
      destruct (Hbitsb j w Hw) as (wb & Hwb & Hkb).
      rewrite Hwa, Hwb. f_equal.
      destruct Hsha as [_ _ _ Hwordsa _]. destruct Hshb as [_ _ _ Hwordsb _].
      rewrite Forall_lookup in Hwordsa, Hwordsb.
      apply words_eq; [by eapply Hwordsa|by eapply Hwordsb|].
      intros k Hk. rewrite (Hka k Hk), (Hkb k Hk). do 2 f_equal.
      apply bool_decide_ext, Hset.
    - apply lookup_ge_None in Hw.
      rewrite !(proj2 (lookup_ge_None _ _)); [done|lia|lia]. }
  intros Hsh Hcn Hok Hset.
  assert (Forall (loc_ok s) l2) as Hok2.
  { rewrite Forall_forall in *. intros loc Hloc. apply Hok. by apply Hset. }
  split_and!.
  - by apply Hsame.
  - apply Hsame; [by apply Forall_app|done|done|].
    intros loc. rewrite !elem_of_app. tauto.
  - apply Hsame; [by apply Forall_app|done|done|].
    intros loc. rewrite !elem_of_app. tauto.
Qed.

Lemma cross_off_same_bits_witness :
  let s := pre_sieve [0; 2; 3; 5] 1 0 16 in
  cross_off_bits (multiples 0 16 3 ++ multiples 0 16 5) s
  = cross_off_bits (multiples 0 16 5 ++ multiples 0 16 3) s.
Proof.
  intros s.
  destruct (SieveProofs.pre_sieve_inv [0; 2; 3; 5] 1 0 16) as (Hsh & Hcn & _);
    [lia|by vm_compute|].
  refine (proj1 (cross_off_same_bits
            (multiples 0 16 3 ++ multiples 0 16 5)
            (multiples 0 16 5 ++ multiples 0 16 3) s Hsh Hcn _ _)).
  - vm_compute. repeat constructor; done.
  - intros loc. rewrite !elem_of_app. tauto.
Defined.

End SieveFacts.

(** * Legendre's formula *)

Module LegendreProofs.
Import Primes.

Lemma is_prime_spec n :
  is_prime n = true <-> 2 <= n /\ forall d, 2 <= d < n -> n mod d <> 0.
Proof.
  unfold is_prime. rewrite andb_true_iff, Z.ltb_lt, forallb_forall. split.
  - intros [Hn Hall]. split; [lia|]. intros d Hd Hz.
    assert (In d (seqZ 2 (n - 2))) as Hin
      by (apply list_elem_of_In, elem_of_seqZ; lia).
    apply Hall in Hin. rewrite Hz in Hin. done.
  - intros [Hn Hall]. split; [lia|]. intros d Hin.
    apply list_elem_of_In, elem_of_seqZ in Hin.
    destruct (Z.eqb_spec (n mod d) 0) as [Hz|]; [|done].
    exfalso. apply (Hall d); [lia|done].
Qed.

(** The least divisor above 1. *)
Lemma least_divisor n :
  2 <= n ->
  exists d, 2 <= d <= n /\ n mod d = 0 /\ forall e, 2 <= e < d -> n mod e <> 0.
Proof.
  intros Hn.
  assert (forall k : nat,
            (exists d, 2 <= d <= n /\ n mod d = 0 /\
                       forall e, 2 <= e < d -> n mod e <> 0) \/
            (forall e, 2 <= e <= Z.of_nat k -> n mod e <> 0)) as H.
  { induction k as [|k [IH|IH]].
    - right. lia.
    - by left.
    - destruct (decide (n mod Z.of_nat (S k) = 0)) as [Hz|Hnz].
      + destruct (decide (2 <= Z.of_nat (S k) <= n)) as [Hr|Hr].
        * left. exists (Z.of_nat (S k)). split_and!; [lia|lia|done|].
          intros e He. apply IH. lia.
        * right. intros e He. destruct (decide (e = Z.of_nat (S k))) as [->|];
            [|apply IH; lia].
          destruct (decide (n < Z.of_nat (S k))).
          -- rewrite Z.mod_small in Hz by lia. lia.
          -- lia.
      + right. intros e He. destruct (decide (e = Z.of_nat (S k))) as [->|];
          [done|apply IH; lia]. }
  destruct (H (Z.to_nat n)) as [Hd|Hno]; [done|].
  exfalso. apply (Hno n); [lia|]. apply Z_mod_same_full.
Qed.

(** Every number above 1 has a prime factor, which is the number itself
    or does not exceed its square root. *)
Lemma prime_factor n :
  2 <= n ->
  exists p, is_prime p = true /\ n mod p = 0 /\ (p = n \/ p * p <= n).
Proof.
  intros Hn. destruct (least_divisor n Hn) as (d & Hd & Hz & Hmin).
  exists d. split_and!; [|done|].
  - apply is_prime_spec. split; [lia|]. intros e He Hez.
    apply (Hmin e); [lia|].
    apply Z.mod_divide; [lia|]. apply Z.mod_divide in Hez; [|lia].
    apply Z.mod_divide in Hz; [|lia]. by etrans.
  - destruct (decide (d = n)) as [|Hne]; [by left|right].
    apply Z.mod_divide in Hz as [m Hm]; [|lia].
    assert (2 <= m) by nia.
    destruct (decide (d <= m)) as [|Hlt]; [nia|].
    exfalso. apply (Hmin m); [lia|]. rewrite Hm, Z.mul_comm. apply Z.mod_mul. lia.
Qed.

(** The numbers that Legendre's sieve leaves: not divisible by any prime
    up to the square root. *)
Definition survives (x n : Z) : bool :=
  forallb (fun p => negb (n mod p =? 0)) (primes_in 1 (isqrt x)).

Lemma survives_spec x n :
  survives x n = true <->
  forall p, is_prime p = true -> p <= isqrt x -> n mod p <> 0.
Proof.
  unfold survives. rewrite forallb_forall. split.
  - intros H p Hp Hle Hz. pose proof (FoldProofs.is_prime_ge_2 p Hp).
    assert (In p (primes_in 1 (isqrt x))) as Hin
      by (apply list_elem_of_In, FoldProofs.elem_of_primes_in; split; [done|lia]).
    apply H in Hin. rewrite Hz in Hin. done.
  - intros H p [Hp Hr]%list_elem_of_In%FoldProofs.elem_of_primes_in.
    destruct (Z.eqb_spec (n mod p) 0) as [Hz|]; [|done].
    exfalso. apply (H p); [done|lia|done].
Qed.

Lemma sqrt_le_iff x p : 0 <= x -> 0 <= p -> p * p <= x -> p <= isqrt x.
Proof.
  intros Hx Hp Hpp. unfold isqrt. by apply Z.sqrt_le_square.
Qed.

Lemma survives_small x n : 2 <= n <= isqrt x -> survives x n = false.
Proof.
  intros Hn. destruct (survives x n) eqn:E; [|done].
  rewrite survives_spec in E.
  destruct (prime_factor n) as (p & Hp & Hz & Hle); [lia|].
  pose proof (FoldProofs.is_prime_ge_2 p Hp).
  exfalso. apply (E p Hp); [|done]. destruct Hle; nia.
Qed.

Lemma survives_large x n :
  0 <= x -> isqrt x < n <= x -> survives x n = is_prime n.
Proof.
  intros Hx Hn. pose proof (FoldProofs.isqrt_nonneg x).
  assert (2 <= n) as Hn2.
  { pose proof (FoldProofs.isqrt_spec x Hx) as [_ Hs].
    destruct (decide (isqrt x = 0)) as [E|]; [rewrite E in Hs|]; lia. }
  destruct (is_prime n) eqn:Hp.
  - apply survives_spec. intros p Hpp Hle.
    apply is_prime_spec in Hp as [_ Hp]. apply Hp.
    pose proof (FoldProofs.is_prime_ge_2 p Hpp). lia.
  - destruct (survives x n) eqn:E; [|done].
    rewrite survives_spec in E.
    destruct (prime_factor n) as (p & Hpp & Hz & Hle); [lia|].
    destruct Hle as [->|Hle]; [congruence|].
    pose proof (FoldProofs.is_prime_ge_2 p Hpp).
    exfalso. apply (E p Hpp); [|done].
    apply sqrt_le_iff; [done|lia|lia].
Qed.

Lemma survives_1 x : survives x 1 = true.
Proof.
  apply survives_spec. intros p Hp _.
  pose proof (FoldProofs.is_prime_ge_2 p Hp). rewrite Z.mod_1_l; lia.
Qed.

Lemma filter_none {X} (f : X -> bool) (l : list X) :
  (forall a, a ∈ l -> f a = false) -> filter (fun a => f a) l = [].
Proof.
  induction l as [|a l IH]; intros H; [done|].
  rewrite filter_cons_False by (apply Is_true_false_2, H; left).
  apply IH. intros b Hb. apply H. by right.
Qed.

Lemma filter_same {X} (f g : X -> bool) (l : list X) :
  (forall a, a ∈ l -> f a = g a) ->
  filter (fun a => f a) l = filter (fun a => g a) l.
Proof.
  induction l as [|a l IH]; intros H; [done|].
  rewrite !filter_cons, (H a) by left. rewrite IH; [done|].
  intros b Hb. apply H. by right.
Qed.

Lemma isqrt_le x : 0 <= x -> isqrt x <= x.
Proof. intros Hx. unfold isqrt. by apply Z.sqrt_le_lin. Qed.

(** Legendre: phi(x, pi(sqrt x)) counts 1 and the primes above the square
    root. *)
Lemma phi_legendre x :
  2 <= x -> phi x (pi (isqrt x)) + pi (isqrt x) - 1 = pi x.
Proof.
  intros Hx. pose proof (isqrt_le x ltac:(lia)) as Hsx.
  assert (1 <= isqrt x) as Hs1.
  { unfold isqrt. change 1 with (Z.sqrt 1). apply Z.sqrt_le_mono. lia. }
  assert (take (Z.to_nat (pi (isqrt x))) (primes_in 1 x) = primes_in 1 (isqrt x))
    as Htake.
  { rewrite (FoldProofs.primes_in_app 1 (isqrt x) x) by lia.
    rewrite (FoldProofs.pi_primes_in 1 (isqrt x)) by lia.
    rewrite FoldProofs.pi_1, Z.add_0_l, Nat2Z.id. by rewrite take_app_length. }
  assert (phi x (pi (isqrt x))
          = Z.of_nat (length (filter (fun n => survives x n) (seqZ 1 x)))) as ->.
  { unfold phi, survives. cbv zeta. by rewrite Htake. }
  replace (seqZ 1 x) with (seqZ 1 (1 + ((isqrt x - 1) + (x - isqrt x))))
    by (f_equal; lia).
  rewrite !seqZ_app by lia. rewrite !filter_app, !length_app.
  rewrite (seqZ_cons 1 1), seqZ_nil by lia.
  rewrite filter_cons_True by (by rewrite survives_1).
  rewrite (filter_none (survives x) (seqZ (1 + 1) (isqrt x - 1))).
  2:{ intros n Hn. apply elem_of_seqZ in Hn. apply survives_small. lia. }
  rewrite (filter_same (survives x) is_prime
             (seqZ (1 + 1 + (isqrt x - 1)) (x - isqrt x))).
  2:{ intros n Hn. apply elem_of_seqZ in Hn. apply survives_large; lia. }
  replace (1 + 1 + (isqrt x - 1)) with (isqrt x + 1) by lia.
  fold (primes_in (isqrt x) x).
  rewrite (FoldProofs.pi_primes_in (isqrt x) x) by lia.
  rewrite filter_nil. cbn [length]. lia.
Qed.

Lemma log2_isqrt x : 2 <= x -> Z.log2 (isqrt x) <= Z.log2 x - 1.
Proof.
  intros Hx.
  assert (1 <= Z.log2 x)
    by (change 1 with (Z.log2 2); apply Z.log2_le_mono; lia).
  destruct (decide (isqrt x < 2)) as [Hs|Hs].
  - pose proof (FoldProofs.isqrt_nonneg x).
    assert (Z.log2 (isqrt x) = 0) as ->; [|lia].
    destruct (decide (isqrt x = 1)) as [->|]; [done|].
    apply Z.log2_nonpos. lia.
  - pose proof (FoldProofs.isqrt_spec x ltac:(lia)) as [Hsq _].
    assert (2 * isqrt x <= x) by nia.
    pose proof (Z.log2_double (isqrt x) ltac:(lia)) as Hd.
    pose proof (Z.log2_le_mono (2 * isqrt x) x ltac:(lia)). lia.
Qed.

Lemma pi_simple_correct fuel x threads :
  Z.log2 x <= Z.of_nat fuel -> pi_simple fuel x threads = Done (pi x).
Proof.
  revert x. induction fuel as [|fuel IH]; intros x Hfuel.
  - assert (x < 2) as Hx.
    { destruct (decide (x < 2)); [done|].
      assert (1 <= Z.log2 x)
        by (change 1 with (Z.log2 2); apply Z.log2_le_mono; lia).
      lia. }
    cbn [pi_simple]. rewrite decide_True by done.
    by rewrite FoldProofs.pi_small by lia.
  - cbn [pi_simple]. destruct (decide (x < 2)) as [Hx|Hx].
    + by rewrite FoldProofs.pi_small by lia.
    + pose proof (log2_isqrt x ltac:(lia)).
      rewrite IH by lia. cbn [mbind outcome_bind]. f_equal.
      apply phi_legendre. lia.
Qed.

(** X11. [pi_simple] and [pi_legendre] return PrimePi(x), the number of
    primes up to [x], for every [x]: the recursion on the square root
    ends within [log2 x] steps, and phi(x, a) + a - 1 with
    a = pi(sqrt x) is Legendre's count. *)
Theorem pi_legendre_correct fuel x threads :
  Z.log2 x <= Z.of_nat fuel ->
  pi_simple fuel x threads = Done (pi x) /\
  pi_legendre fuel x threads = Done (pi x).
Proof.
  intros Hfuel. unfold pi_legendre. split; by apply pi_simple_correct.
Qed.

Lemma pi_legendre_correct_witness :
  pi_simple 7 100 1 = Done (pi 100) /\ pi_legendre 7 100 1 = Done (pi 100).
Proof. apply (pi_legendre_correct 7 100 1). by vm_compute. Defined.

End LegendreProofs.

(** * The P2 kernel with backup: its sum, and resuming it *)

Module P2BackupProofs.
Import Primes Backup.

(** The loop of the older [P2_thread] leaves when [x / prime] reaches
    [z]; that does not happen for the primes above [start]. *)
Lemma thread_loop_same fuel budget x z start next prime p2 pix cnt :
  0 <= x -> 0 <= start ->
  (forall p, start < p <= prime -> x / p < z) ->
  P2Backup.thread_loop fuel budget x z start next prime p2 pix cnt
  = P2.thread_loop fuel budget x start next prime p2 pix cnt.
Proof.
  intros Hx Hstart. revert next prime p2 pix cnt.
  induction fuel as [|fuel IH]; intros next prime p2 pix cnt Hdiv;
    cbn [P2Backup.thread_loop P2.thread_loop];
    destruct (decide (prime > start)) as [Hgt|Hle];
    cbn [mbind outcome_bind]; try done.
  - assert (0 < prime) as Hpos by lia.
    rewrite (FoldProofs.idiv_Done x prime Hx Hpos). cbn [mbind outcome_bind].
    rewrite bool_decide_eq_true_2 by (apply Hdiv; lia). done.
  - rewrite !FoldProofs.idiv_Done by lia. cbn [mbind outcome_bind].
    rewrite bool_decide_eq_true_2 by (apply Hdiv; lia).
    cbn [mbind outcome_bind].
    destruct (P2.count_primes budget budget next (x / prime) 0)
      as [[c next']|]; [|done].
    cbn [mbind outcome_bind]. apply IH. intros p Hp. apply Hdiv.
    destruct (FoldProofs.prev_prime_spec prime) as (_ & _ & Hle & _). lia.
Qed.

Definition triple (r : P2.ThreadResult) : Z * Z * Z :=
  (P2.sum r, P2.pix r, P2.iters r).

Lemma P2_thread_same budget x y z low i d :
  0 <= x -> 1 <= low + d * i < z -> 1 <= d ->
  P2Backup.P2_thread budget x y z low i d
  = (r ← P2.P2_thread budget x y z low i d; Done (triple r)).
Proof.
  intros Hx Hlow Hd. unfold P2Backup.P2_thread, P2.P2_thread. cbv zeta.
  set (low_i := low + d * i) in *. rewrite decide_True by lia.
  set (z_i := Z.min (low_i + d) z).
  assert (0 <= x / z_i) by (apply Z.div_pos; lia).
  rewrite !FoldProofs.idiv_Done by lia. cbn [mbind outcome_bind].
  destruct (next_prime budget (low_i - 1)) as [next|]; [|done].
  cbn [mbind outcome_bind]. rewrite thread_loop_same; [|done|lia|].
  - destruct (P2.thread_loop _ _ _ _ _ _ _ _ _) as [[[[s p] c] n]|]; [|done].
    cbn [mbind outcome_bind].
    destruct (P2.count_primes _ _ _ _ _) as [[c' n']|]; done.
  - intros p Hp.
    enough (x / p <= z_i - 1) by lia. apply FoldProofs.div_below; lia.
Qed.

(** ** The two folds of the older driver *)

Lemma sum_shift (res : list (Z * Z * Z)) a c :
  foldl (fun acc (r : Z * Z * Z) => acc + r.1.1) (a + c) res
  = foldl (fun acc (r : Z * Z * Z) => acc + r.1.1) a res + c.
Proof.
  revert a. induction res as [|r res IH]; intros a; [done|].
  cbn [foldl]. replace (a + c + r.1.1) with (a + r.1.1 + c) by lia.
  apply IH.
Qed.

(** Adding the threads' sums first and the missing contributions after
    gives what the later drivers add thread by thread. *)
Lemma fold_missing (res : list P2.ThreadResult) p2 pt :
  foldl P2Backup.add_missing
    (foldl (fun acc (r : Z * Z * Z) => acc + r.1.1) p2 (map triple res), pt)
    (map triple res)
  = foldl P2.add_thread (p2, pt) res.
Proof.
  revert p2 pt. induction res as [|r res IH]; intros p2 pt; [done|].
  cbn [map foldl].
  change (P2.add_thread (p2, pt) r)
    with (p2 + (P2.sum r + pt * P2.iters r), pt + P2.pix r).
  rewrite <- IH.
  change (P2Backup.add_missing (?a, pt) (triple r))
    with (a + pt * P2.iters r, pt + P2.pix r).
  change ((triple r).1.1) with (P2.sum r).
  f_equal. f_equal. rewrite <- sum_shift. f_equal. lia.
Qed.

Lemma ceil_div_spec a d :
  1 <= a -> 1 <= d ->
  1 <= P2Backup.ceil_div a d /\ d * (P2Backup.ceil_div a d - 1) < a.
Proof.
  intros Ha Hd. unfold P2Backup.ceil_div.
  rewrite Z.quot_div_nonneg by lia.
  pose proof (Z.div_mod (a + d - 1) d ltac:(lia)) as Hdm.
  pose proof (Z.mod_pos_bound (a + d - 1) d ltac:(lia)) as Hm.
  assert (1 <= (a + d - 1) / d) by (apply Z.div_le_lower_bound; lia).
  split; [done|]. nia.
Qed.

Lemma in_between_spec lo v hi :
  lo <= hi -> lo <= P2Backup.in_between lo v hi <= hi.
Proof. intros H. unfold P2Backup.in_between. repeat case_decide; lia. Qed.

Lemma balanceLoad_pos d low z threads secs :
  low < z -> 1 <= threads -> 1 <= P2Backup.balanceLoad d low z threads secs.
Proof.
  intros Hlow Ht. unfold P2Backup.balanceLoad. cbv zeta.
  destruct (ceil_div_spec (z - low) threads) as [Hc _]; [lia|lia|].
  change (Z.shiftl 1 23) with 8388608.
  unfold P2Backup.in_between. repeat case_decide; lia.
Qed.

(** ** The loop of the driver *)

Section Loop.

Variable q : Z.
Variable budget : nat.
Hypothesis Hq : is_prime q = true.
Hypothesis Hbudget : q <= Z.of_nat budget.
Variables x y z : Z.
Hypothesis Hx : 0 <= x.
Hypothesis Hz : z <= q.
Hypothesis Hsqrt : isqrt x <= Z.of_nat budget.
(** The closed-form value that the sum starts from. *)
Variable c0 : Z.

Variable to_str : Z -> string.
Variable get_percent : Z -> Z -> Q.
Variable clock : Z -> Q.
Variable elapsed : Z -> Q.

(** The variables of the loop between two turns: [pix_total] counts the
    primes below [low], and [p2] holds the terms of the primes [p] with
    [x / p] below [low]. *)
Definition consistent (v : P2Vars) : Prop :=
  2 <= p_low v /\
  (p_low v < z -> 1 <= p_thread_distance v) /\
  p_pix_total v = pi (Z.min (p_low v) z - 1) /\
  p_p2 v = c0 + sum_pi x (FoldProofs.A x y (Z.min (p_low v) z))
                       (FoldProofs.A x y 2).

Lemma batch_spec threads j v :
  consistent v -> p_low v < z ->
  exists t' v',
    P2Backup.batch budget to_str get_percent clock elapsed x y z threads j v
    = Done (t', backup_P2 to_str get_percent (clock (p_low v')) j x y z v', v')
    /\ consistent v' /\ p_low v < p_low v'.
Proof.
  intros (Hlow & Hd & Hpix & Hp2) Hlt. specialize (Hd Hlt).
  rewrite Z.min_l in Hpix, Hp2 by lia.
  unfold P2Backup.batch. cbv zeta.
  set (d := p_thread_distance v) in *. set (low := p_low v) in *.
  destruct (ceil_div_spec (z - low) d) as [Hc1 Hc2]; [lia|lia|].
  pose proof (in_between_spec 1 threads (P2Backup.ceil_div (z - low) d) Hc1)
    as Ht.
  set (t' := P2Backup.in_between 1 threads (P2Backup.ceil_div (z - low) d)) in *.
  rewrite (FoldProofs.for_each_Done _
             (fun i => triple (FoldProofs.thread_result x y z (low + d * i) d))).
  2:{ intros i [Hi Hi']%elem_of_seqZ.
      rewrite P2_thread_same by (try done; nia).
      rewrite (FoldProofs.P2_thread_spec q budget Hq Hbudget x y z Hx Hz Hsqrt)
        by nia.
      done. }
  cbn [mbind outcome_bind].
  rewrite <- (map_map (fun i => FoldProofs.thread_result x y z (low + d * i) d)
                triple).
  rewrite fold_missing, Hpix.
  clearbody t'. remember (Z.to_nat t') as n eqn:Hn.
  assert (t' = Z.of_nat n) as -> by lia. clear Hn.
  rewrite (FoldProofs.fold_threads x y z low d Hx) by lia.
  set (t' := Z.of_nat n) in *.
  exists t'.
  eexists {| p_low := low + d * t'; p_thread_distance := _;
             p_pix_total := _; p_p2 := _; p_time := _ |}.
  split; [reflexivity|]. cbn [p_low].
  split; [|nia].
  unfold consistent. cbn [p_low p_thread_distance p_pix_total p_p2].
  split_and!.
  - nia.
  - intros Hlt'. apply balanceLoad_pos; lia.
  - done.
  - rewrite Hp2.
    rewrite (FoldProofs.sum_pi_app x
               (FoldProofs.A x y (Z.min (low + d * t') z))
               (FoldProofs.A x y low) (FoldProofs.A x y 2)); [lia|].
    split; apply FoldProofs.A_anti; nia.
Qed.

Lemma batches_unfold fuel threads j v :
  P2Backup.batches budget to_str get_percent clock elapsed (S fuel)
    x y z threads j v
  = if decide (p_low v < z) then
      '(t', j', v') ←
        P2Backup.batch budget to_str get_percent clock elapsed x y z threads j v;
      P2Backup.batches budget to_str get_percent clock elapsed fuel
        x y z t' j' v'
    else Done (p_p2 v, j).
Proof.
  cbn [P2Backup.batches]. case_decide; [|done].
  unfold P2Backup.batch. cbv zeta.
  destruct (for_each _ _) as [res|]; [|done]. cbn [mbind outcome_bind].
  by destruct (foldl P2Backup.add_missing _ res).
Qed.

Lemma batches_spec fuel threads j v :
  consistent v -> z - p_low v <= Z.of_nat fuel ->
  exists j',
    P2Backup.batches budget to_str get_percent clock elapsed fuel
      x y z threads j v
    = Done (c0 + sum_pi x (FoldProofs.A x y z) (FoldProofs.A x y 2), j').
Proof.
  revert threads j v. induction fuel as [|fuel IH]; intros threads j v Hv Hfuel.
  - exists j. destruct Hv as (_ & _ & _ & Hp2).
    cbn [P2Backup.batches]. rewrite decide_False by lia.
    rewrite Hp2, Z.min_r by lia. done.
  - rewrite batches_unfold. case_decide as Hlt.
    + destruct (batch_spec threads j v Hv Hlt) as (t' & v' & -> & Hv' & Hlow).
      cbn [mbind outcome_bind]. apply IH; [done|lia].
    + exists j. destruct Hv as (_ & _ & _ & Hp2).
      rewrite Hp2, Z.min_r by lia. done.
Qed.

(** The documents that a run leaves: written by [backup] from
    consistent variables. *)
Definition written (jk : json) : Prop :=
  exists now0 j0 v, jk = backup_P2 to_str get_percent now0 j0 x y z v /\
                    consistent v.

Lemma turns_spec k threads j v :
  consistent v ->
  exists jk,
    P2Backup.turns budget to_str get_percent clock elapsed k x y z threads j v
    = Done jk /\ (jk = j \/ written jk).
Proof.
  revert threads j v. induction k as [|k IH]; intros threads j v Hv.
  - exists j. split; [done|by left].
  - cbn [P2Backup.turns]. case_decide as Hlt; [|exists j; split; [done|by left]].
    destruct (batch_spec threads j v Hv Hlt) as (t' & v' & -> & Hv' & Hlow).
    cbn [mbind outcome_bind].
    destruct (IH t' (backup_P2 to_str get_percent (clock (p_low v')) j x y z v')
                v' Hv') as (jk & -> & [->|Hw]).
    + eexists. split; [done|]. right. by eexists _, _, _.
    + eexists. split; [done|]. by right.
Qed.

End Loop.

(** ** The whole run *)

(** What P2 returns: its closed-form start value and the sum over the
    primes of [(y, isqrt x]]. *)
Definition P2_value (x y : Z) : Z :=
  (if decide (pi y < pi (isqrt x))
   then Z.quot ((pi y - 2) * (pi y + 1)) 2
        - Z.quot ((pi (isqrt x) - 2) * (pi (isqrt x) + 1)) 2
   else 0) + sum_pi x y (isqrt x).

(** [to_maxint] reads back the numbers that the document holds as text. *)
Definition readable (to_maxint : string -> outcome Z) (to_str : Z -> string)
    (jk : json) : Prop :=
  forall n,
    field (field jk "P2") "x" = JStr (to_str n) \/
    field (field jk "P2") "pix_total" = JStr (to_str n) \/
    field (field jk "P2") "p2" = JStr (to_str n) ->
    to_maxint (to_str n) = Done n.

Section Run.

Variables (budget_pi budget : nat).
Variable to_maxint : string -> outcome Z.
Variable to_str : Z -> string.
Variable get_percent : Z -> Z -> Q.
Variables x y q : Z.
Hypothesis Hq : is_prime q = true.
Hypothesis Hz : x / Z.max y 1 <= q.
Hypothesis Hbudget : q <= Z.of_nat budget.
Hypothesis Hpi : Z.log2 (Z.max y (isqrt x)) <= Z.of_nat budget_pi.

Let z := x / Z.max y 1.
Let c0 := Z.quot ((pi y - 2) * (pi y + 1)) 2
          - Z.quot ((pi (isqrt x) - 2) * (pi (isqrt x) + 1)) 2.

Lemma pi_y threads : pi_legendre budget_pi y threads = Done (pi y).
Proof.
  apply LegendreProofs.pi_simple_correct.
  pose proof (Z.log2_le_mono y (Z.max y (isqrt x)) ltac:(lia)). lia.
Qed.

Lemma pi_sqrt threads :
  pi_legendre budget_pi (isqrt x) threads = Done (pi (isqrt x)).
Proof.
  apply LegendreProofs.pi_simple_correct.
  pose proof (Z.log2_le_mono (isqrt x) (Z.max y (isqrt x)) ltac:(lia)). lia.
Qed.

Lemma start_consistent time :
  4 <= x -> y < isqrt x ->
  consistent x y z c0
    {| p_low := 2; p_thread_distance := Z.shiftl 1 23; p_pix_total := 0;
       p_p2 := c0; p_time := time |}.
Proof.
  intros Hx Hy. pose proof (FoldProofs.z_above_sqrt x y Hx Hy) as Hzs.
  pose proof (FoldProofs.isqrt_ge_2 x Hx). fold z in Hzs.
  unfold consistent. cbn [p_low p_thread_distance p_pix_total p_p2].
  rewrite Z.min_l by lia. split_and!; [lia|done|done|].
  rewrite FoldProofs.sum_pi_empty by lia. lia.
Qed.

(** From consistent variables the loop ends with the value of P2. *)
Lemma batches_value clock elapsed threads j v :
  4 <= x -> pi y < pi (isqrt x) -> consistent x y z c0 v ->
  exists j',
    P2Backup.batches budget to_str get_percent clock elapsed budget
      x y z threads j v
    = Done (P2_value x y, j').
Proof.
  intros Hx Hab Hv. pose proof (FoldProofs.y_below_sqrt x y Hab) as Hy.
  pose proof (FoldProofs.z_above_sqrt x y Hx Hy) as Hzs. fold z in Hzs.
  pose proof (FoldProofs.isqrt_ge_2 x Hx).
  destruct (batches_spec q budget Hq Hbudget x y z ltac:(lia) Hz ltac:(lia)
              c0 to_str get_percent clock elapsed budget threads j v Hv)
    as (j' & ->); [destruct Hv; lia|].
  exists j'. unfold P2_value. rewrite decide_True by done. fold c0.
  unfold z. by rewrite FoldProofs.sum_pi_whole by lia.
Qed.

(** The run on a document that is fresh, or that a run has written. *)
Lemma P2_from_document clock elapsed threads jd now time :
  is_resume to_maxint jd "P2" x [("y"%string, y); ("z"%string, z)] = false \/
  written x y z c0 to_str get_percent jd /\ readable to_maxint to_str jd ->
  exists j',
    P2Backup.P2_OpenMP budget_pi budget to_maxint to_str get_percent
      clock elapsed x y threads jd now time
    = Done (P2_value x y, j').
Proof.
  intros Hdoc. unfold P2Backup.P2_OpenMP.
  destruct (decide (x < 4)) as [Hx|Hx].
  { exists jd. unfold P2_value.
    pose proof (FoldProofs.isqrt_small x Hx) as Hs.
    rewrite (FoldProofs.pi_small (isqrt x) Hs). pose proof (FoldProofs.pi_nonneg y).
    rewrite decide_False by lia. rewrite FoldProofs.sum_pi_none; [done|].
    rewrite (FoldProofs.pi_small (isqrt x) Hs). lia. }
  rewrite pi_y, pi_sqrt. cbn [mbind outcome_bind].
  destruct (decide (pi y >= pi (isqrt x))) as [Hab|Hab].
  { exists jd. unfold P2_value. rewrite decide_False by lia.
    by rewrite FoldProofs.sum_pi_none by lia. }
  pose proof (FoldProofs.y_below_sqrt x y ltac:(lia)) as Hy.
  rewrite FoldProofs.idiv_Done by lia. cbn [mbind outcome_bind].
  fold z c0. destruct Hdoc as [Hfresh|[(now0 & j0 & v & -> & Hv) Hread]].
  - unfold resume_P2. rewrite Hfresh. cbn [mbind outcome_bind].
    apply batches_value; [lia|lia|]. apply start_consistent; lia.
  - rewrite BackupTrips.resume_of_backup_P2.
    + cbn [mbind outcome_bind]. apply batches_value; [lia|lia|].
      destruct Hv as (? & ? & ? & ?). by split_and!.
    + apply Hread. left. unfold backup_P2.
      by repeat (rewrite BackupTrips.field2_ne by done);
        rewrite BackupTrips.field2_eq.
    + apply Hread. right. left. unfold backup_P2.
      by repeat (rewrite BackupTrips.field2_ne by done);
        rewrite BackupTrips.field2_eq.
    + apply Hread. right. right. unfold backup_P2.
      by repeat (rewrite BackupTrips.field2_ne by done);
        rewrite BackupTrips.field2_eq.
Qed.

(** X12. The P2 kernel with backup, started without a document of its
    own, returns its closed-form start value plus the sum over the
    primes [p] of [(y, isqrt x]] of PrimePi(x / p), however long the
    batches take and whatever thread distances [balanceLoad] derives
    from that. *)
Theorem P2_backup_total clock elapsed threads j now time :
  is_resume to_maxint j "P2" x
    [("y"%string, y); ("z"%string, x / Z.max y 1)] = false ->
  exists j',
    P2Backup.P2_OpenMP budget_pi budget to_maxint to_str get_percent
      clock elapsed x y threads j now time
    = Done (P2_value x y, j').
Proof. intros Hfresh. apply P2_from_document. by left. Qed.

(** X13. Stopping and resuming does not change the result.  Take the
    document that a run started afresh leaves when it is stopped after
    any number of turns of its loop; if [to_maxint] reads the numbers of
    that document back, a later run on it, with any thread number and
    any timing, returns the value of P2 all the same. *)
Theorem P2_resume_same clock elapsed threads j now time k jk
    clock' elapsed' threads' now' time' :
  is_resume to_maxint j "P2" x
    [("y"%string, y); ("z"%string, x / Z.max y 1)] = false ->
  P2Backup.P2_OpenMP_stopped budget_pi budget to_maxint to_str get_percent
    clock elapsed k x y threads j now time = Done jk ->
  readable to_maxint to_str jk ->
  exists j',
    P2Backup.P2_OpenMP budget_pi budget to_maxint to_str get_percent
      clock' elapsed' x y threads' jk now' time'
    = Done (P2_value x y, j').
Proof.
  intros Hfresh Hstop Hread. apply P2_from_document.
  revert Hstop. unfold P2Backup.P2_OpenMP_stopped.
  destruct (decide (x < 4)) as [Hx|Hx]; [intros [= <-]; by left|].
  rewrite pi_y, pi_sqrt. cbn [mbind outcome_bind].
  destruct (decide (pi y >= pi (isqrt x))) as [Hab|Hab];
    [intros [= <-]; by left|].
  pose proof (FoldProofs.y_below_sqrt x y ltac:(lia)) as Hy.
  rewrite FoldProofs.idiv_Done by lia. cbn [mbind outcome_bind].
  fold z c0. fold z in Hfresh.
  unfold resume_P2. rewrite Hfresh. cbn [mbind outcome_bind].
  pose proof (FoldProofs.z_above_sqrt x y ltac:(lia) Hy) as Hzs. fold z in Hzs.
  pose proof (FoldProofs.isqrt_ge_2 x ltac:(lia)).
  destruct (turns_spec q budget Hq Hbudget x y z ltac:(lia) Hz ltac:(lia)
              c0 to_str get_percent clock elapsed k threads j _
              (start_consistent time ltac:(lia) Hy))
    as (jk' & -> & Hjk).
  intros [= <-]. destruct Hjk as [->|Hw]; [by left|by right].
Qed.

End Run.

Definition no_clock (low : Z) : Q := 0%Q.

(** The document of a run for x = 100, y = 4 that is stopped after one
    turn of its loop. *)
Definition stopped_document : json :=
  Eval vm_compute in
    match P2Backup.P2_OpenMP_stopped 7 200 read_decimal pretty
            BackupTrips.no_percent no_clock no_clock 1 100 4 3 JNull 0%Q 0%Q
    with
    | Done j => j
    | Fault _ => JNull
    end.

Lemma P2_backup_total_witness :
  exists j',
    P2Backup.P2_OpenMP 7 200 read_decimal pretty BackupTrips.no_percent
      no_clock no_clock 100 4 3 JNull 0%Q 0%Q
    = Done (P2_value 100 4, j').
Proof.
  apply (P2_backup_total 7 200 read_decimal pretty BackupTrips.no_percent
           100 4 29).
  - vm_compute; reflexivity.
  - vm_compute; discriminate.
  - vm_compute; discriminate.
  - vm_compute; discriminate.
  - reflexivity.
Defined.

Lemma P2_resume_same_witness :
  exists j',
    P2Backup.P2_OpenMP 7 200 read_decimal pretty BackupTrips.no_percent
      no_clock no_clock 100 4 2 stopped_document 5%Q 5%Q
    = Done (P2_value 100 4, j').
Proof.
  apply (P2_resume_same 7 200 read_decimal pretty BackupTrips.no_percent
           100 4 29 ltac:(vm_compute; reflexivity)
           ltac:(vm_compute; discriminate) ltac:(vm_compute; discriminate)
           ltac:(vm_compute; discriminate)
           no_clock no_clock 3 JNull 0%Q 0%Q 1 stopped_document).
  - reflexivity.
  - vm_compute; reflexivity.
  - assert (field (field stopped_document "P2") "x" = JStr (pretty 100)) as Hx
      by (vm_compute; reflexivity).
    assert (field (field stopped_document "P2") "pix_total" = JStr (pretty 9))
      as Hpix by (vm_compute; reflexivity).
    assert (field (field stopped_document "P2") "p2" = JStr (pretty 9)) as Hp2
      by (vm_compute; reflexivity).
    intros n [H|[H|H]]; rewrite ?Hx, ?Hpix, ?Hp2 in H;
      injection H as H; apply (inj pretty) in H; subst n;
      vm_compute; reflexivity.
Defined.

End P2BackupProofs.

(** * The B kernel: resuming it *)

Module BResumeProofs.
Import Primes Backup.

(** [to_maxint] reads back the numbers that the section of B holds as
    text. *)
Definition legible (to_maxint : string -> outcome Z) (to_str : Z -> string)
    (jk : json) : Prop :=
  forall n,
    field (field jk "B") "x" = JStr (to_str n) \/
    field (field jk "B") "sum" = JStr (to_str n) ->
    to_maxint (to_str n) = Done n.

(** With [y] at or above the square root there is nothing to sum. *)
Lemma nothing_to_sum x y a b :
  isqrt x <= y -> sum_pi x (FoldProofs.A x y a) (FoldProofs.A x y b) = 0.
Proof.
  intros Hy. apply FoldProofs.sum_pi_empty. unfold FoldProofs.A, FoldProofs.U.
  lia.
Qed.

Section Loop.

Variable q : Z.
Variable budget : nat.
Hypothesis Hq : is_prime q = true.
Hypothesis Hbudget : q <= Z.of_nat budget.
Variables x y z threads : Z.
Hypothesis Hx : 4 <= x.
Hypothesis Hz : z <= q.
Hypothesis Hthreads : 1 <= threads.

Variable to_str : Z -> string.
Variable get_percent : Z -> Z -> Q.
Variable get_alpha_y : Z -> Z -> Q.
Variable get_thread_dist : Z -> Z.
Variable clock : Z -> Q.
Variable is_backup : Z -> bool.
Hypothesis Hdist : forall l, 1 <= get_thread_dist l.

(** The variables of the loop between two turns. *)
Definition settled (v : BVars) : Prop :=
  isqrt x <= b_low v /\
  (b_low v < z -> b_pi_low_minus_1 v = pi (b_low v - 1)) /\
  b_sum v = sum_pi x (FoldProofs.A x y (Z.min (b_low v) z))
                     (FoldProofs.A x y (isqrt x)).

Lemma B_batch_spec j v d time :
  settled v -> b_low v < z -> 1 <= d ->
  exists v',
    B.batch budget to_str get_percent get_alpha_y get_thread_dist clock
      is_backup x y z threads j (b_low v) (b_pi_low_minus_1 v) d (b_sum v) time
    = Done (if is_backup (b_low v') then
              backup_B to_str get_percent get_alpha_y (clock (b_low v'))
                j x y z v'
            else j, is_backup (b_low v'), v') /\
    settled v' /\ b_low v < b_low v' /\
    b_thread_distance v' = get_thread_dist (b_low v').
Proof.
  intros (Hlow & Hpix & Hsum) Hlt Hd. specialize (Hpix Hlt).
  pose proof (FoldProofs.isqrt_ge_2 x Hx) as H2.
  rewrite Z.min_l in Hsum by lia.
  pose proof (FoldProofs.batch_B q budget Hq Hbudget x y z threads
                ltac:(lia) Hz ltac:(lia) Hthreads (b_low v) d (b_sum v)
                ltac:(lia) Hd) as Hb.
  rewrite <- Hpix in Hb.
  unfold B.batch. set (low := b_low v) in *.
  destruct (for_each _ _) as [res|]; [|done].
  cbn [mbind outcome_bind] in Hb |- *. injection Hb as Hb. rewrite Hb.
  eexists {| b_low := low + d * threads; b_pi_low_minus_1 := _;
             b_thread_distance := _; b_sum := _; b_time := _ |}.
  split; [reflexivity|].
  cbn [b_low b_thread_distance]. unfold settled.
  cbn [b_low b_pi_low_minus_1 b_sum]. split_and!; try done; try nia.
  { intros Hlt'. by rewrite Z.min_l by lia. }
  rewrite Hsum.
  rewrite (FoldProofs.sum_pi_app x
             (FoldProofs.A x y (Z.min (low + d * threads) z))
             (FoldProofs.A x y low) (FoldProofs.A x y (isqrt x))); [lia|].
  split; apply FoldProofs.A_anti; nia.
Qed.

(** The files that a run leaves: written by [backup] from settled
    variables. *)
Definition stored (file : json) : Prop :=
  exists now0 j0 v,
    file = backup_B to_str get_percent get_alpha_y now0 j0 x y z v /\
    settled v.

Lemma B_turns_spec k j file v d time :
  settled v -> 1 <= d ->
  exists jk,
    B.turns budget to_str get_percent get_alpha_y get_thread_dist clock
      is_backup k x y z threads j file
      (b_low v) (b_pi_low_minus_1 v) d (b_sum v) time
    = Done jk /\ (jk = file \/ stored jk).
Proof.
  revert j file v d. induction k as [|k IH]; intros j file v d Hv Hd.
  - exists file. split; [done|by left].
  - cbn [B.turns]. case_decide as Hlt; [|exists file; split; [done|by left]].
    destruct (B_batch_spec j v d time Hv Hlt Hd) as (v' & -> & Hv' & _ & Hd').
    cbn [mbind outcome_bind].
    destruct (is_backup (b_low v')).
    + destruct (IH (backup_B to_str get_percent get_alpha_y (clock (b_low v'))
                      j x y z v')
                   (backup_B to_str get_percent get_alpha_y (clock (b_low v'))
                      j x y z v')
                   v' (b_thread_distance v') Hv')
        as (jk & -> & [->|Hw]); [rewrite Hd'; apply Hdist| |].
      * eexists. split; [done|]. right. by eexists _, _, _.
      * eexists. split; [done|]. by right.
    + destruct (IH j file v' (b_thread_distance v') Hv')
        as (jk & -> & Hjk); [rewrite Hd'; apply Hdist|].
      by eexists.
Qed.

(** At or past [z] the loop is over. *)
Lemma B_batches_over fuel j low plm d total time :
  z <= low ->
  B.batches budget to_str get_percent get_alpha_y get_thread_dist clock
    is_backup fuel x y z threads j low plm d total time
  = Done (total, j).
Proof.
  intros H. destruct fuel; cbn [B.batches]; by rewrite decide_False by lia.
Qed.

(** From settled variables the loop ends with the whole sum. *)
Lemma B_batches_value j v d time :
  z = x / Z.max y 1 -> settled v -> 1 <= d ->
  exists j',
    B.batches budget to_str get_percent get_alpha_y get_thread_dist clock
      is_backup budget x y z threads j
      (b_low v) (b_pi_low_minus_1 v) d (b_sum v) time
    = Done (sum_pi x y (isqrt x), j').
Proof.
  intros Hzdef (Hlow & Hpix & Hsum) Hd.
  pose proof (FoldProofs.isqrt_ge_2 x Hx) as H2.
  assert (sum_pi x (FoldProofs.A x y z) (FoldProofs.A x y (isqrt x))
          = sum_pi x y (isqrt x)) as Hall.
  { destruct (decide (y < isqrt x)) as [Hy|Hy].
    - rewrite Hzdef. apply FoldProofs.sum_pi_whole; lia.
    - rewrite nothing_to_sum by lia.
      by rewrite FoldProofs.sum_pi_empty by lia. }
  destruct (decide (b_low v < z)) as [Hlt|Hge].
  - rewrite (Hpix Hlt).
    replace (b_low v - 1) with (Z.min (b_low v) z - 1) by lia.
    destruct (FoldProofs.B_batches_spec q budget Hq Hbudget x y z threads
                ltac:(lia) Hz ltac:(lia) Hthreads
                to_str get_percent get_alpha_y get_thread_dist clock
                is_backup Hdist budget j (b_low v) d (b_sum v) time)
      as (j' & ->); [lia|done|lia|].
    exists j'. f_equal. f_equal. rewrite Hsum, Z.add_comm, <- Hall.
    symmetry. apply FoldProofs.sum_pi_app.
    split; apply FoldProofs.A_anti; lia.
  - exists j. rewrite B_batches_over by lia. f_equal. f_equal.
    by rewrite Hsum, Z.min_r by lia.
Qed.

End Loop.

(** ** The whole run *)

Section Run.

Variables (budget_pi budget : nat).
Variable to_maxint : string -> outcome Z.
Variable to_str : Z -> string.
Variable get_percent : Z -> Z -> Q.
Variable get_alpha_y : Z -> Z -> Q.
Variables x y q : Z.
Hypothesis Hq : is_prime q = true.
Hypothesis Hz : x / Z.max y 1 <= q.
Hypothesis Hbudget : q <= Z.of_nat budget.
Hypothesis Hpi : Z.log2 (isqrt x - 1) <= Z.of_nat budget_pi.

Let z := x / Z.max y 1.

(** The run on a document that is fresh, or that a run has written. *)
Lemma B_from_document get_threads get_thread_dist clock is_backup
    threads jd now time :
  (forall l, 1 <= get_thread_dist l) ->
  1 <= get_threads (isqrt x) z threads ->
  is_resume to_maxint jd "B" x [("y"%string, y)] = false \/
  stored x y z to_str get_percent get_alpha_y jd /\
  legible to_maxint to_str jd ->
  exists j',
    B.B_OpenMP budget_pi budget to_maxint to_str get_percent get_alpha_y
      get_threads get_thread_dist clock is_backup x y z threads jd now time
    = Done (sum_pi x y (isqrt x), j').
Proof.
  intros Hdist Hthr Hdoc. unfold B.B_OpenMP.
  destruct (decide (x < 4)) as [Hx|Hx].
  { exists jd. rewrite FoldProofs.sum_pi_none; [done|].
    rewrite (FoldProofs.pi_small (isqrt x) (FoldProofs.isqrt_small x Hx)).
    apply FoldProofs.pi_nonneg. }
  rewrite (LegendreProofs.pi_simple_correct _ _ _ Hpi).
  cbn [mbind outcome_bind].
  pose proof (FoldProofs.isqrt_ge_2 x ltac:(lia)) as H2.
  assert (exists jr v,
            resume_B to_maxint now jd x y
              {| b_low := isqrt x; b_pi_low_minus_1 := pi (isqrt x - 1);
                 b_thread_distance := 0; b_sum := 0; b_time := time |}
            = Done (jr, v) /\ settled x y z v) as (jr & v & -> & Hv).
  { destruct Hdoc as [Hfresh|[(now0 & j0 & v & -> & Hv) Hread]].
    - unfold resume_B. rewrite Hfresh. eexists _, _. split; [done|].
      unfold settled. cbn [b_low b_pi_low_minus_1 b_sum].
      split_and!; [lia|done|].
      destruct (decide (y < isqrt x)) as [Hy|Hy];
        [|by rewrite nothing_to_sum by lia].
      pose proof (FoldProofs.z_above_sqrt x y ltac:(lia) Hy) as Hzs.
      fold z in Hzs.
      by rewrite FoldProofs.sum_pi_empty by (apply FoldProofs.A_anti; lia).
    - rewrite BackupTrips.resume_of_backup_B.
      + eexists _, _. split; [done|].
        destruct Hv as (? & ? & ?). by split_and!.
      + apply Hread. left. unfold backup_B.
        by repeat (rewrite BackupTrips.field2_ne by done);
          rewrite BackupTrips.field2_eq.
      + apply Hread. right. unfold backup_B.
        by repeat (rewrite BackupTrips.field2_ne by done);
          rewrite BackupTrips.field2_eq. }
  cbn [mbind outcome_bind].
  apply (B_batches_value q budget Hq Hbudget x y z _ ltac:(lia) Hz Hthr
           to_str get_percent get_alpha_y get_thread_dist clock is_backup
           Hdist); [done|done|apply Hdist].
Qed.

(** The file that a run started afresh leaves when it is stopped. *)
Lemma B_stopped_file get_threads get_thread_dist clock is_backup
    threads j now time k :
  (forall l, 1 <= get_thread_dist l) ->
  1 <= get_threads (isqrt x) z threads ->
  is_resume to_maxint j "B" x [("y"%string, y)] = false ->
  exists jk,
    B.B_OpenMP_stopped budget_pi budget to_maxint to_str get_percent
      get_alpha_y get_threads get_thread_dist clock is_backup
      k x y z threads j now time = Done jk /\
    (jk = j \/ stored x y z to_str get_percent get_alpha_y jk).
Proof.
  intros Hdist Hthr Hfresh. unfold B.B_OpenMP_stopped.
  destruct (decide (x < 4)) as [Hx|Hx]; [exists j; split; [done|by left]|].
  rewrite (LegendreProofs.pi_simple_correct _ _ _ Hpi).
  cbn [mbind outcome_bind].
  unfold resume_B. rewrite Hfresh. cbn [mbind outcome_bind].
  cbn [b_low b_pi_low_minus_1 b_sum b_time].
  pose proof (FoldProofs.isqrt_ge_2 x ltac:(lia)) as H2.
  set (v0 := {| b_low := isqrt x; b_pi_low_minus_1 := pi (isqrt x - 1);
                b_thread_distance := 0; b_sum := 0; b_time := time |}).
  assert (settled x y z v0) as Hv0.
  { unfold settled, v0. cbn [b_low b_pi_low_minus_1 b_sum].
    split_and!; [lia|done|].
    destruct (decide (y < isqrt x)) as [Hy|Hy];
      [|by rewrite nothing_to_sum by lia].
    pose proof (FoldProofs.z_above_sqrt x y ltac:(lia) Hy) as Hzs.
    fold z in Hzs.
    by rewrite FoldProofs.sum_pi_empty by (apply FoldProofs.A_anti; lia). }
  set (j0 := match j with JObj m => _ | _ => j end).
  destruct (B_turns_spec q budget Hq Hbudget x y z _ ltac:(lia) Hz Hthr
              to_str get_percent get_alpha_y get_thread_dist clock is_backup
              Hdist k j0 j v0 (get_thread_dist (isqrt x)) time Hv0 (Hdist _))
    as (jk & Hjk & Hw).
  change (b_low v0) with (isqrt x) in Hjk.
  change (b_pi_low_minus_1 v0) with (pi (isqrt x - 1)) in Hjk.
  change (b_sum v0) with 0 in Hjk.
  by exists jk.
Qed.

(** X14. Stopping and resuming B does not change its result.  Take the
    backup file that a run started afresh leaves when it is stopped
    after any number of turns of its loop, whichever turns stored a
    backup; if [to_maxint] reads the numbers of that file back, a later
    run on it, with any thread number, thread distances and timing,
    returns the sum over the primes [p] of [(y, isqrt x]] of
    PrimePi(x / p). *)
Theorem B_resume_same get_threads get_thread_dist clock is_backup
    threads j now time k jk
    get_threads' get_thread_dist' clock' is_backup' threads' now' time' :
  (forall l, 1 <= get_thread_dist l) ->
  (forall l, 1 <= get_thread_dist' l) ->
  1 <= get_threads (isqrt x) (x / Z.max y 1) threads ->
  1 <= get_threads' (isqrt x) (x / Z.max y 1) threads' ->
  is_resume to_maxint j "B" x [("y"%string, y)] = false ->
  B.B_OpenMP_stopped budget_pi budget to_maxint to_str get_percent
    get_alpha_y get_threads get_thread_dist clock is_backup
    k x y (x / Z.max y 1) threads j now time = Done jk ->
  legible to_maxint to_str jk ->
  exists j',
    B.B_OpenMP budget_pi budget to_maxint to_str get_percent get_alpha_y
      get_threads' get_thread_dist' clock' is_backup'
      x y (x / Z.max y 1) threads' jk now' time'
    = Done (sum_pi x y (isqrt x), j').
Proof.
  intros Hdist Hdist' Hthr Hthr' Hfresh Hstop Hread.
  apply B_from_document; [done|done|].
  destruct (B_stopped_file get_threads get_thread_dist clock is_backup
              threads j now time k Hdist Hthr Hfresh) as (jk' & Hjk' & Hw).
  fold z in Hstop. rewrite Hjk' in Hstop. injection Hstop as <-.
  destruct Hw as [->|Hw]; [by left|by right].
Qed.

(** On a file without a stored run [B_OpenMP] leaves its [time] alone. *)
Lemma B_time_fresh threads j now time :
  is_resume to_maxint j "B" x [("y"%string, y)] = false ->
  B.B_OpenMP_time budget_pi to_maxint x y threads j now time = Done time.
Proof.
  intros Hfresh. unfold B.B_OpenMP_time. case_decide; [done|].
  rewrite (LegendreProofs.pi_simple_correct _ _ _ Hpi).
  cbn [mbind outcome_bind]. unfold resume_B. by rewrite Hfresh.
Qed.

(** X20. [B] computes its sum once: started on a backup file without a
    section of its own it returns the sum over the primes [p] of
    [(y, isqrt x]] of PrimePi(x / p) and stores it as a result, and a
    later call with the same [(x, y)] on the file it left returns that
    sum from the file, with any thread number and load balancer. *)
Theorem B_result_reused get_threads get_thread_dist clock is_backup
    threads j start now
    get_threads' get_thread_dist' clock' is_backup' threads' start' now' :
  (forall l, 1 <= get_thread_dist l) ->
  1 <= get_threads (isqrt x) (x / Z.max y 1) threads ->
  is_resume to_maxint j "B" x [("y"%string, y)] = false ->
  to_maxint (to_str x) = Done x ->
  to_maxint (to_str (sum_pi x y (isqrt x))) = Done (sum_pi x y (isqrt x)) ->
  exists j1,
    B.B budget_pi budget to_maxint to_str get_percent get_alpha_y
      get_threads get_thread_dist clock is_backup x y threads j start now
    = Done (sum_pi x y (isqrt x), j1) /\
    B.B budget_pi budget to_maxint to_str get_percent get_alpha_y
      get_threads' get_thread_dist' clock' is_backup' x y threads' j1
      start' now'
    = Done (sum_pi x y (isqrt x), j1).
Proof.
  intros Hdist Hthr Hfresh Hx Hsum.
  assert (exists file,
            B.B budget_pi budget to_maxint to_str get_percent get_alpha_y
              get_threads get_thread_dist clock is_backup x y threads j
              start now
            = Done (sum_pi x y (isqrt x),
                    backup_B_result to_str get_alpha_y now file x y
                      (Z.quot x (Z.max y 1)) (sum_pi x y (isqrt x)) start))
    as (file & Hrun).
  { unfold B.B. unfold resume_B_result at 1. rewrite Hfresh.
    cbn [mbind outcome_bind].
    destruct (decide (x < 4)) as [Hx4|Hx4].
    - unfold B.B_OpenMP, B.B_OpenMP_stopped, B.B_OpenMP_time.
      rewrite !decide_True by done.
      cbn [mbind outcome_bind]. exists j. do 2 f_equal.
      + symmetry. apply FoldProofs.sum_pi_none.
        rewrite (FoldProofs.pi_small (isqrt x) (FoldProofs.isqrt_small x Hx4)).
        apply FoldProofs.pi_nonneg.
      + f_equal. symmetry. apply FoldProofs.sum_pi_none.
        rewrite (FoldProofs.pi_small (isqrt x) (FoldProofs.isqrt_small x Hx4)).
        apply FoldProofs.pi_nonneg.
    - rewrite Z.quot_div_nonneg by lia. fold z.
      destruct (B_from_document get_threads get_thread_dist clock is_backup
                  threads j now start Hdist Hthr (or_introl Hfresh))
        as (j' & ->).
      cbn [mbind outcome_bind].
      destruct (B_stopped_file get_threads get_thread_dist clock is_backup
                  threads j now start budget Hdist Hthr Hfresh)
        as (file & -> & _).
      cbn [mbind outcome_bind]. rewrite B_time_fresh by done.
      cbn [mbind outcome_bind]. by exists file. }
  eexists. split; [exact Hrun|].
  unfold B.B. rewrite BackupTrips.resume_of_result_B by done.
  done.
Qed.

End Run.

Definition still (low : Z) : Q := 0%Q.

(** The backup file of a run for x = 100, y = 4 with two threads and
    thread distance 3 that stores a backup at every turn and is stopped
    after one. *)
Definition stopped_file : json :=
  Eval vm_compute in
    match B.B_OpenMP_stopped 7 200 read_decimal pretty
            BackupTrips.no_percent BackupTrips.no_percent
            (fun _ _ t => t) (fun _ => 3) still (fun _ => true)
            1 100 4 25 2 JNull 0%Q 0%Q
    with
    | Done j => j
    | Fault _ => JNull
    end.

Lemma B_resume_same_witness :
  exists j',
    B.B_OpenMP 7 200 read_decimal pretty
      BackupTrips.no_percent BackupTrips.no_percent
      (fun _ _ t => t) (fun _ => 5) still (fun _ => false)
      100 4 (100 / Z.max 4 1) 3 stopped_file 5%Q 5%Q
    = Done (sum_pi 100 4 (isqrt 100), j').
Proof.
  apply (B_resume_same 7 200 read_decimal pretty
           BackupTrips.no_percent BackupTrips.no_percent
           100 4 29 ltac:(vm_compute; reflexivity)
           ltac:(vm_compute; discriminate) ltac:(vm_compute; discriminate)
           ltac:(vm_compute; discriminate)
           (fun _ _ t => t) (fun _ => 3) still (fun _ => true)
           2 JNull 0%Q 0%Q 1 stopped_file).
  - intros _. lia.
  - intros _. lia.
  - lia.
  - lia.
  - reflexivity.
  - vm_compute; reflexivity.
  - assert (field (field stopped_file "B") "x" = JStr (pretty 100)) as Hx
      by (vm_compute; reflexivity).
    assert (field (field stopped_file "B") "sum" = JStr (pretty 6)) as Hs
      by (vm_compute; reflexivity).
    intros n [H|H]; rewrite ?Hx, ?Hs in H;
      injection H as H; apply (inj pretty) in H; subst n;
      vm_compute; reflexivity.
Defined.

Lemma B_result_reused_witness :
  exists j1,
    B.B 7 200 read_decimal pretty
      BackupTrips.no_percent BackupTrips.no_percent
      (fun _ _ t => t) (fun _ => 3) still (fun _ => true)
      100 4 2 JNull 0%Q 1%Q
    = Done (sum_pi 100 4 (isqrt 100), j1) /\
    B.B 7 200 read_decimal pretty
      BackupTrips.no_percent BackupTrips.no_percent
      (fun _ _ t => t) (fun _ => 5) still (fun _ => false)
      100 4 3 j1 2%Q 3%Q
    = Done (sum_pi 100 4 (isqrt 100), j1).
Proof.
  apply (B_result_reused 7 200 read_decimal pretty
           BackupTrips.no_percent BackupTrips.no_percent
           100 4 29 ltac:(vm_compute; reflexivity)
           ltac:(vm_compute; discriminate) ltac:(vm_compute; discriminate)
           ltac:(vm_compute; discriminate)
           (fun _ _ t => t) (fun _ => 3) still (fun _ => true)
           2 JNull 0%Q 1%Q
           (fun _ _ t => t) (fun _ => 5) still (fun _ => false) 3 2%Q 3%Q).
  - intros _. lia.
  - lia.
  - reflexivity.
  - vm_compute; reflexivity.
  - vm_compute; reflexivity.
Defined.

End BResumeProofs.

(** * The segmented PrimePi table *)

Module PiTableProofs.
Import Primes SegmentedPiTable.

(** ** The bits of a word *)

(** The odd number that bit [k] of word [i] stands for. *)
Definition odd_at (low i k : Z) : Z := low + 128 * i + 2 * k + 1.

(** What bit [k] of word [i] holds once the primes below [bound] are
    marked: whether its number is a prime below [bound]; the bit of 1 is
    set in place of the prime 2. *)
Definition flag (low bound i k : Z) : bool :=
  bool_decide (k < 64) &&
  ((is_prime (odd_at low i k) && bool_decide (odd_at low i k < bound))
   || bool_decide (odd_at low i k = 1)).

Lemma even_not_prime n : 2 < n -> n mod 2 = 0 -> is_prime n = false.
Proof.
  intros Hn Hev. destruct (is_prime n) eqn:E; [|done].
  apply LegendreProofs.is_prime_spec in E as [_ E]. destruct (E 2); [lia|done].
Qed.

Lemma one_not_prime : is_prime 1 = false.
Proof. done. Qed.

Lemma testbit_one_shifted k m :
  0 <= k -> 0 <= m -> Z.testbit (Z.shiftl 1 k) m = bool_decide (m = k).
Proof.
  intros Hk Hm. rewrite Z.shiftl_1_l, Z.pow2_bits_eqb by lia.
  destruct (Z.eqb_spec k m); [by rewrite bool_decide_eq_true_2|
                              by rewrite bool_decide_eq_false_2 by lia].
Qed.

Lemma seqZ_two a : seqZ a 2 = [a; a + 1].
Proof.
  rewrite seqZ_cons by lia. rewrite seqZ_cons by lia. rewrite seqZ_nil by lia.
  done.
Qed.

(** The primes of a window of [2 m] numbers that starts at an even
    number above 2 are odd. *)
Lemma odd_primes base (m : nat) :
  2 < base -> base mod 2 = 0 ->
  Zsum (map (fun k : nat => Z.b2z (is_prime (base + 2 * Z.of_nat k + 1)))
          (seq 0 m))
  = Z.of_nat (length (filter (fun n => is_prime n)
                        (seqZ base (2 * Z.of_nat m)))).
Proof.
  intros Hb Hev. induction m as [|m IH]; [done|].
  rewrite seq_S, map_app, SieveProofs.Zsum_app, IH. cbn [map Zsum foldr plus].
  replace (2 * Z.of_nat (S m)) with (2 * Z.of_nat m + 2) by lia.
  rewrite seqZ_app by lia. rewrite seqZ_two, filter_app, length_app.
  rewrite (filter_cons_False _ (base + 2 * Z.of_nat m)); last first.
  { rewrite even_not_prime; [by intros []|lia|].
    rewrite (Z.mul_comm 2), Z.mod_add by lia. done. }
  destruct (is_prime (base + 2 * Z.of_nat m + 1)) eqn:E.
  - rewrite filter_cons_True by (by apply Is_true_true_2).
    rewrite filter_nil. cbn [length Z.b2z]. lia.
  - rewrite filter_cons_False by (by apply Is_true_false_2).
    rewrite filter_nil. cbn [length Z.b2z]. lia.
Qed.

Lemma pi_window base n :
  0 <= base -> 0 <= n ->
  pi (base + n - 1) - pi (base - 1)
  = Z.of_nat (length (filter (fun n => is_prime n) (seqZ base n))).
Proof.
  intros Hb Hn. rewrite (FoldProofs.pi_primes_in (base - 1) (base + n - 1)) by lia.
  unfold primes_in.
  replace (base - 1 + 1) with base by lia.
  replace (base + n - 1 - (base - 1)) with n by lia. lia.
Qed.

(** A word whose window lies below the bound holds as many bits as the
    window has primes. *)
Lemma popcnt_window low bound i b :
  low mod 128 = 0 -> 0 <= low -> 0 <= i ->
  low + 128 * i + 128 <= bound ->
  (forall k, 0 <= k -> Z.testbit b k = flag low bound i k) ->
  SieveModel.popcnt64 b
  = pi (low + 128 * i + 127) - pi (low + 128 * i - 1).
Proof.
  intros Hlow H0 Hi Hfull Hb. unfold SieveModel.popcnt64.
  assert (low mod 2 = 0) as Hev.
  { rewrite (Z.div_mod low 128) by lia. rewrite Hlow, Z.add_0_r.
    replace (128 * (low / 128)) with ((64 * (low / 128)) * 2) by lia.
    apply Z.mod_mul. lia. }
  rewrite (map_ext_in _
             (fun k : nat => Z.b2z (is_prime (odd_at low i (Z.of_nat k))
                                   || bool_decide (odd_at low i (Z.of_nat k) = 1)))).
  2:{ intros k Hk%in_seq. rewrite Hb by lia. unfold flag.
      rewrite bool_decide_eq_true_2 by lia.
      rewrite (bool_decide_eq_true_2 (_ < bound)) by (unfold odd_at; lia).
      by rewrite andb_true_r. }
  destruct (decide (low + 128 * i = 0)) as [Hz|Hnz].
  - assert (low = 0) as -> by lia. assert (i = 0) as -> by lia.
    vm_compute. reflexivity.
  - replace (low + 128 * i + 127) with (low + 128 * i + 128 - 1) by lia.
    rewrite pi_window by lia.
    assert ((low + 128 * i) mod 2 = 0) as Hev'.
    { replace (128 * i) with ((64 * i) * 2) by lia.
      by rewrite Z.mod_add by lia. }
    pose proof (Z.div_mod low 128 ltac:(lia)) as Hdm. rewrite Hlow in Hdm.
    pose proof (odd_primes (low + 128 * i) 64 ltac:(lia) Hev') as Hodd.
    change (2 * Z.of_nat 64) with 128 in Hodd. rewrite <- Hodd.
    f_equal. apply map_ext_in. intros k Hk%in_seq. unfold odd_at.
    rewrite (bool_decide_eq_false_2 (_ = 1)) by lia.
    by rewrite orb_false_r.
Qed.

(** ** Reading and writing words *)

Lemma set_bits_Done ws k b w :
  0 <= k -> ws !! Z.to_nat k = Some w ->
  set_bits ws k b
  = Done (<[Z.to_nat k := mk_pi_t (prime_count w) (Z.lor (bits w) b)]> ws).
Proof.
  intros Hk Hw. unfold set_bits. rewrite (read_Done _ _ _ Hk Hw).
  cbn [mbind outcome_bind]. apply write_Done.
  apply lookup_lt_Some in Hw. lia.
Qed.

Lemma ceil_div_128 a :
  0 <= a ->
  128 * P2Backup.ceil_div a 128 - 128 < a <= 128 * P2Backup.ceil_div a 128.
Proof.
  intros Ha. unfold P2Backup.ceil_div. rewrite Z.quot_div_nonneg by lia.
  pose proof (Z.div_mod (a + 128 - 1) 128 ltac:(lia)).
  pose proof (Z.mod_pos_bound (a + 128 - 1) 128 ltac:(lia)). lia.
Qed.

Lemma cleared_lookup (ws : list pi_t) i j z (idx : nat) :
  0 <= i <= j -> j <= Z.of_nat (length ws) ->
  (take (Z.to_nat i) ws ++ replicate (Z.to_nat (j - i)) z
     ++ drop (Z.to_nat j) ws) !! idx
  = if decide (i <= Z.of_nat idx < j) then Some z else ws !! idx.
Proof.
  intros Hij Hj. destruct (decide (Z.of_nat idx < i)) as [Hlt|Hge].
  - rewrite decide_False by lia.
    rewrite lookup_app_l by (rewrite length_take; lia).
    apply lookup_take_lt. lia.
  - rewrite lookup_app_r by (rewrite length_take; lia).
    rewrite length_take, Nat.min_l by lia.
    destruct (decide (Z.of_nat idx < j)) as [Hlt|Hge'].
    + rewrite decide_True by lia.
      rewrite lookup_app_l by (rewrite length_replicate; lia).
      apply lookup_replicate_2. lia.
    + rewrite decide_False by lia.
      rewrite lookup_app_r by (rewrite length_replicate; lia).
      rewrite length_replicate, lookup_drop. f_equal. lia.
Qed.

(** ** Where a prime goes *)

Lemma odd_at_odd low i k : low mod 128 = 0 -> odd_at low i k mod 2 = 1.
Proof.
  intros H. unfold odd_at.
  pose proof (Z.div_mod low 128 ltac:(lia)) as Hd. rewrite H in Hd.
  replace (low + 128 * i + 2 * k + 1)
    with (1 + (64 * (low / 128) + 64 * i + k) * 2) by lia.
  by rewrite Z.mod_add by lia.
Qed.

Lemma prime_odd p : is_prime p = true -> 2 < p -> p mod 2 = 1.
Proof.
  intros Hp H2. pose proof (Z.mod_pos_bound p 2 ltac:(lia)).
  destruct (decide (p mod 2 = 0)) as [H0|]; [|lia].
  rewrite even_not_prime in Hp; done.
Qed.

Lemma locate low p :
  low mod 128 = 0 -> low <= p -> p mod 2 = 1 ->
  odd_at low ((p - low) / 128) ((p - low) mod 128 / 2) = p /\
  0 <= (p - low) mod 128 / 2 < 64 /\
  128 * ((p - low) / 128) <= p - low < 128 * ((p - low) / 128) + 128.
Proof.
  intros Hlow Hle Hodd. unfold odd_at.
  pose proof (Z.div_mod low 128 ltac:(lia)) as H1. rewrite Hlow in H1.
  pose proof (Z.div_mod p 2 ltac:(lia)) as H2. rewrite Hodd in H2.
  pose proof (Z.div_mod (p - low) 128 ltac:(lia)) as H3.
  pose proof (Z.mod_pos_bound (p - low) 128 ltac:(lia)) as H4.
  pose proof (Z.div_mod ((p - low) mod 128) 2 ltac:(lia)) as H5.
  pose proof (Z.mod_pos_bound ((p - low) mod 128) 2 ltac:(lia)) as H6.
  lia.
Qed.

Lemma odd_at_inj low i k i' k' :
  0 <= k < 64 -> 0 <= k' < 64 -> odd_at low i k = odd_at low i' k' ->
  i = i' /\ k = k'.
Proof. unfold odd_at. lia. Qed.

(** Marking the next prime. *)
Lemma flag_next low pos p i k :
  FoldProofs.next_after pos p ->
  flag low (p + 1) i k
  = flag low (pos + 1) i k
    || (bool_decide (k < 64) && bool_decide (odd_at low i k = p)).
Proof.
  intros (Hp & Hlt & Hno). unfold flag.
  set (n := odd_at low i k).
  destruct (decide (n = p)) as [->|Hne].
  - rewrite Hp. rewrite (bool_decide_eq_true_2 (p < p + 1)) by lia.
    rewrite (bool_decide_eq_true_2 (p = p)) by done.
    by destruct (bool_decide (k < 64)), (bool_decide (p < pos + 1)),
      (bool_decide (p = 1)).
  - rewrite (bool_decide_eq_false_2 (n = p)) by done.
    rewrite andb_false_r, orb_false_r. f_equal. f_equal.
    destruct (is_prime n) eqn:E; [|done]. cbn [andb].
    apply bool_decide_ext. split; [|lia]. intros Hn.
    destruct (decide (n < pos + 1)) as [|Hge]; [done|].
    rewrite Hno in E by lia. done.
Qed.

(** Nothing is left to mark below [stop]. *)
Lemma flag_done low pos p stop i k :
  low mod 128 = 0 -> FoldProofs.next_after pos p -> stop <= p ->
  pos < stop \/ pos = 2 ->
  flag low stop i k = flag low (pos + 1) i k.
Proof.
  intros Hlow (Hp & Hlt & Hno) Hstop Hpos. unfold flag.
  pose proof (odd_at_odd low i k Hlow) as Hodd.
  set (n := odd_at low i k) in *. f_equal. f_equal.
  destruct (is_prime n) eqn:E; [|done]. cbn [andb].
  pose proof (FoldProofs.is_prime_ge_2 n E) as H2.
  assert (n <> 2) by (intros ->; done).
  apply bool_decide_ext. split; intros Hn.
  - destruct (decide (n < pos + 1)) as [|Hge]; [done|].
    rewrite Hno in E by lia. done.
  - destruct Hpos as [Hpos| ->]; lia.
Qed.

(** ** The loop of [init_bits] *)

(** The words [i .. j - 1] hold the primes below [bound]; the others
    are those of [ws0]. *)
Definition marked (low bound i j : Z) (ws0 ws : list pi_t) : Prop :=
  length ws = length ws0 /\
  forall idx : nat,
    (Z.of_nat idx < i \/ j <= Z.of_nat idx -> ws !! idx = ws0 !! idx) /\
    (i <= Z.of_nat idx < j ->
     exists w, ws !! idx = Some w /\ prime_count w = 0 /\
               forall k, 0 <= k ->
                         Z.testbit (bits w) k = flag low bound (Z.of_nat idx) k).

Section Mark.

Variable q : Z.
Variable budget : nat.
Hypothesis Hq : is_prime q = true.
Hypothesis Hbudget : q <= Z.of_nat budget.
Variables low start stop i j : Z.
Hypothesis Hlow : low mod 128 = 0.
Hypothesis H0 : 0 <= low.
Hypothesis Hi : 0 <= i.
Hypothesis Hstart : start = low + 128 * i.
Hypothesis Hstop : stop <= q.
Hypothesis Hj : stop <= low + 128 * j.
Hypothesis H64 : stop < 2 ^ 64.
Variable ws0 : list pi_t.

Lemma mark_spec fuel ws pos :
  2 <= pos -> start <= pos -> pos < stop \/ pos = 2 ->
  stop - pos <= Z.of_nat fuel ->
  marked low (pos + 1) i j ws0 ws ->
  exists ws' c,
    mark fuel budget low stop ws pos (pi pos - pi (start - 1))
    = Done (ws', c) /\
    marked low stop i j ws0 ws' /\
    (2 < stop -> c = pi (stop - 1) - pi (start - 1)).
Proof.
  revert ws pos. induction fuel as [|fuel IH]; intros ws pos H2 Hsp Hpos Hfuel Hm.
  all: assert (exists p, next_prime budget pos = Done p /\
                         FoldProofs.next_after pos p) as (p & Hnp & Hna).
  1,3: (destruct (decide (pos < q)) as [Hpq|Hpq];
        [destruct (FoldProofs.next_prime_spec budget pos q Hq ltac:(lia))
           as (p & ? & ? & _); by exists p
        |pose proof (FoldProofs.is_prime_ge_2 q Hq);
         destruct (FoldProofs.next_prime_spec budget pos 3 eq_refl ltac:(lia))
           as (p & ? & ? & _); by exists p]).
  - cbn [mark]. rewrite Hnp. cbn [mbind outcome_bind].
    destruct Hna as (Hp & Hlt & Hno).
    rewrite decide_False by lia.
    exists ws, (pi pos - pi (start - 1)). split_and!; [done| |lia].
    destruct Hm as [Hlen Hm]. split; [done|]. intros idx.
    destruct (Hm idx) as [Hout Hin]. split; [done|].
    intros Hidx. destruct (Hin Hidx) as (w & Hw & Hc & Hb).
    exists w. split_and!; [done|done|]. intros k Hk. rewrite (Hb k Hk).
    symmetry. apply (flag_done low pos p); [done|done|lia|done].
  - cbn [mark]. rewrite Hnp. cbn [mbind outcome_bind].
    destruct (decide (p < stop)) as [Hps|Hps].
    + pose proof Hna as (Hp & Hlt & Hno).
      pose proof (prime_odd p Hp ltac:(lia)) as Hodd.
      unfold u64 at 1 2 3. rewrite (Z.mod_small (p - low)) by lia.
      destruct (locate low p Hlow ltac:(lia) Hodd) as (Hat & Hk' & Hidx').
      set (idx' := (p - low) / 128) in *.
      set (k' := (p - low) mod 128 / 2) in *.
      destruct Hm as [Hlen Hm].
      destruct (Hm (Z.to_nat idx')) as [_ Hin].
      destruct Hin as (w & Hw & Hc & Hb); [lia|].
      rewrite (set_bits_Done _ _ _ w) by (done || lia).
      cbn [mbind outcome_bind].
      pose proof (FoldProofs.next_after_pi pos p ltac:(lia) Hna) as Hpi.
      pose proof (FoldProofs.pi_mono (start - 1) pos ltac:(lia)).
      pose proof (FoldProofs.pi_le p ltac:(lia)).
      pose proof (FoldProofs.pi_nonneg (start - 1)).
      rewrite (Z.mod_small (pi pos - pi (start - 1) + 1)) by lia.
      replace (pi pos - pi (start - 1) + 1) with (pi p - pi (start - 1)) by lia.
      apply IH; [lia|lia|lia|lia|].
      split; [by rewrite length_insert|]. intros idx.
      destruct (Hm idx) as [Hout Hin]. split.
      * intros Hidx. rewrite list_lookup_insert_ne by lia. by apply Hout.
      * intros Hidx. destruct (decide (idx = Z.to_nat idx')) as [->|Hne].
        -- rewrite list_lookup_insert_eq by (by eapply lookup_lt_Some).
           eexists. split_and!; [done|done|]. cbn [bits]. intros k Hk.
           rewrite Z.lor_spec, (Hb k Hk), testbit_one_shifted by lia.
           rewrite (flag_next low pos p) by done. f_equal.
           rewrite Z2Nat.id by lia.
           destruct (decide (k = k')) as [->|Hkk].
           ++ rewrite !bool_decide_eq_true_2 by (done || lia). done.
           ++ rewrite (bool_decide_eq_false_2 (k = k')) by done.
              destruct (decide (k < 64)) as [Hk64|Hk64];
                [|by rewrite (bool_decide_eq_false_2 (k < 64)) by done].
              rewrite (bool_decide_eq_false_2 (odd_at _ _ _ = p));
                [by rewrite andb_false_r|].
              rewrite <- Hat. intros Heq.
              apply odd_at_inj in Heq; [|lia|lia]. lia.
        -- rewrite list_lookup_insert_ne by done.
           destruct (Hin Hidx) as (w1 & Hw1 & Hc1 & Hb1).
           exists w1. split_and!; [done|done|]. intros k Hk.
           rewrite (Hb1 k Hk), (flag_next low pos p) by done.
           destruct (decide (k < 64)) as [Hk64|Hk64];
             [|by rewrite (bool_decide_eq_false_2 (k < 64)), orb_false_r by done].
           rewrite (bool_decide_eq_false_2 (odd_at _ _ _ = p));
             [by rewrite andb_false_r, orb_false_r|].
           rewrite <- Hat. intros Heq.
           apply odd_at_inj in Heq; [|lia|lia]. lia.
    + exists ws, (pi pos - pi (start - 1)). split_and!; [done| |].
      * destruct Hm as [Hlen Hm]. split; [done|]. intros idx.
        destruct (Hm idx) as [Hout Hin]. split; [done|].
        intros Hidx. destruct (Hin Hidx) as (w & Hw & Hc & Hb).
        exists w. split_and!; [done|done|]. intros k Hk. rewrite (Hb k Hk).
        symmetry. apply (flag_done low pos p); [done|done|lia|done].
      * intros H3. f_equal. symmetry.
        apply (FoldProofs.next_after_const pos p); [lia|done|lia].
Qed.

(** Before the loop nothing but the bit of 1 is set. *)
Lemma flag_start idx k :
  i <= idx -> 0 <= k ->
  flag low (Z.max start 2 + 1) idx k
  = bool_decide (k < 64) && bool_decide (odd_at low idx k = 1).
Proof.
  intros Hidx Hk. unfold flag. f_equal.
  pose proof (odd_at_odd low idx k Hlow) as Hodd.
  set (n := odd_at low idx k) in *.
  assert (start + 1 <= n) by (unfold n, odd_at; lia).
  destruct (decide (n < Z.max start 2 + 1)) as [Hn|Hn].
  - assert (n = 1) as ->
      by (destruct (decide (n = 2)) as [->|]; [done|lia]).
    done.
  - rewrite (bool_decide_eq_false_2 (n < _)) by done.
    by rewrite andb_false_r.
Qed.

Lemma init_bits_spec t n :
  low_ t = low -> pi_ t = ws0 -> start < stop ->
  j = P2Backup.ceil_div (stop - low) 128 ->
  j <= Z.of_nat (length ws0) ->
  0 <= n < Z.of_nat (length (counts_ t)) ->
  exists ws' c,
    init_bits budget t start stop n
    = Done (set_counts (set_pi t ws') (<[Z.to_nat n := c]> (counts_ t))) /\
    marked low stop i j ws0 ws' /\
    (2 < stop -> c = pi (stop - 1) - pi (start - 1)).
Proof.
  intros Hl Hws Hss Hjdef Hlen Hn. unfold init_bits. rewrite Hl, Hws.
  pose proof (Z.div_mod low 128 ltac:(lia)) as Hdm. rewrite Hlow in Hdm.
  unfold u64. rewrite !Z.mod_small by lia.
  replace ((start - low) / 128) with i
    by (rewrite Hstart; replace (low + 128 * i - low) with (i * 128) by lia;
        by rewrite Z.div_mul).
  rewrite <- Hjdef.
  pose proof (ceil_div_128 (stop - low) ltac:(lia)) as Hceil.
  rewrite <- Hjdef in Hceil.
  unfold clear.
  destruct (decide (0 <= i <= j /\ j <= Z.of_nat (length ws0))) as [_|Hbad];
    [|lia].
  cbn [mbind outcome_bind].
  set (ws1 := take _ _ ++ _).
  assert (length ws1 = length ws0) as Hlen1.
  { unfold ws1. rewrite !length_app, length_take, length_replicate, length_drop.
    lia. }
  assert (forall idx : nat,
            ws1 !! idx = if decide (i <= Z.of_nat idx < j)
                         then Some (mk_pi_t 0 0) else ws0 !! idx) as Hws1
    by (intros idx; apply cleared_lookup; lia).
  assert (exists ws2,
            (if decide (start <= 1) then set_bits ws1 0 1 else Done ws1)
            = Done ws2 /\
            marked low (Z.max start 2 + 1) i j ws0 ws2) as (ws2 & -> & Hm).
  { destruct (decide (start <= 1)) as [Hs1|Hs1].
    - assert (low = 0 /\ i = 0) as [Hl0 Hi0] by lia.
      assert (ws1 !! Z.to_nat 0 = Some (mk_pi_t 0 0)) as Hw0
        by (rewrite Hws1; rewrite decide_True by lia; done).
      rewrite (set_bits_Done ws1 0 1 _ ltac:(lia) Hw0). eexists. split; [done|].
      split; [by rewrite length_insert|]. intros idx. split.
      + intros Hidx. rewrite list_lookup_insert_ne by lia.
        rewrite Hws1. by rewrite decide_False by lia.
      + intros Hidx. destruct (decide (idx = Z.to_nat 0)) as [->|Hne].
        * rewrite list_lookup_insert_eq by (rewrite Hlen1; lia).
          eexists. split_and!; [done|done|]. intros k Hk. cbn [bits prime_count].
          rewrite flag_start by lia. rewrite Z.lor_0_l.
          change 1 with (Z.shiftl 1 0) at 1.
          rewrite testbit_one_shifted by lia. unfold odd_at.
          destruct (decide (k = 0)) as [Hk0|Hk0].
          -- by rewrite !bool_decide_eq_true_2 by lia.
          -- rewrite (bool_decide_eq_false_2 (k = 0)) by done.
             rewrite (bool_decide_eq_false_2 (_ = 1)) by lia.
             by rewrite andb_false_r.
        * rewrite list_lookup_insert_ne by done.
          rewrite Hws1. rewrite decide_True by lia.
          eexists. split_and!; [done|done|]. intros k Hk. cbn [bits].
          rewrite flag_start by lia. rewrite Z.bits_0. unfold odd_at.
          rewrite (bool_decide_eq_false_2 (_ = 1)) by lia.
          by rewrite andb_false_r.
    - exists ws1. split; [done|]. split; [done|]. intros idx. split.
      + intros Hidx. rewrite Hws1. by rewrite decide_False by lia.
      + intros Hidx. rewrite Hws1. rewrite decide_True by lia.
        eexists. split_and!; [done|done|]. intros k Hk. cbn [bits].
        rewrite flag_start by lia. rewrite Z.bits_0. unfold odd_at.
        rewrite (bool_decide_eq_false_2 (_ = 1)) by lia.
        by rewrite andb_false_r. }
  cbn [mbind outcome_bind].
  assert ((if decide (start <= 2) then 1 else 0)
          = pi (Z.max start 2) - pi (start - 1)) as ->.
  { destruct (decide (start <= 2)) as [Hs2|Hs2].
    - assert (start = 0) as Hs0 by lia. by rewrite Hs0.
    - rewrite Z.max_l by lia.
      rewrite (FoldProofs.pi_const (start - 1) start); [lia|lia|].
      intros p Hp. assert (p = start) as -> by lia.
      apply even_not_prime; [lia|]. rewrite Hstart.
      replace (low + 128 * i) with (0 + (64 * (low / 128) + 64 * i) * 2) by lia.
      by rewrite Z.mod_add by lia. }
  destruct (mark_spec budget ws2 (Z.max start 2))
    as (ws' & c & -> & Hm' & Hc); [lia|lia|lia| |done|].
  { pose proof (FoldProofs.is_prime_ge_2 q Hq). lia. }
  cbn [mbind outcome_bind]. rewrite write_Done by done.
  cbn [mbind outcome_bind]. by exists ws', c.
Qed.

End Mark.

(** ** The loops of [init_prime_count] *)

Lemma sum_counts_spec cs (g : Z -> Z) (len : nat) a :
  0 <= a ->
  (forall m, a <= m < a + Z.of_nat len ->
             cs !! Z.to_nat m = Some (g (m + 1) - g m)) ->
  (forall m, a <= m <= a + Z.of_nat len -> 0 <= g m < 2 ^ 64) ->
  sum_counts cs (seqZ a (Z.of_nat len)) (g a) = Done (g (a + Z.of_nat len)).
Proof.
  revert a. induction len as [|len IH]; intros a Ha Hcs Hg.
  - cbn. by rewrite Z.add_0_r.
  - rewrite seqZ_cons by lia. cbn [sum_counts].
    rewrite (read_Done _ _ _ Ha (Hcs a ltac:(lia))). cbn [mbind outcome_bind].
    replace (g a + (g (a + 1) - g a)) with (g (a + 1)) by lia.
    unfold u64. rewrite Z.mod_small by (apply Hg; lia).
    replace (Z.pred (Z.of_nat (S len))) with (Z.of_nat len) by lia.
    replace (Z.succ a) with (a + 1) by lia.
    rewrite IH; [f_equal; f_equal; lia|lia| |].
    + intros m Hm. apply Hcs. lia.
    + intros m Hm. apply Hg. lia.
Qed.

Lemma fill_spec low high ws (len : nat) a :
  low mod 128 = 0 -> 0 <= low -> 0 <= a -> high < 2 ^ 64 ->
  low + 128 * (a + Z.of_nat len) - 128 < high \/ len = 0%nat ->
  (forall idx : nat,
     a <= Z.of_nat idx < a + Z.of_nat len ->
     exists w, ws !! idx = Some w /\
               forall k, 0 <= k ->
                         Z.testbit (bits w) k = flag low high (Z.of_nat idx) k) ->
  exists ws',
    fill (seqZ a (Z.of_nat len)) ws (pi (low + 128 * a - 1)) = Done ws' /\
    length ws' = length ws /\
    forall (idx : nat) w,
      ws !! idx = Some w ->
      exists w', ws' !! idx = Some w' /\ bits w' = bits w /\
                 prime_count w'
                 = if decide (a <= Z.of_nat idx < a + Z.of_nat len)
                   then pi (low + 128 * Z.of_nat idx - 1)
                   else prime_count w.
Proof.
  intros Hlow H0. revert a ws.
  induction len as [|len IH]; intros a ws Ha H64 Hlast Hws.
  - exists ws. split_and!; [done|done|]. intros idx w Hw. exists w.
    split_and!; [done|done|]. by rewrite decide_False by lia.
  - rewrite seqZ_cons by lia. cbn [fill].
    destruct (Hws (Z.to_nat a)) as (wa & Hwa & Hba); [lia|].
    rewrite (read_Done _ _ _ Ha Hwa). cbn [mbind outcome_bind].
    rewrite write_Done by (apply lookup_lt_Some in Hwa; lia).
    cbn [mbind outcome_bind].
    replace (Z.pred (Z.of_nat (S len))) with (Z.of_nat len) by lia.
    replace (Z.succ a) with (a + 1) by lia.
    set (ws1 := <[Z.to_nat a := _]> ws).
    assert (exists ws',
              fill (seqZ (a + 1) (Z.of_nat len)) ws1
                (u64 (pi (low + 128 * a - 1) + SieveModel.popcnt64 (bits wa)))
              = Done ws' /\
              length ws' = length ws1 /\
              forall (idx : nat) w,
                ws1 !! idx = Some w ->
                exists w', ws' !! idx = Some w' /\ bits w' = bits w /\
                  prime_count w'
                  = if decide (a + 1 <= Z.of_nat idx < a + 1 + Z.of_nat len)
                    then pi (low + 128 * Z.of_nat idx - 1)
                    else prime_count w) as (ws' & -> & Hlen' & Hws').
    { destruct len as [|len].
      - exists ws1. split_and!; [done|done|]. intros idx w Hw. exists w.
        split_and!; [done|done|]. by rewrite decide_False by lia.
      - assert (low + 128 * a + 128 <= high) as Hfull by lia.
        rewrite Z2Nat.id in Hba by lia.
        rewrite (popcnt_window low high a (bits wa)) by done.
        replace (pi (low + 128 * a - 1)
                 + (pi (low + 128 * a + 127) - pi (low + 128 * a - 1)))
          with (pi (low + 128 * (a + 1) - 1))
          by (replace (low + 128 * (a + 1) - 1) with (low + 128 * a + 127)
                by lia; lia).
        pose proof (FoldProofs.pi_nonneg (low + 128 * (a + 1) - 1)).
        pose proof (FoldProofs.pi_le (low + 128 * (a + 1) - 1) ltac:(lia)).
        unfold u64. rewrite Z.mod_small by lia.
        apply IH; [lia|done|left; lia|].
        intros idx Hidx. destruct (Hws idx) as (w & Hw & Hb); [lia|].
        exists w. split; [|done]. unfold ws1.
        by rewrite list_lookup_insert_ne by lia. }
    exists ws'. split; [done|]. split.
    { rewrite Hlen'. unfold ws1. by rewrite length_insert. }
    intros idx w Hw. destruct (decide (idx = Z.to_nat a)) as [->|Hne].
    + destruct (Hws' (Z.to_nat a) (mk_pi_t (pi (low + 128 * a - 1)) (bits wa)))
        as (w' & Hw' & Hb' & Hc').
      { unfold ws1. apply list_lookup_insert_eq. by eapply lookup_lt_Some. }
      exists w'. rewrite Hwa in Hw. injection Hw as <-.
      split_and!; [done|done|]. rewrite Hc'.
      rewrite decide_False by lia. rewrite decide_True by lia.
      cbn [prime_count]. by rewrite Z2Nat.id by lia.
    + destruct (Hws' idx w) as (w' & Hw' & Hb' & Hc').
      { unfold ws1. by rewrite list_lookup_insert_ne by done. }
      exists w'. split_and!; [done|done|]. rewrite Hc'.
      destruct (decide (a + 1 <= Z.of_nat idx < a + 1 + Z.of_nat len)).
      * by rewrite decide_True by lia.
      * by rewrite decide_False by lia.
Qed.

(** ** The two passes of [init] *)

Lemma flag_bound low b1 b2 i k :
  (k < 64 -> odd_at low i k < b1 <-> odd_at low i k < b2) ->
  flag low b1 i k = flag low b2 i k.
Proof.
  intros H. unfold flag. destruct (decide (k < 64)) as [Hk|Hk].
  - by rewrite (bool_decide_ext _ _ (H Hk)).
  - by rewrite !(bool_decide_eq_false_2 (k < 64)) by done.
Qed.

Section Passes.

Variable q : Z.
Variable budget : nat.
Hypothesis Hq : is_prime q = true.
Hypothesis Hbudget : q <= Z.of_nat budget.
Variables low high size threads pi_low segment_size max_high : Z.
Variables len_pi len_counts : nat.
Hypothesis Hlow : low mod 128 = 0.
Hypothesis H0 : 0 <= low.
Hypothesis Hsize : size mod 128 = 0.
Hypothesis Hpos : 0 < size.
Hypothesis Hhigh : high <= q.
Hypothesis Hcover : high <= low + size * threads.
Hypothesis Hwords : high <= low + 128 * Z.of_nat len_pi.
Hypothesis Hcounts : threads <= Z.of_nat len_counts.
Hypothesis Hwrap : low + size * (threads + 1) < 2 ^ 64.
Hypothesis Hpi_low : pi_low = pi (low - 1).

(** The members that [init] leaves alone. *)
Definition same_frame (t : Table) : Prop :=
  low_ t = low /\ high_ t = high /\ pi_low_ t = pi_low /\
  length (pi_ t) = len_pi /\ length (counts_ t) = len_counts /\
  threads_ t = threads /\ segment_size_ t = segment_size /\
  max_high_ t = max_high.

(** After the first [n] threads of the first loop. *)
Definition bits_done (n : Z) (t : Table) : Prop :=
  same_frame t /\
  (forall idx : nat,
     128 * Z.of_nat idx < size * n -> low + 128 * Z.of_nat idx < high ->
     exists w, pi_ t !! idx = Some w /\
               forall k, 0 <= k ->
                         Z.testbit (bits w) k = flag low high (Z.of_nat idx) k) /\
  (forall m : nat,
     Z.of_nat m < n -> low + size * (Z.of_nat m + 1) < high ->
     counts_ t !! m
     = Some (pi (low + size * (Z.of_nat m + 1) - 1)
             - pi (low + size * Z.of_nat m - 1))).

Lemma step_le a b : a <= b -> size * a <= size * b.
Proof. intros H. apply Z.mul_le_mono_nonneg_l; lia. Qed.

Lemma thread_bounds a :
  0 <= a < threads ->
  u64 (low + u64 (size * a)) = low + size * a /\
  u64 (low + size * a + size) = low + size * a + size.
Proof.
  intros Ha. unfold u64.
  pose proof (step_le 0 a ltac:(lia)).
  pose proof (step_le (a + 1) (threads + 1) ltac:(lia)).
  rewrite (Z.mod_small (size * a)) by lia.
  rewrite !Z.mod_small by lia. done.
Qed.

Lemma first_pass (len : nat) a t :
  0 <= a -> a + Z.of_nat len <= threads -> bits_done a t ->
  exists t',
    each_thread (init_bits budget) size (seqZ a (Z.of_nat len)) t = Done t' /\
    bits_done (a + Z.of_nat len) t'.
Proof.
  revert a t. induction len as [|len IH]; intros a t Ha Hlen Ht.
  - exists t. split; [done|]. by rewrite Z.add_0_r.
  - rewrite seqZ_cons by lia. cbn [each_thread].
    replace (Z.pred (Z.of_nat (S len))) with (Z.of_nat len) by lia.
    replace (Z.succ a) with (a + 1) by lia.
    destruct Ht as ((Hl & Hh & Hp & Hlp & Hlc & Hfr) & Hbits & Hcs).
    rewrite Hl, Hh.
    destruct (thread_bounds a ltac:(lia)) as [-> ->].
    set (start := low + size * a).
    set (stop := Z.min (start + size) high).
    pose proof (Z.div_mod size 128 ltac:(lia)) as Hsz. rewrite Hsize in Hsz.
    assert (exists t1,
              (if decide (start < stop)
               then init_bits budget t start stop a else Done t) = Done t1 /\
              bits_done (a + 1) t1) as (t1 & -> & Ht1).
    { destruct (decide (start < stop)) as [Hss|Hss].
      - pose proof (ceil_div_128 (stop - low) ltac:(lia)) as Hceil.
        set (j := P2Backup.ceil_div (stop - low) 128) in *.
        destruct (init_bits_spec q budget Hq Hbudget low start stop
                    (size / 128 * a) j Hlow H0 ltac:(nia)
                    ltac:(unfold start; lia) ltac:(lia) ltac:(lia)
                    ltac:(assert (size * a + size <= size * (threads + 1))
                            by nia; lia)
                    (pi_ t) t a Hl eq_refl Hss eq_refl ltac:(lia) ltac:(lia))
          as (ws' & c & -> & (Hlen' & Hm) & Hc).
        eexists. split; [done|]. split_and!.
        + unfold same_frame. cbn. rewrite length_insert. by split_and!; try lia.
        + intros idx Hidx Hbase. cbn [pi_ set_counts set_pi].
          destruct (Hm idx) as [Hout Hin].
          destruct (decide (128 * Z.of_nat idx < size * a)) as [Hold|Hnew].
          * rewrite Hout by lia. by apply Hbits.
          * destruct Hin as (w & Hw & _ & Hb); [unfold start in *; lia|].
            exists w. split; [done|]. intros k Hk. rewrite (Hb k Hk).
            apply flag_bound. intros Hk64. unfold odd_at, stop, start. lia.
        + intros m Hm' Hnext. cbn [counts_ set_counts set_pi].
          destruct (decide (Z.of_nat m = a)) as [Hma|Hma].
          * replace m with (Z.to_nat a) by lia.
            rewrite list_lookup_insert_eq by lia. f_equal.
            rewrite Hc by (unfold stop, start; lia).
            unfold stop, start. rewrite Z.min_l by lia.
            rewrite <- Hma. do 2 f_equal; lia.
          * rewrite list_lookup_insert_ne by lia. apply Hcs; [lia|done].
      - exists t. split; [done|]. split_and!; [done| |].
        + intros idx Hidx Hbase.
          destruct (decide (128 * Z.of_nat idx < size * a)) as [Hold|Hnew];
            [by apply Hbits|].
          unfold stop, start in Hss. lia.
        + intros m Hm' Hnext.
          destruct (decide (Z.of_nat m = a)) as [Hma|Hma];
            [|apply Hcs; [lia|done]].
          unfold stop, start in Hss. nia. }
    cbn [mbind outcome_bind].
    destruct (IH (a + 1) t1) as (t' & -> & Ht'); [lia|lia|done|].
    exists t'. split; [done|].
    by replace (a + Z.of_nat (S len)) with (a + 1 + Z.of_nat len) by lia.
Qed.

(** After the first [n] threads of the second loop, which started from
    the table [t1]. *)
Definition counts_done (t1 : Table) (n : Z) (t : Table) : Prop :=
  same_frame t /\ counts_ t = counts_ t1 /\
  forall (idx : nat) w1,
    pi_ t1 !! idx = Some w1 ->
    exists w, pi_ t !! idx = Some w /\ bits w = bits w1 /\
              (128 * Z.of_nat idx < size * n -> low + 128 * Z.of_nat idx < high ->
               prime_count w = pi (low + 128 * Z.of_nat idx - 1)).

Lemma second_pass t1 (len : nat) a t :
  bits_done threads t1 ->
  0 <= a -> a + Z.of_nat len <= threads -> counts_done t1 a t ->
  exists t',
    each_thread init_prime_count size (seqZ a (Z.of_nat len)) t = Done t' /\
    counts_done t1 (a + Z.of_nat len) t'.
Proof.
  intros (_ & Hbits & Hcs).
  revert a t. induction len as [|len IH]; intros a t Ha Hlen Ht.
  - exists t. split; [done|]. by rewrite Z.add_0_r.
  - rewrite seqZ_cons by lia. cbn [each_thread].
    replace (Z.pred (Z.of_nat (S len))) with (Z.of_nat len) by lia.
    replace (Z.succ a) with (a + 1) by lia.
    destruct Ht as ((Hl & Hh & Hp & Hlp & Hlc & Hfr) & Hsame & Hws).
    rewrite Hl, Hh.
    destruct (thread_bounds a ltac:(lia)) as [-> ->].
    set (start := low + size * a).
    set (stop := Z.min (start + size) high).
    pose proof (Z.div_mod size 128 ltac:(lia)) as Hsz. rewrite Hsize in Hsz.
    assert (exists t2,
              (if decide (start < stop)
               then init_prime_count t start stop a else Done t) = Done t2 /\
              counts_done t1 (a + 1) t2) as (t2 & -> & Ht2).
    { destruct (decide (start < stop)) as [Hss|Hss].
      - pose proof (ceil_div_128 (stop - low) ltac:(lia)) as Hceil.
        unfold init_prime_count. rewrite Hl, Hp, Hsame.
        set (j := P2Backup.ceil_div _ 128).
        pose proof (step_le 0 a ltac:(lia)) as Hsa0.
        pose proof (step_le (a + 1) (threads + 1) ltac:(lia)) as Hsa1.
        assert (u64 (stop - low) = stop - low) as Hu
          by (unfold u64; apply Z.mod_small; lia).
        assert (u64 (start - low) / 128 = size / 128 * a) as Hi.
        { unfold u64. rewrite Z.mod_small by (unfold start; lia).
          unfold start. replace (low + size * a - low)
            with (size / 128 * a * 128) by lia.
          by rewrite Z.div_mul. }
        assert (j = P2Backup.ceil_div (stop - low) 128) as Hj
          by (unfold j; by rewrite Hu).
        rewrite Hi. rewrite <- Hj in Hceil. clearbody j.
        set (g := fun m => pi (low + size * m - 1)).
        rewrite Hpi_low.
        replace (pi (low - 1)) with (g 0) by (unfold g; f_equal; lia).
        replace (seqZ 0 a) with (seqZ 0 (Z.of_nat (Z.to_nat a)))
          by (by rewrite Z2Nat.id by lia).
        rewrite (sum_counts_spec (counts_ t1) g (Z.to_nat a) 0); [|lia| |].
        2:{ intros m Hm. pose proof (step_le (m + 1) a ltac:(lia)).
            rewrite (Hcs (Z.to_nat m));
              [|lia|rewrite Z2Nat.id by lia; unfold stop, start in *; lia].
            unfold g. rewrite Z2Nat.id by lia. done. }
        2:{ intros m Hm. unfold g.
            pose proof (step_le 0 m ltac:(lia)).
            pose proof (step_le m (threads + 1) ltac:(lia)).
            pose proof (FoldProofs.pi_nonneg (low + size * m - 1)).
            pose proof (FoldProofs.pi_le (low + size * m - 1) ltac:(lia)).
            lia. }
        cbn [mbind outcome_bind]. rewrite Z.add_0_l, Z2Nat.id by lia.
        unfold g.
        replace (size * a) with (128 * (size / 128 * a)) by lia.
        assert (size / 128 * a <= j) as Hij by (unfold stop, start in *; nia).
        replace (seqZ (size / 128 * a) (j - size / 128 * a))
          with (seqZ (size / 128 * a)
                  (Z.of_nat (Z.to_nat (j - size / 128 * a))))
          by (by rewrite Z2Nat.id by lia).
        destruct (fill_spec low high (pi_ t) (Z.to_nat (j - size / 128 * a))
                    (size / 128 * a) Hlow H0 ltac:(nia)
                    ltac:(assert (size * threads <= size * (threads + 1))
                            by nia; lia))
          as (ws' & -> & Hlen' & Hws').
        { left. unfold stop in *. lia. }
        { intros idx Hidx.
          destruct (Hbits idx) as (w1 & Hw1 & Hb1);
            [unfold stop, start in *; nia|unfold stop in *; lia|].
          destruct (Hws idx w1 Hw1) as (w & Hw & Hb & _).
          exists w. split; [done|]. by rewrite Hb. }
        cbn [mbind outcome_bind]. eexists. split; [done|]. split_and!.
        + unfold same_frame. cbn. by split_and!; try lia.
        + done.
        + intros idx w1 Hw1. cbn [pi_ set_pi].
          destruct (Hws idx w1 Hw1) as (w & Hw & Hb & Hc).
          destruct (Hws' idx w Hw) as (w' & Hw' & Hb' & Hc').
          exists w'. split_and!; [done|congruence|].
          intros Hidx Hbase. rewrite Hc'.
          destruct (decide (size / 128 * a <= Z.of_nat idx
                            < size / 128 * a
                              + Z.of_nat (Z.to_nat (j - size / 128 * a))))
            as [Hin|Hout]; [done|].
          apply Hc; [|done]. unfold stop, start in *. lia.
      - exists t. split; [done|]. split_and!; [done|done|].
        intros idx w1 Hw1. destruct (Hws idx w1 Hw1) as (w & Hw & Hb & Hc).
        exists w. split_and!; [done|done|]. intros Hidx Hbase.
        apply Hc; [|done]. unfold stop, start in Hss. lia. }
    cbn [mbind outcome_bind].
    destruct (IH (a + 1) t2) as (t' & -> & Ht'); [lia|lia|done|].
    exists t'. split; [done|].
    by replace (a + Z.of_nat (S len)) with (a + 1 + Z.of_nat len) by lia.
Qed.

End Passes.

(** ** The table *)

(** What [init] leaves: word [idx] holds the number of primes below its
    window of 128 numbers, and bit [k] of it tells whether the odd
    number [low + 128 idx + 2 k + 1] is a prime below [high]; the bit of
    1 is set in place of the prime 2. *)
Definition table_ok (t : Table) : Prop :=
  forall idx : nat,
    low_ t + 128 * Z.of_nat idx < high_ t ->
    exists w,
      pi_ t !! idx = Some w /\
      prime_count w = pi (low_ t + 128 * Z.of_nat idx - 1) /\
      forall k, 0 <= k ->
        Z.testbit (bits w) k
        = bool_decide (k < 64) &&
          ((is_prime (low_ t + 128 * Z.of_nat idx + 2 * k + 1) &&
            bool_decide (low_ t + 128 * Z.of_nat idx + 2 * k + 1 < high_ t))
           || bool_decide (low_ t + 128 * Z.of_nat idx + 2 * k + 1 = 1)).

Lemma init_spec budget t q :
  is_prime q = true -> high_ t <= q -> q <= Z.of_nat budget ->
  low_ t mod 128 = 0 -> 0 <= low_ t -> 0 <= segment_size_ t ->
  high_ t <= low_ t + segment_size_ t ->
  segment_size_ t <= 128 * Z.of_nat (length (pi_ t)) ->
  1 <= threads_ t <= Z.of_nat (length (counts_ t)) ->
  low_ t + (segment_size_ t + 10000128) * (threads_ t + 1) < 2 ^ 64 ->
  pi_low_ t = pi (low_ t - 1) ->
  exists t',
    init budget t = Done t' /\
    low_ t' = low_ t /\ high_ t' = high_ t /\
    segment_size_ t' = segment_size_ t /\ max_high_ t' = max_high_ t /\
    table_ok t'.
Proof.
  intros Hq Hhigh Hbudget Hlow H0 Hseg Hcov Hwords Hthr Hwrap Hpl.
  unfold init, thread_size.
  assert (segment_size_ t + 10000128 <= (segment_size_ t + 10000128)
                                         * (threads_ t + 1)) by nia.
  replace (u64 (threads_ t)) with (threads_ t)
    by (unfold u64; rewrite Z.mod_small; lia).
  unfold idiv. rewrite decide_False by lia. cbn [mbind outcome_bind].
  rewrite Z.quot_div_nonneg by lia.
  set (ts := Z.max 10000000 (segment_size_ t / threads_ t)).
  pose proof (Z.div_mod (segment_size_ t) (threads_ t) ltac:(lia)) as Hdm.
  pose proof (Z.mod_pos_bound (segment_size_ t) (threads_ t) ltac:(lia)) as Hmb.
  assert (segment_size_ t / threads_ t <= segment_size_ t) as Hq1
    by (apply Z.div_le_upper_bound; nia).
  assert (0 <= segment_size_ t / threads_ t) as Hq0
    by (apply Z.div_pos; lia).
  pose proof (Z.div_mod ts 128 ltac:(lia)) as Hts.
  pose proof (Z.mod_pos_bound ts 128 ltac:(lia)) as Htb.
  set (size := ts + (128 - ts mod 128)).
  assert (size mod 128 = 0) as Hsize.
  { unfold size. replace (ts + (128 - ts mod 128))
      with (0 + (ts / 128 + 1) * 128) by lia.
    by rewrite Z.mod_add by lia. }
  assert (ts < size <= ts + 128) as Hsz by (unfold size; lia).
  unfold u64. rewrite (Z.mod_small size) by (unfold ts in *; lia).
  assert (high_ t <= low_ t + size * threads_ t) as Hcover.
  { assert ((segment_size_ t / threads_ t + 1) * threads_ t
            <= size * threads_ t)
      by (apply Z.mul_le_mono_nonneg_r; unfold ts in *; lia).
    lia. }
  assert (low_ t + size * (threads_ t + 1) < 2 ^ 64) as Hwrap'.
  { assert (size * (threads_ t + 1)
            <= (segment_size_ t + 10000128) * (threads_ t + 1))
      by (apply Z.mul_le_mono_nonneg_r; unfold ts in *; lia).
    lia. }
  destruct (first_pass q budget Hq Hbudget (low_ t) (high_ t) size
              (threads_ t) (pi_low_ t) (segment_size_ t) (max_high_ t)
              (length (pi_ t)) (length (counts_ t))
              Hlow H0 Hsize ltac:(lia) Hhigh Hcover ltac:(lia) ltac:(lia)
              Hwrap' (Z.to_nat (threads_ t)) 0 t ltac:(lia) ltac:(lia))
    as (t1 & Ht1 & Hb1).
  { split_and!; [by unfold same_frame| |]; intros; lia. }
  rewrite Z2Nat.id in Ht1 by lia.
  rewrite Z.add_0_l, Z2Nat.id in Hb1 by lia. rewrite Ht1.
  cbn [mbind outcome_bind].
  pose proof Hb1 as ((Hl & Hh & Hp & Hlp & Hlc & Hth & Hsg & Hmh) & Hbits & _).
  rewrite Hth.
  destruct (second_pass q budget Hbudget (low_ t) (high_ t) size
              (threads_ t) (pi_low_ t) (segment_size_ t) (max_high_ t)
              (length (pi_ t)) (length (counts_ t))
              Hlow H0 Hsize ltac:(lia) Hhigh Hcover Hwrap' Hpl
              t1 (Z.to_nat (threads_ t)) 0 t1 Hb1 ltac:(lia) ltac:(lia))
    as (t' & Ht' & (Hfr & _ & Hws)).
  { split_and!; [by unfold same_frame|done|]. intros idx w1 Hw1.
    exists w1. split_and!; [done|done|]. lia. }
  rewrite Z2Nat.id in Ht' by lia.
  rewrite Z.add_0_l, Z2Nat.id in Hws by lia. rewrite Ht'.
  destruct Hfr as (Hl' & Hh' & _ & _ & _ & _ & Hsg' & Hmh').
  exists t'. split_and!; [done|done|done|done|done|].
  intros idx Hidx. rewrite Hl', Hh' in Hidx |- *.
  destruct (Hbits idx) as (w1 & Hw1 & Hb); [lia|done|].
  destruct (Hws idx w1 Hw1) as (w & Hw & Hbw & Hc).
  exists w. split_and!; [done|apply Hc; [lia|done]|].
  intros k Hk. rewrite Hbw. apply Hb. done.
Qed.

(** X15. [init] builds the lookup table of the segment [[low, high)]:
    when [low] is a multiple of 128 and [pi_low_] is the number of
    primes below [low], every thread's two passes together leave, in
    each word of the segment, the number of primes below the word's
    window and one bit for each odd prime of the window (with the bit of
    1 standing for the prime 2), whatever the number of threads. *)
Theorem init_table budget t q :
  is_prime q = true -> high_ t <= q -> q <= Z.of_nat budget ->
  low_ t mod 128 = 0 -> 0 <= low_ t -> 0 <= segment_size_ t ->
  high_ t <= low_ t + segment_size_ t ->
  segment_size_ t <= 128 * Z.of_nat (length (pi_ t)) ->
  1 <= threads_ t <= Z.of_nat (length (counts_ t)) ->
  low_ t + (segment_size_ t + 10000128) * (threads_ t + 1) < 2 ^ 64 ->
  pi_low_ t = pi (low_ t - 1) ->
  exists t',
    init budget t = Done t' /\
    low_ t' = low_ t /\ high_ t' = high_ t /\
    segment_size_ t' = segment_size_ t /\ max_high_ t' = max_high_ t /\
    table_ok t'.
Proof. apply init_spec. Qed.

(** X16. The constructor sizes the segment and builds its table: the
    segment size is a multiple of 128 that covers the requested size or
    the whole range, [high] is the end of the segment or [limit + 1],
    and the table of [[low, high)] is filled as [init] fills it. *)
Theorem construct_table ideal_num_threads budget_pi budget
    low limit segment_size threads q :
  is_prime q = true -> limit + 1 <= q -> q <= Z.of_nat budget ->
  Z.log2 (Z.max low 1 - 1) <= Z.of_nat budget_pi ->
  low mod 128 = 0 -> 0 <= low -> 0 <= limit -> 0 <= segment_size ->
  (forall s, 1 <= ideal_num_threads threads s 10000000 <= threads) ->
  low + (limit + 2 ^ 24) * (threads + 1) < 2 ^ 64 ->
  exists t,
    construct ideal_num_threads budget_pi budget low limit segment_size threads
    = Done t /\
    low_ t = low /\ max_high_ t = limit + 1 /\
    segment_size_ t mod 128 = 0 /\
    Z.min (Z.max segment_size (2 ^ 21)) (limit + 1) < segment_size_ t /\
    high_ t = Z.min (low + segment_size_ t) (limit + 1) /\
    table_ok t.
Proof.
  intros Hq Hlim Hbudget Hpi Hlow H0 Hl0 Hs0 Hideal Hwrap.
  unfold construct.
  assert (1 <= threads) as Hthr by (specialize (Hideal 0); lia).
  assert (limit + 2 ^ 24 <= (limit + 2 ^ 24) * (threads + 1)) by nia.
  replace (u64 (limit + 1)) with (limit + 1)
    by (unfold u64; rewrite Z.mod_small; lia).
  change (256 * Z.shiftl 1 10 * 8) with (2 ^ 21).
  set (s1 := Z.min (Z.max segment_size (2 ^ 21)) (limit + 1)).
  pose proof (Z.div_mod s1 128 ltac:(lia)) as Hdm.
  pose proof (Z.mod_pos_bound s1 128 ltac:(lia)) as Hmb.
  set (seg := s1 + (128 - s1 mod 128)).
  assert (s1 < seg <= s1 + 128) as Hseg by (unfold seg; lia).
  assert (0 < s1 <= limit + 1) as Hs1 by (unfold s1; lia).
  assert (seg mod 128 = 0) as Hseg128.
  { unfold seg. replace (s1 + (128 - s1 mod 128))
      with (0 + (s1 / 128 + 1) * 128) by lia.
    by rewrite Z.mod_add by lia. }
  replace (u64 seg) with seg by (unfold u64; rewrite Z.mod_small; lia).
  replace (u64 (low + seg)) with (low + seg)
    by (unfold u64; rewrite Z.mod_small; lia).
  rewrite (LegendreProofs.pi_simple_correct _ _ _ Hpi).
  cbn [mbind outcome_bind].
  set (t0 := mkTable _ _ _ _ _ _ _ _).
  pose proof (Hideal seg) as Hth.
  pose proof (Z.div_mod seg 128 ltac:(lia)) as Hsd. rewrite Hseg128 in Hsd.
  destruct (init_spec budget t0 q Hq) as (t & -> & Hl & Hh & Hsg & Hmh & Hok).
  - cbn. lia.
  - done.
  - done.
  - done.
  - cbn. lia.
  - cbn. lia.
  - cbn. rewrite length_replicate. lia.
  - cbn. rewrite length_replicate. lia.
  - cbn [low_ segment_size_ threads_ t0].
    assert ((seg + 10000128) * (ideal_num_threads threads seg 10000000 + 1)
            <= (limit + 2 ^ 24) * (threads + 1)); [|lia].
    apply Z.mul_le_mono_nonneg; lia.
  - cbn [pi_low_ low_ t0]. destruct (decide (low = 0)) as [Hz|Hnz].
    + by rewrite Hz.
    + by rewrite Z.max_l by lia.
  - exists t. cbn in Hl, Hh, Hsg, Hmh. rewrite Hl, Hmh, Hsg, Hh.
    split_and!; try done. lia.
Qed.

(** A table of three words for the numbers below 301, before [init]. *)
Definition blank : Table :=
  mkTable (replicate 3 (mk_pi_t 0 0)) [0; 0] 0 301 301 384 2 0.

Lemma init_table_witness :
  exists t',
    init 400 blank = Done t' /\
    low_ t' = low_ blank /\ high_ t' = high_ blank /\
    segment_size_ t' = segment_size_ blank /\
    max_high_ t' = max_high_ blank /\
    table_ok t'.
Proof.
  apply (init_table 400 blank 307).
  - vm_compute; reflexivity.
  - vm_compute; discriminate.
  - vm_compute; discriminate.
  - reflexivity.
  - vm_compute; discriminate.
  - vm_compute; discriminate.
  - vm_compute; discriminate.
  - vm_compute; discriminate.
  - split; vm_compute; discriminate.
  - vm_compute; reflexivity.
  - reflexivity.
Defined.

Lemma construct_table_witness :
  exists t,
    construct (fun threads _ _ => threads) 5 400 0 300 0 2 = Done t /\
    low_ t = 0 /\ max_high_ t = 300 + 1 /\
    segment_size_ t mod 128 = 0 /\
    Z.min (Z.max 0 (2 ^ 21)) (300 + 1) < segment_size_ t /\
    high_ t = Z.min (0 + segment_size_ t) (300 + 1) /\
    table_ok t.
Proof.
  apply (construct_table (fun threads _ _ => threads) 5 400 0 300 0 2 307).
  - vm_compute; reflexivity.
  - vm_compute; discriminate.
  - vm_compute; discriminate.
  - vm_compute; discriminate.
  - reflexivity.
  - vm_compute; discriminate.
  - vm_compute; discriminate.
  - vm_compute; discriminate.
  - intros _. split; vm_compute; discriminate.
  - vm_compute; reflexivity.
Defined.

End PiTableProofs.

(** * The ordinary leaves *)

Module Phi0Proofs.
Import Phi0.

(** The sublists of a list, in the order of the list. *)
Fixpoint sublists (l : list Z) : list (list Z) :=
  match l with
  | [] => [[]]
  | a :: l' => map (cons a) (sublists l') ++ sublists l'
  end.

Definition product (s : list Z) : Z := foldr Z.mul 1 s.

(** The Moebius function of a product of distinct primes. *)
Fixpoint moebius (s : list Z) : Z :=
  match s with
  | [] => 1
  | _ :: s' => - moebius s'
  end.

Section Sum.

Variable phi_tiny : Z -> Z -> Z.
Variables x z k : Z.

(** The leaf of the square-free number [sq * product s], if it is within
    [z], with the sign [MU] for [s = []]. *)
Definition leaf (MU sq : Z) (s : list Z) : Z :=
  if decide (sq * product s <= z)
  then MU * moebius s * phi_tiny (Z.quot x (sq * product s)) k
  else 0.

Definition leaves (MU sq : Z) (ps : list Z) : Z :=
  Zsum (map (leaf MU sq) (sublists ps)).

Lemma leaf_cons MU sq p s : leaf MU sq (p :: s) = leaf (- MU) (sq * p) s.
Proof.
  unfold leaf. cbn [product foldr moebius]. fold (product s).
  rewrite Z.mul_assoc. case_decide; [|done]. f_equal. lia.
Qed.

Lemma leaf_nil MU sq :
  sq <= z -> leaf MU sq [] = MU * phi_tiny (Z.quot x sq) k.
Proof.
  intros H. unfold leaf. cbn [product foldr moebius].
  rewrite !Z.mul_1_r. by rewrite decide_True.
Qed.

Lemma leaves_nil MU sq : leaves MU sq [] = leaf MU sq [].
Proof. unfold leaves. cbn. lia. Qed.

Lemma leaves_cons MU sq p ps :
  leaves MU sq (p :: ps) = leaves (- MU) (sq * p) ps + leaves MU sq ps.
Proof.
  unfold leaves. cbn [sublists].
  rewrite map_app, SieveProofs.Zsum_app, map_map. f_equal. f_equal.
  apply map_ext. intros s. apply leaf_cons.
Qed.

(** Past the first prime whose leaf is beyond [z] there is no leaf. *)
Lemma leaves_break MU sq p ps :
  1 <= sq -> 1 <= p -> z < sq * p -> Forall (fun e => p <= e) ps ->
  leaves MU sq ps = leaf MU sq [].
Proof.
  intros Hsq Hp Hz Hps. revert MU sq Hsq Hz.
  induction Hps as [|e ps He Hps IH]; intros MU sq Hsq Hz.
  - apply leaves_nil.
  - rewrite leaves_cons, (IH MU sq) by done.
    rewrite (IH (- MU) (sq * e)) by nia.
    unfold leaf at 1. cbn [product foldr].
    rewrite decide_False by nia. lia.
Qed.

Lemma loop_spec fuel MU sq b primes acc :
  Z.of_nat (length primes) - b <= Z.of_nat fuel -> 0 <= b -> 1 <= sq ->
  Forall (fun p => 1 <= p) (drop (Z.to_nat b) primes) ->
  StronglySorted Z.le (drop (Z.to_nat b) primes) ->
  Phi0_loop phi_tiny fuel MU x z b k sq primes acc
  = Done (acc + (leaves (- MU) sq (drop (Z.to_nat b) primes)
                 - leaf (- MU) sq [])).
Proof.
  revert MU sq b acc.
  induction fuel as [|fuel IH]; intros MU sq b acc Hfuel Hb Hsq Hpos Hsort.
  - cbn [Phi0_loop]. rewrite decide_False by lia.
    rewrite drop_ge by lia. rewrite leaves_nil. f_equal. lia.
  - cbn [Phi0_loop]. case_decide as Hlt.
    + destruct (lookup_lt_is_Some_2 primes (Z.to_nat b) ltac:(lia)) as [p Hp].
      rewrite (read_Done _ _ _ Hb Hp). cbn [mbind outcome_bind].
      rewrite (drop_S _ _ _ Hp) in Hpos, Hsort |- *.
      replace (S (Z.to_nat b)) with (Z.to_nat (b + 1)) in * by lia.
      apply Forall_cons in Hpos as [Hp1 Hpos].
      apply StronglySorted_inv in Hsort as [Hsort Hle].
      case_decide as Hbreak.
      * rewrite (leaves_break (- MU) sq p) by (done || lia || by constructor).
        f_equal. lia.
      * assert (1 <= sq * p) as Hnext
          by (apply (Z.mul_le_mono_nonneg 1 sq 1 p); lia).
        unfold idiv. rewrite decide_False by lia. cbn [mbind outcome_bind].
        rewrite IH by (done || lia). cbn [mbind outcome_bind].
        rewrite IH by (done || lia). f_equal.
        rewrite leaves_cons, !Z.opp_involutive.
        rewrite (leaf_nil MU (sq * p)) by lia. lia.
    + rewrite drop_ge by lia. rewrite leaves_nil. f_equal. lia.
Qed.

(** The leaves of the sublists that are not empty. *)
Lemma leaves_proper MU sq ps :
  Zsum (map (fun s => if decide (s = []) then 0 else leaf MU sq s)
          (sublists ps))
  = leaves MU sq ps - leaf MU sq [].
Proof.
  revert MU sq. induction ps as [|p ps IH]; intros MU sq.
  - rewrite leaves_nil. cbn [sublists map Zsum foldr].
    rewrite decide_True by done. lia.
  - rewrite leaves_cons. cbn [sublists].
    rewrite map_app, SieveProofs.Zsum_app, map_map, IH.
    rewrite (map_ext _ (leaf (- MU) (sq * p)))
      by (intros s; cbn beta; rewrite decide_False by done; apply leaf_cons).
    fold (leaves (- MU) (sq * p) ps). lia.
Qed.

(** X17. [Phi0_thread<MU>] sums the leaves of all square-free numbers
    [square_free * q] within [z], where [q] is a product of one or more
    of the primes after index [b]; the leaf of a product of [m] primes
    is [phi_tiny(x / (square_free * q), k)] with the sign
    [MU * (-1)^(m-1)].  The loop may stop at the first prime whose leaf
    is beyond [z] because the primes increase. *)
Theorem Phi0_thread_leaves fuel MU sq b primes :
  Z.of_nat (length primes) <= Z.of_nat fuel -> 0 <= b -> 1 <= sq ->
  Forall (fun p => 1 <= p) (drop (Z.to_nat (b + 1)) primes) ->
  StronglySorted Z.le (drop (Z.to_nat (b + 1)) primes) ->
  Phi0_thread phi_tiny fuel MU x z b k sq primes
  = Done (Zsum (map (fun s =>
                       if decide (s <> [] /\ sq * product s <= z)
                       then - MU * moebius s
                            * phi_tiny (Z.quot x (sq * product s)) k
                       else 0)
                  (sublists (drop (Z.to_nat (b + 1)) primes)))).
Proof.
  intros Hfuel Hb Hsq Hpos Hsort. unfold Phi0_thread.
  rewrite loop_spec by (done || lia). f_equal.
  rewrite Z.add_0_l, <- leaves_proper. f_equal. apply map_ext. intros s.
  unfold leaf. destruct (decide (s = [])) as [->|Hs].
  - by rewrite decide_False by (intros [? _]; done).
  - destruct (decide (sq * product s <= z)).
    + by rewrite decide_True by done.
    + by rewrite decide_False by (intros [_ ?]; done).
Qed.

(** The iterations of the parallel loop of [Phi0_OpenMP]. *)
Definition branch (primes : list Z) (b : Z) : Z :=
  match primes !! Z.to_nat b with
  | Some p => leaves (- 1) p (drop (Z.to_nat (b + 1)) primes)
  | None => 0
  end.

Lemma branches (n : nat) a primes :
  0 <= a -> a + Z.of_nat n = Z.of_nat (length primes) ->
  Zsum (map (branch primes) (seqZ a (Z.of_nat n)))
  = leaves 1 1 (drop (Z.to_nat a) primes) - leaf 1 1 [].
Proof.
  revert a. induction n as [|n IH]; intros a Ha Hlen.
  - rewrite drop_ge by lia. rewrite leaves_nil, seqZ_nil by lia.
    cbn [map Zsum foldr]. lia.
  - rewrite seqZ_cons by lia. cbn [map Zsum foldr].
    replace (Z.pred (Z.of_nat (S n))) with (Z.of_nat n) by lia.
    replace (Z.succ a) with (a + 1) by lia.
    fold (Zsum (map (branch primes) (seqZ (a + 1) (Z.of_nat n)))).
    rewrite IH by lia.
    destruct (lookup_lt_is_Some_2 primes (Z.to_nat a) ltac:(lia)) as [p Hp].
    rewrite (drop_S _ _ _ Hp), leaves_cons. unfold branch. rewrite Hp.
    replace (S (Z.to_nat a)) with (Z.to_nat (a + 1)) by lia.
    rewrite Z.mul_1_l. change (- (1)) with (-1). lia.
Qed.

End Sum.

Lemma sorted_drop (n : nat) (l : list Z) :
  StronglySorted Z.le l -> StronglySorted Z.le (drop n l).
Proof.
  revert l. induction n as [|n IH]; intros l Hl.
  - by rewrite drop_0.
  - destruct l as [|e l]; [by constructor|].
    cbn [drop]. apply IH. by apply StronglySorted_inv in Hl as [? _].
Qed.

(** The sum that [Phi0_OpenMP] returns. *)
Lemma Phi0_OpenMP_spec phi_tiny generate_primes fuel x y z k threads :
  let primes := drop (Z.to_nat (k + 1)) (generate_primes y) in
  Z.of_nat (length (generate_primes y)) <= Z.of_nat fuel ->
  0 <= k -> 1 <= z ->
  Forall (fun p => 1 <= p <= z) primes ->
  StronglySorted Z.le primes ->
  Phi0_OpenMP phi_tiny generate_primes fuel x y z k threads
  = Done (Zsum (map (fun s =>
                       if decide (product s <= z)
                       then moebius s * phi_tiny (Z.quot x (product s)) k
                       else 0)
                  (sublists primes))).
Proof.
  intros primes Hfuel Hk Hz Hpos Hsort. unfold Phi0_OpenMP.
  set (all := generate_primes y) in *.
  destruct (decide (k + 1 <= Z.of_nat (length all))) as [Hlen|Hlen].
  - rewrite (FoldProofs.for_each_Done _ (branch phi_tiny x z k all)).
    + cbn [mbind outcome_bind]. f_equal.
      replace (Z.of_nat (length all) - 1 - k)
        with (Z.of_nat (Z.to_nat (Z.of_nat (length all) - (k + 1)))) by lia.
      rewrite (branches phi_tiny x z k) by lia. fold primes.
      rewrite (leaf_nil phi_tiny x z k 1 1 Hz), Z.quot_1_r.
      unfold leaves.
      rewrite (map_ext (leaf phi_tiny x z k 1 1)
                 (fun s => if decide (product s <= z)
                           then moebius s * phi_tiny (Z.quot x (product s)) k
                           else 0));
        [lia|].
      intros s. unfold leaf. by rewrite !Z.mul_1_l.
    + intros b [Hb1 Hb2]%elem_of_seqZ.
      destruct (lookup_lt_is_Some_2 all (Z.to_nat b) ltac:(lia)) as [p Hp].
      rewrite (read_Done all b p ltac:(lia) Hp). cbn [mbind outcome_bind].
      assert (1 <= p <= z) as Hpz.
      { eapply (Forall_lookup_1 _ _ (Z.to_nat b - Z.to_nat (k + 1))%nat) in Hpos;
          [exact Hpos|].
        unfold primes. rewrite lookup_drop. rewrite <- Hp. f_equal. lia. }
      unfold idiv. rewrite decide_False by lia. cbn [mbind outcome_bind].
      assert (drop (Z.to_nat (b + 1)) all
              = drop (Z.to_nat (b + 1) - Z.to_nat (k + 1)) primes) as Hdrop
        by (unfold primes; rewrite drop_drop; f_equal; lia).
      unfold Phi0_thread. rewrite (loop_spec phi_tiny x z k); [|lia|lia|lia| |].
      * cbn [mbind outcome_bind]. f_equal. unfold branch. rewrite Hp.
        change (- (1)) with (-1).
        rewrite (leaf_nil phi_tiny x z k (-1) p) by lia. lia.
      * rewrite Hdrop. apply Forall_drop.
        eapply Forall_impl; [exact Hpos|]. intros ? ?. cbn in *. lia.
      * rewrite Hdrop. by apply sorted_drop.
  - rewrite seqZ_nil by lia. cbn [for_each mbind outcome_bind Zsum foldr].
    f_equal. unfold primes. rewrite drop_ge by lia. cbn.
    rewrite decide_True by lia. rewrite Z.quot_1_r. lia.
Qed.

(** X18. [Phi0_OpenMP] returns the sum, over the square-free numbers
    [n <= z] whose prime factors are among the primes after index [k],
    of [mu(n) * phi_tiny(x / n, k)]: the formula of the ordinary leaves.
    The primes that [generate_primes] returns are taken to increase, to
    be positive and to lie within [z] from index [k + 1] on. *)
Theorem Phi0_OpenMP_leaves phi_tiny generate_primes fuel x y z k threads :
  let primes := drop (Z.to_nat (k + 1)) (generate_primes y) in
  Z.of_nat (length (generate_primes y)) <= Z.of_nat fuel ->
  0 <= k -> 1 <= z ->
  Forall (fun p => 1 <= p <= z) primes ->
  StronglySorted Z.le primes ->
  Phi0_OpenMP phi_tiny generate_primes fuel x y z k threads
  = Done (Zsum (map (fun s =>
                       if decide (product s <= z)
                       then moebius s * phi_tiny (Z.quot x (product s)) k
                       else 0)
                  (sublists primes))).
Proof. apply Phi0_OpenMP_spec. Qed.

(** X19. [Phi0] computes the ordinary leaves once: started on a
    backup file without a matching section it returns the sum of the
    leaves and stores it, and a later call with the same [(x, y, z, k)]
    on the file it left returns that sum from the file, whatever its
    thread number, without running the kernel (no loop budget is
    needed). *)
Theorem Phi0_result_reused phi_tiny generate_primes to_maxint to_str
    get_alpha_y get_alpha_z fuel x y z k threads j start now
    threads' start' now' :
  let primes := drop (Z.to_nat (k + 1)) (generate_primes y) in
  let total :=
    Zsum (map (fun s =>
                 if decide (product s <= z)
                 then moebius s * phi_tiny (Z.quot x (product s)) k
                 else 0)
            (sublists primes)) in
  Z.of_nat (length (generate_primes y)) <= Z.of_nat fuel ->
  0 <= k -> 1 <= z ->
  Forall (fun p => 1 <= p <= z) primes ->
  StronglySorted Z.le primes ->
  Backup.is_resume to_maxint j "Phi0" x
    [("y"%string, y); ("z"%string, z); ("k"%string, k)] = false ->
  to_maxint (to_str x) = Done x ->
  to_maxint (to_str total) = Done total ->
  exists j1,
    Phi0 phi_tiny generate_primes to_maxint to_str get_alpha_y get_alpha_z
      fuel x y z k threads j start now = Done (total, j1) /\
    Phi0 phi_tiny generate_primes to_maxint to_str get_alpha_y get_alpha_z
      0 x y z k threads' j1 start' now' = Done (total, j1).
Proof.
  intros primes total Hfuel Hk Hz Hpos Hsort Hfresh Hx Htotal.
  unfold Phi0 at 1. unfold Backup.resume_Phi0 at 1. rewrite Hfresh.
  cbn [mbind outcome_bind].
  rewrite Phi0_OpenMP_spec by done. cbn [mbind outcome_bind].
  fold primes. fold total. eexists. split; [done|].
  unfold Phi0. rewrite BackupTrips.resume_of_backup_Phi0 by done.
  done.
Qed.

(** Stand-ins for [phi_tiny] and [generate_primes(10)]. *)
Definition count_odd (x a : Z) : Z := (x + 1) / 2 + a.
Definition primes_10 (y : Z) : list Z := [0; 2; 3; 5; 7].

Lemma Phi0_thread_leaves_witness :
  Phi0_thread count_odd 5 1 1000 50 1 0 2 [0; 2; 3; 5; 7]
  = Done (Zsum (map (fun s =>
                       if decide (s <> [] /\ 2 * product s <= 50)
                       then - (1) * moebius s
                            * count_odd (Z.quot 1000 (2 * product s)) 0
                       else 0)
                  (sublists (drop (Z.to_nat (1 + 1)) [0; 2; 3; 5; 7])))).
Proof.
  apply (Phi0_thread_leaves count_odd 1000 50 0 5 1 2 1 [0; 2; 3; 5; 7]).
  - vm_compute. discriminate.
  - lia.
  - lia.
  - repeat constructor; lia.
  - repeat constructor; lia.
Defined.

Lemma Phi0_OpenMP_leaves_witness :
  Phi0_OpenMP count_odd primes_10 5 1000 10 50 1 4
  = Done (Zsum (map (fun s =>
                       if decide (product s <= 50)
                       then moebius s * count_odd (Z.quot 1000 (product s)) 1
                       else 0)
                  (sublists (drop (Z.to_nat (1 + 1)) (primes_10 10))))).
Proof.
  apply (Phi0_OpenMP_leaves count_odd primes_10 5 1000 10 50 1 4).
  - vm_compute. discriminate.
  - lia.
  - lia.
  - repeat constructor; lia.
  - repeat constructor; lia.
Defined.

Lemma Phi0_result_reused_witness :
  exists j1,
    Phi0 count_odd primes_10 Backup.read_decimal pretty
      BackupTrips.no_percent BackupTrips.no_percent
      5 1000 10 50 1 4 Backup.JNull 0%Q 1%Q
    = Done (Zsum (map (fun s =>
                         if decide (product s <= 50)
                         then moebius s * count_odd (Z.quot 1000 (product s)) 1
                         else 0)
                    (sublists (drop (Z.to_nat (1 + 1)) (primes_10 10)))), j1) /\
    Phi0 count_odd primes_10 Backup.read_decimal pretty
      BackupTrips.no_percent BackupTrips.no_percent
      0 1000 10 50 1 8 j1 2%Q 3%Q
    = Done (Zsum (map (fun s =>
                         if decide (product s <= 50)
                         then moebius s * count_odd (Z.quot 1000 (product s)) 1
                         else 0)
                    (sublists (drop (Z.to_nat (1 + 1)) (primes_10 10)))), j1).
Proof.
  apply (Phi0_result_reused count_odd primes_10 Backup.read_decimal pretty
           BackupTrips.no_percent BackupTrips.no_percent
           5 1000 10 50 1 4 Backup.JNull 0%Q 1%Q 8 2%Q 3%Q).
  - vm_compute. discriminate.
  - lia.
  - lia.
  - repeat constructor; lia.
  - repeat constructor; lia.
  - reflexivity.
  - vm_compute. reflexivity.
  - vm_compute. reflexivity.
Defined.

End Phi0Proofs.

(** * The special leaves of the simple LMO implementation *)

Module LMO3Proofs.
Import LMO3.

(** ** Crossing off *)

(** The numbers that the loop crosses off from [k] on. *)
Definition crossed (k step i : Z) : bool :=
  (k <=? i) && ((i - k) mod step =? 0).

Lemma crossed_first k step : 0 < step -> crossed k step k = true.
Proof.
  intros H. unfold crossed. rewrite Z.sub_diag, Z.mod_0_l by lia.
  by rewrite Z.leb_refl.
Qed.

Lemma crossed_next k step i :
  0 < step -> i <> k -> crossed (k + step) step i = crossed k step i.
Proof.
  intros Hs Hi. unfold crossed.
  replace (i - (k + step)) with (i - k + (-1) * step) by lia.
  rewrite Z.mod_add by lia.
  destruct (Z.eqb_spec ((i - k) mod step) 0) as [Hm|Hm];
    [|by rewrite !andb_false_r].
  rewrite !andb_true_r.
  destruct (Z.leb_spec k i) as [Hle|Hgt].
  - destruct (Z.leb_spec (k + step) i) as [|Hlt]; [done|].
    rewrite Z.mod_small in Hm by lia. lia.
  - destruct (Z.leb_spec (k + step) i); [lia|done].
Qed.

Lemma cross_off_spec fuel sv low high k step :
  0 < step -> low <= k -> high - low <= Z.of_nat (length sv) ->
  high - k <= Z.of_nat fuel ->
  exists sv' k',
    cross_off fuel sv low high k step = Done (sv', k') /\
    length sv' = length sv /\
    high <= k' /\ k <= k' /\ (k' - k) mod step = 0 /\
    (k' - step < high \/ k' = k) /\
    forall j : nat,
      sv' !! j = if (low + Z.of_nat j <? high)
                    && crossed k step (low + Z.of_nat j)
                 then Some 0 else sv !! j.
Proof.
  intros Hstep. revert sv k.
  induction fuel as [|fuel IH]; intros sv k Hk Hlen Hfuel.
  - cbn [cross_off]. rewrite decide_False by lia.
    exists sv, k. split_and!; [done|done|lia|lia|by rewrite Z.sub_diag|by right|].
    intros j. unfold crossed.
    destruct (Z.ltb_spec (low + Z.of_nat j) high); [|done].
    destruct (Z.leb_spec k (low + Z.of_nat j)); [lia|done].
  - cbn [cross_off]. case_decide as Hlt.
    + rewrite write_Done by lia. cbn [mbind outcome_bind].
      destruct (IH (<[Z.to_nat (k - low) := 0]> sv) (k + step))
        as (sv' & k' & -> & Hlen' & Hhigh & Hle & Hmod & Hmin & Hsv');
        [lia|rewrite length_insert; lia|lia|].
      exists sv', k'. split_and!; [done| |done|lia| |lia|].
      * by rewrite Hlen', length_insert.
      * replace (k' - k) with (k' - (k + step) + 1 * step) by lia.
        by rewrite Z.mod_add by lia.
      * intros j. rewrite Hsv'.
        destruct (decide (low + Z.of_nat j = k)) as [Hj|Hj].
        -- rewrite Hj, (crossed_first k step Hstep).
           replace (k <? high) with true by (symmetry; apply Z.ltb_lt; lia).
           cbn [andb].
           assert (crossed (k + step) step k = false) as ->.
           { unfold crossed. destruct (Z.leb_spec (k + step) k); [lia|done]. }
           replace j with (Z.to_nat (k - low)) by lia.
           apply list_lookup_insert_eq. lia.
        -- rewrite (crossed_next k step _ Hstep Hj).
           destruct (_ && _); [done|].
           apply list_lookup_insert_ne. lia.
    + exists sv, k. split_and!; [done|done|lia|lia|by rewrite Z.sub_diag|by right|].
      intros j. unfold crossed.
      destruct (Z.ltb_spec (low + Z.of_nat j) high); [|done].
      destruct (Z.leb_spec k (low + Z.of_nat j)); [lia|done].
Qed.

(** [k] is where the numbers [p, p + s, p + 2 s, ...] go on at or after
    [low]: what [next] holds between two segments. *)
Definition pointer (low p s k : Z) : Prop :=
  (k - p) mod s = 0 /\ p <= k /\ low <= k /\ (k - s < low \/ k = p).

Lemma pointer_crossed low p s k i :
  0 < s -> pointer low p s k -> low <= i ->
  crossed k s i = (p <=? i) && ((i - p) mod s =? 0).
Proof.
  intros Hs (Hmod & Hp & Hlow & Hmin) Hi. unfold crossed.
  apply Z.mod_divide in Hmod as [t Ht]; [|lia].
  apply Bool.eq_iff_eq_true.
  rewrite !andb_true_iff, !Z.leb_le, !Z.eqb_eq.
  rewrite !Z.mod_divide by lia. split.
  - intros [Hki [u Hu]]. split; [lia|]. exists (u + t). lia.
  - intros [Hpi [u Hu]].
    assert (i - k = (u - t) * s) as Hik by lia.
    split; [|by exists (u - t)].
    destruct Hmin as [Hmin| ->]; [|lia].
    destruct (decide (0 <= u - t)) as [Hpos|Hneg]; [nia|].
    assert ((u - t) * s <= (-1) * s) by (apply Z.mul_le_mono_nonneg_r; lia).
    lia.
Qed.

Lemma pointer_multiples low p k i :
  0 < p -> pointer low p p k -> 1 <= low <= i ->
  crossed k p i = (i mod p =? 0).
Proof.
  intros Hp Hk Hi. rewrite (pointer_crossed low p p k i) by (done || lia).
  replace (i - p) with (i + (-1) * p) by lia. rewrite Z.mod_add by lia.
  destruct (Z.eqb_spec (i mod p) 0) as [Hm|Hm]; [|by rewrite andb_false_r].
  rewrite andb_true_r. apply Z.leb_le.
  apply Z.mod_divide in Hm as [t Ht]; [|lia].
  destruct (decide (1 <= t)) as [H1|H1]; [nia|].
  assert (t * p <= 0 * p) by (apply Z.mul_le_mono_nonneg_r; lia). lia.
Qed.

Lemma pointer_odd_multiples low p k i :
  0 < p -> p mod 2 = 1 -> pointer low p (2 * p) k -> 1 <= low <= i ->
  i mod 2 = 1 ->
  crossed k (2 * p) i = (i mod p =? 0).
Proof.
  intros Hp Hodd Hk Hi Hio.
  rewrite (pointer_crossed low p (2 * p) k i) by (done || lia).
  apply Bool.eq_iff_eq_true.
  rewrite !andb_true_iff, !Z.leb_le, !Z.eqb_eq.
  rewrite !Z.mod_divide by lia. split.
  - intros [Hpi [u Hu]]. exists (2 * u + 1). lia.
  - intros [t Ht].
    pose proof (Z.div_mod i 2 ltac:(lia)) as Hi2. rewrite Hio in Hi2.
    pose proof (Z.div_mod p 2 ltac:(lia)) as Hp2. rewrite Hodd in Hp2.
    pose proof (Z.div_mod t 2 ltac:(lia)) as Ht2.
    pose proof (Z.mod_pos_bound t 2 ltac:(lia)) as Htb.
    assert (t mod 2 = 1) as Hto.
    { destruct (decide (t mod 2 = 0)) as [H0|H0]; [|lia]. exfalso.
      rewrite H0 in Ht2.
      assert (i = 2 * (t / 2 * p)) by lia. lia. }
    rewrite Hto in Ht2.
    assert (1 <= t).
    { destruct (decide (1 <= t)) as [H1|H1]; [done|].
      assert (t * p <= 0 * p) by (apply Z.mul_le_mono_nonneg_r; lia). lia. }
    split; [nia|]. exists (t / 2). lia.
Qed.

(** After the loop the pointer serves the next segment. *)
Lemma pointer_moves low high p s k k' :
  0 < s -> pointer low p s k -> low <= high ->
  high <= k' -> k <= k' -> (k' - k) mod s = 0 ->
  k' - s < high \/ k' = k ->
  pointer high p s k'.
Proof.
  intros Hs (Hmod & Hp & Hlow & Hmin) Hlh Hhigh Hle Hmod' Hmin'.
  apply Z.mod_divide in Hmod as [t Ht]; [|lia].
  apply Z.mod_divide in Hmod' as [u Hu]; [|lia].
  unfold pointer. split_and!; [|lia|lia|].
  - apply Z.mod_divide; [lia|]. exists (u + t). lia.
  - destruct Hmin' as [?| ->]; [by left|].
    destruct Hmin as [?|?]; [left; lia|by right].
Qed.

(** ** The sieve and phi *)

Section Sieve.

Variable primes : list Z.

(** [i] is divisible by none of the first [b] primes. *)
Definition coprime (b i : Z) : bool :=
  forallb (fun p => negb (i mod p =? 0)) (take (Z.to_nat b) (drop 1 primes)).

(** phi(y, b): the numbers of [[1, y]] that none of the first [b] primes
    divides. *)
Definition phi_of (y b : Z) : Z :=
  Z.of_nat (length (filter (fun i => coprime b i) (seqZ 1 y))).

Lemma coprime_0 i : coprime 0 i = true.
Proof. done. Qed.

Lemma coprime_succ b i p :
  0 <= b -> primes !! Z.to_nat (b + 1) = Some p ->
  coprime (b + 1) i = coprime b i && negb (i mod p =? 0).
Proof.
  intros Hb Hp. unfold coprime.
  replace (Z.to_nat (b + 1)) with (S (Z.to_nat b)) in * by lia.
  rewrite (take_S_r _ _ p) by (by rewrite lookup_drop).
  rewrite forallb_app. cbn [forallb]. by rewrite andb_true_r.
Qed.

Lemma coprime_even b i :
  1 <= b -> primes !! 1%nat = Some 2 -> i mod 2 = 0 -> coprime b i = false.
Proof.
  intros Hb H2 Hi. unfold coprime.
  replace (Z.to_nat b) with (S (Z.to_nat (b - 1))) by lia.
  destruct (drop 1 primes) as [|p l] eqn:E.
  - assert (drop 1 primes !! 0%nat = Some 2) as H by (by rewrite lookup_drop).
    by rewrite E in H.
  - assert (drop 1 primes !! 0%nat = Some 2) as H by (by rewrite lookup_drop).
    rewrite E in H. injection H as ->.
    cbn [take forallb]. by rewrite Hi.
Qed.

Lemma phi_of_succ y b :
  0 <= y -> phi_of (y + 1) b = phi_of y b + Z.b2z (coprime b (y + 1)).
Proof.
  intros Hy. unfold phi_of. rewrite seqZ_app by lia.
  assert (seqZ (1 + y) 1 = [y + 1]) as ->
    by (rewrite seqZ_cons, seqZ_nil by lia; f_equal; lia).
  rewrite filter_app, length_app.
  destruct (coprime b (y + 1)) eqn:E.
  - rewrite filter_cons_True by (by apply Is_true_true_2).
    rewrite filter_nil. cbn [length Z.b2z]. lia.
  - rewrite filter_cons_False by (by apply Is_true_false_2).
    rewrite filter_nil. cbn [length Z.b2z]. lia.
Qed.

Lemma phi_of_0 b : phi_of 0 b = 0.
Proof. done. Qed.

(** The sieve of the segment [[low, high)] after the multiples of the
    first [b] primes are crossed off. *)
Definition sieved (low high b : Z) (sv : list Z) : Prop :=
  forall j : nat,
    low + Z.of_nat j < high ->
    sv !! j = Some (Z.b2z (coprime b (low + Z.of_nat j))).

Lemma sieved_fresh low high (n : nat) :
  high - low <= Z.of_nat n -> sieved low high 0 (replicate n 1).
Proof.
  intros Hn j Hj. rewrite lookup_replicate_2 by lia. by rewrite coprime_0.
Qed.

(** ** The first loop: the multiples of the first [c] primes *)

Lemma presieve_spec budget low high (n : nat) b0 sv nx :
  1 <= low <= high -> high - low <= Z.of_nat (length sv) ->
  high - low <= Z.of_nat budget ->
  1 <= b0 -> b0 + Z.of_nat n <= Z.of_nat (length primes) ->
  length nx = length primes ->
  sieved low high (b0 - 1) sv ->
  (forall b p, b0 <= b < b0 + Z.of_nat n -> primes !! Z.to_nat b = Some p ->
               0 < p /\ exists k, nx !! Z.to_nat b = Some k /\ pointer low p p k) ->
  exists sv' nx',
    presieve budget primes low high (seqZ b0 (Z.of_nat n)) sv nx
    = Done (sv', nx') /\
    length sv' = length sv /\ length nx' = length primes /\
    sieved low high (b0 - 1 + Z.of_nat n) sv' /\
    (forall b p, b0 <= b < b0 + Z.of_nat n ->
                 primes !! Z.to_nat b = Some p ->
                 exists k, nx' !! Z.to_nat b = Some k /\ pointer high p p k) /\
    (forall j : nat, Z.of_nat j < b0 \/ b0 + Z.of_nat n <= Z.of_nat j ->
                     nx' !! j = nx !! j).
Proof.
  intros Hlow. revert b0 sv nx.
  induction n as [|n IH];
    intros b0 sv nx Hlen Hbudget Hb0 Hn Hnx Hsv Hptr.
  - exists sv, nx. rewrite seqZ_nil by lia. cbn [presieve].
    split_and!; [done|done|done| |intros; lia|done].
    by rewrite Z.add_0_r.
  - rewrite seqZ_cons by lia. cbn [presieve].
    replace (Z.pred (Z.of_nat (S n))) with (Z.of_nat n) by lia.
    replace (Z.succ b0) with (b0 + 1) by lia.
    destruct (lookup_lt_is_Some_2 primes (Z.to_nat b0) ltac:(lia)) as [p Hp].
    destruct (Hptr b0 p ltac:(lia) Hp) as (Hp0 & k & Hk & Hkp).
    rewrite (read_Done nx b0 k ltac:(lia) Hk). cbn [mbind outcome_bind].
    rewrite (read_Done primes b0 p ltac:(lia) Hp). cbn [mbind outcome_bind].
    pose proof Hkp as (_ & _ & Hlk & _).
    destruct (cross_off_spec budget sv low high k p Hp0 Hlk Hlen ltac:(lia))
      as (sv1 & k1 & -> & Hlen1 & Hhk & Hkk & Hmod & Hmin & Hsv1).
    cbn [mbind outcome_bind].
    rewrite write_Done by lia. cbn [mbind outcome_bind].
    destruct (IH (b0 + 1) sv1 (<[Z.to_nat b0 := k1]> nx))
      as (sv' & nx' & -> & Hlen' & Hnx' & Hsv' & Hptr' & Hframe);
      [lia|done|lia|lia|by rewrite length_insert| | |].
    + intros j Hj. rewrite Hsv1, (Hsv j Hj).
      replace (low + Z.of_nat j <? high) with true
        by (symmetry; apply Z.ltb_lt; lia).
      cbn [andb].
      rewrite (pointer_multiples low p k) by (done || lia).
      replace (b0 + 1 - 1) with (b0 - 1 + 1) by lia.
      rewrite (coprime_succ (b0 - 1) _ p)
        by (lia || by replace (b0 - 1 + 1) with b0 by lia).
      destruct (coprime (b0 - 1) _), (Z.eqb_spec ((low + Z.of_nat j) mod p) 0);
        done.
    + intros b q Hb Hq. rewrite list_lookup_insert_ne by lia.
      apply Hptr; [lia|done].
    + exists sv', nx'. split_and!; [done|lia|done| | |].
      * by replace (b0 - 1 + Z.of_nat (S n))
          with (b0 + 1 - 1 + Z.of_nat n) by lia.
      * intros b q Hb Hq. destruct (decide (b = b0)) as [->|Hne].
        -- rewrite Hframe by lia.
           rewrite list_lookup_insert_eq by lia.
           rewrite Hp in Hq. injection Hq as <-.
           exists k1. split; [done|].
           apply (pointer_moves low high p p k k1); (done || lia).
        -- apply Hptr'; [lia|done].
      * intros j Hj. rewrite Hframe by lia.
        apply list_lookup_insert_ne. lia.
Qed.

(** ** Counting up to a leaf *)

Lemma count_to_spec fuel sv ph low high b b1 i y v :
  sieved low high b sv -> 1 <= low <= i -> y < high -> i <= y + 1 ->
  y + 1 - i <= Z.of_nat fuel -> 0 <= b1 -> ph !! Z.to_nat b1 = Some v ->
  exists ph',
    count_to fuel sv ph low b1 i y = Done (ph', y + 1) /\
    length ph' = length ph /\
    ph' !! Z.to_nat b1 = Some (v + phi_of y b - phi_of (i - 1) b) /\
    forall j : nat, j <> Z.to_nat b1 -> ph' !! j = ph !! j.
Proof.
  intros Hsv. revert ph i v.
  induction fuel as [|fuel IH]; intros ph i v Hi Hy Hiy Hfuel Hb1 Hv.
  - cbn [count_to]. rewrite decide_False by lia.
    replace i with (y + 1) by lia. exists ph.
    split_and!; [done|done| |done].
    rewrite Hv. f_equal. replace (y + 1 - 1) with y by lia. lia.
  - cbn [count_to]. case_decide as Hle.
    + assert (sv !! Z.to_nat (i - low) = Some (Z.b2z (coprime b i))) as Hr.
      { rewrite (Hsv (Z.to_nat (i - low))) by lia.
        do 3 f_equal. lia. }
      rewrite (read_Done sv (i - low) _ ltac:(lia) Hr).
      cbn [mbind outcome_bind].
      rewrite (read_Done ph b1 v Hb1 Hv). cbn [mbind outcome_bind].
      rewrite write_Done by (apply lookup_lt_Some in Hv; lia).
      cbn [mbind outcome_bind].
      destruct (IH (<[Z.to_nat b1 := v + Z.b2z (coprime b i)]> ph) (i + 1)
                  (v + Z.b2z (coprime b i)))
        as (ph' & -> & Hlen & Hph' & Hframe); [lia|done|lia|lia|done| |].
      { apply list_lookup_insert_eq. by eapply lookup_lt_Some. }
      exists ph'. split_and!; [done| | |].
      * by rewrite Hlen, length_insert.
      * rewrite Hph'. f_equal.
        replace (i + 1 - 1) with (i - 1 + 1) by lia.
        rewrite (phi_of_succ (i - 1)) by lia.
        replace (i - 1 + 1) with i by lia. lia.
      * intros j Hj. rewrite Hframe by done.
        by apply list_lookup_insert_ne.
    + replace i with (y + 1) by lia. exists ph.
      split_and!; [done|done| |done].
      rewrite Hv. f_equal. replace (y + 1 - 1) with y by lia. lia.
Qed.

End Sieve.

(** ** The leaves of one prime in one segment *)

Section Special.

Variables x x13 : Z.
Variables primes mu lpf : list Z.
Hypothesis Hx : 0 <= x.
Hypothesis Hmu : x13 < Z.of_nat (length mu).
Hypothesis Hlpf : x13 < Z.of_nat (length lpf).

(** The contribution of [m] to the leaves of the prime [p], the
    [(b+1)]-th: [mu(m) * phi(x / (m * p), b)] if [m] is square-free and
    [p] is below its least prime factor. *)
Definition leaf_term (p b m : Z) : Z :=
  let mu_m := default 0 (mu !! Z.to_nat m) in
  if decide (mu_m <> 0 /\ p < default 0 (lpf !! Z.to_nat m))
  then mu_m * phi_of primes (x / (m * p)) b
  else 0.

Lemma leaf_term_eq p b m mu_m l :
  mu !! Z.to_nat m = Some mu_m -> lpf !! Z.to_nat m = Some l ->
  leaf_term p b m =
  if decide (mu_m <> 0 /\ p < l)
  then mu_m * phi_of primes (x / (m * p)) b else 0.
Proof. intros Hm Hl. unfold leaf_term. by rewrite Hm, Hl. Qed.

Definition leaf_range (p b lo hi : Z) : Z :=
  Zsum (map (leaf_term p b) (seqZ (lo + 1) (hi - lo))).

Lemma leaf_range_empty p b lo hi : hi <= lo -> leaf_range p b lo hi = 0.
Proof. intros H. unfold leaf_range. by rewrite seqZ_nil by lia. Qed.

Lemma leaf_range_last p b lo hi :
  lo < hi ->
  leaf_range p b lo hi = leaf_range p b lo (hi - 1) + leaf_term p b hi.
Proof.
  intros H. unfold leaf_range.
  replace (hi - lo) with (hi - 1 - lo + 1) by lia.
  rewrite seqZ_app by lia.
  assert (seqZ (lo + 1 + (hi - 1 - lo)) 1 = [hi]) as ->
    by (rewrite seqZ_cons, seqZ_nil by lia; f_equal; lia).
  rewrite map_app, SieveProofs.Zsum_app. cbn [map Zsum foldr]. lia.
Qed.

Lemma leaves_spec fuel budget sv ph low high b p min_m m i S :
  sieved primes low high b sv -> 1 <= low <= i -> i <= high -> 0 < p ->
  0 <= b -> 0 <= min_m -> m <= x13 ->
  (forall m', min_m < m' <= m -> low <= x / (m' * p) < high) ->
  (min_m < m -> i - 1 <= x / (m * p)) ->
  ph !! Z.to_nat (b + 1) = Some (phi_of primes (i - 1) b) ->
  m - min_m <= Z.of_nat fuel -> high - low <= Z.of_nat budget ->
  exists ph' i',
    leaves fuel budget x mu lpf sv low (b + 1) p min_m m i ph S
    = Done (ph', i', S - leaf_range p b min_m m) /\
    i <= i' <= high /\ length ph' = length ph /\
    ph' !! Z.to_nat (b + 1) = Some (phi_of primes (i' - 1) b) /\
    forall j : nat, j <> Z.to_nat (b + 1) -> ph' !! j = ph !! j.
Proof.
  intros Hsv. revert m i ph S.
  induction fuel as [|fuel IH];
    intros m i ph S Hlow Hi Hp Hb Hmin Hm Hrange Hmono Hph Hfuel Hbudget.
  - cbn [leaves]. rewrite decide_False by lia.
    rewrite leaf_range_empty by lia. rewrite Z.sub_0_r.
    exists ph, i. split_and!; [done|lia|lia|done|done|done].
  - cbn [leaves]. case_decide as Hgt.
    2:{ rewrite leaf_range_empty by lia. rewrite Z.sub_0_r.
        exists ph, i. split_and!; [done|lia|lia|done|done|done]. }
    destruct (lookup_lt_is_Some_2 mu (Z.to_nat m) ltac:(lia)) as [mu_m Hmm].
    destruct (lookup_lt_is_Some_2 lpf (Z.to_nat m) ltac:(lia)) as [l Hl].
    rewrite (read_Done mu m mu_m ltac:(lia) Hmm). cbn [mbind outcome_bind].
    assert (0 < m * p) as Hmp by (apply Z.mul_pos_pos; lia).
    assert (min_m < m - 1 -> x / (m * p) <= x / ((m - 1) * p)) as Hnext.
    { intros Hm1. apply Z.div_le_compat_l; [done|]. split.
      - apply Z.mul_pos_pos; lia.
      - apply Z.mul_le_mono_nonneg_r; lia. }
    rewrite (leaf_range_last p b min_m m) by lia.
    rewrite (leaf_term_eq p b m mu_m l Hmm Hl).
    destruct (decide (mu_m <> 0 /\ p < l)) as [[Hmu0 Hpl]|Hno].
    + rewrite decide_True by done.
      rewrite (read_Done lpf m l ltac:(lia) Hl). cbn [mbind outcome_bind].
      rewrite bool_decide_eq_true_2 by done.
      rewrite FoldProofs.idiv_Done by lia. cbn [mbind outcome_bind].
      destruct (Hrange m ltac:(lia)) as [Hy1 Hy2].
      destruct (count_to_spec primes budget sv ph low high b (b + 1) i
                  (x / (m * p)) _ Hsv ltac:(lia) Hy2 ltac:(lia) ltac:(lia)
                  ltac:(lia) Hph)
        as (ph1 & -> & Hlen1 & Hph1 & Hframe1).
      cbn [mbind outcome_bind].
      replace (phi_of primes (i - 1) b + phi_of primes (x / (m * p)) b
               - phi_of primes (i - 1) b)
        with (phi_of primes (x / (m * p)) b) in Hph1 by lia.
      rewrite (read_Done ph1 (b + 1) _ ltac:(lia) Hph1).
      cbn [mbind outcome_bind].
      destruct (IH (m - 1) (x / (m * p) + 1) ph1
                  (S - mu_m * phi_of primes (x / (m * p)) b))
        as (ph' & i' & -> & Hi' & Hlen' & Hph' & Hframe');
        [lia|lia|done|done|done|lia| | | |lia|done|].
      * intros m' Hm'. apply Hrange. lia.
      * intros Hm1. specialize (Hnext Hm1). lia.
      * by replace (x / (m * p) + 1 - 1) with (x / (m * p)) by lia.
      * exists ph', i'. split_and!; [f_equal; f_equal; lia|lia|lia|lia|done|].
        intros j Hj. rewrite Hframe' by done. by apply Hframe1.
    + assert ((if decide (mu_m <> 0)
               then l0 ← read lpf m; Done (bool_decide (p < l0))
               else Done false) = Done false) as ->.
      { destruct (decide (mu_m <> 0)) as [Hmu0|Hmu0]; [|done].
        rewrite (read_Done lpf m l ltac:(lia) Hl). cbn [mbind outcome_bind].
        rewrite bool_decide_eq_false_2; [done|]. intros ?. by apply Hno. }
      cbn [mbind outcome_bind].
      destruct (IH (m - 1) i ph S)
        as (ph' & i' & -> & Hi' & Hlen' & Hph' & Hframe');
        [lia|lia|done|done|done|lia| | |done|lia|done|].
      * intros m' Hm'. apply Hrange. lia.
      * intros Hm1. specialize (Hnext Hm1). specialize (Hmono ltac:(lia)). lia.
      * exists ph', i'. split_and!; [f_equal; f_equal; lia|lia|lia|lia|done|done].
Qed.

(** ** The primes of one segment *)

Variables a c : Z.
Hypothesis Hx13 : 1 <= x13.
Hypothesis Hc : 1 <= c.
Hypothesis Hcp : c < Z.of_nat (length primes).
Hypothesis Ha : a <= Z.of_nat (length primes).
Hypothesis H2 : primes !! 1%nat = Some 2.
Hypothesis Hpos :
  forall b p, 1 <= b -> primes !! Z.to_nat b = Some p -> 0 < p.
Hypothesis Hodd :
  forall b p, 2 <= b -> primes !! Z.to_nat b = Some p -> p mod 2 = 1.
Hypothesis Hmono :
  forall b b' p p', 1 <= b <= b' -> primes !! Z.to_nat b = Some p ->
                    primes !! Z.to_nat b' = Some p' -> p <= p'.
Hypothesis Hle :
  forall b p, 1 <= b < a -> primes !! Z.to_nat b = Some p -> p <= x13.
Hypothesis Hlpf_le :
  forall m l, 2 <= m <= x13 -> lpf !! Z.to_nat m = Some l -> l <= m.

(** [primes[b]]. *)
Definition prime_of (b : Z) : Z := default 0 (primes !! Z.to_nat b).

(** The bounds of [m] that the code computes for the segment
    [[low, high)] and the prime [p]. *)
Definition max_m (low p : Z) : Z := Z.min (x / (low * p)) x13.
Definition min_m (high p : Z) : Z := Z.max (x / (high * p)) (x13 / p).

(** The leaves of the [(b+1)]-th prime whose [x / (m * p)] lies in
    [[low, high)], and those of all the primes from the [(b+1)]-th to
    the [(a-1)]-th. *)
Definition leaves_of (low high b : Z) : Z :=
  let p := prime_of (b + 1) in
  leaf_range p b (min_m high p) (max_m low p).

Definition special_sum (low high b : Z) : Z :=
  Zsum (map (leaves_of low high) (seqZ b (a - 1 - b))).

Lemma prime_of_Some b :
  0 <= b -> b + 1 < a ->
  exists p, primes !! Z.to_nat (b + 1) = Some p /\ prime_of (b + 1) = p /\ 0 < p.
Proof.
  intros Hb Hba.
  destruct (lookup_lt_is_Some_2 primes (Z.to_nat (b + 1)) ltac:(lia))
    as [p Hp].
  exists p. split_and!; [done|by unfold prime_of; rewrite Hp|].
  apply (Hpos (b + 1)); [lia|done].
Qed.

Lemma max_m_anti low low' p p' :
  1 <= low <= low' -> 0 < p <= p' -> max_m low' p' <= max_m low p.
Proof.
  intros Hl Hp. unfold max_m.
  assert (x / (low' * p') <= x / (low * p)).
  { apply Z.div_le_compat_l; [done|]. split.
    - apply Z.mul_pos_pos; lia.
    - apply Z.mul_le_mono_nonneg; lia. }
  lia.
Qed.

Lemma Zsum_zero {A} (f : A -> Z) l :
  (forall y, y ∈ l -> f y = 0) -> Zsum (map f l) = 0.
Proof.
  induction l as [|y l IH]; intros H; [done|].
  cbn [map Zsum foldr]. fold (Zsum (map f l)).
  rewrite (H y) by left. rewrite IH; [done|]. intros z Hz. apply H. by right.
Qed.

Lemma Zsum_plus {A} (f g : A -> Z) l :
  Zsum (map (fun y => f y + g y) l) = Zsum (map f l) + Zsum (map g l).
Proof.
  induction l as [|y l IH]; [done|].
  cbn [map Zsum foldr]. fold (Zsum (map f l)) (Zsum (map g l))
    (Zsum (map (fun y => f y + g y) l)). lia.
Qed.

Lemma Zsum_ext {A} (f g : A -> Z) l :
  (forall y, y ∈ l -> f y = g y) -> Zsum (map f l) = Zsum (map g l).
Proof.
  induction l as [|y l IH]; intros H; [done|].
  cbn [map Zsum foldr]. fold (Zsum (map f l)) (Zsum (map g l)).
  rewrite (H y) by left. rewrite IH; [done|]. intros z Hz. apply H. by right.
Qed.

(** Past the break no [m] is a leaf: [m < p] and [lpf[m] <= m]. *)
Lemma leaf_range_idle p b lo hi :
  1 <= lo -> hi <= x13 -> hi < p -> leaf_range p b lo hi = 0.
Proof.
  intros Hlo Hhi Hp. unfold leaf_range. apply Zsum_zero.
  intros m Hm. apply elem_of_seqZ in Hm.
  destruct (lookup_lt_is_Some_2 mu (Z.to_nat m) ltac:(lia)) as [mu_m Hmm].
  destruct (lookup_lt_is_Some_2 lpf (Z.to_nat m) ltac:(lia)) as [l Hl].
  rewrite (leaf_term_eq p b m mu_m l Hmm Hl).
  rewrite decide_False; [done|]. intros [_ Hpl].
  pose proof (Hlpf_le m l ltac:(lia) Hl). lia.
Qed.

Lemma leaf_range_split p b lo mid hi :
  lo <= mid <= hi ->
  leaf_range p b lo hi = leaf_range p b lo mid + leaf_range p b mid hi.
Proof.
  intros H. unfold leaf_range.
  replace (hi - lo) with ((mid - lo) + (hi - mid)) by lia.
  rewrite seqZ_app by lia. rewrite map_app, SieveProofs.Zsum_app.
  by replace (lo + 1 + (mid - lo)) with (mid + 1) by lia.
Qed.

(** The leaves of a segment have their [x / (m * p)] in the segment. *)
Lemma leaf_in_segment low high p m :
  1 <= low < high -> 0 < p -> min_m high p < m <= max_m low p ->
  low <= x / (m * p) < high.
Proof.
  intros Hlh Hp Hm. unfold min_m, max_m in Hm.
  assert (0 < low * p) as Hlp by (apply Z.mul_pos_pos; lia).
  assert (0 < high * p) as Hhp by (apply Z.mul_pos_pos; lia).
  assert (0 <= x / (high * p)) by (apply Z.div_pos; lia).
  assert (0 < m * p) as Hmp by (apply Z.mul_pos_pos; lia).
  split.
  - apply Z.div_le_lower_bound; [done|].
    pose proof (Z.mul_div_le x (low * p) Hlp) as H1.
    assert (low * p * m <= low * p * (x / (low * p))) as H2'
      by (apply Z.mul_le_mono_nonneg_l; lia).
    replace (m * p * low) with (low * p * m) by ring. lia.
  - apply Z.div_lt_upper_bound; [done|].
    pose proof (Z.mul_succ_div_gt x (high * p) Hhp) as H1.
    assert (high * p * Z.succ (x / (high * p)) <= high * p * m) as H2'
      by (apply Z.mul_le_mono_nonneg_l; lia).
    replace (m * p * high) with (high * p * m) by ring. lia.
Qed.

(** The segments [[low, mid)] and [[mid, high)] make up [[low, high)]. *)
Lemma leaf_range_glue p b low mid high :
  1 <= low <= mid -> mid <= high -> 0 < p ->
  leaf_range p b (min_m mid p) (max_m low p)
  + leaf_range p b (min_m high p) (max_m mid p)
  = leaf_range p b (min_m high p) (max_m low p).
Proof.
  intros Hlm Hmh Hp. unfold min_m, max_m.
  assert (x / (mid * p) <= x / (low * p)) as H1.
  { apply Z.div_le_compat_l; [done|]. split.
    - apply Z.mul_pos_pos; lia.
    - apply Z.mul_le_mono_nonneg_r; lia. }
  assert (x / (high * p) <= x / (mid * p)) as H3.
  { apply Z.div_le_compat_l; [done|]. split.
    - apply Z.mul_pos_pos; lia.
    - apply Z.mul_le_mono_nonneg_r; lia. }
  assert (x13 / p <= x13) as H4.
  { apply Z.div_le_upper_bound; [done|].
    assert (1 * x13 <= p * x13) by (apply Z.mul_le_mono_nonneg_r; lia).
    lia. }
  set (ql := x / (low * p)) in *. set (qm := x / (mid * p)) in *.
  set (qh := x / (high * p)) in *. set (F := x13 / p) in *.
  destruct (decide (x13 <= qm)) as [Hbig|Hbig].
  - rewrite (leaf_range_empty p b (Z.max qm F)) by lia.
    replace (Z.min ql x13) with x13 by lia.
    replace (Z.min qm x13) with x13 by lia. lia.
  - destruct (decide (qm < F)) as [Hsmall|Hsmall].
    + rewrite (leaf_range_empty p b (Z.max qh F) (Z.min qm x13)) by lia.
      replace (Z.max qm F) with F by lia.
      replace (Z.max qh F) with F by lia. lia.
    + replace (Z.max qm F) with qm by lia.
      replace (Z.min qm x13) with qm by lia.
      rewrite (leaf_range_split p b (Z.max qh F) qm (Z.min ql x13)) by lia.
      lia.
Qed.

Lemma special_sum_glue low mid high b :
  1 <= low <= mid -> mid <= high -> 0 <= b ->
  special_sum low mid b + special_sum mid high b = special_sum low high b.
Proof.
  intros Hlm Hmh Hb. unfold special_sum. rewrite <- Zsum_plus.
  apply Zsum_ext. intros b' Hb'. apply elem_of_seqZ in Hb'.
  destruct (prime_of_Some b') as (p & _ & Hp & Hp0); [lia|lia|].
  unfold leaves_of. rewrite Hp. by apply leaf_range_glue.
Qed.

Lemma special_sum_over low high b :
  1 <= high <= low -> 0 <= b -> special_sum low high b = 0.
Proof.
  intros Hhl Hb. unfold special_sum. apply Zsum_zero.
  intros b' Hb'. apply elem_of_seqZ in Hb'.
  destruct (prime_of_Some b') as (p & _ & Hp & Hp0); [lia|lia|].
  unfold leaves_of. rewrite Hp. apply leaf_range_empty.
  unfold min_m, max_m.
  assert (x / (low * p) <= x / (high * p)).
  { apply Z.div_le_compat_l; [done|]. split.
    - apply Z.mul_pos_pos; lia.
    - apply Z.mul_le_mono_nonneg_r; lia. }
  lia.
Qed.

Lemma special_sum_first low high b :
  b + 1 < a ->
  special_sum low high b = leaves_of low high b + special_sum low high (b + 1).
Proof.
  intros Hb. unfold special_sum. rewrite seqZ_cons by lia.
  cbn [map Zsum foldr].
  by replace (Z.pred (a - 1 - b)) with (a - 1 - (b + 1)) by lia.
Qed.

Lemma special_sum_none low high b : a <= b + 1 -> special_sum low high b = 0.
Proof. intros Hb. unfold special_sum. by rewrite seqZ_nil by lia. Qed.

Lemma leaves_of_eq low high b p :
  prime_of (b + 1) = p ->
  leaves_of low high b = leaf_range p b (min_m high p) (max_m low p).
Proof. by intros <-. Qed.

(** What the vectors hold for the primes from the [(lo+1)]-th to the
    [hi]-th when every number below [bound] is sieved and counted. *)
Definition ready (bound lo hi : Z) (nx ph : list Z) : Prop :=
  forall b p,
    lo <= b < hi -> b + 1 < a -> primes !! Z.to_nat (b + 1) = Some p ->
    (exists k, nx !! Z.to_nat (b + 1) = Some k /\ pointer bound p (2 * p) k) /\
    ph !! Z.to_nat (b + 1) = Some (phi_of primes (bound - 1) b).

(** From the [(B+1)]-th prime on the loop has left for good. *)
Definition idle (low B : Z) : Prop :=
  forall b p,
    c <= b -> B <= b -> b + 1 < a -> primes !! Z.to_nat (b + 1) = Some p ->
    max_m low p < p.

Lemma idle_later low high B : 1 <= low <= high -> idle low B -> idle high B.
Proof.
  intros Hlh Hidle b p Hcb HB Hba Hp.
  assert (0 < p) by (apply (Hpos (b + 1)); [lia|done]).
  pose proof (max_m_anti low high p p Hlh ltac:(lia)).
  specialize (Hidle b p Hcb HB Hba Hp). lia.
Qed.

Lemma special_sum_idle low high b :
  c <= b -> idle low b -> special_sum low high b = 0.
Proof.
  intros Hb Hidle. unfold special_sum. apply Zsum_zero.
  intros b' Hb'. apply elem_of_seqZ in Hb'.
  destruct (prime_of_Some b') as (p & Hp & Hpo & Hp0); [lia|lia|].
  rewrite (leaves_of_eq low high b' p Hpo).
  pose proof (Hle (b' + 1) p ltac:(lia) Hp) as Hpx.
  apply leaf_range_idle.
  - unfold min_m.
    assert (1 <= x13 / p) by (apply Z.div_le_lower_bound; lia). lia.
  - unfold max_m. lia.
  - apply (Hidle b' p); [lia|lia|lia|done].
Qed.

Lemma special_spec fuel budget low high B :
  1 <= low < high -> high - low <= Z.of_nat budget ->
  x13 <= Z.of_nat budget -> idle low B ->
  forall b st,
    c <= b -> a - 1 - b <= Z.of_nat fuel ->
    high - low <= Z.of_nat (length (sieve st)) ->
    sieved primes low high b (sieve st) ->
    length (next st) = length primes -> length (phi st) = length primes ->
    ready low b B (next st) (phi st) ->
    ready high c b (next st) (phi st) ->
    exists st' B',
      special fuel budget x x13 a primes mu lpf low high b st = Done st' /\
      c <= B' /\
      length (sieve st') = length (sieve st) /\
      length (next st') = length primes /\
      length (phi st') = length primes /\
      ready high c B' (next st') (phi st') /\ idle high B' /\
      S2_result st' = S2_result st - special_sum low high b /\
      forall j : nat, Z.of_nat j <= c -> next st' !! j = next st !! j.
Proof.
  intros Hlh Hbudget Hx13b Hidle.
  induction fuel as [|fuel IH];
    intros b st Hcb Hfuel Hlen Hsv Hnx Hph Hrl Hrh.
  - cbn [special]. rewrite decide_False by lia.
    exists st, b. rewrite special_sum_none by lia.
    split_and!; [done|done|done|done|done|done| |lia|done].
    intros b' p' ? ? ?. lia.
  - cbn [special]. case_decide as Hba.
    2:{ exists st, b. rewrite special_sum_none by lia.
        split_and!; [done|done|done|done|done|done| |lia|done].
        intros b' p' ? ? ?. lia. }
    destruct (prime_of_Some b) as (p & Hp & Hpo & Hp0); [lia|done|].
    rewrite (read_Done primes (b + 1) p ltac:(lia) Hp).
    cbn [mbind outcome_bind].
    assert (0 < low * p) as Hlp by (apply Z.mul_pos_pos; lia).
    assert (0 < high * p) as Hhp by (apply Z.mul_pos_pos; lia).
    rewrite (FoldProofs.idiv_Done x (low * p)) by done.
    cbn [mbind outcome_bind].
    rewrite (FoldProofs.idiv_Done x (high * p)) by done.
    cbn [mbind outcome_bind].
    rewrite (FoldProofs.idiv_Done x13 p) by lia.
    cbn [mbind outcome_bind].
    fold (max_m low p) (min_m high p).
    destruct (decide (p > max_m low p)) as [Hbreak|Hgo].
    + assert (idle low b) as Hidle_b.
      { intros b' p' _ Hb' Hb'a Hp'.
        pose proof (Hmono (b + 1) (b' + 1) p p' ltac:(lia) Hp Hp') as Hpp.
        pose proof (max_m_anti low low p p' ltac:(lia) ltac:(lia)). lia. }
      exists st, b. rewrite (special_sum_idle low high b) by (lia || done).
      split_and!; [done|done|done|done|done|done| |lia|done].
      apply (idle_later low high); [lia|done].
    + assert (b < B) as HbB.
      { destruct (decide (b < B)) as [|Hge]; [done|].
        specialize (Hidle b p Hcb ltac:(lia) Hba Hp). lia. }
      destruct (Hrl b p ltac:(lia) Hba Hp) as [(k & Hk & Hkp) Hphb].
      pose proof (Hle (b + 1) p ltac:(lia) Hp) as Hpx.
      assert (0 <= x13 / p) by (apply Z.div_pos; lia).
      assert (0 <= x / (high * p)) by (apply Z.div_pos; lia).
      destruct (leaves_spec budget budget (sieve st) (phi st) low high b p
                  (min_m high p) (max_m low p) low (S2_result st))
        as (ph1 & i1 & -> & Hi1 & Hlen1 & Hph1 & Hframe1);
        [done|lia|lia|done|lia|unfold min_m; lia|unfold max_m; lia| |
         |done|unfold min_m, max_m; lia|done|].
      { intros m' Hm'. apply leaf_in_segment; [lia|done|done]. }
      { intros Hm'.
        destruct (leaf_in_segment low high p (max_m low p)); [lia|done|lia|lia]. }
      cbn [mbind outcome_bind].
      destruct (count_to_spec primes budget (sieve st) ph1 low high b (b + 1)
                  i1 (high - 1) (phi_of primes (i1 - 1) b))
        as (ph2 & -> & Hlen2 & Hph2 & Hframe2);
        [done|lia|lia|lia|lia|lia|done|].
      cbn [mbind outcome_bind].
      replace (phi_of primes (i1 - 1) b + phi_of primes (high - 1) b
               - phi_of primes (i1 - 1) b)
        with (phi_of primes (high - 1) b) in Hph2 by lia.
      rewrite (read_Done (next st) (b + 1) k ltac:(lia) Hk).
      cbn [mbind outcome_bind].
      replace (p * 2) with (2 * p) by lia.
      pose proof Hkp as (_ & _ & Hlk & _).
      destruct (cross_off_spec budget (sieve st) low high k (2 * p))
        as (sv' & k' & -> & Hlen' & Hhk & Hkk & Hmod & Hmin & Hsv');
        [lia|done|done|lia|].
      cbn [mbind outcome_bind].
      rewrite write_Done by lia. cbn [mbind outcome_bind].
      destruct (IH (b + 1)
                  (mkState sv' (<[Z.to_nat (b + 1) := k']> (next st)) ph2
                     (S2_result st
                      - leaf_range p b (min_m high p) (max_m low p))))
        as (st' & B' & -> & HB' & Hl1 & Hl2 & Hl3 & Hready & Hidle' & HS
            & Hframe);
        cbn [sieve next phi S2_result].
      * lia.
      * lia.
      * lia.
      * intros j Hj. rewrite Hsv', (Hsv j Hj).
        replace (low + Z.of_nat j <? high) with true
          by (symmetry; apply Z.ltb_lt; lia).
        cbn [andb].
        rewrite (coprime_succ primes b _ p) by (lia || done).
        destruct (decide ((low + Z.of_nat j) mod 2 = 0)) as [Hev|Hev].
        -- rewrite (coprime_even primes b) by (lia || done).
           by destruct (crossed _ _ _).
        -- pose proof (Z.mod_pos_bound (low + Z.of_nat j) 2 ltac:(lia)).
           rewrite (pointer_odd_multiples low p k)
             by (done || lia || (apply (Hodd (b + 1)); [lia|done])).
           by destruct (coprime primes b _),
                (Z.eqb_spec ((low + Z.of_nat j) mod p) 0).
      * by rewrite length_insert.
      * lia.
      * intros b' p' Hb' Hb'a Hp'.
        rewrite list_lookup_insert_ne by lia.
        rewrite Hframe2, Hframe1 by lia.
        apply Hrl; [lia|done|done].
      * intros b' p' Hb' Hb'a Hp'.
        destruct (decide (b' = b)) as [->|Hne].
        -- rewrite list_lookup_insert_eq by lia.
           rewrite Hp in Hp'. injection Hp' as <-.
           split; [|done]. exists k'. split; [done|].
           apply (pointer_moves low high p (2 * p) k k'); (done || lia).
        -- rewrite list_lookup_insert_ne by lia.
           rewrite Hframe2, Hframe1 by lia.
           apply Hrh; [lia|done|done].
      * exists st', B'. cbn [sieve next phi S2_result] in Hl1, HS, Hframe.
        rewrite (special_sum_first low high b Hba),
          (leaves_of_eq low high b p Hpo).
        split_and!; [done|done|lia|done|lia|done|done|lia|].
        intros j Hj. rewrite Hframe by done.
        apply list_lookup_insert_ne. lia.
Qed.

(** ** The segments *)

Lemma segments_over fuel budget limit seg low st :
  limit <= low ->
  segments fuel budget x x13 a c primes mu lpf limit seg low st = Done st.
Proof.
  intros H. destruct fuel; cbn [segments]; by rewrite decide_False by lia.
Qed.

(** The pointers of the first [c] primes. *)
Definition presieved (bound : Z) (nx : list Z) : Prop :=
  forall b p,
    1 <= b <= c -> primes !! Z.to_nat b = Some p ->
    exists k, nx !! Z.to_nat b = Some k /\ pointer bound p p k.

Lemma segments_spec fuel budget limit seg :
  1 <= limit -> 1 <= seg -> seg <= Z.of_nat budget ->
  x13 <= Z.of_nat budget -> a <= Z.of_nat budget ->
  forall low st B,
    1 <= low -> limit - low <= Z.of_nat fuel ->
    length (sieve st) = Z.to_nat seg ->
    length (next st) = length primes -> length (phi st) = length primes ->
    ready low c B (next st) (phi st) -> idle low B ->
    presieved low (next st) ->
    exists st',
      segments fuel budget x x13 a c primes mu lpf limit seg low st
      = Done st' /\
      S2_result st' = S2_result st - special_sum low limit c.
Proof.
  intros Hlimit Hseg Hsegb Hx13b Hab.
  induction fuel as [|fuel IH];
    intros low st B Hlow Hfuel Hsv Hnx Hph Hready Hidle Hpre.
  { rewrite segments_over by lia. exists st.
    rewrite special_sum_over by lia. split; [done|lia]. }
  destruct (decide (low < limit)) as [Hlt|Hge].
  2:{ rewrite segments_over by lia. exists st.
      rewrite special_sum_over by lia. split; [done|lia]. }
  cbn [segments]. rewrite decide_True by done.
  remember (Z.min (low + seg) limit) as high eqn:Hhigh.
  assert (low < high <= limit /\ high <= low + seg) as Hbounds by lia.
  replace (seqZ 1 c) with (seqZ 1 (Z.of_nat (Z.to_nat c))) by (f_equal; lia).
  destruct (presieve_spec primes budget low high (Z.to_nat c) 1
              (replicate (length (sieve st)) 1) (next st))
    as (sv1 & nx1 & -> & Hlen1 & Hnx1 & Hsv1 & Hptr1 & Hframe1).
  { lia. }
  { rewrite length_replicate. lia. }
  { lia. }
  { lia. }
  { lia. }
  { done. }
  { change (1 - 1) with 0. apply sieved_fresh. lia. }
  { intros b p Hb Hp. split; [apply (Hpos b); [lia|done]|].
    apply Hpre; [lia|done]. }
  cbn [mbind outcome_bind].
  replace (1 - 1 + Z.of_nat (Z.to_nat c)) with c in Hsv1 by lia.
  rewrite length_replicate in Hlen1.
  destruct (special_spec budget budget low high B ltac:(lia) ltac:(lia)
              Hx13b Hidle c (mkState sv1 nx1 (phi st) (S2_result st)))
    as (st1 & B1 & -> & HB1 & Hl1 & Hl2 & Hl3 & Hready1 & Hidle1 & HS1
        & Hframe);
    cbn [sieve next phi S2_result] in *.
  { lia. }
  { lia. }
  { lia. }
  { done. }
  { done. }
  { done. }
  { intros b p Hb Hba Hp. rewrite Hframe1 by lia. by apply Hready. }
  { intros b p Hb. lia. }
  cbn [mbind outcome_bind].
  assert (presieved high (next st1)) as Hpre1.
  { intros b p Hb Hp. rewrite Hframe by lia. apply Hptr1; [lia|done]. }
  destruct (decide (low + seg < limit)) as [Hmore|Hlast].
  - assert (high = low + seg) as Hh by lia. rewrite Hh in *.
    destruct (IH (low + seg) st1 B1)
      as (st' & -> & HS'); [lia|lia|lia|done|done|done|done|done|].
    exists st'. split; [done|].
    rewrite HS', HS1.
    rewrite <- (special_sum_glue low (low + seg) limit c) by lia. lia.
  - assert (high = limit) as Hh by lia. rewrite Hh in *.
    rewrite segments_over by lia. exists st1. split; [done|lia].
Qed.

(** ** The result of [S2] *)

Lemma S2_spec budget x23 :
  0 <= x23 ->
  Z.max (x23 + 11) (Z.max x13 a) <= Z.of_nat budget ->
  S2 budget x x13 x23 a c primes lpf mu
  = Done (- special_sum 1 (x23 + 1) c).
Proof.
  intros Hx23 Hbudget. unfold S2.
  rewrite FoldProofs.idiv_Done by lia. cbn [mbind outcome_bind].
  assert ((x23 + 1) / x13 <= x23 + 1) as Hq.
  { apply Z.div_le_upper_bound; [lia|].
    assert (1 * (x23 + 1) <= x13 * (x23 + 1))
      by (apply Z.mul_le_mono_nonneg_r; lia).
    lia. }
  destruct (segments_spec budget budget (x23 + 1)
              (Z.max 10 ((x23 + 1) / x13)) ltac:(lia) ltac:(lia) ltac:(lia)
              ltac:(lia) ltac:(lia) 1
              (mkState (replicate (Z.to_nat (Z.max 10 ((x23 + 1) / x13))) 0)
                 primes (replicate (length primes) 0) 0)
              (Z.max c (a - 1)))
    as (st' & -> & HS); cbn [sieve next phi S2_result].
  - lia.
  - lia.
  - by rewrite length_replicate.
  - done.
  - by rewrite length_replicate.
  - intros b p Hb Hba Hp.
    assert (0 < p) by (apply (Hpos (b + 1)); [lia|done]).
    split.
    + exists p. split; [done|]. unfold pointer.
      rewrite Z.sub_diag, Z.mod_0_l by lia. split_and!; [done|lia|lia|by right].
    + rewrite lookup_replicate_2 by lia. done.
  - intros b p Hcb Hb Hba Hp. lia.
  - intros b p Hb Hp.
    assert (0 < p) by (apply (Hpos b); [lia|done]).
    exists p. split; [done|]. unfold pointer.
    rewrite Z.sub_diag, Z.mod_0_l by lia. split_and!; [done|lia|lia|by right].
  - cbn [mbind outcome_bind]. cbn [S2_result] in HS. f_equal. lia.
Qed.

End Special.

(** X21. [S2] of the simple LMO implementation returns the contribution
    of the special leaves: minus the sum, over the primes
    [p = primes[b + 1]] with [c <= b < a - 1] and over the [m] with
    [max (x / ((x23 + 1) * p)) (x13 / p) < m <= min (x / p) x13],
    [mu[m] <> 0] and [p < lpf[m]], of [mu[m] * phi(x / (m * p), b)],
    where [phi(y, b)] counts the numbers of [[1, y]] that none of
    [primes[1]], ..., [primes[b]] divides.  The segments, the pointers
    kept in [next] and the running counts kept in [phi] do not show in
    the result, and no access leaves a vector.  The table of primes
    starts with 2 at index 1, goes on with odd numbers, does not
    decrease, and stays within [x13] before index [a]; [lpf[m] <= m]
    from 2 on; the budget covers [x23 + 11], [x13] and [a]. *)
Theorem S2_special_leaves budget x x13 x23 a c primes lpf mu :
  0 <= x -> 1 <= x13 -> 0 <= x23 -> 1 <= c ->
  c < Z.of_nat (length primes) -> a <= Z.of_nat (length primes) ->
  x13 < Z.of_nat (length mu) -> x13 < Z.of_nat (length lpf) ->
  primes !! 1%nat = Some 2 ->
  (forall b p, 2 <= b -> primes !! Z.to_nat b = Some p -> p mod 2 = 1) ->
  (forall b b' p p', 1 <= b <= b' -> primes !! Z.to_nat b = Some p ->
                     primes !! Z.to_nat b' = Some p' -> p <= p') ->
  (forall b p, 1 <= b < a -> primes !! Z.to_nat b = Some p -> p <= x13) ->
  (forall m l, 2 <= m <= x13 -> lpf !! Z.to_nat m = Some l -> l <= m) ->
  Z.max (x23 + 11) (Z.max x13 a) <= Z.of_nat budget ->
  S2 budget x x13 x23 a c primes lpf mu
  = Done (- special_sum x x13 primes mu lpf a 1 (x23 + 1) c).
Proof.
  intros Hx Hx13 Hx23 Hc Hcp Ha Hmu Hlpf H2 Hodd Hmono Hle Hlpf_le Hbudget.
  apply S2_spec; try done.
  intros b p Hb Hp.
  pose proof (Hmono 1 b 2 p ltac:(lia) H2 Hp). lia.
Qed.

(** The tables of [pi_lmo3(1000)]: the first eight primes after a 0,
    and the Moebius function and the least prime factors up to 21. *)
Definition primes_21 : list Z := [0; 2; 3; 5; 7; 11; 13; 17; 19].
Definition mu_21 : list Z :=
  [0; 1; -1; -1; 0; -1; 1; -1; 0; 0; 1; -1; 0; -1; 1; 1; 0; -1; 0; -1; 0; 1].
Definition lpf_21 : list Z :=
  [2147483647; 2147483647; 2; 3; 2; 5; 2; 7; 2; 3; 2; 11; 2; 13; 2; 3; 2;
   17; 2; 19; 2; 3].

(** Goes through the entries of a table given in full. *)
Ltac entry H n :=
  destruct n as [|n];
  [cbn in H; first [lia | injection H as <-; first [lia | reflexivity]]|].

Lemma S2_special_leaves_witness :
  S2 200 1000 21 60 8 2 primes_21 lpf_21 mu_21
  = Done (- special_sum 1000 21 primes_21 mu_21 lpf_21 8 1 (60 + 1) 2) /\
  special_sum 1000 21 primes_21 mu_21 lpf_21 8 1 (60 + 1) 2 = -42.
Proof.
  split; [|vm_compute; reflexivity].
  apply (S2_special_leaves 200 1000 21 60 8 2 primes_21 lpf_21 mu_21).
  - lia.
  - lia.
  - lia.
  - lia.
  - vm_compute. reflexivity.
  - vm_compute. discriminate.
  - vm_compute. reflexivity.
  - vm_compute. reflexivity.
  - reflexivity.
  - intros b p Hb Hp. remember (Z.to_nat b) as n eqn:E.
    unfold primes_21 in Hp. do 9 (entry Hp n). cbn in Hp. discriminate.
  - intros b b' p p' Hb Hp Hp'.
    remember (Z.to_nat b) as n eqn:E. remember (Z.to_nat b') as n' eqn:E'.
    unfold primes_21 in Hp, Hp'.
    do 9 (destruct n as [|n];
          [cbn in Hp; injection Hp as <-; do 9 (entry Hp' n');
           cbn in Hp'; discriminate|]).
    cbn in Hp. discriminate.
  - intros b p Hb Hp. remember (Z.to_nat b) as n eqn:E.
    unfold primes_21 in Hp. do 9 (entry Hp n). cbn in Hp. discriminate.
  - intros m l Hm Hl. remember (Z.to_nat m) as n eqn:E.
    unfold lpf_21 in Hl. do 22 (entry Hl n). cbn in Hl. discriminate.
  - vm_compute. discriminate.
Defined.

End LMO3Proofs.
